(** * LocalDocs: the indexing pipeline and retrieval path of [database.cpp]

    A shallow embedding of the chunker, the document scan queue, the
    embedding hand-over, folder removal and retrieval of
    [gpt4all-chat/database.cpp], with the properties of the LocalDocs
    specification stated and settled against it.

    Conventions.
    - A [QString] is a list of characters; a text file is read as
      single-byte text, one character per byte, so stream positions and
      character counts coincide.
    - C++ [int], [qint64] and [size_t] values are modelled by [Z]; the
      counters of the source stay far below their wrap-around for inputs
      that fit in memory.
    - A well-formed SQL statement prepares and executes; statements fail
      only for reasons visible in the data (no row returned, a uniqueness
      conflict) or in the schema (a column that does not exist). *)

From Stdlib Require Import ZArith Lia List Ascii String Bool.
From stdpp Require Import base decidable list gmap strings.
Import ListNotations.
Local Open Scope Z_scope.

(* ===================================================================== *)
(** * Part I: definitions *)
(* ===================================================================== *)

(** ** Characters and strings *)

Definition QString := list ascii.

Definition qstr (s : string) : QString := list_ascii_of_string s.

Definition code (c : ascii) : Z := Z.of_N (N_of_ascii c).

(** [QChar::isSpace] on the single-byte range: U+0020, U+0009..U+000D,
    U+0085 and U+00A0. *)
Definition isSpace (c : ascii) : bool :=
  let u := code c in
  (u =? 32) || ((u <=? 13) && (9 <=? u)) || ((127 <? u) && ((u =? 133) || (u =? 160))).

(** [QList<QString>::join(sep)]. *)
Fixpoint join (sep : QString) (ws : list QString) : QString :=
  match ws with
  | [] => []
  | [w] => w
  | w :: rest => w ++ sep ++ join sep rest
  end.

(** ** [QTextStream]

    The stream is seen through what the chunker uses of it: the characters
    the device still delivers from the current position, how the device
    ends after them (end of data, or a read that fails), the position and
    the sticky status. *)

Inductive DeviceEnd := EndOfData | ReadFailure.

Inductive Status := Ok | ReadPastEnd.

Record QTextStream := mkStream {
  unread : QString;
  ending : DeviceEnd;
  pos    : Z;
  status : Status
}.

Definition status_set (s : QTextStream) : bool :=
  match status s with Ok => false | ReadPastEnd => true end.

Definition atEnd (s : QTextStream) : bool :=
  match unread s, ending s with
  | [], EndOfData => true
  | _, _ => false
  end.

(** The two scans of [QTextStream::operator>>(QString &)]: first past the
    leading white space, then up to the next white space, which is left
    unread. *)
Fixpoint skipSpace (l : QString) : QString :=
  match l with
  | c :: r => if isSpace c then skipSpace r else l
  | [] => []
  end.

Fixpoint scanToken (l : QString) : QString * QString :=
  match l with
  | c :: r =>
      if isSpace c then ([], l)
      else let '(w, r') := scanToken r in (c :: w, r')
  | [] => ([], [])
  end.

(** [stream >> word]: a stream that has nothing left but white space gives
    the empty word and sets [ReadPastEnd]. *)
Definition readWord (s : QTextStream) : QString * QTextStream :=
  let rest := skipSpace (unread s) in
  let skipped := Z.of_nat (length (unread s)) - Z.of_nat (length rest) in
  let '(word, rest') := scanToken rest in
  match word with
  | [] =>
      ([], {| unread := rest; ending := ending s; pos := pos s + skipped;
              status := ReadPastEnd |})
  | _ :: _ =>
      (word, {| unread := rest'; ending := ending s;
                pos := pos s + skipped + Z.of_nat (length word);
                status := status s |})
  end.

(** A stream over a text held in memory ([QTextStream(&text)]), or over a
    file that reads cleanly, positioned at [p]. *)
Definition streamAt (text : QString) (p : Z) : QTextStream :=
  {| unread := skipn (Z.to_nat p) text; ending := EndOfData; pos := p; status := Ok |}.

(** ** The chunking loop of [Database::chunkStream]

    The loop is written once, over any state [St] and any action
    [flushChunk] taken for a completed chunk; [Database::chunkStream]
    below instantiates it with the insertion into the chunk table and the
    hand-over to the embedding queue. *)

Record ChunkResult (St : Type) := mkChunkResult {
  ret         : Z;      (* [stream.pos()], or -1 *)
  nchunks     : Z;      (* [chunks] *)
  nwords      : Z;      (* [addedWords] *)
  final_state : St
}.
Arguments mkChunkResult {St} _ _ _ _.
Arguments ret {St} _.
Arguments nchunks {St} _.
Arguments nwords {St} _.
Arguments final_state {St} _.

Section ChunkLoop.
Context {St : Type}.
Variable m_chunkSize : Z.
Variable flushChunk : list QString -> St -> St.
Variable maxChunks : Z.

Fixpoint chunkLoop (fuel : nat) (stream : QTextStream)
    (words : list QString) (charCount chunks addedWords : Z) (st : St)
    : option (ChunkResult St) :=
  match fuel with
  | O => None
  | S fuel' =>
      let '(word, stream) := readWord stream in
      if status_set stream && negb (atEnd stream) then
        Some (mkChunkResult (-1) chunks addedWords st)
      else
        let charCount := charCount + Z.of_nat (length word) in
        let words := match word with [] => words | _ => words ++ [word] end in
        if status_set stream
           || (m_chunkSize <=? charCount + Z.of_nat (length words) - 1) then
          let '(words, charCount, chunks, addedWords, st) :=
            match words with
            | [] => (words, charCount, chunks, addedWords, st)
            | _ :: _ =>
                ([], 0, chunks + 1, addedWords + Z.of_nat (length words),
                 flushChunk words st)
            end in
          if status_set stream || ((0 <? maxChunks) && (chunks =? maxChunks)) then
            Some (mkChunkResult (pos stream) chunks addedWords st)
          else chunkLoop fuel' stream words charCount chunks addedWords st
        else chunkLoop fuel' stream words charCount chunks addedWords st
  end.

(** Every turn of the loop that goes on has consumed a character, so one
    more turn than there are unread characters is enough. *)
Definition chunkRun (stream : QTextStream) (st : St) : option (ChunkResult St) :=
  chunkLoop (S (length (unread stream))) stream [] 0 0 0 st.
End ChunkLoop.

(** The chunks of a run, as the word lists that were flushed, in order. *)
Definition collect (ws : list QString) (acc : list (list QString)) : list (list QString) :=
  acc ++ [ws].

Definition chunkWords (chunkSize maxChunks : Z) (stream : QTextStream)
  : option (ChunkResult (list (list QString))) :=
  chunkRun chunkSize collect maxChunks stream [].

(** The quantity the closing rule of the loop compares with the budget:
    the characters of the words plus one separator between neighbours. *)
Definition charsOf (ws : list QString) : Z :=
  fold_right (fun w n => Z.of_nat (length w) + n) 0 ws.

Definition extent (ws : list QString) : Z :=
  charsOf ws + Z.of_nat (length ws) - 1.

(** The budget rule as the specification words it: the chunk fits the
    budget, or it is a single word. *)
Definition within_budget (budget : Z) (chunk : list QString) : Prop :=
  extent chunk <= budget \/ length chunk = 1%nat.

(** The budget rule the loop keeps: the chunk is closed by the first word
    with which it reaches the budget, so it is what comes before its last
    word that stays below the budget. *)
Definition closes_on_budget (budget : Z) (chunk : list QString) : Prop :=
  chunk <> [] /\ (length chunk = 1%nat \/ extent (removelast chunk) < budget).

(** The action of a run on the state, replayed from its chunks. *)
Definition replay {St} (F : list QString -> St -> St)
    (chunks : list (list QString)) (st : St) : St :=
  fold_left (fun st ws => F ws st) chunks st.

(** A stream over [text] that stands where its position says. *)
Definition positioned (text : QString) (s : QTextStream) : Prop :=
  unread s = skipn (Z.to_nat (pos s)) text /\ 0 <= pos s /\ ending s = EndOfData.

(** What a caller sees of a run: the return value and the state. *)
Definition view {St} (r : ChunkResult St) : Z * St := (ret r, final_state r).

(** ** [BinaryDetectingFile]

    The underlying [QFile] is its contents and whether the operating
    system fails its reads; [QFile::readData] gives the next bytes from an
    offset, -1 on a failed read. *)

Record QFile := mkQFile {
  contents : list ascii;
  io_error : bool
}.

Definition QFile_readData (f : QFile) (offset maxSize : nat) : list ascii * Z :=
  if io_error f then ([], -1)
  else let data := firstn maxSize (skipn offset (contents f)) in
       (data, Z.of_nat (length data)).

(** The control characters that never occur in plain text:
    0x00 NUL - 0x06 ACK, 0x0E SO - 0x1A SUB, 0x1C FS - 0x1F US. *)
Definition controlByte (b : ascii) : bool :=
  let c := code b in
  (c <? 7) || ((14 <=? c) && (c <? 27)) || ((28 <=? c) && (c <? 32)).

(** [checkData]: the flag [m_binarySeen] is passed in and returned. *)
Definition checkData (m_binarySeen : bool) (data : list ascii) (size : Z) : Z * bool :=
  let m_binarySeen :=
    if negb (size =? -1) && negb m_binarySeen
    then existsb controlByte (firstn (Z.to_nat size) data)
    else m_binarySeen in
  (if m_binarySeen then -1 else size, m_binarySeen).

Definition readData (f : QFile) (m_binarySeen : bool) (offset maxSize : nat)
  : list ascii * Z * bool :=
  let '(data, res) := QFile_readData f offset maxSize in
  let '(res, seen) := checkData m_binarySeen data res in
  (data, res, seen).

(** [QTextStream] fills its read buffer from the device in blocks of
    [blockSize] bytes until a read gives nothing.  The blocks a stream
    will receive from [offset] on are determined by the file, so the
    model reads them ahead: the text delivered, how the device ends, and
    the flag of the file once the failing read has been made. *)
Fixpoint fillReadBuffer (fuel blockSize : nat) (f : QFile) (offset : nat) (seen : bool)
  : QString * DeviceEnd * bool :=
  match fuel with
  | O => ([], EndOfData, seen)
  | S fuel' =>
      if (length (contents f) <=? offset)%nat then ([], EndOfData, seen)
      else
        let '(data, res, seen) := readData f seen offset blockSize in
        if res <? 0 then ([], ReadFailure, seen)
        else if res =? 0 then ([], EndOfData, seen)
        else
          let '(text, e, seen) :=
            fillReadBuffer fuel' blockSize f (offset + Z.to_nat res) seen in
          (data ++ text, e, seen)
  end.

(** The stream [scanQueue] builds over a freshly opened file: at a
    non-zero [byteIndex] it first reads one character at the start of the
    file (for the byte-order mark), which reads the first block, and then
    seeks. *)
Definition openStream (blockSize : nat) (f : QFile) (byteIndex : Z)
  : QTextStream * bool :=
  let seen :=
    if byteIndex =? 0 then false
    else snd (readData f false 0 blockSize) in
  let '(text, e, seen) :=
    fillReadBuffer (S (length (contents f))) blockSize f (Z.to_nat byteIndex) seen in
  ({| unread := text; ending := e; pos := byteIndex; status := Ok |}, seen).

(** [QTEXTSTREAM_BUFFERSIZE] of Qt. *)
Definition QTEXTSTREAM_BUFFERSIZE : nat := Z.to_nat 16384.

(** ** The relational store

    One record per table of [INIT_DB_SQL], with the columns of the table.
    [chunks.id] is [autoincrement]: its ids are never used again, which
    SQLite keeps track of in [sqlite_sequence] ([chunks_seq]). *)

Record ChunkRow := mkChunkRow {
  chunk_id       : Z;
  chunk_document : Z;          (* document_id *)
  chunk_text     : QString;
  chunk_file     : string;
  chunk_title    : string;
  chunk_author   : string;
  chunk_subject  : string;
  chunk_keywords : string;
  chunk_page     : Z;
  chunk_line_from : Z;
  chunk_line_to  : Z;
  chunk_words    : Z;
  chunk_tokens   : Z;
  has_embedding  : bool
}.

Record CollectionRow := mkCollectionRow {
  collection_id    : Z;
  collection_name  : string;
  last_update_time : option Z;
  embedding_model  : option string
}.

Record FolderRow := mkFolderRow {
  folder_id   : Z;
  folder_path : string
}.

Record CollectionItemRow := mkCollectionItemRow {
  item_collection : Z;         (* collection_id *)
  item_folder     : Z          (* folder_id *)
}.

Record DocumentRow := mkDocumentRow {
  document_id     : Z;
  document_folder : Z;         (* folder_id *)
  document_time   : Z;
  document_path   : string
}.

Record Tables := mkTables {
  chunks           : list ChunkRow;
  chunks_seq       : Z;
  collections      : list CollectionRow;
  folders          : list FolderRow;
  collection_items : list CollectionItemRow;
  documents        : list DocumentRow
}.

Definition set_chunks (t : Tables) (cs : list ChunkRow) (seq : Z) : Tables :=
  mkTables cs seq (collections t) (folders t) (collection_items t) (documents t).
Definition set_collections (t : Tables) (v : list CollectionRow) : Tables :=
  mkTables (chunks t) (chunks_seq t) v (folders t) (collection_items t) (documents t).
Definition set_folders (t : Tables) (v : list FolderRow) : Tables :=
  mkTables (chunks t) (chunks_seq t) (collections t) v (collection_items t) (documents t).
Definition set_collection_items (t : Tables) (v : list CollectionItemRow) : Tables :=
  mkTables (chunks t) (chunks_seq t) (collections t) (folders t) v (documents t).
Definition set_documents (t : Tables) (v : list DocumentRow) : Tables :=
  mkTables (chunks t) (chunks_seq t) (collections t) (folders t) (collection_items t) v.

Definition max_id {A} (key : A -> Z) (rows : list A) : Z :=
  fold_right (fun r m => Z.max (key r) m) 0 rows.

(** The bound values of [INSERT_CHUNK_SQL]. *)
Record ChunkValues := mkChunkValues {
  v_document : Z;
  v_text     : QString;
  v_file     : string;
  v_title    : string;
  v_author   : string;
  v_subject  : string;
  v_keywords : string;
  v_page     : Z;
  v_from     : Z;
  v_to       : Z;
  v_words    : Z
}.

Definition next_chunk_id (t : Tables) : Z :=
  Z.max (chunks_seq t) (max_id chunk_id (chunks t)) + 1.

(** [INSERT_CHUNK_SQL]; [tokens] and [has_embedding] take their default 0. *)
Definition sql_insert_chunk (v : ChunkValues) (t : Tables) : Tables :=
  let id := next_chunk_id t in
  set_chunks t
    (chunks t ++
     [mkChunkRow id (v_document v) (v_text v) (v_file v) (v_title v) (v_author v)
        (v_subject v) (v_keywords v) (v_page v) (v_from v) (v_to v) (v_words v) 0 false])
    id.

(** [DELETE_CHUNKS_SQL] *)
Definition sql_delete_chunks (doc : Z) (t : Tables) : Tables :=
  set_chunks t (filter (fun c => chunk_document c <> doc) (chunks t)) (chunks_seq t).

(** [SELECT_CHUNKS_BY_DOCUMENT_SQL] *)
Definition sql_select_chunks_by_document (doc : Z) (t : Tables) : list Z :=
  map chunk_id (filter (fun c => chunk_document c = doc) (chunks t)).

(** [UPDATE_CHUNK_HAS_EMBEDDING_SQL] *)
Definition mark_embedded (id : Z) (c : ChunkRow) : ChunkRow :=
  if decide (chunk_id c = id) then
    mkChunkRow (chunk_id c) (chunk_document c) (chunk_text c) (chunk_file c)
      (chunk_title c) (chunk_author c) (chunk_subject c) (chunk_keywords c)
      (chunk_page c) (chunk_line_from c) (chunk_line_to c) (chunk_words c)
      (chunk_tokens c) true
  else c.

Definition sql_update_chunk_has_embedding (id : Z) (t : Tables) : Tables :=
  set_chunks t (map (mark_embedded id) (chunks t)) (chunks_seq t).

(** [SELECT_FILE_FOR_CHUNK_SQL] *)
Definition sql_select_file_for_chunk (id : Z) (t : Tables) : option string :=
  head (map chunk_file (filter (fun c => chunk_id c = id) (chunks t))).

(** [SELECT_UNCOMPLETED_CHUNKS_SQL] *)
Definition sql_select_uncompleted_chunks (folder : Z) (t : Tables) : list ChunkRow :=
  filter (fun c => has_embedding c = false /\
                   Exists (fun d => document_id d = chunk_document c /\
                                    document_folder d = folder) (documents t))
         (chunks t).

(** [SELECT_DOCUMENT_SQL] *)
Definition sql_select_document (path : string) (t : Tables) : option DocumentRow :=
  head (filter (fun d => document_path d = path) (documents t)).

(** [SELECT_DOCUMENTS_SQL] *)
Definition sql_select_documents (folder : Z) (t : Tables) : list Z :=
  map document_id (filter (fun d => document_folder d = folder) (documents t)).

(** [INSERT_DOCUMENTS_SQL]: [document_path] is [unique], and the new id is
    one more than the largest id of the table. *)
Definition next_document_id (t : Tables) : Z := max_id document_id (documents t) + 1.

Definition sql_insert_document (folder time : Z) (path : string) (t : Tables) : Tables :=
  match sql_select_document path t with
  | Some _ => t
  | None =>
      set_documents t (documents t ++ [mkDocumentRow (next_document_id t) folder time path])
  end.

(** [UPDATE_DOCUMENT_TIME_SQL] *)
Definition sql_update_document_time (time id : Z) (t : Tables) : Tables :=
  set_documents t
    (map (fun d => if decide (document_id d = id)
                   then mkDocumentRow (document_id d) (document_folder d) time (document_path d)
                   else d)
         (documents t)).

(** [DELETE_DOCUMENTS_SQL] *)
Definition sql_delete_document (id : Z) (t : Tables) : Tables :=
  set_documents t (filter (fun d => document_id d <> id) (documents t)).

(** [SELECT_FOLDERS_FROM_PATH_SQL] *)
Definition sql_select_folder (path : string) (t : Tables) : option Z :=
  head (map folder_id (filter (fun f => folder_path f = path) (folders t))).

(** [DELETE_FOLDERS_SQL] *)
Definition sql_delete_folder (id : Z) (t : Tables) : Tables :=
  set_folders t (filter (fun f => folder_id f <> id) (folders t)).

(** [DELETE_COLLECTION_FOLDER_SQL]: the scalar subquery gives the id of
    the collection of that name, or NULL, which matches no row. *)
Definition collection_id_of (name : string) (t : Tables) : option Z :=
  head (map collection_id (filter (fun c => collection_name c = name) (collections t))).

Definition sql_delete_collection_folder (name : string) (folder : Z) (t : Tables) : Tables :=
  match collection_id_of name t with
  | None => t
  | Some cid =>
      set_collection_items t
        (filter (fun i => ~ (item_collection i = cid /\ item_folder i = folder))
                (collection_items t))
  end.

(** The rows that statement deletes, and what its [returning] clause
    gives for them: the references to the folder that remain. *)
Definition deleted_collection_folder (name : string) (folder : Z) (t : Tables)
  : list CollectionItemRow :=
  match collection_id_of name t with
  | None => []
  | Some cid =>
      filter (fun i => item_collection i = cid /\ item_folder i = folder)
             (collection_items t)
  end.

Definition count_folder_references (folder : Z) (t : Tables) : Z :=
  Z.of_nat (length (filter (fun i => item_folder i = folder) (collection_items t))).

(** [PRUNE_COLLECTIONS_SQL] *)
Definition sql_prune_collections (t : Tables) : Tables :=
  set_collections t
    (filter (fun c => Exists (fun i => item_collection i = collection_id c)
                             (collection_items t))
            (collections t)).

(** [SELECT_ALL_DOCUMENTS_SQL] *)
Definition sql_select_all_documents (t : Tables) : list DocumentRow := documents t.

(** [INSERT_FOLDERS_SQL]: [folder_path] is [unique], and the new id is one
    more than the largest id of the table. *)
Definition next_folder_id (t : Tables) : Z := max_id folder_id (folders t) + 1.

Definition sql_insert_folder (path : string) (t : Tables) : Tables :=
  match sql_select_folder path t with
  | Some _ => t
  | None => set_folders t (folders t ++ [mkFolderRow (next_folder_id t) path])
  end.

(** [INSERT_COLLECTION_SQL]: [name] is [unique]. *)
Definition next_collection_id (t : Tables) : Z := max_id collection_id (collections t) + 1.

Definition sql_insert_collection (name : string) (last_update : option Z)
    (model : option string) (t : Tables) : Tables :=
  match collection_id_of name t with
  | Some _ => t
  | None =>
      set_collections t
        (collections t ++ [mkCollectionRow (next_collection_id t) name last_update model])
  end.

(** [INSERT_COLLECTION_ITEM_SQL]: [on conflict do nothing]. *)
Definition has_collection_item (collection folder : Z) (t : Tables) : bool :=
  existsb (fun i => (item_collection i =? collection) && (item_folder i =? folder))
          (collection_items t).

Definition sql_insert_collection_item (collection folder : Z) (t : Tables) : Tables :=
  if has_collection_item collection folder t then t
  else set_collection_items t (collection_items t ++ [mkCollectionItemRow collection folder]).

(** [SET_COLLECTION_EMBEDDING_MODEL_SQL] *)
Definition sql_set_collection_embedding_model (model : option string) (name : string)
    (t : Tables) : Tables :=
  set_collections t
    (map (fun c => if String.eqb (collection_name c) name
                   then mkCollectionRow (collection_id c) (collection_name c)
                          (last_update_time c) model
                   else c)
         (collections t)).

(** The connection: the tables, and inside a transaction the tables as
    they were when it began. *)
Record SqlDb := mkSqlDb {
  tables   : Tables;
  snapshot : option Tables
}.

(** What a crash leaves of the store: an open transaction is lost. *)
Definition durable (d : SqlDb) : Tables :=
  match snapshot d with
  | Some t => t
  | None => tables d
  end.

(** ** The vector index *)

(** Modelled from the spec: the class [Embeddings] ([embeddings.h] is not
    part of the sources at hand).  The index stores a vector per chunk id,
    in memory, and is persisted and reloaded as a whole; only the ids it
    holds matter here.  [loaded] is the index in memory, [saved] the file
    last written by [save]. *)
Record Embeddings := mkEmbeddings {
  loaded : gset Z;
  saved  : gset Z
}.

Definition embeddings_add (id : Z) (e : Embeddings) : Embeddings :=
  mkEmbeddings ({[id]} ∪ loaded e) (saved e).
Definition embeddings_remove (id : Z) (e : Embeddings) : Embeddings :=
  mkEmbeddings (loaded e ∖ {[id]}) (saved e).
Definition embeddings_save (e : Embeddings) : Embeddings :=
  mkEmbeddings (loaded e) (loaded e).
Definition embeddings_load (e : Embeddings) : Embeddings :=
  mkEmbeddings (saved e) (saved e).

(** ** Effects

    Everything the database object does to the store, to the index and
    to the embedding backend is one of these effects; the object keeps a
    journal of the effects it performed, in order. *)

Record EmbeddingChunk := mkEmbeddingChunk {
  ec_folder   : Z;
  ec_chunk_id : Z;
  ec_chunk    : QString
}.

Record EmbeddingResult := mkEmbeddingResult {
  er_folder    : Z;
  er_chunk_id  : Z;
  er_embedding : list Z
}.

Inductive Effect :=
| SqlTransaction
| SqlCommit
| SqlRollback
| SqlInsertChunk (v : ChunkValues)
| SqlDeleteChunks (document : Z)
| SqlUpdateChunkHasEmbedding (chunk : Z)
| SqlInsertDocument (folder time : Z) (path : string)
| SqlUpdateDocumentTime (time document : Z)
| SqlDeleteDocument (document : Z)
| SqlDeleteFolder (folder : Z)
| SqlDeleteCollectionFolder (name : string) (folder : Z)
| SqlPruneCollections
| SqlInsertFolder (path : string)
| SqlInsertCollection (name : string) (model : option string)
| SqlInsertCollectionItem (collection folder : Z)
| SqlSetCollectionEmbeddingModel (model : option string) (name : string)
| EmbeddingsAdd (chunk : Z)
| EmbeddingsRemove (chunk : Z)
| EmbeddingsSave
| GenerateAsyncEmbeddings (batch : list EmbeddingChunk).

(** The part of the state that effects act on, and the only part a crash
    leaves something of. *)
Record World := mkWorld {
  sql   : SqlDb;
  index : Embeddings
}.

Definition write (f : Tables -> Tables) (w : World) : World :=
  mkWorld (mkSqlDb (f (tables (sql w))) (snapshot (sql w))) (index w).

Definition apply_effect (e : Effect) (w : World) : World :=
  match e with
  | SqlTransaction =>
      match snapshot (sql w) with
      | Some _ => w
      | None => mkWorld (mkSqlDb (tables (sql w)) (Some (tables (sql w)))) (index w)
      end
  | SqlCommit => mkWorld (mkSqlDb (tables (sql w)) None) (index w)
  | SqlRollback => mkWorld (mkSqlDb (durable (sql w)) None) (index w)
  | SqlInsertChunk v => write (sql_insert_chunk v) w
  | SqlDeleteChunks d => write (sql_delete_chunks d) w
  | SqlUpdateChunkHasEmbedding c => write (sql_update_chunk_has_embedding c) w
  | SqlInsertDocument f t p => write (sql_insert_document f t p) w
  | SqlUpdateDocumentTime t d => write (sql_update_document_time t d) w
  | SqlDeleteDocument d => write (sql_delete_document d) w
  | SqlDeleteFolder f => write (sql_delete_folder f) w
  | SqlDeleteCollectionFolder n f => write (sql_delete_collection_folder n f) w
  | SqlPruneCollections => write sql_prune_collections w
  | SqlInsertFolder p => write (sql_insert_folder p) w
  | SqlInsertCollection n m => write (sql_insert_collection n None m) w
  | SqlInsertCollectionItem c f => write (sql_insert_collection_item c f) w
  | SqlSetCollectionEmbeddingModel m n => write (sql_set_collection_embedding_model m n) w
  | EmbeddingsAdd c => mkWorld (sql w) (embeddings_add c (index w))
  | EmbeddingsRemove c => mkWorld (sql w) (embeddings_remove c (index w))
  | EmbeddingsSave => mkWorld (sql w) (embeddings_save (index w))
  | GenerateAsyncEmbeddings _ => w
  end.

Definition run_effects (es : list Effect) (w : World) : World :=
  fold_left (fun w e => apply_effect e w) es w.

(** After a crash the process starts again from what is on disk: the
    committed tables and the saved index. *)
Definition recover (w : World) : World :=
  mkWorld (mkSqlDb (durable (sql w)) None) (embeddings_load (index w)).

(** ** The [Database] object

    The members the pipeline works with.  The bookkeeping for the user
    interface ([m_collectionMap], the progress counters, the file system
    watcher and the scan timer) decides nothing about the store, the
    index, the queue or the batches, and is left out. *)

Record DocumentInfo := mkDocumentInfo {
  folder              : Z;
  doc                 : string;     (* the path of the file *)
  currentPage         : Z;
  currentPosition     : Z;
  currentlyProcessing : bool
}.

Record Database := mkDatabase {
  m_world      : World;             (* [m_db] and [m_embeddings] *)
  m_chunkSize  : Z;
  m_scannedFileExtensions : list string;
  m_chunkList  : list EmbeddingChunk;
  m_docsToScan : list (Z * list DocumentInfo);   (* a [QMap], in key order *)
  journal      : list Effect
}.

Definition m_db (db : Database) : Tables := tables (sql (m_world db)).
Definition m_embeddings (db : Database) : Embeddings := index (m_world db).

Definition perform (e : Effect) (db : Database) : Database :=
  mkDatabase (apply_effect e (m_world db)) (m_chunkSize db) (m_scannedFileExtensions db)
             (m_chunkList db) (m_docsToScan db) (journal db ++ [e]).

Definition set_chunkList (l : list EmbeddingChunk) (db : Database) : Database :=
  mkDatabase (m_world db) (m_chunkSize db) (m_scannedFileExtensions db) l
             (m_docsToScan db) (journal db).

Definition set_docsToScan (q : list (Z * list DocumentInfo)) (db : Database) : Database :=
  mkDatabase (m_world db) (m_chunkSize db) (m_scannedFileExtensions db) (m_chunkList db) q
             (journal db).

Definition set_chunkSize (chunkSize : Z) (db : Database) : Database :=
  mkDatabase (m_world db) chunkSize (m_scannedFileExtensions db) (m_chunkList db)
             (m_docsToScan db) (journal db).

Definition set_scannedFileExtensions (extensions : list string) (db : Database) : Database :=
  mkDatabase (m_world db) (m_chunkSize db) extensions (m_chunkList db)
             (m_docsToScan db) (journal db).

Definition transaction : Database -> Database := perform SqlTransaction.
Definition commit : Database -> Database := perform SqlCommit.
Definition rollback : Database -> Database := perform SqlRollback.

Definition s_batchSize : Z := 100.

Definition sendChunkList (db : Database) : Database :=
  set_chunkList [] (perform (GenerateAsyncEmbeddings (m_chunkList db)) db).

Definition appendChunk (chunk : EmbeddingChunk) (db : Database) : Database :=
  let db := set_chunkList (m_chunkList db ++ [chunk]) db in
  if s_batchSize <=? Z.of_nat (length (m_chunkList db)) then sendChunkList db else db.

Definition addChunk (v : ChunkValues) (db : Database) : Z * Database :=
  (next_chunk_id (m_db db), perform (SqlInsertChunk v) db).

Definition removeChunksByDocumentId (document_id : Z) (db : Database) : Database :=
  perform (SqlDeleteChunks document_id) db.

Definition getChunksByDocumentId (db : Database) (document_id : Z) (chunkIds : list Z)
  : list Z :=
  chunkIds ++ sql_select_chunks_by_document document_id (m_db db).

Definition updateChunkHasEmbedding (chunk_id : Z) (db : Database) : Database :=
  perform (SqlUpdateChunkHasEmbedding chunk_id) db.

Definition selectFileForChunk (db : Database) (chunk_id : Z) : option string :=
  sql_select_file_for_chunk chunk_id (m_db db).

(** What [chunkStream] does with a completed chunk. *)
Definition flushChunk (folder_id document_id : Z) (file title author subject keywords : string)
    (page : Z) (words : list QString) (db : Database) : Database :=
  let chunk := join (qstr " ") words in
  let '(chunk_id, db) :=
    addChunk (mkChunkValues document_id chunk file title author subject keywords
                page (-1) (-1) (Z.of_nat (length words))) db in
  appendChunk (mkEmbeddingChunk folder_id chunk_id chunk) db.

Definition chunkStream (stream : QTextStream) (folder_id document_id : Z)
    (file title author subject keywords : string) (page maxChunks : Z) (db : Database)
  : Z * Database :=
  match chunkRun (m_chunkSize db)
          (flushChunk folder_id document_id file title author subject keywords page)
          maxChunks stream db with
  | Some r => (ret r, final_state r)
  | None => (-1, db)
  end.

(** [handleEmbeddingsGenerated]; whether the index takes a point
    ([m_embeddings->add]) is for the index to say: [accepts]. *)
Definition addEmbeddings (accepts : EmbeddingResult -> bool)
    (embeddings : list EmbeddingResult) (db : Database) : Database * list Z :=
  fold_left
    (fun '(db, chunksToAdd) e =>
       match selectFileForChunk db (er_chunk_id e) with
       | None => (db, chunksToAdd)                       (* file already removed *)
       | Some _ =>
           if accepts e
           then (perform (EmbeddingsAdd (er_chunk_id e)) db, chunksToAdd ++ [er_chunk_id e])
           else (db, chunksToAdd)
       end)
    embeddings (db, []).

Definition handleEmbeddingsGenerated (accepts : EmbeddingResult -> bool)
    (embeddings : list EmbeddingResult) (db : Database) : Database :=
  let '(db, chunksToAdd) := addEmbeddings accepts embeddings db in
  match chunksToAdd with
  | [] => db                                             (* nothing to add *)
  | _ :: _ =>
      let db := perform EmbeddingsSave db in
      let db := transaction db in
      let db := fold_left (fun db chunk_id => updateChunkHasEmbedding chunk_id db)
                          chunksToAdd db in
      commit db
  end.

(** ** The queue of documents to scan *)

Definition Queue := list (Z * list DocumentInfo).

Fixpoint queue_value (key : Z) (m : Queue) : list DocumentInfo :=
  match m with
  | [] => []
  | (k, q) :: rest => if k =? key then q else queue_value key rest
  end.

(** [m_docsToScan[key]] modified in place, the entry being made if need be. *)
Fixpoint queue_modify (key : Z) (f : list DocumentInfo -> list DocumentInfo) (m : Queue)
  : Queue :=
  match m with
  | [] => [(key, f [])]
  | (k, q) :: rest =>
      if key <? k then (key, f []) :: m
      else if key =? k then (k, f q) :: rest
      else (k, q) :: queue_modify key f rest
  end.

Definition countOfDocuments (db : Database) (folder_id : Z) : Z :=
  Z.of_nat (length (queue_value folder_id (m_docsToScan db))).

(** [dequeueDocument]: the first document of the first key. *)
Definition dequeueDocument (db : Database) : option (DocumentInfo * Database) :=
  match m_docsToScan db with
  | (firstKey, result :: queue) :: rest =>
      Some (result,
            set_docsToScan (match queue with
                            | [] => rest
                            | _ :: _ => (firstKey, queue) :: rest
                            end) db)
  | _ => None
  end.

Definition removeFolderFromDocumentQueue (folder_id : Z) (db : Database) : Database :=
  set_docsToScan (filter (fun kq => fst kq <> folder_id) (m_docsToScan db)) db.

Definition enqueueDocumentInternal (info : DocumentInfo) (prepend : bool) (db : Database)
  : Database :=
  set_docsToScan
    (queue_modify (folder info)
       (fun q => if prepend then info :: q else q ++ [info]) (m_docsToScan db)) db.

Definition enqueueDocuments (infos : list DocumentInfo) (db : Database) : Database :=
  fold_left (fun db info => enqueueDocumentInternal info false db) infos db.

Definition scheduleNext (folder_id countForFolder : Z) (db : Database) : Database :=
  if countForFolder =? 0 then
    match m_chunkList db with
    | [] => db
    | _ :: _ => sendChunkList db      (* send any remaining embedding chunks *)
    end
  else db.

(** ** The files on disk *)

Record PdfDocument := mkPdfDocument {
  pdf_pages    : list QString;       (* [getAllText(i).text()] of page i *)
  pdf_title    : string;
  pdf_author   : string;
  pdf_subject  : string;
  pdf_keywords : string
}.

Inductive FileKind :=
| TextFile (f : QFile)
| PdfFile (pdf : option PdfDocument).   (* [None]: the document does not load *)

Record FileEntry := mkFileEntry {
  readable : bool;
  mtime    : Z;                      (* modification time, ms since the epoch *)
  fileName : string;
  kind     : FileKind
}.

Record Environment := mkEnvironment {
  files       : string -> option FileEntry;     (* [None]: no such file *)
  directories : string -> option (list string); (* [None]: no such directory; else
                                                   the readable files below it *)
  blockSize   : nat                             (* of the reads of a text stream *)
}.

(** Modelled from the spec: the default of the parameter [maxChunks] is
    declared in [database.h], which is not part of the sources at hand;
    the cap is optional, and without it there is none. *)
Definition defaultMaxChunks : Z := -1.

Definition selectDocument (db : Database) (document_path : string) : Z * Z :=
  match sql_select_document document_path (m_db db) with
  | Some d => (document_id d, document_time d)
  | None => (-1, -1)
  end.

Definition updateDocument (id document_time : Z) (db : Database) : Database :=
  perform (SqlUpdateDocumentTime document_time id) db.

Definition addDocument (folder_id document_time : Z) (document_path : string) (db : Database)
  : option (Z * Database) :=
  match sql_select_document document_path (m_db db) with
  | Some _ => None                   (* [document_path] is unique *)
  | None => Some (next_document_id (m_db db),
                  perform (SqlInsertDocument folder_id document_time document_path) db)
  end.

(** ** [Database::scanQueue] *)

Definition scanPdf (info : DocumentInfo) (entry : FileEntry) (pdf : PdfDocument)
    (document_id countForFolder : Z) (db : Database) : Database :=
  let pageIndex := currentPage info in
  let text := nth (Z.to_nat pageIndex) (pdf_pages pdf) [] in
  let text := if pageIndex <? 0 then [] else text in
  let '(_, db) :=
    chunkStream (streamAt text 0) (folder info) document_id (fileName entry)
      (pdf_title pdf) (pdf_author pdf) (pdf_subject pdf) (pdf_keywords pdf)
      (pageIndex + 1) defaultMaxChunks db in
  if currentPage info <? Z.of_nat (length (pdf_pages pdf)) then
    let info := mkDocumentInfo (folder info) (doc info) (currentPage info + 1)
                  (currentPosition info) true in
    scheduleNext (folder info) (countForFolder + 1)
      (enqueueDocumentInternal info true db)
  else scheduleNext (folder info) countForFolder db.

Definition scanText (env : Environment) (info : DocumentInfo) (entry : FileEntry) (f : QFile)
    (existing_id document_id countForFolder : Z) (db : Database) (chunksToRemove : list Z)
  : Database * list Z :=
  let bytes := Z.of_nat (length (contents f)) in
  let byteIndex := currentPosition info in
  let '(stream, binarySeen) := openStream (blockSize env) f byteIndex in
  let '(pos, db) :=
    chunkStream stream (folder info) document_id (fileName entry)
      "" "" "" "" (-1) 100 db in
  if pos <? 0 then
    if negb binarySeen then
      (scheduleNext (folder info) countForFolder db, chunksToRemove)
    else
      (* a file with binary data is treated like an empty file *)
      let chunksToRemove := getChunksByDocumentId db existing_id chunksToRemove in
      let db := removeChunksByDocumentId existing_id db in
      (scheduleNext (folder info) countForFolder db, chunksToRemove)
  else if currentPosition info <? bytes then
    let info := mkDocumentInfo (folder info) (doc info) (currentPage info) pos true in
    (scheduleNext (folder info) (countForFolder + 1)
       (enqueueDocumentInternal info true db), chunksToRemove)
  else (scheduleNext (folder info) countForFolder db, chunksToRemove).

Definition scanQueue (env : Environment) (db : Database) (chunksToRemove : list Z)
  : Database * list Z :=
  match dequeueDocument db with
  | None => (db, chunksToRemove)
  | Some (info, db) =>
      let countForFolder := countOfDocuments db (folder info) in
      let folder_id := folder info in
      match files env (doc info) with
      | None => (scheduleNext folder_id countForFolder db, chunksToRemove)
      | Some entry =>
          if negb (readable entry) then
            (scheduleNext folder_id countForFolder db, chunksToRemove)
          else
            let document_time := mtime entry in
            let document_path := doc info in
            let '(existing_id, existing_time) := selectDocument db document_path in
            let known := negb (existing_id =? -1) && negb (currentlyProcessing info) in
            if known && (document_time =? existing_time) then
              (* no need to rescan *)
              (scheduleNext folder_id countForFolder db, chunksToRemove)
            else
              let '(db, chunksToRemove) :=
                if known then
                  (removeChunksByDocumentId existing_id db,
                   getChunksByDocumentId db existing_id chunksToRemove)
                else (db, chunksToRemove) in
              let registered :=
                if currentlyProcessing info then Some (existing_id, db)
                else if negb (existing_id =? -1) then
                  Some (existing_id, updateDocument existing_id document_time db)
                else addDocument folder_id document_time document_path db in
              match registered with
              | None => (scheduleNext folder_id countForFolder db, chunksToRemove)
              | Some (document_id, db) =>
                  match kind entry with
                  | PdfFile None =>
                      (scheduleNext folder_id countForFolder db, chunksToRemove)
                  | PdfFile (Some pdf) =>
                      (scanPdf info entry pdf document_id countForFolder db, chunksToRemove)
                  | TextFile f =>
                      scanText env info entry f existing_id document_id countForFolder
                        db chunksToRemove
                  end
              end
      end
  end.

(** ** [Database::scanQueueBatch]

    The batch scans until the queue is empty or its 100 ms are over;
    [turns] is how many documents fit in that time. *)
Fixpoint scanWhile (env : Environment) (turns : nat) (db : Database) (chunksToRemove : list Z)
  : Database * list Z :=
  match turns with
  | O => (db, chunksToRemove)
  | S turns' =>
      match m_docsToScan db with
      | [] => (db, chunksToRemove)
      | _ :: _ =>
          let '(db, chunksToRemove) := scanQueue env db chunksToRemove in
          scanWhile env turns' db chunksToRemove
      end
  end.

Definition removeFromEmbeddings (chunksToRemove : list Z) (db : Database) : Database :=
  fold_left (fun db chunk => perform (EmbeddingsRemove chunk) db) chunksToRemove db.

Definition saveEmbeddingsIf (chunksToRemove : list Z) (db : Database) : Database :=
  match chunksToRemove with
  | [] => db
  | _ :: _ => perform EmbeddingsSave db
  end.

Definition scanQueueBatch (env : Environment) (turns : nat) (db : Database) : Database :=
  let db := transaction db in
  let '(db, chunksToRemove) := scanWhile env turns db [] in
  let db := removeFromEmbeddings chunksToRemove db in
  let db := commit db in
  saveEmbeddingsIf chunksToRemove db.

(** ** [Database::scheduleUncompletedEmbeddings] *)

Definition mid {A} (l : list A) (i n : Z) : list A :=
  firstn (Z.to_nat n) (skipn (Z.to_nat i) l).

Fixpoint sendSlices (fuel : nat) (i : Z) (chunkList : list EmbeddingChunk) (db : Database)
  : Database :=
  match fuel with
  | O => db
  | S fuel' =>
      if i <? Z.of_nat (length chunkList) then
        sendSlices fuel' (i + s_batchSize) chunkList
          (perform (GenerateAsyncEmbeddings (mid chunkList i s_batchSize)) db)
      else db
  end.

Definition selectAllUncompletedChunks (db : Database) (folder_id : Z) : list EmbeddingChunk :=
  map (fun c => mkEmbeddingChunk folder_id (chunk_id c) (chunk_text c))
      (sql_select_uncompleted_chunks folder_id (m_db db)).

Definition scheduleUncompletedEmbeddings (folder_id : Z) (db : Database) : Database :=
  let chunkList := selectAllUncompletedChunks db folder_id in
  sendSlices (length chunkList) 0 chunkList db.

(** ** [Database::removeFolder] *)

(** [removeCollectionFolder]: the number of remaining references to the
    folder, or -1 when the statement returns no row. *)
Definition removeCollectionFolder (collection_name : string) (folder_id : Z) (db : Database)
  : Z * Database :=
  let deleted := deleted_collection_folder collection_name folder_id (m_db db) in
  let db := perform (SqlDeleteCollectionFolder collection_name folder_id) db in
  match deleted with
  | [] => (-1, db)
  | _ :: _ => (count_folder_references folder_id (m_db db), db)
  end.

Definition removeDocumentAndChunks (document_id : Z) (st : Database * list Z)
  : Database * list Z :=
  let '(db, chunksToRemove) := st in
  let chunksToRemove := getChunksByDocumentId db document_id chunksToRemove in
  let db := removeChunksByDocumentId document_id db in
  let db := perform (SqlDeleteDocument document_id) db in
  (db, chunksToRemove).

Definition removeFolderInternal (collection : string) (folder_id : Z) (db : Database)
    (chunksToRemove : list Z) : bool * Database * list Z :=
  let '(nRemaining, db) := removeCollectionFolder collection folder_id db in
  if nRemaining =? -1 then (false, db, chunksToRemove)
  else
    let db := perform SqlPruneCollections db in
    if negb (nRemaining =? 0) then (true, db, chunksToRemove)   (* still referenced *)
    else
      let db := removeFolderFromDocumentQueue folder_id db in
      let documentIds := sql_select_documents folder_id (m_db db) in
      let '(db, chunksToRemove) :=
        fold_left (fun st document_id => removeDocumentAndChunks document_id st)
                  documentIds (db, chunksToRemove) in
      let db := perform (SqlDeleteFolder folder_id) db in
      (true, db, chunksToRemove).

Definition removeFolder (collection path : string) (db : Database) : Database :=
  match sql_select_folder path (m_db db) with
  | None => db
  | Some folder_id =>
      let db := transaction db in
      let '(ok, db, chunksToRemove) := removeFolderInternal collection folder_id db [] in
      if ok then
        let db := removeFromEmbeddings chunksToRemove db in
        let db := commit db in
        saveEmbeddingsIf chunksToRemove db
      else rollback db
  end.

(** ** Retrieval

    [SELECT_CHUNKS_SQL] is the one statement of the pipeline that joins
    tables, so it is kept as a statement: the columns it names are
    resolved against the schema of [INIT_DB_SQL] when it is prepared, and
    it is run over the rows of the tables. *)

Inductive Value :=
| VInt (n : Z)
| VText (s : string)
| VNull.

Definition value_eqb (a b : Value) : bool :=
  match a, b with
  | VInt x, VInt y => x =? y
  | VText x, VText y => String.eqb x y
  | _, _ => false                    (* NULL equals nothing *)
  end.

(** The tables of [INIT_DB_SQL] and their columns, in order. *)
Definition INIT_DB_SQL : list (string * list string) :=
  [ ("chunks",
     ["id"; "document_id"; "chunk_text"; "file"; "title"; "author"; "subject";
      "keywords"; "page"; "line_from"; "line_to"; "words"; "tokens"; "has_embedding"]);
    ("collections", ["id"; "name"; "last_update_time"; "embedding_model"]);
    ("folders", ["id"; "folder_path"]);
    ("collection_items", ["collection_id"; "folder_id"]);
    ("documents", ["id"; "folder_id"; "document_time"; "document_path"]) ]%string.

Definition opt_int (o : option Z) : Value :=
  match o with Some n => VInt n | None => VNull end.
Definition opt_text (o : option string) : Value :=
  match o with Some s => VText s | None => VNull end.

(** The rows of a table, column by column as in the schema. *)
Definition table_rows (name : string) (t : Tables) : list (list Value) :=
  if String.eqb name "chunks" then
    map (fun c => [VInt (chunk_id c); VInt (chunk_document c);
                   VText (string_of_list_ascii (chunk_text c)); VText (chunk_file c);
                   VText (chunk_title c); VText (chunk_author c); VText (chunk_subject c);
                   VText (chunk_keywords c); VInt (chunk_page c); VInt (chunk_line_from c);
                   VInt (chunk_line_to c); VInt (chunk_words c); VInt (chunk_tokens c);
                   VInt (if has_embedding c then 1 else 0)]) (chunks t)
  else if String.eqb name "collections" then
    map (fun c => [VInt (collection_id c); VText (collection_name c);
                   opt_int (last_update_time c); opt_text (embedding_model c)])
        (collections t)
  else if String.eqb name "folders" then
    map (fun f => [VInt (folder_id f); VText (folder_path f)]) (folders t)
  else if String.eqb name "collection_items" then
    map (fun i => [VInt (item_collection i); VInt (item_folder i)]) (collection_items t)
  else if String.eqb name "documents" then
    map (fun d => [VInt (document_id d); VInt (document_folder d);
                   VInt (document_time d); VText (document_path d)]) (documents t)
  else [].

Record Column := mkColumn {
  of_table : string;
  column   : string
}.

Record Join := mkJoin {
  joined   : string;                 (* join <table> *)
  on_left  : Column;                 (* on <left> = <right> *)
  on_right : Column
}.

Record Select := mkSelect {
  selected : list Column;
  from     : string;
  joins    : list Join;
  where_in : list (Column * list Value);  (* <column> in (...) and ... *)
  order_by : list Column                  (* order by <column> asc, ... *)
}.

Definition columns_of (schema : list (string * list string)) (table : string)
  : option (list string) :=
  option_map snd (find (fun tc => String.eqb (fst tc) table) schema).

Fixpoint index_of (name : string) (names : list string) : option nat :=
  match names with
  | [] => None
  | n :: rest => if String.eqb n name then Some O else option_map S (index_of name rest)
  end.

(** A column resolves when its table is one of the statement and has a
    column of that name. *)
Definition resolves (schema : list (string * list string)) (scope : list string)
    (c : Column) : bool :=
  existsb (String.eqb (of_table c)) scope &&
  match columns_of schema (of_table c) with
  | Some names => match index_of (column c) names with Some _ => true | None => false end
  | None => false
  end.

Definition mentioned (q : Select) : list Column :=
  selected q ++ flat_map (fun j => [on_left j; on_right j]) (joins q)
             ++ map fst (where_in q) ++ order_by q.

(** [QSqlQuery::prepare]: SQLite compiles the statement, which fails on a
    table or a column that does not exist. *)
Definition prepare (schema : list (string * list string)) (q : Select) : bool :=
  let scope := from q :: map joined (joins q) in
  forallb (fun t => match columns_of schema t with Some _ => true | None => false end) scope
  && forallb (resolves schema scope) (mentioned q).

(** A row of the join: the row of each table joined so far. *)
Definition JoinedRow := list (string * list Value).

Definition lookup_column (schema : list (string * list string)) (r : JoinedRow) (c : Column)
  : Value :=
  match find (fun tr => String.eqb (fst tr) (of_table c)) r,
        columns_of schema (of_table c) with
  | Some (_, values), Some names =>
      match index_of (column c) names with
      | Some i => nth i values VNull
      | None => VNull
      end
  | _, _ => VNull
  end.

(** The order of SQLite on values: NULL, then the integers, then the
    texts, byte by byte. *)
Definition value_leb (a b : Value) : bool :=
  match a, b with
  | VNull, _ => true
  | VInt _, VNull => false
  | VInt x, VInt y => x <=? y
  | VInt _, VText _ => true
  | VText x, VText y => String.leb x y
  | VText _, _ => false
  end.

Fixpoint keys_leb (a b : list Value) : bool :=
  match a, b with
  | x :: a', y :: b' =>
      if negb (value_leb y x) then true
      else if negb (value_leb x y) then false
      else keys_leb a' b'
  | _, _ => true
  end.

Fixpoint insert_row {A} (leb : A -> A -> bool) (r : A) (rows : list A) : list A :=
  match rows with
  | [] => [r]
  | r' :: rest => if leb r r' then r :: rows else r' :: insert_row leb r rest
  end.

(** Rows with equal keys stay in the order they had. *)
Definition sort_rows {A} (leb : A -> A -> bool) (rows : list A) : list A :=
  fold_right (insert_row leb) [] rows.

Definition exec (schema : list (string * list string)) (q : Select) (t : Tables)
  : list (list Value) :=
  let start : list JoinedRow := map (fun r => [(from q, r)]) (table_rows (from q) t) in
  let joined_rows :=
    fold_left
      (fun (rows : list JoinedRow) (j : Join) =>
         flat_map (fun r =>
           flat_map (fun r' =>
             let both := r ++ [(joined j, r')] in
             if value_eqb (lookup_column schema both (on_left j))
                          (lookup_column schema both (on_right j))
             then [both] else [])
             (table_rows (joined j) t)) rows)
      (joins q) start in
  let kept :=
    List.filter
      (fun r => forallb (fun cv => existsb (value_eqb (lookup_column schema r (fst cv)))
                                           (snd cv)) (where_in q))
      joined_rows in
  let key r := map (lookup_column schema r) (order_by q) in
  let ordered := sort_rows (fun r r' => keys_leb (key r) (key r')) kept in
  map (fun r => map (lookup_column schema r) (selected q)) ordered.

(** [SELECT_CHUNKS_SQL], with the two lists that [selectChunk] formats
    into it. *)
Definition SELECT_CHUNKS_SQL (chunk_ids : list Z) (collection_names : list string) : Select :=
  mkSelect
    [mkColumn "chunks" "id"; mkColumn "documents" "document_time";
     mkColumn "chunks" "chunk_text"; mkColumn "chunks" "file"; mkColumn "chunks" "title";
     mkColumn "chunks" "author"; mkColumn "chunks" "page"; mkColumn "chunks" "line_from";
     mkColumn "chunks" "line_to"]
    "chunks"
    [mkJoin "documents" (mkColumn "chunks" "document_id") (mkColumn "documents" "id");
     mkJoin "folders" (mkColumn "documents" "folder_id") (mkColumn "folders" "id");
     mkJoin "collections" (mkColumn "folders" "id") (mkColumn "collections" "folder_id")]
    [(mkColumn "chunks" "id", map VInt chunk_ids);
     (mkColumn "collections" "name", map VText collection_names)]
    [].

(** [SELECT_FOLDERS_FROM_COLLECTIONS_SQL], the join of [forceIndexing]. *)
Definition SELECT_FOLDERS_FROM_COLLECTIONS_SQL (collection_name : string) : Select :=
  mkSelect
    [mkColumn "folders" "id"; mkColumn "folders" "folder_path"]
    "collections"
    [mkJoin "collection_items" (mkColumn "collection_items" "collection_id")
       (mkColumn "collections" "id");
     mkJoin "folders" (mkColumn "collection_items" "folder_id") (mkColumn "folders" "id")]
    [(mkColumn "collections" "name", [VText collection_name])]
    [].

(** Reading an element of a [std::vector] is defined inside its bounds. *)
Inductive Access (A : Type) :=
| Defined (a : A)
| OutOfBounds.
Arguments Defined {A} _.
Arguments OutOfBounds {A}.

(** [selectChunk]: [None] when the statement does not prepare, the rows
    otherwise.  The text of the id list starts with [chunk_ids[0]]. *)
Definition selectChunk (db : Database) (collection_names : list string) (chunk_ids : list Z)
  : Access (option (list (list Value))) :=
  match nth_error chunk_ids 0 with
  | None => OutOfBounds
  | Some _ =>
      let q := SELECT_CHUNKS_SQL chunk_ids collection_names in
      if prepare INIT_DB_SQL q then Defined (Some (exec INIT_DB_SQL q (m_db db)))
      else Defined None
  end.

Record ResultInfo := mkResultInfo {
  r_file   : Value;
  r_title  : Value;
  r_author : Value;
  r_date   : Value;                  (* [document_time], before formatting *)
  r_text   : Value;
  r_page   : Value;
  r_from   : Value;
  r_to     : Value
}.

Definition resultInfo (row : list Value) : ResultInfo :=
  let v i := nth i row VNull in
  mkResultInfo (v 3%nat) (v 4%nat) (v 5%nat) (v 1%nat) (v 2%nat) (v 6%nat) (v 7%nat) (v 8%nat).

(** The embedding backend and the search of the index, as
    [retrieveFromDB] uses them. *)
Record Retriever := mkRetriever {
  isLoaded           : bool;
  generateEmbeddings : string -> list Z;
  search             : list Z -> Z -> list Z
}.

Definition retrieveFromDB (r : Retriever) (db : Database) (collections : list string)
    (text : string) (retrievalSize : Z) (results : list ResultInfo)
  : Access (list ResultInfo) :=
  if negb (isLoaded r) then Defined results
  else
    match generateEmbeddings r text with
    | [] => Defined results
    | result =>
        let embeddings := search r result retrievalSize in
        match selectChunk db collections embeddings with
        | OutOfBounds => OutOfBounds
        | Defined None => Defined results
        | Defined (Some rows) => Defined (results ++ map resultInfo rows)
        end
    end.

(** ** Collections and folders *)

(** Modelled from the spec: the members of [CollectionItem] and their
    defaults are declared in [database.h], which is not part of the
    sources at hand.  A collection needs forced indexing exactly when no
    embedding model is recorded for it; the members that the statement at
    hand does not select are not read. *)
Record CollectionItem := mkCollectionItem {
  ci_collection_id  : Z;
  ci_collection     : string;
  ci_folder_path    : string;
  ci_folder_id      : Z;
  ci_embeddingModel : option string;     (* [None]: a null [QString] *)
  ci_forceIndexing  : bool
}.

(** [SELECT_COLLECTIONS_SQL_V2] *)
Definition SELECT_COLLECTIONS_SQL_V2 : Select :=
  mkSelect
    [mkColumn "collections" "id"; mkColumn "collections" "name";
     mkColumn "folders" "folder_path"; mkColumn "folders" "id";
     mkColumn "collections" "last_update_time"; mkColumn "collections" "embedding_model"]
    "collections"
    [mkJoin "collection_items" (mkColumn "collection_items" "collection_id")
       (mkColumn "collections" "id");
     mkJoin "folders" (mkColumn "collection_items" "folder_id") (mkColumn "folders" "id")]
    []
    [mkColumn "collections" "name"; mkColumn "folders" "folder_path"].

(** [SELECT_COLLECTION_BY_NAME_SQL] *)
Definition SELECT_COLLECTION_BY_NAME_SQL (name : string) : Select :=
  mkSelect
    [mkColumn "collections" "id"; mkColumn "collections" "name";
     mkColumn "collections" "last_update_time"; mkColumn "collections" "embedding_model"]
    "collections"
    []
    [(mkColumn "collections" "name", [VText name])]
    [].

Definition toInt (v : Value) : Z :=
  match v with VInt n => n | _ => 0 end.

Definition toString (v : Value) : option string :=
  match v with VText s => Some s | _ => None end.

Definition text_of (v : Value) : string :=
  match v with VText s => s | _ => EmptyString end.

(** [sqlExtractCollections] for the current version of the schema. *)
Definition sqlExtractCollections (with_folder : bool) (rows : list (list Value))
  : list CollectionItem :=
  map (fun row =>
         let v i := nth i row VNull in
         let idx := if with_folder then 4%nat else 2%nat in
         let embeddingModel := toString (v (S idx)) in
         mkCollectionItem (toInt (v 0%nat)) (text_of (v 1%nat))
           (if with_folder then text_of (v 2%nat) else EmptyString)
           (if with_folder then toInt (v 3%nat) else -1)
           embeddingModel
           (match embeddingModel with
            | None => true             (* unknown embedding model: need to re-index *)
            | Some _ => false
            end))
      rows.

(** [None] when the statement does not prepare. *)
Definition selectAllFromCollections (db : Database) : option (list CollectionItem) :=
  if prepare INIT_DB_SQL SELECT_COLLECTIONS_SQL_V2 then
    Some (sqlExtractCollections true (exec INIT_DB_SQL SELECT_COLLECTIONS_SQL_V2 (m_db db)))
  else None.

Definition selectCollectionByName (db : Database) (name : string)
  : option (option CollectionItem) :=
  let q := SELECT_COLLECTION_BY_NAME_SQL name in
  if prepare INIT_DB_SQL q then
    Some (head (sqlExtractCollections false (exec INIT_DB_SQL q (m_db db))))
  else None.

Definition selectFoldersFromCollection (db : Database) (collection_name : string)
  : option (list (Z * string)) :=
  let q := SELECT_FOLDERS_FROM_COLLECTIONS_SQL collection_name in
  if prepare INIT_DB_SQL q then
    Some (map (fun row => (toInt (nth 0 row VNull), text_of (nth 1 row VNull)))
              (exec INIT_DB_SQL q (m_db db)))
  else None.

(** [addCollection]: the id that the statement returns. *)
Definition addCollection (collection_name : string) (embedding_model : option string)
    (db : Database) : Z * Database :=
  (next_collection_id (m_db db),
   perform (SqlInsertCollection collection_name embedding_model) db).

Definition setCollectionEmbeddingModel (collection_name : string)
    (embedding_model : option string) (db : Database) : Database :=
  perform (SqlSetCollectionEmbeddingModel embedding_model collection_name) db.

(** [addFolderToDB]: the id is [lastInsertId]. *)
Definition addFolderToDB (folder_path : string) (db : Database) : Z * Database :=
  (next_folder_id (m_db db), perform (SqlInsertFolder folder_path) db).

(** [addCollectionItem]: 0 = already exists, 1 = added. *)
Definition addCollectionItem (collection_id folder_id : Z) (db : Database) : Z * Database :=
  ((if has_collection_item collection_id folder_id (m_db db) then 0 else 1),
   perform (SqlInsertCollectionItem collection_id folder_id) db).

(** ** Discovery: [Database::scanDocuments] *)

Fixpoint after_last (c : ascii) (s : string) : option string :=
  match s with
  | EmptyString => None
  | String a r =>
      match after_last c r with
      | Some t => Some t
      | None => if Ascii.eqb a c then Some r else None
      end
  end.

(** [QFileInfo::suffix]: what follows the last '.' of the file name. *)
Definition suffix (path : string) : string :=
  let name := match after_last "/" path with Some n => n | None => path end in
  match after_last "." name with
  | Some s => s
  | None => EmptyString
  end.

Definition scannedExtension (db : Database) (path : string) : bool :=
  existsb (String.eqb (suffix path)) (m_scannedFileExtensions db).

(** Modelled from the spec: the defaults of the members of [DocumentInfo]
    are declared in [database.h], which is not part of the sources at
    hand; a document enters the queue at its first page and at offset 0,
    not in the middle of a scan. *)
Definition newDocumentInfo (folder_id : Z) (path : string) : DocumentInfo :=
  mkDocumentInfo folder_id path 0 0 false.

(** The files below the folder that have one of the scanned extensions
    are put in the queue; a folder that is not there has none. *)
Definition scanDocuments (env : Environment) (folder_id : Z) (folder_path : string)
    (db : Database) : Database :=
  let found := match directories env folder_path with Some l => l | None => [] end in
  let infos := map (newDocumentInfo folder_id) (List.filter (scannedExtension db) found) in
  match infos with
  | [] => db
  | _ :: _ => enqueueDocuments infos db
  end.

(** ** [Database::addCurrentFolders] *)

Definition addCurrentFolders (env : Environment) (db : Database) : Database :=
  match selectAllFromCollections db with
  | None => db
  | Some collections =>
      fold_left
        (fun db i =>
           if ci_forceIndexing i then db
           else
             let db := scheduleUncompletedEmbeddings (ci_folder_id i) db in
             scanDocuments env (ci_folder_id i) (ci_folder_path i) db)
        collections db
  end.

(** ** [Database::addFolder] and [Database::forceIndexing] *)

Definition checkAndAddFolderToDB (env : Environment) (path : string) (db : Database)
  : Z * Database :=
  match directories env path with
  | None => (-1, db)
  | Some _ =>
      match sql_select_folder path (m_db db) with
      | Some folder_id => (folder_id, db)
      | None => addFolderToDB path db
      end
  end.

Definition forceIndexing (env : Environment) (collection : string)
    (embedding_model : option string) (db : Database) : Database :=
  match selectFoldersFromCollection db collection with
  | None => db
  | Some folders =>
      let db := setCollectionEmbeddingModel collection embedding_model db in
      fold_left (fun db folder => scanDocuments env (fst folder) (snd folder) db) folders db
  end.

Definition addFolder (env : Environment) (collection path : string)
    (embedding_model : option string) (db : Database) : bool * Database :=
  let '(folder_id, db) := checkAndAddFolderToDB env path db in
  if folder_id =? -1 then (false, db)
  else
    match selectCollectionByName db collection with
    | None => (false, db)
    | Some item =>
        (* add the collection, if needed *)
        let '(collection_id, embeddingModel, db) :=
          match item with
          | Some found => (ci_collection_id found, ci_embeddingModel found, db)
          | None =>
              let '(id, db) := addCollection collection embedding_model db in
              (id, embedding_model, db)
          end in
        (* link the folder and the collection, if needed *)
        let '(res, db) := addCollectionItem collection_id folder_id db in
        if res =? 1 then
          match embeddingModel with
          | Some _ => (true, scanDocuments env folder_id path db)
          | None => (true, db)
          end
        else (true, db)
    end.

(** ** [Database::cleanDB] *)

(** The first loop: the folders that are no longer there are removed. *)
Fixpoint cleanFolders (env : Environment) (collections : list CollectionItem)
    (db : Database) (chunksToRemove : list Z) : bool * Database * list Z :=
  match collections with
  | [] => (true, db, chunksToRemove)
  | i :: rest =>
      match directories env (ci_folder_path i) with
      | Some _ => cleanFolders env rest db chunksToRemove
      | None =>
          let '(ok, db, chunksToRemove) :=
            removeFolderInternal (ci_collection i) (ci_folder_id i) db chunksToRemove in
          if ok then cleanFolders env rest db chunksToRemove
          else (false, db, chunksToRemove)
      end
  end.

Definition keepsDocument (env : Environment) (db : Database) (path : string) : bool :=
  match files env path with
  | Some entry => readable entry && scannedExtension db path
  | None => false
  end.

(** The second loop, over the rows that [SELECT_ALL_DOCUMENTS_SQL] gave:
    the documents that do not exist, cannot be read or are no longer of a
    scanned extension are removed with their chunks. *)
Definition cleanDocuments (env : Environment) (docs : list DocumentRow)
    (st : Database * list Z) : Database * list Z :=
  fold_left
    (fun st d =>
       if keepsDocument env (fst st) (document_path d) then st
       else removeDocumentAndChunks (document_id d) st)
    docs st.

(** What [cleanDB] does inside its transaction. *)
Definition cleanAll (env : Environment) (collections : list CollectionItem) (db : Database)
  : bool * Database * list Z :=
  let '(ok, db, chunksToRemove) := cleanFolders env collections db [] in
  if ok then
    let '(db, chunksToRemove) :=
      cleanDocuments env (sql_select_all_documents (m_db db)) (db, chunksToRemove) in
    (true, db, chunksToRemove)
  else (false, db, chunksToRemove).

Definition cleanDB (env : Environment) (db : Database) : bool * Database :=
  match selectAllFromCollections db with
  | None => (false, db)
  | Some collections =>
      let db := transaction db in
      let '(ok, db, chunksToRemove) := cleanAll env collections db in
      if ok then
        let db := removeFromEmbeddings chunksToRemove db in
        let db := commit db in
        (true, saveEmbeddingsIf chunksToRemove db)
      else (false, rollback db)
  end.

(** ** [Database::changeChunkSize] and [Database::changeFileExtensions] *)

(** All chunks and documents are removed to change the chunk size. *)
Definition removeAll (documentIds : list Z) (db : Database) : bool * Database * list Z :=
  let '(db, chunksToRemove) :=
    fold_left (fun st document_id => removeDocumentAndChunks document_id st)
              documentIds (db, []) in
  (true, db, chunksToRemove).

Definition changeChunkSize (env : Environment) (chunkSize : Z) (db : Database) : Database :=
  if chunkSize =? m_chunkSize db then db
  else
    let documentIds := map document_id (sql_select_all_documents (m_db db)) in
    let db := transaction db in
    let '(_, db, chunksToRemove) := removeAll documentIds db in
    let db := removeFromEmbeddings chunksToRemove db in
    let db := commit db in
    let db := saveEmbeddingsIf chunksToRemove db in
    let db := set_chunkSize chunkSize db in
    addCurrentFolders env db.

Definition changeFileExtensions (env : Environment) (extensions : list string)
    (db : Database) : Database :=
  let db := set_scannedFileExtensions extensions db in
  let db := snd (cleanDB env db) in
  match selectAllFromCollections db with
  | None => db
  | Some collections =>
      fold_left
        (fun db i =>
           if ci_forceIndexing i then db
           else scanDocuments env (ci_folder_id i) (ci_folder_path i) db)
        collections db
  end.

(** ** [Database::directoryChanged] and [Database::start] *)

(** The names between the separators of a path. *)
Fixpoint components (path : string) (name : string) : list string :=
  match path with
  | EmptyString =>
      match name with
      | EmptyString => []
      | _ => [name]
      end
  | String a r =>
      if Ascii.eqb a "/" then
        match name with
        | EmptyString => components r EmptyString
        | _ => name :: components r EmptyString
        end
      else components r (String.append name (String a EmptyString))
  end.

Definition absolute (names : list string) : string :=
  String.append "/" (String.concat "/" names).

Fixpoint above (reversed : list string) : list string :=
  match reversed with
  | [] => []
  | _ :: up => absolute (rev up) :: above up
  end.

(** The directories above an absolute path, the nearest first, as
    [QDir::cdUp] goes through them; the root has none. *)
Definition ancestors (path : string) : list string :=
  above (rev (components path EmptyString)).

(** The search for the folder of the collection that contains the
    directory: its id, [-1] when a directory above is gone (the folder was
    removed), [None] when the root is reached. *)
Fixpoint watchedFolder (env : Environment) (t : Tables) (dir : string) (up : list string)
  : option Z :=
  match sql_select_folder dir t with
  | Some folder_id => Some folder_id
  | None =>
      match up with
      | [] => None
      | parent :: up' =>
          match directories env parent with
          | Some _ => watchedFolder env t parent up'
          | None => Some (-1)
          end
      end
  end.

Definition directoryChanged (env : Environment) (path : string) (db : Database) : Database :=
  match watchedFolder env (m_db db) path (ancestors path) with
  | None => db
  | Some folder_id =>
      (* clean the database, then rescan the documents of the folder *)
      let db := snd (cleanDB env db) in
      if folder_id =? -1 then db else scanDocuments env folder_id path db
  end.

(** [start], once the database is open and the index is loaded. *)
Definition start (env : Environment) (db : Database) : Database :=
  addCurrentFolders env (snd (cleanDB env db)).

(** ** Handlers, crashes and histories

    The slots of the database object run one at a time on its thread:
    the scan timer, the embeddings that come back, the folders added and
    removed, the changes of the settings and of the watched directories,
    and the start.  A crash may fall between any two effects of a
    handler; the process then starts again from what is on disk. *)

Inductive Handler :=
| ScanQueueBatch (env : Environment) (turns : nat)
| HandleEmbeddingsGenerated (accepts : EmbeddingResult -> bool)
    (embeddings : list EmbeddingResult)
| ScheduleUncompletedEmbeddings (folder_id : Z)
| EnqueueDocuments (infos : list DocumentInfo)
| RemoveFolder (collection path : string)
| Start (env : Environment)
| AddFolder (env : Environment) (collection path : string) (embedding_model : option string)
| ForceIndexing (env : Environment) (collection : string) (embedding_model : option string)
| CleanDB (env : Environment)
| ChangeChunkSize (env : Environment) (chunkSize : Z)
| ChangeFileExtensions (env : Environment) (extensions : list string)
| DirectoryChanged (env : Environment) (path : string).

Definition handle (h : Handler) (db : Database) : Database :=
  match h with
  | ScanQueueBatch env turns => scanQueueBatch env turns db
  | HandleEmbeddingsGenerated accepts embeddings =>
      handleEmbeddingsGenerated accepts embeddings db
  | ScheduleUncompletedEmbeddings folder_id => scheduleUncompletedEmbeddings folder_id db
  | EnqueueDocuments infos => enqueueDocuments infos db
  | RemoveFolder collection path => removeFolder collection path db
  | Start env => start env db
  | AddFolder env collection path embedding_model =>
      snd (addFolder env collection path embedding_model db)
  | ForceIndexing env collection embedding_model =>
      forceIndexing env collection embedding_model db
  | CleanDB env => snd (cleanDB env db)
  | ChangeChunkSize env chunkSize => changeChunkSize env chunkSize db
  | ChangeFileExtensions env extensions => changeFileExtensions env extensions db
  | DirectoryChanged env path => directoryChanged env path db
  end.

(** The effects a handler performs from a state. *)
Definition effects (h : Handler) (db : Database) : list Effect :=
  skipn (length (journal db)) (journal (handle h db)).

Inductive Event :=
| Run (h : Handler)                  (* the handler runs to its end *)
| Crash (h : Handler) (n : nat).     (* the process dies after [n] effects of it *)

Definition restart (db : Database) (performed : list Effect) : Database :=
  mkDatabase (recover (run_effects performed (m_world db))) (m_chunkSize db)
             (m_scannedFileExtensions db) [] [] (journal db ++ performed).

Definition after_event (db : Database) (ev : Event) : Database :=
  match ev with
  | Run h => handle h db
  | Crash h n => restart db (firstn n (effects h db))
  end.

Definition after (history : list Event) (db : Database) : Database :=
  fold_left after_event history db.

(** A chunk that is marked as embedded has its vector in the saved
    index, whatever happens next: the tables are taken as a crash would
    leave them. *)
Definition embedded_are_saved (w : World) : Prop :=
  forall c, In c (chunks (durable (sql w))) -> has_embedding c = true ->
            chunk_id c ∈ saved (index w).

(** What holds at every instant: the above, and the ids of the chunk
    table are distinct. *)
Definition crash_safe (w : World) : Prop :=
  embedded_are_saved w /\ NoDup (map chunk_id (chunks (durable (sql w)))).

(** A state between two handlers, as the handlers leave it: no
    transaction is open, the ids of the chunk table are distinct, and the
    chunks marked as embedded are in the index, in memory and on disk. *)
Record settled (w : World) : Prop := mkSettled {
  settled_closed : snapshot (sql w) = None;
  settled_ids    : NoDup (map chunk_id (chunks (tables (sql w))));
  settled_loaded : forall c, In c (chunks (tables (sql w))) -> has_embedding c = true ->
                             chunk_id c ∈ loaded (index w);
  settled_saved  : forall c, In c (chunks (tables (sql w))) -> has_embedding c = true ->
                             chunk_id c ∈ saved (index w)
}.

(** What the removal of chunks inside a transaction keeps, between the
    tables [t0] at its beginning, the tables [t] now and the ids
    [chunksToRemove] collected so far: a chunk marked as embedded was
    there, and marked, at the beginning; no id to remove is the id of a
    chunk marked as embedded; the ids are distinct. *)
Definition removal_sound (t0 t : Tables) (chunksToRemove : list Z) : Prop :=
  (forall c, In c (chunks t) -> has_embedding c = true -> In c (chunks t0)) /\
  (forall id c, In id chunksToRemove -> In c (chunks t) -> has_embedding c = true ->
                chunk_id c <> id) /\
  NoDup (map chunk_id (chunks t)).

Definition empty_tables : Tables := mkTables [] 0 [] [] [] [].

(** The database after [initDb] on an empty directory. *)
Definition initial (chunkSize : Z) (extensions : list string) : Database :=
  mkDatabase (mkWorld (mkSqlDb empty_tables None) (mkEmbeddings ∅ ∅)) chunkSize extensions
             [] [] [].

(** The extensions of the scenarios. *)
Definition text_and_pdf : list string := ["txt"; "pdf"]%string.

(** Kinds of effects. *)
Definition is_plain_write (e : Effect) : bool :=
  match e with
  | SqlInsertChunk _ | SqlInsertDocument _ _ _ | SqlUpdateDocumentTime _ _
  | SqlDeleteDocument _ | SqlDeleteFolder _ | SqlDeleteCollectionFolder _ _
  | SqlPruneCollections | SqlInsertFolder _ | SqlInsertCollection _ _
  | SqlInsertCollectionItem _ _ | SqlSetCollectionEmbeddingModel _ _ => true
  | _ => false
  end.

Definition is_write (e : Effect) : bool :=
  match e with
  | SqlDeleteChunks _ | SqlUpdateChunkHasEmbedding _ => true
  | _ => is_plain_write e
  end.

Definition is_send (e : Effect) : bool :=
  match e with
  | GenerateAsyncEmbeddings _ => true
  | _ => false
  end.

Definition is_index (e : Effect) : bool :=
  match e with
  | EmbeddingsAdd _ | EmbeddingsRemove _ | EmbeddingsSave => true
  | _ => false
  end.

(** The batches handed to the embedding backend. *)
Definition batches (es : list Effect) : list (list EmbeddingChunk) :=
  flat_map (fun e => match e with GenerateAsyncEmbeddings b => [b] | _ => [] end) es.

(** A property of the world that holds before and after every effect of a
    list. *)
Fixpoint always (Q : World -> Prop) (es : list Effect) (w : World) : Prop :=
  Q w /\
  match es with
  | [] => True
  | e :: es' => always Q es' (apply_effect e w)
  end.

(** The ordering claimed for a scan batch: every removal from the index
    comes after the commit. *)
Definition removals_follow_commit (es : list Effect) : Prop :=
  forall i j c, nth_error es i = Some (EmbeddingsRemove c) ->
                nth_error es j = Some SqlCommit -> (j < i)%nat.

(** A chunk belongs to a collection when its document lies in a folder of
    the collection ([collection_items]). *)
Definition belongs_to (t : Tables) (collection_names : list string) (c : ChunkRow) : bool :=
  existsb (fun d =>
    (document_id d =? chunk_document c) &&
    existsb (fun i =>
      (item_folder i =? document_folder d) &&
      existsb (fun col =>
        (collection_id col =? item_collection i) &&
        existsb (String.eqb (collection_name col)) collection_names)
        (collections t))
      (collection_items t))
    (documents t).

(** [db'] comes from [db] by performing the effects [es], in order. *)
Definition performed (es : list Effect) (db db' : Database) : Prop :=
  journal db' = journal db ++ es /\
  m_world db' = run_effects es (m_world db) /\
  m_chunkSize db' = m_chunkSize db.

(** The effects of scanning documents: writes to the tables, and batches
    sent to the embedding backend. *)
Definition scan_effect (e : Effect) : bool := is_write e || is_send e.

(** The save that follows a commit when chunks were removed. *)
Definition save_after (chunksToRemove : list Z) : list Effect :=
  match chunksToRemove with
  | [] => []
  | _ :: _ => [EmbeddingsSave]
  end.

(** The scan only writes to the tables and sends batches. *)
Definition scans (db0 db : Database) (chunksToRemove : list Z) : Prop :=
  exists es, performed es db0 db /\ Forall (fun e => scan_effect e = true) es.

(** The pending chunks are fewer than a batch, and no batch sent so far
    is larger than one. *)
Definition batch_bounded (db : Database) : Prop :=
  Z.of_nat (length (m_chunkList db)) < s_batchSize /\
  Forall (fun b => Z.of_nat (length b) <= s_batchSize) (batches (journal db)).

(** [db'] has the journal and the world that [db] has after the effects
    [es]. *)
Definition journaled (es : list Effect) (db db' : Database) : Prop :=
  journal db' = journal db ++ es /\
  m_world db' = run_effects es (m_world db).

(** A step from [db] to [db'] that keeps what the pipeline relies on: it
    is the work of effects that are in the journal; it keeps the bound on
    the batches; and from a settled state it is safe at every instant and
    ends in a settled state. *)
Definition sound (db db' : Database) : Prop :=
  exists es,
    journaled es db db' /\
    (batch_bounded db -> batch_bounded db') /\
    (settled (m_world db) ->
     always crash_safe es (m_world db) /\ settled (m_world db')).

(** The body of a transaction that removes chunks: whatever it does, it
    does by plain writes, by deleting the chunks of a document, whose ids
    it collects, and by changing the queue.  It is given the database in
    the open transaction and returns whether it succeeded, the database
    and the ids collected. *)
Definition removes (body : Database -> bool * Database * list Z) : Prop :=
  forall I : Database -> list Z -> Prop,
    (forall db R e, is_plain_write e = true -> I db R -> I (perform e db) R) ->
    (forall db R d,
       I db R ->
       I (perform (SqlDeleteChunks d) db)
         (R ++ sql_select_chunks_by_document d (m_db db))) ->
    (forall db R q, I db R -> I (set_docsToScan q db) R) ->
    forall db, I db [] -> I (snd (fst (body db))) (snd (body db)).

(** The frame that [removeFolder], [cleanDB] and [changeChunkSize] put
    around such a body. *)
Definition inTransaction (body : Database -> bool * Database * list Z) (db : Database)
  : Database :=
  let db := transaction db in
  let '(ok, db, chunksToRemove) := body db in
  if ok then
    let db := removeFromEmbeddings chunksToRemove db in
    let db := commit db in
    saveEmbeddingsIf chunksToRemove db
  else rollback db.

(** ** Scenarios *)

(** The scenario of the specification: collections "Work" and "Personal",
    three chunks of a document of "Work", two of "Personal", all five
    returned by the search for k = 5. *)
Definition scenario_chunk (id document : Z) (text : string) : ChunkRow :=
  mkChunkRow id document (qstr text) "notes.txt" "" "" "" "" (-1) (-1) (-1) 1 0 true.

Definition scenario_tables : Tables :=
  mkTables
    [scenario_chunk 1 1 "one"; scenario_chunk 2 1 "two"; scenario_chunk 3 1 "three";
     scenario_chunk 4 2 "four"; scenario_chunk 5 2 "five"] 5
    [mkCollectionRow 1 "Work" None (Some "model");
     mkCollectionRow 2 "Personal" None (Some "model")]
    [mkFolderRow 1 "/work"; mkFolderRow 2 "/personal"]
    [mkCollectionItemRow 1 1; mkCollectionItemRow 2 2]
    [mkDocumentRow 1 1 1000 "/work/notes.txt"; mkDocumentRow 2 2 1000 "/personal/notes.txt"].

Definition scenario_db : Database :=
  mkDatabase (mkWorld (mkSqlDb scenario_tables None)
                      (mkEmbeddings (list_to_set [1; 2; 3; 4; 5]) (list_to_set [1; 2; 3; 4; 5])))
             256 text_and_pdf [] [] [].

Definition scenario_retriever : Retriever :=
  mkRetriever true (fun _ => [0]) (fun _ _ => [1; 2; 3; 4; 5]).

Definition empty_index_retriever : Retriever :=
  mkRetriever true (fun _ => [0]) (fun _ _ => []).

(** The file of the scenario, as named in the scan queue of folder 1. *)
Definition notes_info : DocumentInfo := mkDocumentInfo 1 "/work/notes.txt" 0 0 false.

Definition one_file (path : string) (entry : FileEntry) : Environment :=
  mkEnvironment (fun p => if String.eqb p path then Some entry else None)
                (fun _ => None) QTEXTSTREAM_BUFFERSIZE.

Definition with_queue (q : Queue) (db : Database) : Database := set_docsToScan q db.

(** The file was modified after it was indexed. *)
Definition modified_env : Environment :=
  one_file "/work/notes.txt"
    (mkFileEntry true 2000 "notes.txt" (TextFile (mkQFile (qstr "alpha beta") false))).

(** The file is as it was when it was indexed. *)
Definition unmodified_env : Environment :=
  one_file "/work/notes.txt"
    (mkFileEntry true 1000 "notes.txt" (TextFile (mkQFile (qstr "one two three") false))).

Definition rescan_db : Database := with_queue [(1, [notes_info])] scenario_db.

(** A document of the queue that needs no scan: it is readable, not in
    the middle of a scan, and recorded with the modification time it has
    on disk. *)
Definition unchanged (env : Environment) (t : Tables) (info : DocumentInfo) : Prop :=
  currentlyProcessing info = false /\
  exists entry d,
    files env (doc info) = Some entry /\ readable entry = true /\
    sql_select_document (doc info) t = Some d /\
    document_id d <> -1 /\ document_time d = mtime entry.

Definition all_unchanged (env : Environment) (t : Tables) (q : Queue) : Prop :=
  Forall (fun kq => Forall (unchanged env t) (snd kq)) q.

Definition idles (db0 db : Database) : Prop :=
  exists es, performed es db0 db /\ Forall (fun e => is_send e = true) es.

(** What [handleEmbeddingsGenerated] does once the points are added. *)
Definition mark_after_save (chunksToAdd : list Z) : list Effect :=
  match chunksToAdd with
  | [] => []
  | _ :: _ =>
      EmbeddingsSave :: SqlTransaction ::
      map SqlUpdateChunkHasEmbedding chunksToAdd ++ [SqlCommit]
  end.

(** The effects of [removeFolder] after its writes: the removals, the
    commit and the save, or the rollback. *)
Definition conclude (ok : bool) (chunksToRemove : list Z) : list Effect :=
  if ok then map EmbeddingsRemove chunksToRemove ++ SqlCommit :: save_after chunksToRemove
  else [SqlRollback].

(** A chunk of a document of the folder [f]. *)
Definition in_folder (t : Tables) (f : Z) (c : ChunkRow) : Prop :=
  exists d, In d (documents t) /\ document_folder d = f /\
            document_id d = chunk_document c.

(** The scenario of the specification for folder removal: collection
    "Work" has the folders A and B, each with a document of one chunk. *)
Definition two_folder_tables : Tables :=
  mkTables
    [scenario_chunk 1 1 "one"; scenario_chunk 2 2 "two"] 2
    [mkCollectionRow 1 "Work" None (Some "model")]
    [mkFolderRow 1 "/A"; mkFolderRow 2 "/B"]
    [mkCollectionItemRow 1 1; mkCollectionItemRow 1 2]
    [mkDocumentRow 1 1 1000 "/A/a.txt"; mkDocumentRow 2 2 1000 "/B/b.txt"].

Definition two_folder_db : Database :=
  mkDatabase (mkWorld (mkSqlDb two_folder_tables None)
                      (mkEmbeddings (list_to_set [1; 2]) (list_to_set [1; 2])))
             256 text_and_pdf [] [] [].

(** A new text file whose first block of [QTEXTSTREAM_BUFFERSIZE] bytes
    is plain text (1024 times a word of 15 letters and a space) and whose
    next byte is 0x01, in a database that has not seen the file. *)
Definition clean_block : QString := concat (repeat (qstr "abcdefghijklmno ") 1024).

Definition binary_file : QFile := mkQFile (clean_block ++ [ascii_of_nat 1]) false.

Definition binary_info : DocumentInfo := mkDocumentInfo 1 "/work/blob.txt" 0 0 false.

Definition binary_env : Environment :=
  one_file "/work/blob.txt" (mkFileEntry true 3000 "blob.txt" (TextFile binary_file)).

Definition binary_db : Database := with_queue [(1, [binary_info])] (initial 256 text_and_pdf).

(** The same bytes with the byte 0x01 in front, in the first block. *)
Definition binary_head_file : QFile := mkQFile (ascii_of_nat 1 :: clean_block) false.

Definition binary_head_env : Environment :=
  one_file "/work/blob.txt" (mkFileEntry true 3000 "blob.txt" (TextFile binary_head_file)).

(** The file of the scenario, known to the tables, rewritten with the
    bytes of [binary_file]. *)
Definition binary_known_env : Environment :=
  one_file "/work/notes.txt" (mkFileEntry true 2000 "notes.txt" (TextFile binary_file)).

(** The ids removed from the index by a list of effects. *)
Definition removals (es : list Effect) : list Z :=
  flat_map (fun e => match e with EmbeddingsRemove c => [c] | _ => [] end) es.

Definition is_delete_chunks (e : Effect) : bool :=
  match e with
  | SqlDeleteChunks _ => true
  | _ => false
  end.

(** Effects that leave what is on disk alone while a transaction is open:
    writes to the tables, batches sent, and changes of the index in
    memory. *)
Definition volatile (e : Effect) : bool :=
  match e with
  | EmbeddingsAdd _ | EmbeddingsRemove _ => true
  | _ => is_write e || is_send e
  end.

(** Effects that change nothing but the index in memory. *)
Definition memory_only (e : Effect) : bool :=
  match e with
  | EmbeddingsAdd _ | EmbeddingsRemove _ | GenerateAsyncEmbeddings _ => true
  | _ => false
  end.

(** ** Notions of the properties of Part III *)

(** The words of a text: its maximal runs of characters that are not
    white space, in order; [word] is the run that is being read. *)
Fixpoint words_from (l : QString) (word : QString) : list QString :=
  match l with
  | [] =>
      match word with
      | [] => []
      | _ :: _ => [word]
      end
  | c :: r =>
      if isSpace c then
        match word with
        | [] => words_from r []
        | _ :: _ => word :: words_from r []
        end
      else words_from r (word ++ [c])
  end.

(** The words of a whole text. *)
Definition wordsOf (text : QString) : list QString := words_from text [].

(** A word as [stream >> word] gives it: not empty, and without white
    space. *)
Definition wordlike (w : QString) : Prop :=
  w <> [] /\ Forall (fun c => isSpace c = false) w.

(** The queue is a [QMap]: its keys are in increasing order, each once;
    the code keeps the queue of every key non-empty. *)
Fixpoint queue_ok (m : Queue) : Prop :=
  match m with
  | [] => True
  | (k, q) :: rest => q <> [] /\ Forall (fun kq => k < fst kq) rest /\ queue_ok rest
  end.

(** The chunks handed over for embedding so far, in order: those of the
    batches sent, and those still pending. *)
Definition handed (db : Database) : list EmbeddingChunk :=
  concat (batches (journal db)) ++ m_chunkList db.

(** The rows of the chunk table for the chunks of a document, numbered
    from [id]. *)
Fixpoint chunkRows (document_id : Z) (file title author subject keywords : string)
    (page id : Z) (chunks : list (list QString)) : list ChunkRow :=
  match chunks with
  | [] => []
  | words :: rest =>
      mkChunkRow id document_id (join (qstr " ") words) file title author subject keywords
        page (-1) (-1) (Z.of_nat (length words)) 0 false
      :: chunkRows document_id file title author subject keywords page (id + 1) rest
  end.

(** What is handed over for embedding for a row of the chunk table,
    with the folder of its document. *)
Definition toEmbed (folder_id : Z) (c : ChunkRow) : EmbeddingChunk :=
  mkEmbeddingChunk folder_id (chunk_id c) (chunk_text c).

(** The ids that [handleEmbeddingsGenerated] takes from the results it
    is given: those of the results whose chunk is in the table and whose
    point the index accepts, in the order of the results. *)
Definition chunksToAdd (accepts : EmbeddingResult -> bool) (t : Tables)
    (embeddings : list EmbeddingResult) : list Z :=
  map er_chunk_id
    (List.filter (fun e => existsb (fun c => chunk_id c =? er_chunk_id e) (chunks t)
                           && accepts e) embeddings).

(** A document that [cleanDB] has a reason to remove: its file is not
    there, not readable or not of a scanned extension, or its folder is
    the folder of a collection whose directory is not there. *)
Definition gone (env : Environment) (db : Database) (cs : list CollectionItem)
    (y : DocumentRow) : Prop :=
  keepsDocument env db (document_path y) = false \/
  exists i, In i cs /\ ci_folder_id i = document_folder y /\
            directories env (ci_folder_path i) = None.

(** The state of [cleanDB] inside its transaction, once the documents
    [ids] are removed: the chunks and the documents that are left, the
    ids of the chunks collected, and why each document was removed. *)
Definition cleaned (env : Environment) (db : Database) (cs : list CollectionItem)
    (ids : list Z) (d : Database) (R : list Z) : Prop :=
  (forall c, In c (chunks (m_db d)) <->
             In c (chunks (m_db db)) /\ ~ In (chunk_document c) ids) /\
  (forall x, In x (documents (m_db d)) <->
             In x (documents (m_db db)) /\ ~ In (document_id x) ids) /\
  (forall i, In i R <->
             exists c, In c (chunks (m_db db)) /\ In (chunk_document c) ids /\ chunk_id c = i) /\
  (forall i, In i ids ->
             exists y, In y (documents (m_db db)) /\ document_id y = i /\ gone env db cs y) /\
  m_embeddings d = m_embeddings db /\
  m_scannedFileExtensions d = m_scannedFileExtensions db.

(** The directory of "Work" and its file are there; the directory of
    "Personal" is gone. *)
Definition work_env : Environment :=
  mkEnvironment
    (fun p => if String.eqb p "/work/notes.txt"
              then Some (mkFileEntry true 1000 "notes.txt"
                           (TextFile (mkQFile (qstr "one two three") false)))
              else None)
    (fun p => if String.eqb p "/work" then Some ["/work/notes.txt"%string] else None)
    QTEXTSTREAM_BUFFERSIZE.

(** What links a folder to a collection in the tables [t]. *)
Definition linked (collection path : string) (t : Tables) : Prop :=
  exists f cid, f <> -1 /\ sql_select_folder path t = Some f /\
                collection_id_of collection t = Some cid /\
                has_collection_item cid f t = true.

(** The ids of the documents table are distinct and positive, as those
    of a primary key that SQLite assigns. *)
Definition distinct_positive (t : Tables) : Prop :=
  NoDup (map document_id (documents t)) /\ Forall (fun d => 0 < document_id d) (documents t).

(** The same of the tables and of the tables that a rollback or a crash
    would bring back. *)
Definition document_keys (w : World) : Prop :=
  distinct_positive (tables (sql w)) /\
  match snapshot (sql w) with
  | Some t => distinct_positive t
  | None => True
  end.

(* ===================================================================== *)
(** * Part II: properties *)
(* ===================================================================== *)

(** ** The text stream *)

Lemma skipSpace_length l : (length (skipSpace l) <= length l)%nat.
Proof. induction l as [|c r IH]; simpl; [lia|]. destruct (isSpace c); simpl; lia. Qed.

Lemma skipSpace_head l :
  match skipSpace l with [] => True | c :: _ => isSpace c = false end.
Proof.
  induction l as [|c r IH]; simpl; [exact I|].
  destruct (isSpace c) eqn:E; [exact IH | exact E].
Qed.

Lemma scanToken_length l :
  (length (fst (scanToken l)) + length (snd (scanToken l)) = length l)%nat.
Proof.
  induction l as [|c r IH]; simpl; [reflexivity|].
  destruct (isSpace c); simpl; [reflexivity|].
  destruct (scanToken r) as [w r']; simpl in *. lia.
Qed.

Lemma scanToken_nonspace c r :
  isSpace c = false -> fst (scanToken (c :: r)) <> [].
Proof.
  intros E. simpl. rewrite E. destruct (scanToken r); simpl. discriminate.
Qed.

(** What one [stream >> word] does, case by case. *)
Lemma readWord_spec s :
  let '(word, s') := readWord s in
  ending s' = ending s /\
  pos s' - pos s = Z.of_nat (length (unread s)) - Z.of_nat (length (unread s')) /\
  match word with
  | [] => unread s' = [] /\ status s' = ReadPastEnd
  | _ :: _ => status s' = status s /\ (length (unread s') < length (unread s))%nat
  end.
Proof.
  unfold readWord.
  pose proof (skipSpace_length (unread s)) as Hlen.
  pose proof (skipSpace_head (unread s)) as Hhead.
  pose proof (scanToken_length (skipSpace (unread s))) as Htok.
  destruct (skipSpace (unread s)) as [|c r] eqn:Hs.
  - simpl. repeat split; simpl; lia.
  - pose proof (scanToken_nonspace c r Hhead) as Hne.
    destruct (scanToken (c :: r)) as [w r'] eqn:Ht. simpl in Hne, Htok.
    destruct w as [|a w]; [congruence|].
    simpl in *. repeat split; simpl; lia.
Qed.

Lemma readWord_progress s w s' :
  readWord s = (w, s') -> status_set s' = false ->
  (length (unread s') < length (unread s))%nat /\ w <> [] /\ status s' = Ok.
Proof.
  intros E Hst. pose proof (readWord_spec s) as H. rewrite E in H.
  destruct H as (_ & _ & H). unfold status_set in Hst.
  destruct w as [|a w].
  - destruct H as [_ H]. rewrite H in Hst. discriminate.
  - destruct H as [H1 H2]. split; [exact H2|]. split; [discriminate|].
    destruct (status s'); [reflexivity | discriminate].
Qed.

Section LoopFacts.
Context {St : Type}.
Variable B : Z.
Variable F : list QString -> St -> St.
Variable m : Z.

Lemma chunkLoop_total fuel s ws cc c aw st :
  (length (unread s) < fuel)%nat ->
  exists r, chunkLoop B F m fuel s ws cc c aw st = Some r.
Proof.
  revert s ws cc c aw st.
  induction fuel as [|fuel IH]; intros s ws cc c aw st Hlt; [lia|].
  simpl. destruct (readWord s) as [w s'] eqn:E.
  destruct (status_set s' && negb (atEnd s')); [eauto|].
  destruct (status_set s') eqn:Hst; simpl.
  - destruct (match w with [] => ws | _ :: _ => ws ++ [w] end); eauto.
  - destruct (readWord_progress s w s' E Hst) as (Hlen & _ & _).
    destruct (B <=? _).
    + destruct (match w with [] => ws | _ :: _ => ws ++ [w] end).
      * destruct (_ && _); [eauto|]. apply IH. lia.
      * destruct (_ && _); [eauto|]. apply IH. lia.
    + apply IH. lia.
Qed.

Lemma chunkLoop_fuel fuel fuel' s ws cc c aw st r :
  chunkLoop B F m fuel s ws cc c aw st = Some r -> (fuel <= fuel')%nat ->
  chunkLoop B F m fuel' s ws cc c aw st = Some r.
Proof.
  revert fuel' s ws cc c aw st.
  induction fuel as [|fuel IH]; intros fuel' s ws cc c aw st H Hle; [discriminate|].
  destruct fuel' as [|fuel']; [lia|].
  simpl in *. destruct (readWord s) as [w s'].
  destruct (status_set s' && negb (atEnd s')); [exact H|].
  destruct (status_set s' || (B <=? _)).
  - destruct (match w with [] => ws | _ :: _ => ws ++ [w] end).
    + destruct (status_set s' || _); [exact H|]. apply IH; [exact H|lia].
    + destruct (status_set s' || _); [exact H|]. apply IH; [exact H|lia].
  - apply IH; [exact H|lia].
Qed.
End LoopFacts.

(** The loop with any flush action is the loop that only collects the
    chunks, followed by the action on each chunk in order. *)
Lemma chunkLoop_replay {St} B (F : list QString -> St -> St) m fuel s ws cc c aw st0 acc :
  chunkLoop B F m fuel s ws cc c aw (replay F acc st0) =
  option_map (fun r => mkChunkResult (ret r) (nchunks r) (nwords r)
                         (replay F (final_state r) st0))
             (chunkLoop B collect m fuel s ws cc c aw acc).
Proof.
  revert s ws cc c aw acc.
  induction fuel as [|fuel IH]; intros s ws cc c aw acc; [reflexivity|].
  simpl. destruct (readWord s) as [w s'].
  destruct (status_set s' && negb (atEnd s')); [reflexivity|].
  assert (Hflush : forall ws', F ws' (replay F acc st0) = replay F (collect ws' acc) st0).
  { intros ws'. unfold replay, collect. rewrite fold_left_app. reflexivity. }
  destruct (status_set s' || (B <=? _)).
  - destruct (match w with [] => ws | _ :: _ => ws ++ [w] end) as [|w1 ws1].
    + destruct (status_set s' || _); [reflexivity|]. apply IH.
    + rewrite Hflush. destruct (status_set s' || _); [reflexivity|]. apply IH.
  - apply IH.
Qed.

Lemma charsOf_app ws w : charsOf (ws ++ [w]) = charsOf ws + Z.of_nat (length w).
Proof. induction ws as [|x ws IH]; simpl; [lia|]. rewrite IH. lia. Qed.

Lemma extent_snoc ws w : extent (ws ++ [w]) = extent ws + Z.of_nat (length w) + 1.
Proof. unfold extent. rewrite charsOf_app, length_app. simpl. lia. Qed.

Lemma closes_on_budget_snoc B ws w :
  ws = [] \/ extent ws < B -> closes_on_budget B (ws ++ [w]).
Proof.
  intros H. split; [destruct ws; discriminate|].
  rewrite removelast_last. destruct H as [-> | H]; [left; reflexivity | right; exact H].
Qed.

Lemma closes_on_budget_below B ws :
  ws <> [] -> extent ws < B -> closes_on_budget B ws.
Proof.
  intros Hne H. split; [exact Hne|].
  destruct (exists_last Hne) as (ws' & w & ->).
  rewrite removelast_last. rewrite extent_snoc in H.
  destruct ws' as [|x ws']; [left; reflexivity|right; lia].
Qed.

Lemma chunkLoop_budget B m fuel s ws cc c aw acc r :
  cc = charsOf ws -> ws = [] \/ extent ws < B ->
  Forall (closes_on_budget B) acc ->
  chunkLoop B collect m fuel s ws cc c aw acc = Some r ->
  Forall (closes_on_budget B) (final_state r).
Proof.
  revert s ws cc c aw acc r.
  induction fuel as [|fuel IH]; intros s ws cc c aw acc r Hcc Hws Hacc H; [discriminate|].
  simpl in H. destruct (readWord s) as [w s'].
  destruct (status_set s' && negb (atEnd s')).
  { injection H as <-. exact Hacc. }
  set (ws1 := match w with [] => ws | _ :: _ => ws ++ [w] end) in *.
  assert (Hcc1 : cc + Z.of_nat (length w) = charsOf ws1).
  { subst ws1 cc. destruct w; [simpl; lia | rewrite charsOf_app; reflexivity]. }
  assert (Hflush : ws1 <> [] -> closes_on_budget B ws1).
  { subst ws1. destruct w as [|a w]; intros Hne.
    - destruct Hws as [-> | Hws]; [congruence|]. apply closes_on_budget_below; assumption.
    - apply closes_on_budget_snoc. exact Hws. }
  destruct (status_set s' || (B <=? cc + Z.of_nat (length w) + Z.of_nat (length ws1) - 1)) eqn:E1.
  - destruct ws1 as [|w1 ws1'] eqn:Ews.
    + destruct (status_set s' || (_ && _)).
      * injection H as <-. exact Hacc.
      * eapply IH; cycle 3; [exact H | simpl in Hcc1 |- *; lia | left; reflexivity | exact Hacc].
    + assert (Hacc' : Forall (closes_on_budget B) (collect (w1 :: ws1') acc)).
      { unfold collect. apply Forall_app. split; [exact Hacc|].
        constructor; [apply Hflush; discriminate | constructor]. }
      destruct (status_set s' || (_ && _)).
      * injection H as <-. exact Hacc'.
      * eapply IH; cycle 3; [exact H | reflexivity | left; reflexivity | exact Hacc'].
  - apply orb_false_iff in E1 as [_ E1]. apply Z.leb_gt in E1.
    eapply IH; cycle 3; [exact H | exact Hcc1 | | exact Hacc].
    right. unfold extent. lia.
Qed.

(** ** Resuming a stream at a returned position *)

Lemma skipSpace_suffix l :
  exists k, skipSpace l = skipn k l /\ (length (skipSpace l) + k = length l)%nat.
Proof.
  induction l as [|c r (k & IH1 & IH2)]; simpl; [exists 0%nat; split; reflexivity|].
  destruct (isSpace c).
  - exists (S k). split; [exact IH1 | lia].
  - exists 0%nat. split; [reflexivity | simpl; lia].
Qed.

Lemma scanToken_suffix l :
  snd (scanToken l) = skipn (length (fst (scanToken l))) l.
Proof.
  induction l as [|c r IH]; simpl; [reflexivity|].
  destruct (isSpace c); simpl; [reflexivity|].
  destruct (scanToken r) as [w r']; simpl in *. exact IH.
Qed.

Lemma readWord_suffix s :
  exists k, unread (snd (readWord s)) = skipn k (unread s) /\
            pos (snd (readWord s)) = pos s + Z.of_nat k.
Proof.
  unfold readWord.
  destruct (skipSpace_suffix (unread s)) as (k & Hk & Hlen).
  pose proof (scanToken_suffix (skipSpace (unread s))) as Hs.
  pose proof (scanToken_length (skipSpace (unread s))) as Hl.
  destruct (scanToken (skipSpace (unread s))) as [w r'] eqn:E. simpl in Hs, Hl.
  destruct w as [|a w]; simpl.
  - exists k. split; [exact Hk | lia].
  - exists (S (length w) + k)%nat. split.
    + rewrite Hs, Hk. simpl length. rewrite skipn_skipn. reflexivity.
    + simpl in Hl. lia.
Qed.

Lemma positioned_streamAt text p : 0 <= p -> positioned text (streamAt text p).
Proof. intros Hp. repeat split; simpl; assumption. Qed.

Lemma positioned_readWord text s w s' :
  positioned text s -> readWord s = (w, s') -> positioned text s'.
Proof.
  intros (Hu & Hp & He) E.
  destruct (readWord_suffix s) as (k & Hk1 & Hk2). rewrite E in Hk1, Hk2. simpl in Hk1, Hk2.
  pose proof (readWord_spec s) as Hspec. rewrite E in Hspec. destruct Hspec as (He' & _).
  repeat split; [|lia|congruence].
  rewrite Hk1, Hu, skipn_skipn. f_equal. lia.
Qed.

Lemma streamAt_pos text s :
  positioned text s -> status s = Ok -> streamAt text (pos s) = s.
Proof.
  intros (Hu & Hp & He) Hs. destruct s as [u e p st]; simpl in *.
  unfold streamAt. subst. reflexivity.
Qed.

Lemma positioned_no_failure text s w s' :
  positioned text s -> status s = Ok -> readWord s = (w, s') ->
  status_set s' && negb (atEnd s') = false.
Proof.
  intros Hp Hok E. pose proof (positioned_readWord _ _ _ _ Hp E) as (_ & _ & He).
  pose proof (readWord_spec s) as Hspec. rewrite E in Hspec. destruct Hspec as (_ & _ & Hw).
  unfold status_set, atEnd. rewrite He.
  destruct w as [|a w].
  - destruct Hw as [-> ->]. reflexivity.
  - destruct Hw as [-> _]. rewrite Hok. reflexivity.
Qed.

(** Without a cap, the counters [chunks] and [addedWords] do not steer the
    loop. *)
Lemma chunkLoop_uncapped_counters {St} B (F : list QString -> St -> St) u fuel s ws cc c aw c' aw' st :
  u <= 0 ->
  option_map view (chunkLoop B F u fuel s ws cc c aw st) =
  option_map view (chunkLoop B F u fuel s ws cc c' aw' st).
Proof.
  intros Hu. revert s ws cc c aw c' aw' st.
  induction fuel as [|fuel IH]; intros s ws cc c aw c' aw' st; [reflexivity|].
  simpl. destruct (readWord s) as [w s'].
  destruct (status_set s' && negb (atEnd s')); [reflexivity|].
  assert (Hcap : (0 <? u) = false) by (apply Z.ltb_ge; exact Hu).
  rewrite Hcap. simpl andb.
  destruct (status_set s' || (B <=? _)).
  - destruct (match w with [] => ws | _ :: _ => ws ++ [w] end).
    + destruct (status_set s' || false); [reflexivity|]. apply IH.
    + destruct (status_set s' || false); [reflexivity|]. apply IH.
  - apply IH.
Qed.

Lemma replay_collect chunks acc : replay collect chunks acc = acc ++ chunks.
Proof.
  revert acc. induction chunks as [|c chunks IH]; intros acc.
  - simpl. rewrite app_nil_r. reflexivity.
  - change (replay collect (c :: chunks) acc) with (replay collect chunks (collect c acc)).
    rewrite IH. unfold collect. rewrite <- app_assoc. reflexivity.
Qed.

Lemma chunkLoop_collect_prefix B m fuel s ws cc c aw acc :
  option_map view (chunkLoop B collect m fuel s ws cc c aw acc) =
  option_map (fun v => (fst v, acc ++ snd v))
             (option_map view (chunkLoop B collect m fuel s ws cc c aw [])).
Proof.
  pose proof (chunkLoop_replay B collect m fuel s ws cc c aw acc []) as H.
  simpl in H. rewrite H.
  destruct (chunkLoop B collect m fuel s ws cc c aw []) as [r|]; simpl; [|reflexivity].
  unfold view. simpl. rewrite replay_collect. reflexivity.
Qed.

(** An exhausted stream gives no further chunk. *)
Lemma chunkWords_exhausted B m s :
  unread s = [] -> ending s = EndOfData ->
  exists r, chunkWords B m s = Some r /\ final_state r = [].
Proof.
  intros Hu He. unfold chunkWords, chunkRun. rewrite Hu. simpl.
  unfold readWord. rewrite Hu. simpl.
  unfold status_set, atEnd. simpl. rewrite He. simpl. eauto.
Qed.

Lemma chunkLoop_split text B m u fuel s ws cc c aw acc r1 :
  u <= 0 -> positioned text s -> status s = Ok ->
  (length (unread s) < fuel)%nat ->
  chunkLoop B collect m fuel s ws cc c aw acc = Some r1 ->
  exists r2 r,
    chunkWords B u (streamAt text (ret r1)) = Some r2 /\
    chunkLoop B collect u fuel s ws cc c aw acc = Some r /\
    final_state r = final_state r1 ++ final_state r2.
Proof.
  intros Hu. revert s ws cc c aw acc r1.
  induction fuel as [|fuel IH]; intros s ws cc c aw acc r1 Hpos Hok Hlt H; [discriminate|].
  simpl in H |- *.
  destruct (readWord s) as [w s'] eqn:E.
  rewrite (positioned_no_failure _ _ _ _ Hpos Hok E) in H |- *.
  pose proof (positioned_readWord _ _ _ _ Hpos E) as Hpos'.
  assert (Hcap : (0 <? u) = false) by (apply Z.ltb_ge; exact Hu).
  rewrite Hcap. simpl andb.
  destruct (status_set s') eqn:Hst.
  - (* the stream is exhausted: both runs stop here *)
    simpl orb in H |- *.
    assert (Hu' : unread s' = []).
    { pose proof (readWord_spec s) as Hspec. rewrite E in Hspec.
      destruct Hspec as (_ & _ & Hw). destruct w as [|a w]; [apply Hw|].
      destruct Hw as [Hw _]. unfold status_set in Hst. rewrite Hw, Hok in Hst. discriminate. }
    assert (Hex : forall p, p = pos s' ->
              exists r2, chunkWords B u (streamAt text p) = Some r2 /\ final_state r2 = []).
    { intros p ->. apply chunkWords_exhausted; [|reflexivity].
      simpl. destruct Hpos' as (Hx & _). rewrite <- Hx. exact Hu'. }
    destruct (match w with [] => ws | _ :: _ => ws ++ [w] end) as [|w1 ws1];
      injection H as <-; simpl;
      destruct (Hex _ eq_refl) as (r2 & Hr2 & Hnil);
      eexists r2, _; (split; [exact Hr2|]); (split; [reflexivity|]);
      simpl; rewrite Hnil, app_nil_r; reflexivity.
  - destruct (readWord_progress s w s' E Hst) as (Hlen & Hne & Hok').
    simpl orb in H |- *.
    destruct (B <=? _).
    + destruct (match w with [] => ws | _ :: _ => ws ++ [w] end) as [|w1 ws1] eqn:Ews.
      { destruct w; [congruence | destruct ws; discriminate]. }
      destruct ((0 <? m) && (c + 1 =? m)).
      * (* the capped run stops; the uncapped one goes on from the same point *)
        injection H as <-. simpl.
        rewrite (streamAt_pos _ _ Hpos' Hok').
        destruct (chunkLoop_total B collect u (S (length (unread s'))) s' [] 0 0 0 [])
          as (r2 & Hr2); [lia|].
        destruct (chunkLoop_total B collect u fuel s' [] 0 (c + 1)
                    (aw + Z.of_nat (length (w1 :: ws1))) (collect (w1 :: ws1) acc))
          as (r & Hr); [lia|].
        exists r2, r. split; [exact Hr2|]. split; [exact Hr|].
        pose proof (chunkLoop_collect_prefix B u fuel s' [] 0 (c + 1)
                      (aw + Z.of_nat (length (w1 :: ws1))) (collect (w1 :: ws1) acc)) as H1.
        rewrite (chunkLoop_uncapped_counters B collect u fuel s' [] 0 (c + 1)
                   (aw + Z.of_nat (length (w1 :: ws1))) 0 0 [] Hu) in H1.
        rewrite Hr in H1.
        rewrite (chunkLoop_fuel B collect u _ fuel _ _ _ _ _ _ _ Hr2) in H1 by lia.
        simpl in H1. injection H1 as _ H1. exact H1.
      * apply IH; [exact Hpos' | exact Hok' | lia | exact H].
    + apply IH; [exact Hpos' | exact Hok' | lia | exact H].
Qed.

(** C8. Chunking a text in two slices, the first stopped after
    [maxChunks] chunks and the second resumed at the position the first
    returned, gives the chunks of one pass without cap, in the same
    order; all three runs return. *)
Theorem resume_two_slices (text : QString) (budget maxChunks uncapped : Z)
    (Huncapped : uncapped <= 0) :
  exists first second whole,
    chunkWords budget maxChunks (streamAt text 0) = Some first /\
    chunkWords budget uncapped (streamAt text (ret first)) = Some second /\
    chunkWords budget uncapped (streamAt text 0) = Some whole /\
    final_state whole = final_state first ++ final_state second.
Proof.
  destruct (chunkLoop_total budget collect maxChunks
              (S (length (unread (streamAt text 0)))) (streamAt text 0) [] 0 0 0 [])
    as (first & Hfirst); [lia|].
  destruct (chunkLoop_split text budget maxChunks uncapped _ _ _ _ _ _ _ first Huncapped
              (positioned_streamAt text 0 (Z.le_refl 0)) eq_refl
              (Nat.lt_succ_diag_r _) Hfirst)
    as (second & whole & H2 & Hw & Hcat).
  exists first, second, whole. repeat split; assumption.
Qed.

Lemma resume_two_slices_witness :
  defaultMaxChunks <= 0 /\
  exists first second whole,
    chunkWords 10 1 (streamAt (qstr "alpha beta gamma delta epsilon") 0) = Some first /\
    chunkWords 10 defaultMaxChunks
      (streamAt (qstr "alpha beta gamma delta epsilon") (ret first)) = Some second /\
    chunkWords 10 defaultMaxChunks
      (streamAt (qstr "alpha beta gamma delta epsilon") 0) = Some whole /\
    final_state whole = final_state first ++ final_state second.
Proof.
  split; [unfold defaultMaxChunks; lia|].
  apply (resume_two_slices (qstr "alpha beta gamma delta epsilon") 10 1 defaultMaxChunks).
  unfold defaultMaxChunks. lia.
Defined.

(** [chunkStream] always comes out of its loop: what it returns and the
    state it leaves are those of the run that only collects the chunks,
    with every chunk then inserted and handed over, in order. *)
Lemma chunkStream_returns stream f d file title author subject keywords page cap db :
  exists r,
    chunkWords (m_chunkSize db) cap stream = Some r /\
    chunkStream stream f d file title author subject keywords page cap db =
      (ret r, replay (flushChunk f d file title author subject keywords page)
                     (final_state r) db).
Proof.
  destruct (chunkLoop_total (m_chunkSize db) collect cap
              (S (length (unread stream))) stream [] 0 0 0 []) as (r & Hr); [lia|].
  exists r. split; [exact Hr|].
  unfold chunkStream, chunkRun.
  pose proof (chunkLoop_replay (m_chunkSize db)
                (flushChunk f d file title author subject keywords page) cap
                (S (length (unread stream))) stream [] 0 0 0 db []) as Hrep.
  simpl replay in Hrep. rewrite Hrep, Hr. reflexivity.
Qed.

Lemma flushChunk_chunkSize f d file title author subject keywords page ws db :
  m_chunkSize (flushChunk f d file title author subject keywords page ws db) = m_chunkSize db.
Proof.
  unfold flushChunk, addChunk, appendChunk, sendChunkList. simpl.
  destruct (s_batchSize <=? _); reflexivity.
Qed.

Lemma replay_chunkSize f d file title author subject keywords page chunks db :
  m_chunkSize (replay (flushChunk f d file title author subject keywords page) chunks db)
    = m_chunkSize db.
Proof.
  revert db. induction chunks as [|ws chunks IH]; intros db; [reflexivity|].
  simpl. rewrite IH. apply flushChunk_chunkSize.
Qed.

Lemma replay_app {St} (F : list QString -> St -> St) l1 l2 st :
  replay F (l1 ++ l2) st = replay F l2 (replay F l1 st).
Proof. apply fold_left_app. Qed.

(** X5. The scan of a text in two slices, as [scanQueue] makes them:
    a call of [chunkStream] with a cap, followed by a call without cap at
    the position the first returned, leaves the database (its tables,
    the chunks pending and the batches sent) as one call without cap
    over the whole text does. *)
Lemma chunkStream_resumes text f d file title author subject keywords page cap uncapped db :
  uncapped <= 0 ->
  let slice := chunkStream (streamAt text 0) f d file title author subject keywords page
                 cap db in
  snd (chunkStream (streamAt text (fst slice)) f d file title author subject keywords page
         uncapped (snd slice)) =
  snd (chunkStream (streamAt text 0) f d file title author subject keywords page
         uncapped db).
Proof.
  intros Hu. cbv zeta.
  destruct (chunkLoop_total (m_chunkSize db) collect cap
              (S (length (unread (streamAt text 0)))) (streamAt text 0) [] 0 0 0 [])
    as (first & Hfirst); [lia|].
  destruct (chunkLoop_split text (m_chunkSize db) cap uncapped _ _ _ _ _ _ _ first Hu
              (positioned_streamAt text 0 (Z.le_refl 0)) eq_refl
              (Nat.lt_succ_diag_r _) Hfirst)
    as (second & whole & H2 & Hw & Hcat).
  destruct (chunkStream_returns (streamAt text 0) f d file title author subject keywords
              page cap db) as (r1 & Hr1 & ->).
  unfold chunkWords, chunkRun in Hr1. rewrite Hfirst in Hr1. injection Hr1 as <-.
  simpl fst. simpl snd.
  destruct (chunkStream_returns (streamAt text (ret first)) f d file title author subject
              keywords page uncapped
              (replay (flushChunk f d file title author subject keywords page)
                      (final_state first) db)) as (r2 & Hr2 & ->).
  rewrite replay_chunkSize in Hr2.
  destruct (chunkStream_returns (streamAt text 0) f d file title author subject keywords
              page uncapped db) as (r & Hr & ->).
  simpl snd.
  rewrite H2 in Hr2. injection Hr2 as <-.
  unfold chunkWords, chunkRun in Hr. rewrite Hw in Hr. injection Hr as <-.
  rewrite Hcat, replay_app. reflexivity.
Qed.

Lemma chunkStream_resumes_witness :
  -1 <= 0 /\
  snd (chunkStream
         (streamAt (qstr "alpha beta gamma delta")
            (fst (chunkStream (streamAt (qstr "alpha beta gamma delta") 0) 1 1 "notes.txt"
                    "" "" "" "" (-1) 1 (initial 10 text_and_pdf))))
         1 1 "notes.txt" "" "" "" "" (-1) (-1)
         (snd (chunkStream (streamAt (qstr "alpha beta gamma delta") 0) 1 1 "notes.txt"
                 "" "" "" "" (-1) 1 (initial 10 text_and_pdf)))) =
  snd (chunkStream (streamAt (qstr "alpha beta gamma delta") 0) 1 1 "notes.txt"
         "" "" "" "" (-1) (-1) (initial 10 text_and_pdf)).
Proof.
  split; [lia|].
  apply (chunkStream_resumes (qstr "alpha beta gamma delta") 1 1 "notes.txt" "" "" "" ""
           (-1) 1 (-1) (initial 10 text_and_pdf)).
  lia.
Defined.

(** ** The budget of a chunk *)

(** C1, as the loop has it. For every stream, budget and cap the
    chunking loop returns, and every chunk it emitted is non-empty and is
    either a single word or a chunk whose words before the last stay
    below the budget: the sum of their lengths plus the separators
    between them is less than the budget. *)
Theorem chunk_closes_on_budget (budget maxChunks : Z) (stream : QTextStream) :
  exists r, chunkWords budget maxChunks stream = Some r /\
            Forall (closes_on_budget budget) (final_state r).
Proof.
  destruct (chunkLoop_total budget collect maxChunks
              (S (length (unread stream))) stream [] 0 0 0 []) as (r & Hr); [lia|].
  exists r. split; [exact Hr|].
  eapply chunkLoop_budget; cycle 3; [exact Hr | reflexivity | left; reflexivity | constructor].
Qed.

(** C1, as stated, fails: with budget 10 the text of the specification's
    scenario gives the chunk "gamma delta", two words of extent 11. *)
Lemma chunk_budget_exceeded :
  exists r,
    chunkWords 10 defaultMaxChunks
      (streamAt (qstr "alpha beta gamma delta epsilon") 0) = Some r /\
    final_state r = [[qstr "alpha"; qstr "beta"]; [qstr "gamma"; qstr "delta"];
                     [qstr "epsilon"]] /\
    ~ Forall (within_budget 10) (final_state r).
Proof.
  eexists. split; [vm_compute; reflexivity|]. split; [reflexivity|].
  simpl. intros H. inversion H as [|? ? _ H1]; subst.
  inversion H1 as [|? ? H2 _]; subst.
  destruct H2 as [H2 | H2]; vm_compute in H2; [apply H2; reflexivity | discriminate].
Qed.

(** ** Invariants of the scan and of folder removal

    The scan of a document and the removal of a folder change the state
    through a handful of steps only; a property kept by these steps is
    kept by both. *)

Section Invariant.
Variable I : Database -> list Z -> Prop.
Hypothesis I_write : forall db R e,
  is_plain_write e = true -> I db R -> I (perform e db) R.
Hypothesis I_delete : forall db R d,
  I db R ->
  I (perform (SqlDeleteChunks d) db) (R ++ sql_select_chunks_by_document d (m_db db)).
Hypothesis I_append : forall db R c, I db R -> I (appendChunk c db) R.
Hypothesis I_send : forall db R, I db R -> I (sendChunkList db) R.
Hypothesis I_queue : forall db R q, I db R -> I (set_docsToScan q db) R.

Lemma scheduleNext_inv db R f n : I db R -> I (scheduleNext f n db) R.
Proof.
  intros H. unfold scheduleNext. destruct (n =? 0); [|exact H].
  destruct (m_chunkList db); [exact H | apply I_send; exact H].
Qed.

Lemma flushChunk_inv db R f d file title author subject keywords page ws :
  I db R -> I (flushChunk f d file title author subject keywords page ws db) R.
Proof.
  intros H. unfold flushChunk, addChunk. apply I_append. apply I_write; [reflexivity|exact H].
Qed.

Lemma replay_inv db R f d file title author subject keywords page chunks :
  I db R ->
  I (replay (flushChunk f d file title author subject keywords page) chunks db) R.
Proof.
  revert db. induction chunks as [|ws chunks IH]; intros db H; [exact H|].
  apply IH. apply flushChunk_inv. exact H.
Qed.

Lemma chunkStream_inv db R stream f d file title author subject keywords page cap :
  I db R ->
  I (snd (chunkStream stream f d file title author subject keywords page cap db)) R.
Proof.
  intros H. unfold chunkStream, chunkRun.
  pose proof (chunkLoop_replay (m_chunkSize db)
                (flushChunk f d file title author subject keywords page) cap
                (S (length (unread stream))) stream [] 0 0 0 db []) as Hr.
  simpl replay in Hr. rewrite Hr.
  destruct (chunkLoop (m_chunkSize db) collect cap _ stream [] 0 0 0 []) as [r|];
    simpl; [|exact H].
  apply replay_inv. exact H.
Qed.

Lemma enqueueDocumentInternal_inv db R info prepend :
  I db R -> I (enqueueDocumentInternal info prepend db) R.
Proof. intros H. apply I_queue. exact H. Qed.

Lemma dequeueDocument_inv db R info db' :
  dequeueDocument db = Some (info, db') -> I db R -> I db' R.
Proof.
  unfold dequeueDocument. intros E H.
  destruct (m_docsToScan db) as [|[k [|d q]] rest]; try discriminate.
  injection E as _ <-. apply I_queue. exact H.
Qed.

Lemma scanPdf_inv db R info entry pdf d n :
  I db R -> I (scanPdf info entry pdf d n db) R.
Proof.
  intros H. unfold scanPdf.
  match goal with
  | |- context [chunkStream ?s ?f ?d ?fl ?t ?a ?su ?k ?p ?c db] =>
      pose proof (chunkStream_inv db R s f d fl t a su k p c H) as Hc;
      destruct (chunkStream s f d fl t a su k p c db) as [ret' db']
  end.
  simpl in Hc.
  destruct (_ <? _).
  - apply scheduleNext_inv, enqueueDocumentInternal_inv. exact Hc.
  - apply scheduleNext_inv. exact Hc.
Qed.

Lemma scanText_inv env db R info entry f existing d n :
  I db R ->
  I (fst (scanText env info entry f existing d n db R))
    (snd (scanText env info entry f existing d n db R)).
Proof.
  intros H. unfold scanText.
  destruct (openStream (blockSize env) f (currentPosition info)) as [stream seen].
  match goal with
  | |- context [chunkStream ?s ?f ?d ?fl ?t ?a ?su ?k ?p ?c db] =>
      pose proof (chunkStream_inv db R s f d fl t a su k p c H) as Hc;
      destruct (chunkStream s f d fl t a su k p c db) as [ret' db']
  end.
  simpl in Hc.
  destruct (ret' <? 0).
  - destruct seen; simpl.
    + apply scheduleNext_inv. unfold removeChunksByDocumentId, getChunksByDocumentId.
      apply I_delete. exact Hc.
    + apply scheduleNext_inv. exact Hc.
  - destruct (_ <? _); simpl.
    + apply scheduleNext_inv, enqueueDocumentInternal_inv. exact Hc.
    + apply scheduleNext_inv. exact Hc.
Qed.

Lemma scanQueue_inv env db R :
  I db R -> I (fst (scanQueue env db R)) (snd (scanQueue env db R)).
Proof.
  intros H. unfold scanQueue.
  destruct (dequeueDocument db) as [[info db1]|] eqn:Edq; [|exact H].
  pose proof (dequeueDocument_inv _ _ _ _ Edq H) as H1.
  destruct (files env (doc info)) as [entry|]; [|apply scheduleNext_inv; exact H1].
  destruct (readable entry); simpl; [|apply scheduleNext_inv; exact H1].
  destruct (selectDocument db1 (doc info)) as [existing_id existing_time].
  destruct (negb (existing_id =? -1) && negb (currentlyProcessing info)) eqn:Eknown.
  - destruct (mtime entry =? existing_time); simpl; [apply scheduleNext_inv; exact H1|].
    assert (H2 : I (removeChunksByDocumentId existing_id db1)
                   (getChunksByDocumentId db1 existing_id R)).
    { apply I_delete. exact H1. }
    apply andb_prop in Eknown as [Ee Ep]. apply negb_true_iff in Ep. rewrite Ep, Ee.
    simpl.
    assert (H3 : I (updateDocument existing_id (mtime entry)
                      (removeChunksByDocumentId existing_id db1))
                   (getChunksByDocumentId db1 existing_id R)).
    { apply I_write; [reflexivity | exact H2]. }
    destruct (kind entry) as [f|[pdf|]]; simpl.
    + apply scanText_inv. exact H3.
    + apply scanPdf_inv. exact H3.
    + apply scheduleNext_inv. exact H3.
  - simpl.
    assert (Hreg : forall id db2,
              (if currentlyProcessing info then Some (existing_id, db1)
               else if negb (existing_id =? -1)
                    then Some (existing_id, updateDocument existing_id (mtime entry) db1)
                    else addDocument (folder info) (mtime entry) (doc info) db1)
              = Some (id, db2) -> I db2 R).
    { intros id db2 E. destruct (currentlyProcessing info).
      - injection E as _ <-. exact H1.
      - destruct (negb (existing_id =? -1)).
        + injection E as _ <-. apply I_write; [reflexivity | exact H1].
        + unfold addDocument in E.
          destruct (sql_select_document (doc info) (m_db db1)); [discriminate|].
          injection E as _ <-. apply I_write; [reflexivity | exact H1]. }
    destruct (if currentlyProcessing info then Some (existing_id, db1) else _)
      as [[id db2]|] eqn:Ereg; [|apply scheduleNext_inv; exact H1].
    pose proof (Hreg _ _ eq_refl) as H2.
    destruct (kind entry) as [f|[pdf|]]; simpl.
    + apply scanText_inv. exact H2.
    + apply scanPdf_inv. exact H2.
    + apply scheduleNext_inv. exact H2.
Qed.

Lemma scanWhile_inv env turns db R :
  I db R -> I (fst (scanWhile env turns db R)) (snd (scanWhile env turns db R)).
Proof.
  revert db R. induction turns as [|turns IH]; intros db R H; [exact H|].
  simpl. destruct (m_docsToScan db); [exact H|].
  pose proof (scanQueue_inv env db R H) as H1.
  destruct (scanQueue env db R) as [db1 R1]. apply IH. exact H1.
Qed.

Lemma removeDocuments_inv ids db R :
  I db R ->
  I (fst (fold_left (fun st d => removeDocumentAndChunks d st) ids (db, R)))
    (snd (fold_left (fun st d => removeDocumentAndChunks d st) ids (db, R))).
Proof.
  revert db R. induction ids as [|d ids IH]; intros db R H; [exact H|].
  simpl. apply IH. apply I_write; [reflexivity|]. apply I_delete. exact H.
Qed.

Lemma removeFolderInternal_inv collection f db R :
  I db R ->
  I (snd (fst (removeFolderInternal collection f db R)))
    (snd (removeFolderInternal collection f db R)).
Proof.
  intros H. unfold removeFolderInternal, removeCollectionFolder.
  set (db1 := perform (SqlDeleteCollectionFolder collection f) db).
  assert (H1 : I db1 R) by (apply I_write; [reflexivity | exact H]).
  destruct (deleted_collection_folder collection f (m_db db)); simpl; [exact H1|].
  destruct (count_folder_references f (m_db db1) =? -1); simpl; [exact H1|].
  assert (H2 : I (perform SqlPruneCollections db1) R)
    by (apply I_write; [reflexivity | exact H1]).
  destruct (count_folder_references f (m_db db1) =? 0); simpl; [|exact H2].
  match goal with
  | |- context [fold_left ?g ?ids (?d, R)] =>
      pose proof (removeDocuments_inv ids d R (I_queue _ _ _ H2)) as H3;
      destruct (fold_left g ids (d, R)) as [db3 R3]
  end.
  simpl in *. apply I_write; [reflexivity | exact H3].
Qed.
Lemma cleanFolders_inv env cs db R :
  I db R ->
  I (snd (fst (cleanFolders env cs db R))) (snd (cleanFolders env cs db R)).
Proof.
  revert db R. induction cs as [|i cs IH]; intros db R H; [exact H|].
  simpl. destruct (directories env (ci_folder_path i)); [apply IH; exact H|].
  pose proof (removeFolderInternal_inv (ci_collection i) (ci_folder_id i) db R H) as H1.
  destruct (removeFolderInternal (ci_collection i) (ci_folder_id i) db R) as [[ok d] R'].
  simpl in H1. destruct ok; [apply IH; exact H1 | exact H1].
Qed.

Lemma cleanDocuments_inv env docs db R :
  I db R ->
  I (fst (cleanDocuments env docs (db, R))) (snd (cleanDocuments env docs (db, R))).
Proof.
  unfold cleanDocuments. revert db R.
  induction docs as [|d docs IH]; intros db R H; [exact H|].
  simpl. destruct (keepsDocument env db (document_path d)); [apply IH; exact H|].
  apply IH. apply I_write; [reflexivity|]. apply I_delete. exact H.
Qed.

Lemma cleanAll_inv env cs db :
  I db [] -> I (snd (fst (cleanAll env cs db))) (snd (cleanAll env cs db)).
Proof.
  intros H. unfold cleanAll.
  pose proof (cleanFolders_inv env cs db [] H) as H1.
  destruct (cleanFolders env cs db []) as [[ok d] R]. simpl in H1.
  destruct ok; [|exact H1].
  pose proof (cleanDocuments_inv env (sql_select_all_documents (m_db d)) d R H1) as H2.
  destruct (cleanDocuments env (sql_select_all_documents (m_db d)) (d, R)) as [d2 R2].
  exact H2.
Qed.

Lemma removeAll_inv ids db :
  I db [] -> I (snd (fst (removeAll ids db))) (snd (removeAll ids db)).
Proof.
  intros H. unfold removeAll.
  pose proof (removeDocuments_inv ids db [] H) as H1.
  destruct (fold_left (fun st d => removeDocumentAndChunks d st) ids (db, [])) as [d R].
  exact H1.
Qed.
End Invariant.

Lemma cleanAll_removes env cs : removes (cleanAll env cs).
Proof. intros I Hw Hd Hq db H. apply (cleanAll_inv I Hw Hd Hq). exact H. Qed.

Lemma removeAll_removes ids : removes (removeAll ids).
Proof. intros I Hw Hd Hq db H. apply (removeAll_inv I Hw Hd). exact H. Qed.

Lemma removeFolderInternal_removes collection f :
  removes (fun db => removeFolderInternal collection f db []).
Proof. intros I Hw Hd Hq db H. apply (removeFolderInternal_inv I Hw Hd Hq). exact H. Qed.

(** ** The journal *)

Lemma run_effects_app es1 es2 w :
  run_effects (es1 ++ es2) w = run_effects es2 (run_effects es1 w).
Proof. apply fold_left_app. Qed.

Lemma performed_refl db : performed [] db db.
Proof. repeat split. simpl. rewrite app_nil_r. reflexivity. Qed.

Lemma performed_trans es1 es2 db db1 db2 :
  performed es1 db db1 -> performed es2 db1 db2 -> performed (es1 ++ es2) db db2.
Proof.
  intros (Hj1 & Hw1 & Hc1) (Hj2 & Hw2 & Hc2). repeat split.
  - rewrite Hj2, Hj1, app_assoc. reflexivity.
  - rewrite Hw2, Hw1, run_effects_app. reflexivity.
  - congruence.
Qed.

Lemma performed_perform e db : performed [e] db (perform e db).
Proof. repeat split. Qed.

Lemma performed_set_chunkList es l db db' :
  performed es db db' -> performed es db (set_chunkList l db').
Proof. intros H. exact H. Qed.

Lemma performed_set_docsToScan es q db db' :
  performed es db db' -> performed es db (set_docsToScan q db').
Proof. intros H. exact H. Qed.

Lemma performed_snoc es e db db' :
  performed es db db' -> performed (es ++ [e]) db (perform e db').
Proof. intros H. eapply performed_trans; [exact H | apply performed_perform]. Qed.

Lemma performed_effects es h db :
  performed es db (handle h db) -> effects h db = es.
Proof.
  intros (Hj & _ & _). unfold effects. rewrite Hj.
  rewrite skipn_app, skipn_all, Nat.sub_diag. reflexivity.
Qed.

Lemma enqueueDocuments_silent infos db :
  journal (enqueueDocuments infos db) = journal db /\
  m_world (enqueueDocuments infos db) = m_world db /\
  m_chunkList (enqueueDocuments infos db) = m_chunkList db.
Proof.
  unfold enqueueDocuments. revert db.
  induction infos as [|i infos IH]; intros db; [repeat split|].
  simpl. destruct (IH (enqueueDocumentInternal i false db)) as (H1 & H2 & H3).
  rewrite H1, H2, H3. repeat split.
Qed.

Lemma scans_perform db0 db R R' e :
  scan_effect e = true -> scans db0 db R -> scans db0 (perform e db) R'.
Proof.
  intros He (es & H & Hall). exists (es ++ [e]). split.
  - apply performed_snoc. exact H.
  - apply Forall_app. split; [exact Hall | constructor; [exact He | constructor]].
Qed.

Lemma scans_sendChunkList db0 db R : scans db0 db R -> scans db0 (sendChunkList db) R.
Proof.
  intros H. unfold sendChunkList.
  destruct (scans_perform db0 db R R (GenerateAsyncEmbeddings (m_chunkList db)) eq_refl H)
    as (es & Hp & Hall).
  exists es. split; [apply performed_set_chunkList; exact Hp | exact Hall].
Qed.

Lemma scans_appendChunk db0 db R c : scans db0 db R -> scans db0 (appendChunk c db) R.
Proof.
  intros (es & H & Hall). unfold appendChunk.
  assert (H1 : scans db0 (set_chunkList (m_chunkList db ++ [c]) db) R).
  { exists es. split; [apply performed_set_chunkList; exact H | exact Hall]. }
  destruct (s_batchSize <=? _); [apply scans_sendChunkList; exact H1 | exact H1].
Qed.

Lemma scanWhile_scans env turns db :
  scans db (fst (scanWhile env turns db [])) (snd (scanWhile env turns db [])).
Proof.
  apply (scanWhile_inv (scans db)).
  - intros d R e He. apply scans_perform. unfold scan_effect.
    destruct e; try discriminate; reflexivity.
  - intros d R doc. apply scans_perform. reflexivity.
  - intros d R c. apply scans_appendChunk.
  - intros d R. apply scans_sendChunkList.
  - intros d R q (es & H & Hall). exists es. split; [exact H | exact Hall].
  - exists []. split; [apply performed_refl | constructor].
Qed.

Lemma removeFromEmbeddings_performed R db :
  performed (map EmbeddingsRemove R) db (removeFromEmbeddings R db).
Proof.
  revert db. induction R as [|c R IH]; intros db; [apply performed_refl|].
  simpl. change (EmbeddingsRemove c :: map EmbeddingsRemove R)
    with ([EmbeddingsRemove c] ++ map EmbeddingsRemove R).
  eapply performed_trans; [apply performed_perform | apply IH].
Qed.

Lemma saveEmbeddingsIf_performed R db :
  performed (save_after R) db (saveEmbeddingsIf R db).
Proof. destruct R; [apply performed_refl | apply performed_perform]. Qed.

(** The journal of a scan batch. *)
Lemma scanQueueBatch_performed env turns db :
  exists W R db2,
    scanWhile env turns (transaction db) [] = (db2, R) /\
    performed W (transaction db) db2 /\
    Forall (fun e => scan_effect e = true) W /\
    performed (SqlTransaction :: W ++ map EmbeddingsRemove R ++ SqlCommit :: save_after R)
              db (scanQueueBatch env turns db).
Proof.
  destruct (scanWhile_scans env turns (transaction db)) as (W & HW & Hall).
  unfold scanQueueBatch.
  destruct (scanWhile env turns (transaction db) []) as [db2 R]. simpl in HW.
  exists W, R, db2. split; [reflexivity|]. split; [exact HW|]. split; [exact Hall|].
  change (SqlTransaction :: W ++ map EmbeddingsRemove R ++ SqlCommit :: save_after R)
    with ([SqlTransaction] ++ W ++ map EmbeddingsRemove R ++ [SqlCommit] ++ save_after R).
  eapply performed_trans; [apply performed_perform|].
  eapply performed_trans; [exact HW|].
  eapply performed_trans; [apply removeFromEmbeddings_performed|].
  eapply performed_trans; [apply performed_perform|].
  apply saveEmbeddingsIf_performed.
Qed.

(** ** Retrieval *)

(** [SELECT_CHUNKS_SQL] names the column [collections.folder_id], which
    the schema of [INIT_DB_SQL] does not have: whatever the lists, the
    statement does not prepare. *)
Lemma select_chunks_unresolved chunk_ids collection_names :
  resolves INIT_DB_SQL ["chunks"; "documents"; "folders"; "collections"]%string
           (mkColumn "collections" "folder_id") = false /\
  In (mkColumn "collections" "folder_id")
     (mentioned (SELECT_CHUNKS_SQL chunk_ids collection_names)) /\
  prepare INIT_DB_SQL (SELECT_CHUNKS_SQL chunk_ids collection_names) = false.
Proof.
  split; [reflexivity|]. split; [|reflexivity].
  unfold mentioned. apply in_or_app. right. apply in_or_app. left.
  simpl. tauto.
Qed.

(** The statement of [forceIndexing], which goes through
    [collection_items], prepares. *)
Lemma select_folders_prepares collection_name :
  prepare INIT_DB_SQL (SELECT_FOLDERS_FROM_COLLECTIONS_SQL collection_name) = true.
Proof. reflexivity. Qed.

Lemma selectChunk_fails db collection_names chunk_ids :
  chunk_ids <> [] -> selectChunk db collection_names chunk_ids = Defined None.
Proof.
  intros Hne. unfold selectChunk. destruct chunk_ids as [|c cs]; [congruence|].
  simpl nth_error. cbv iota.
  destruct (select_chunks_unresolved (c :: cs) collection_names) as (_ & _ & ->).
  reflexivity.
Qed.

(** C3, at an input where retrieval does not do what is claimed.  In
    the scenario of the specification (collections "Work" and "Personal",
    k = 5, the search returning the chunks 1 to 5, of which 1, 2 and 3
    belong to "Work"), the three chunks of "Work" are the ones that the
    filter by collection keeps, but [retrieveFromDB] leaves the list of
    results empty: [SELECT_CHUNKS_SQL] does not prepare against the
    schema of [INIT_DB_SQL], so [selectChunk] fails and the function
    returns before it reads a row. *)
Theorem retrieval_returns_nothing :
  map chunk_id (List.filter (belongs_to scenario_tables ["Work"%string])
                            (chunks scenario_tables)) = [1; 2; 3] /\
  retrieveFromDB scenario_retriever scenario_db ["Work"%string] "query" 5 [] = Defined [].
Proof. split; reflexivity. Qed.

(** X28. [retrieveFromDB] never appends a result, whatever the
    collections, the query, the index and the tables.  Either it returns
    with the list of results it was given, or it reads the first element
    of an empty vector. *)
Theorem retrieval_never_answers (r : Retriever) (db : Database) (collections : list string)
    (text : string) (retrievalSize : Z) (results : list ResultInfo) :
  retrieveFromDB r db collections text retrievalSize results = Defined results \/
  retrieveFromDB r db collections text retrievalSize results = OutOfBounds.
Proof.
  unfold retrieveFromDB. destruct (isLoaded r); simpl; [|left; reflexivity].
  destruct (generateEmbeddings r text) as [|x xs]; [left; reflexivity|].
  destruct (search r (x :: xs) retrievalSize) as [|c cs] eqn:E.
  - right. reflexivity.
  - left. rewrite selectChunk_fails; [reflexivity | discriminate].
Qed.

(** C10, at the inputs where retrieval is not well defined.  When the
    index is loaded, the embedding of the query is not empty and the
    search returns no chunk id, [selectChunk] reads [chunk_ids[0]] of
    the empty vector, outside its bounds, before it prepares any
    statement; so does [retrieveFromDB], which calls it without a test
    for emptiness. *)
Theorem retrieval_empty_search_out_of_bounds (r : Retriever) (db : Database)
    (collections : list string) (text : string) (retrievalSize : Z)
    (results : list ResultInfo)
    (Hloaded : isLoaded r = true)
    (Hquery : generateEmbeddings r text <> [])
    (Hsearch : search r (generateEmbeddings r text) retrievalSize = []) :
  selectChunk db collections (search r (generateEmbeddings r text) retrievalSize)
    = OutOfBounds /\
  retrieveFromDB r db collections text retrievalSize results = OutOfBounds.
Proof.
  split; [rewrite Hsearch; reflexivity|].
  unfold retrieveFromDB. rewrite Hloaded. simpl.
  destruct (generateEmbeddings r text) as [|x xs]; [congruence|].
  rewrite Hsearch. reflexivity.
Qed.

Lemma retrieval_empty_search_witness :
  selectChunk (initial 256 text_and_pdf) ["Work"%string]
    (search empty_index_retriever (generateEmbeddings empty_index_retriever "query") 5)
    = OutOfBounds /\
  retrieveFromDB empty_index_retriever (initial 256 text_and_pdf) ["Work"%string] "query" 5 []
    = OutOfBounds.
Proof.
  apply (retrieval_empty_search_out_of_bounds empty_index_retriever (initial 256 text_and_pdf)
           ["Work"%string] "query" 5 []); [reflexivity | discriminate | reflexivity].
Defined.

(** ** The order of a scan batch *)

(** C6, as the batch has it. Whatever the queue and the time it
    is given, a scan batch opens one transaction, then writes to the
    tables and sends batches ([W]), then removes from the index in memory
    the chunks collected ([R]), then commits, and then saves the index,
    once, exactly when a chunk was removed. *)
Theorem scan_batch_order (env : Environment) (turns : nat) (db : Database) :
  exists W R,
    effects (ScanQueueBatch env turns) db =
      SqlTransaction :: W ++ map EmbeddingsRemove R ++ SqlCommit :: save_after R /\
    Forall (fun e => scan_effect e = true) W.
Proof.
  destruct (scanQueueBatch_performed env turns db) as (W & R & db2 & _ & _ & Hall & Hp).
  exists W, R. split; [|exact Hall].
  apply performed_effects. exact Hp.
Qed.

(** C6, as stated, fails: in the batch that rescans a modified file, the
    removals from the index come before the commit. *)
Lemma scan_batch_removes_before_commit :
  effects (ScanQueueBatch modified_env 1) rescan_db =
    [SqlTransaction; SqlDeleteChunks 1; SqlUpdateDocumentTime 2000 1;
     SqlInsertChunk (mkChunkValues 1 (qstr "alpha beta") "notes.txt" "" "" "" ""
                       (-1) (-1) (-1) 2);
     EmbeddingsRemove 1; EmbeddingsRemove 2; EmbeddingsRemove 3;
     SqlCommit; EmbeddingsSave] /\
  ~ removals_follow_commit (effects (ScanQueueBatch modified_env 1) rescan_db).
Proof.
  assert (E : effects (ScanQueueBatch modified_env 1) rescan_db =
    [SqlTransaction; SqlDeleteChunks 1; SqlUpdateDocumentTime 2000 1;
     SqlInsertChunk (mkChunkValues 1 (qstr "alpha beta") "notes.txt" "" "" "" ""
                       (-1) (-1) (-1) 2);
     EmbeddingsRemove 1; EmbeddingsRemove 2; EmbeddingsRemove 3;
     SqlCommit; EmbeddingsSave]) by (vm_compute; reflexivity).
  split; [exact E|]. rewrite E. intros H.
  specialize (H 4%nat 7%nat 1 eq_refl eq_refl). lia.
Qed.

(** ** A second scan of unchanged files *)

Lemma run_effects_sends es w :
  Forall (fun e => is_send e = true) es -> run_effects es w = w.
Proof.
  intros H. revert w. induction H as [|e es He _ IH]; intros w; [reflexivity|].
  simpl. destruct e; try discriminate. simpl. apply IH.
Qed.

Lemma idles_world db0 db : idles db0 db -> m_world db = m_world db0.
Proof. intros (es & (_ & Hw & _) & Hall). rewrite Hw. apply run_effects_sends. exact Hall. Qed.

Lemma idles_trans db0 db1 db2 : idles db0 db1 -> idles db1 db2 -> idles db0 db2.
Proof.
  intros (es1 & H1 & A1) (es2 & H2 & A2). exists (es1 ++ es2).
  split; [eapply performed_trans; eassumption | apply Forall_app; split; assumption].
Qed.

Lemma scheduleNext_idles f n db : idles db (scheduleNext f n db).
Proof.
  unfold scheduleNext. destruct (n =? 0); [|exists []; split; [apply performed_refl|constructor]].
  destruct (m_chunkList db) as [|c l] eqn:E; [exists []; split; [apply performed_refl|constructor]|].
  exists [GenerateAsyncEmbeddings (c :: l)]. split.
  - unfold sendChunkList. rewrite E. apply performed_set_chunkList, performed_perform.
  - constructor; [reflexivity | constructor].
Qed.

Lemma scheduleNext_queue f n db : m_docsToScan (scheduleNext f n db) = m_docsToScan db.
Proof.
  unfold scheduleNext. destruct (n =? 0); [|reflexivity].
  destruct (m_chunkList db); reflexivity.
Qed.

Lemma dequeueDocument_unchanged env t db info db1 :
  all_unchanged env t (m_docsToScan db) ->
  dequeueDocument db = Some (info, db1) ->
  unchanged env t info /\ all_unchanged env t (m_docsToScan db1) /\ idles db db1.
Proof.
  unfold dequeueDocument, all_unchanged. intros H E.
  destruct (m_docsToScan db) as [|[k [|d q]] rest]; try discriminate.
  injection E as <- <-.
  apply Forall_cons_1 in H as [Hk Hrest]. simpl in Hk.
  apply Forall_cons_1 in Hk as [Hd Hq].
  split; [exact Hd|]. split.
  - simpl. destruct q; [exact Hrest | constructor; [exact Hq | exact Hrest]].
  - exists []. split; [apply performed_set_docsToScan, performed_refl | constructor].
Qed.

Lemma scanQueue_unchanged env db R :
  all_unchanged env (m_db db) (m_docsToScan db) ->
  snd (scanQueue env db R) = R /\
  idles db (fst (scanQueue env db R)) /\
  all_unchanged env (m_db db) (m_docsToScan (fst (scanQueue env db R))).
Proof.
  intros H. unfold scanQueue.
  destruct (dequeueDocument db) as [[info db1]|] eqn:Edq.
  2:{ split; [reflexivity|]. split; [|exact H]. exists []. split; [apply performed_refl|constructor]. }
  destruct (dequeueDocument_unchanged _ _ _ _ _ H Edq) as ((Hproc & entry & d & Hf & Hr & Hsel & Hid & Htime) & Hq & Hidle).
  assert (Hdb : m_db db1 = m_db db) by (unfold m_db; rewrite (idles_world _ _ Hidle); reflexivity).
  rewrite Hf, Hr. simpl negb. cbv iota.
  unfold selectDocument. rewrite Hdb, Hsel, Hproc.
  assert (E1 : (document_id d =? -1) = false) by (apply Z.eqb_neq; exact Hid).
  assert (E2 : (mtime entry =? document_time d) = true) by (apply Z.eqb_eq; congruence).
  rewrite E1, E2. simpl.
  split; [reflexivity|]. split.
  - eapply idles_trans; [exact Hidle | apply scheduleNext_idles].
  - rewrite scheduleNext_queue. exact Hq.
Qed.

Lemma idles_refl db : idles db db.
Proof. exists []. split; [apply performed_refl | constructor]. Qed.

Lemma scanWhile_unchanged env turns db R :
  all_unchanged env (m_db db) (m_docsToScan db) ->
  snd (scanWhile env turns db R) = R /\
  idles db (fst (scanWhile env turns db R)) /\
  all_unchanged env (m_db db) (m_docsToScan (fst (scanWhile env turns db R))).
Proof.
  revert db. induction turns as [|turns IH]; intros db H.
  - split; [reflexivity|]. split; [apply idles_refl | exact H].
  - simpl. destruct (m_docsToScan db) eqn:Eq.
    { split; [reflexivity|]. split; [apply idles_refl|]. simpl. rewrite Eq. constructor. }
    rewrite <- Eq in H.
    destruct (scanQueue_unchanged env db R H) as (HR & Hidle & Hq).
    destruct (scanQueue env db R) as [db1 R1]. simpl in HR, Hidle, Hq. subst R1.
    assert (Hdb : m_db db1 = m_db db) by (unfold m_db; rewrite (idles_world _ _ Hidle); reflexivity).
    rewrite <- Hdb in Hq.
    destruct (IH db1 Hq) as (HR' & Hidle' & Hq'). split; [exact HR'|].
    split; [eapply idles_trans; eassumption|].
    rewrite <- Hdb. exact Hq'.
Qed.

(** Discovery puts unchanged files in the queue as unchanged documents. *)
Lemma queue_modify_unchanged env t info q :
  unchanged env t info -> all_unchanged env t q ->
  all_unchanged env t (queue_modify (folder info) (fun l => l ++ [info]) q).
Proof.
  intros Hi. unfold all_unchanged.
  induction q as [|[k l] q IH]; intros H; simpl.
  - constructor; [simpl; constructor; [exact Hi | constructor] | constructor].
  - apply Forall_cons_1 in H as [Hl Hq]. simpl in Hl.
    destruct (folder info <? k).
    + constructor; [simpl; constructor; [exact Hi | constructor]|].
      constructor; [exact Hl | exact Hq].
    + destruct (folder info =? k).
      * constructor; [|exact Hq]. simpl. apply Forall_app. split; [exact Hl|].
        constructor; [exact Hi | constructor].
      * constructor; [exact Hl | apply IH; exact Hq].
Qed.

Lemma enqueueDocuments_unchanged env t infos db :
  Forall (unchanged env t) infos -> all_unchanged env t (m_docsToScan db) ->
  all_unchanged env t (m_docsToScan (enqueueDocuments infos db)).
Proof.
  unfold enqueueDocuments. intros Hall. revert db.
  induction Hall as [|i infos Hi _ IH]; intros db H; [exact H|].
  simpl. apply IH. simpl. apply queue_modify_unchanged; assumption.
Qed.

Lemma scanDocuments_unchanged env folder_id folder_path db :
  (forall p, In p (match directories env folder_path with Some l => l | None => [] end) ->
             scannedExtension db p = true ->
             unchanged env (m_db db) (newDocumentInfo folder_id p)) ->
  all_unchanged env (m_db db) (m_docsToScan db) ->
  m_db (scanDocuments env folder_id folder_path db) = m_db db /\
  all_unchanged env (m_db db) (m_docsToScan (scanDocuments env folder_id folder_path db)).
Proof.
  intros Hfiles Hq. unfold scanDocuments.
  set (found := match directories env folder_path with Some l => l | None => [] end) in *.
  assert (Hall : Forall (unchanged env (m_db db))
                   (map (newDocumentInfo folder_id) (List.filter (scannedExtension db) found))).
  { apply List.Forall_forall. intros i Hin.
    apply in_map_iff in Hin as (p & <- & Hp). apply filter_In in Hp as [Hp Hext].
    apply Hfiles; assumption. }
  destruct (map (newDocumentInfo folder_id) _) as [|i infos] eqn:E; [split; [reflexivity|exact Hq]|].
  split.
  - unfold m_db. destruct (enqueueDocuments_silent (i :: infos) db) as (_ & -> & _).
    reflexivity.
  - apply enqueueDocuments_unchanged; assumption.
Qed.

Lemma m_db_transaction db : m_db (transaction db) = m_db db.
Proof.
  unfold m_db, transaction, perform. simpl.
  destruct (snapshot (sql (m_world db))); reflexivity.
Qed.

(** C7. When every document of the queue is unchanged, as the documents
    are that the discovery finds in a folder without changes, a scan
    batch leaves the tables and the index as they are, and performs no
    write to the tables and no operation on the index: all it does is
    open and commit its transaction and, possibly, send pending chunks.
    The documents it leaves in the queue are unchanged, so the batches
    that follow do the same. *)
Theorem rescan_of_unchanged_is_idle (env : Environment) (turns : nat) (db : Database)
    (Hunchanged : all_unchanged env (m_db db) (m_docsToScan db)) :
  m_db (scanQueueBatch env turns db) = m_db db /\
  m_embeddings (scanQueueBatch env turns db) = m_embeddings db /\
  Forall (fun e => is_write e = false /\ is_index e = false)
         (effects (ScanQueueBatch env turns) db) /\
  all_unchanged env (m_db db) (m_docsToScan (scanQueueBatch env turns db)).
Proof.
  destruct (scanQueueBatch_performed env turns db) as (W & R & db2 & Hscan & HW & _ & Hp).
  assert (Hq : all_unchanged env (m_db (transaction db)) (m_docsToScan (transaction db)))
    by (rewrite m_db_transaction; exact Hunchanged).
  pose proof (scanWhile_unchanged env turns (transaction db) [] Hq) as (HR & Hidle & Hleft).
  rewrite Hscan in HR, Hidle, Hleft. simpl in HR, Hidle, Hleft. subst R.
  rewrite m_db_transaction in Hleft.
  assert (Hqueue : m_docsToScan (scanQueueBatch env turns db) = m_docsToScan db2)
    by (unfold scanQueueBatch; rewrite Hscan; reflexivity).
  destruct Hidle as (W' & HW' & Hsends).
  assert (W' = W).
  { destruct HW as (Hj & _), HW' as (Hj' & _). rewrite Hj in Hj'.
    apply app_inv_head in Hj'. congruence. }
  subst W'.
  rewrite (performed_effects _ (ScanQueueBatch env turns) _ Hp).
  destruct Hp as (_ & Hw & _). simpl map in Hw. simpl save_after in Hw.
  change (SqlTransaction :: W ++ [] ++ [SqlCommit])
    with ([SqlTransaction] ++ W ++ [SqlCommit]) in Hw.
  rewrite !run_effects_app, (run_effects_sends W _ Hsends) in Hw.
  split; [|split; [|split]].
  - unfold m_db. rewrite Hw. simpl. destruct (snapshot (sql (m_world db))); reflexivity.
  - unfold m_embeddings. rewrite Hw. simpl. destruct (snapshot (sql (m_world db))); reflexivity.
  - simpl. constructor; [split; reflexivity|].
    apply Forall_app. split.
    + eapply Forall_impl; [exact Hsends|]. intros e He. destruct e; try discriminate.
      split; reflexivity.
    + constructor; [split; reflexivity | constructor].
  - rewrite Hqueue. exact Hleft.
Qed.

Lemma rescan_of_unchanged_witness :
  m_db (scanQueueBatch unmodified_env 3 rescan_db) = m_db rescan_db /\
  m_embeddings (scanQueueBatch unmodified_env 3 rescan_db) = m_embeddings rescan_db /\
  Forall (fun e => is_write e = false /\ is_index e = false)
         (effects (ScanQueueBatch unmodified_env 3) rescan_db) /\
  all_unchanged unmodified_env (m_db rescan_db)
    (m_docsToScan (scanQueueBatch unmodified_env 3 rescan_db)).
Proof.
  apply (rescan_of_unchanged_is_idle unmodified_env 3 rescan_db).
  repeat constructor.
  exists (mkFileEntry true 1000 "notes.txt" (TextFile (mkQFile (qstr "one two three") false))),
         (mkDocumentRow 1 1 1000 "/work/notes.txt").
  repeat split; simpl; try reflexivity. discriminate.
Defined.

(** ** The journals of the other handlers *)

Lemma addEmbeddings_performed accepts embeddings db :
  performed (map EmbeddingsAdd (snd (addEmbeddings accepts embeddings db)))
            db (fst (addEmbeddings accepts embeddings db)).
Proof.
  unfold addEmbeddings.
  assert (G : forall db1 acc,
    performed (map EmbeddingsAdd acc) db db1 ->
    let r := fold_left
      (fun '(db, chunksToAdd) e =>
         match selectFileForChunk db (er_chunk_id e) with
         | None => (db, chunksToAdd)
         | Some _ =>
             if accepts e
             then (perform (EmbeddingsAdd (er_chunk_id e)) db, chunksToAdd ++ [er_chunk_id e])
             else (db, chunksToAdd)
         end) embeddings (db1, acc) in
    performed (map EmbeddingsAdd (snd r)) db (fst r)).
  { induction embeddings as [|e es IH]; intros db1 acc H; [exact H|].
    simpl. destruct (selectFileForChunk db1 (er_chunk_id e)); [|apply IH; exact H].
    destruct (accepts e); [|apply IH; exact H].
    apply IH. rewrite map_app. apply performed_snoc. exact H. }
  apply G. apply performed_refl.
Qed.

Lemma setFlags_performed A db :
  performed (map SqlUpdateChunkHasEmbedding A) db
    (fold_left (fun db chunk_id => updateChunkHasEmbedding chunk_id db) A db).
Proof.
  revert db. induction A as [|a A IH]; intros db; [apply performed_refl|].
  simpl. change (SqlUpdateChunkHasEmbedding a :: map SqlUpdateChunkHasEmbedding A)
    with ([SqlUpdateChunkHasEmbedding a] ++ map SqlUpdateChunkHasEmbedding A).
  eapply performed_trans; [apply performed_perform | apply IH].
Qed.

Lemma handleEmbeddingsGenerated_performed accepts embeddings db :
  let A := snd (addEmbeddings accepts embeddings db) in
  performed (map EmbeddingsAdd A ++ mark_after_save A)
            db (handleEmbeddingsGenerated accepts embeddings db).
Proof.
  pose proof (addEmbeddings_performed accepts embeddings db) as H.
  unfold handleEmbeddingsGenerated.
  destruct (addEmbeddings accepts embeddings db) as [db1 A]. simpl in *.
  eapply performed_trans; [exact H|].
  destruct A as [|a A]; [apply performed_refl|].
  unfold mark_after_save.
  change (EmbeddingsSave :: SqlTransaction ::
          map SqlUpdateChunkHasEmbedding (a :: A) ++ [SqlCommit])
    with ([EmbeddingsSave] ++ [SqlTransaction] ++
          map SqlUpdateChunkHasEmbedding (a :: A) ++ [SqlCommit]).
  eapply performed_trans; [apply performed_perform|].
  eapply performed_trans; [apply performed_perform|].
  eapply performed_trans; [apply setFlags_performed|].
  apply performed_perform.
Qed.

Lemma sendSlices_performed fuel i chunkList db :
  exists es, performed es db (sendSlices fuel i chunkList db) /\
             Forall (fun e => exists j, e = GenerateAsyncEmbeddings (mid chunkList j s_batchSize)) es.
Proof.
  revert i db. induction fuel as [|fuel IH]; intros i db.
  - exists []. split; [apply performed_refl | constructor].
  - simpl. destruct (i <? _).
    + destruct (IH (i + s_batchSize)
                  (perform (GenerateAsyncEmbeddings (mid chunkList i s_batchSize)) db))
        as (es & H & Hall).
      exists ([GenerateAsyncEmbeddings (mid chunkList i s_batchSize)] ++ es). split.
      * eapply performed_trans; [apply performed_perform | exact H].
      * constructor; [eexists; reflexivity | exact Hall].
    + exists []. split; [apply performed_refl | constructor].
Qed.

Lemma removeFolderInternal_scans collection f db :
  scans db (snd (fst (removeFolderInternal collection f db [])))
        (snd (removeFolderInternal collection f db [])).
Proof.
  apply (removeFolderInternal_inv (scans db)).
  - intros d R e He. apply scans_perform. unfold scan_effect.
    destruct e; try discriminate; reflexivity.
  - intros d R doc. apply scans_perform. reflexivity.
  - intros d R q (es & H & Hall). exists es. split; [exact H | exact Hall].
  - exists []. split; [apply performed_refl | constructor].
Qed.

Lemma removeFolder_performed collection path db :
  match sql_select_folder path (m_db db) with
  | None => removeFolder collection path db = db
  | Some f =>
      exists W ok db2 R,
        removeFolderInternal collection f (transaction db) [] = (ok, db2, R) /\
        performed W (transaction db) db2 /\
        Forall (fun e => scan_effect e = true) W /\
        performed (SqlTransaction :: W ++ conclude ok R) db (removeFolder collection path db)
  end.
Proof.
  unfold removeFolder. destruct (sql_select_folder path (m_db db)) as [f|]; [|reflexivity].
  pose proof (removeFolderInternal_scans collection f (transaction db)) as (W & HW & Hall).
  destruct (removeFolderInternal collection f (transaction db) []) as [[ok db2] R].
  simpl in HW. exists W, ok, db2, R.
  split; [reflexivity|]. split; [exact HW|]. split; [exact Hall|].
  change (SqlTransaction :: W ++ conclude ok R) with ([SqlTransaction] ++ W ++ conclude ok R).
  eapply performed_trans; [apply performed_perform|].
  eapply performed_trans; [exact HW|].
  destruct ok; unfold conclude.
  - change (SqlCommit :: save_after R) with ([SqlCommit] ++ save_after R).
    eapply performed_trans; [apply removeFromEmbeddings_performed|].
    eapply performed_trans; [apply performed_perform|].
    apply saveEmbeddingsIf_performed.
  - apply performed_perform.
Qed.

Lemma performed_journaled es db db' : performed es db db' -> journaled es db db'.
Proof. intros (Hj & Hw & _). split; assumption. Qed.

Lemma journaled_refl db : journaled [] db db.
Proof. split; [rewrite app_nil_r|]; reflexivity. Qed.

Lemma journaled_trans es1 es2 db db1 db2 :
  journaled es1 db db1 -> journaled es2 db1 db2 -> journaled (es1 ++ es2) db db2.
Proof.
  intros (Hj1 & Hw1) (Hj2 & Hw2). split.
  - rewrite Hj2, Hj1, app_assoc. reflexivity.
  - rewrite Hw2, Hw1, run_effects_app. reflexivity.
Qed.

Lemma journaled_effects es h db :
  journaled es db (handle h db) -> effects h db = es.
Proof.
  intros (Hj & _). unfold effects. rewrite Hj.
  rewrite skipn_app, skipn_all, Nat.sub_diag. reflexivity.
Qed.

(** The journal of a transaction that removes chunks. *)
Lemma inTransaction_performed body db :
  removes body ->
  exists W ok db2 R,
    body (transaction db) = (ok, db2, R) /\
    performed W (transaction db) db2 /\
    Forall (fun e => scan_effect e = true) W /\
    performed (SqlTransaction :: W ++ conclude ok R) db (inTransaction body db).
Proof.
  intros Hr.
  assert (Hs : scans (transaction db) (snd (fst (body (transaction db))))
                     (snd (body (transaction db)))).
  { apply (Hr (scans (transaction db))).
    - intros d R e He. apply scans_perform. unfold scan_effect.
      destruct e; try discriminate; reflexivity.
    - intros d R doc. apply scans_perform. reflexivity.
    - intros d R q (es & H & Hall). exists es. split; [exact H | exact Hall].
    - exists []. split; [apply performed_refl | constructor]. }
  destruct Hs as (W & HW & Hall).
  unfold inTransaction.
  destruct (body (transaction db)) as [[ok db2] R]. simpl in HW.
  exists W, ok, db2, R.
  split; [reflexivity|]. split; [exact HW|]. split; [exact Hall|].
  change (SqlTransaction :: W ++ conclude ok R) with ([SqlTransaction] ++ W ++ conclude ok R).
  eapply performed_trans; [apply performed_perform|].
  eapply performed_trans; [exact HW|].
  destruct ok; unfold conclude.
  - change (SqlCommit :: save_after R) with ([SqlCommit] ++ save_after R).
    eapply performed_trans; [apply removeFromEmbeddings_performed|].
    eapply performed_trans; [apply performed_perform|].
    apply saveEmbeddingsIf_performed.
  - apply performed_perform.
Qed.

(** [cleanDB] and [changeChunkSize] are such transactions. *)
Lemma cleanDB_inTransaction env db cs :
  selectAllFromCollections db = Some cs ->
  snd (cleanDB env db) = inTransaction (cleanAll env cs) db.
Proof.
  intros E. unfold cleanDB, inTransaction. rewrite E.
  destruct (cleanAll env cs (transaction db)) as [[ok d] R].
  destruct ok; reflexivity.
Qed.

Lemma changeChunkSize_inTransaction env chunkSize db :
  (chunkSize =? m_chunkSize db) = false ->
  changeChunkSize env chunkSize db =
    addCurrentFolders env
      (set_chunkSize chunkSize
         (inTransaction
            (removeAll (map document_id (sql_select_all_documents (m_db db)))) db)).
Proof.
  intros E. unfold changeChunkSize, inTransaction, removeAll. rewrite E.
  destruct (fold_left _ _ (transaction db, [])) as [d R]. reflexivity.
Qed.

Lemma removeFolder_inTransaction collection path db f :
  sql_select_folder path (m_db db) = Some f ->
  removeFolder collection path db =
    inTransaction (fun db => removeFolderInternal collection f db []) db.
Proof.
  intros E. unfold removeFolder, inTransaction. rewrite E. reflexivity.
Qed.

(** X24. The order of [cleanDB].  Either it does nothing, or it opens
    a transaction, then does nothing but write to the tables (or send
    batches), and then concludes as a scan batch does: when it succeeds,
    the chunks collected are removed from the index in memory, then the
    transaction is committed, then the index is saved if a chunk was
    removed; when it fails, the transaction is rolled back and the index
    is not touched. *)
Lemma cleanDB_order env db :
  effects (CleanDB env) db = [] \/
  exists W ok R,
    effects (CleanDB env) db = SqlTransaction :: W ++ conclude ok R /\
    Forall (fun e => scan_effect e = true) W.
Proof.
  destruct (selectAllFromCollections db) as [cs|] eqn:E.
  - right.
    destruct (inTransaction_performed (cleanAll env cs) db (cleanAll_removes env cs))
      as (W & ok & db2 & R & _ & _ & Hall & Hp).
    exists W, ok, R. split; [|exact Hall].
    apply performed_effects. simpl. rewrite (cleanDB_inTransaction env db cs E). exact Hp.
  - left. apply (performed_effects [] (CleanDB env) db).
    simpl. unfold cleanDB. rewrite E. apply performed_refl.
Qed.

(** ** The size of the batches *)

Lemma batches_app a b : batches (a ++ b) = batches a ++ batches b.
Proof. unfold batches. apply flat_map_app. Qed.

Lemma batches_none es : Forall (fun e => is_send e = false) es -> batches es = [].
Proof.
  induction 1 as [|e es He _ IH]; [reflexivity|].
  change (e :: es) with ([e] ++ es). rewrite batches_app, IH.
  destruct e; try discriminate; reflexivity.
Qed.

Lemma batch_bounded_perform e db :
  is_send e = false -> batch_bounded db -> batch_bounded (perform e db).
Proof.
  intros He [Hl Hb]. split; [exact Hl|].
  simpl. rewrite batches_app. apply Forall_app. split; [exact Hb|].
  destruct e; try discriminate; constructor.
Qed.

Lemma batch_bounded_sendChunkList db : batch_bounded db -> batch_bounded (sendChunkList db).
Proof.
  intros [Hl Hb]. split; [simpl; unfold s_batchSize; lia|].
  simpl. rewrite batches_app. apply Forall_app. split; [exact Hb|].
  constructor; [lia | constructor].
Qed.

Lemma batch_bounded_appendChunk c db : batch_bounded db -> batch_bounded (appendChunk c db).
Proof.
  intros [Hl Hb]. unfold appendChunk.
  set (db1 := set_chunkList (m_chunkList db ++ [c]) db).
  assert (Hlen : Z.of_nat (length (m_chunkList db1)) = Z.of_nat (length (m_chunkList db)) + 1).
  { simpl. rewrite length_app. simpl. lia. }
  destruct (s_batchSize <=? Z.of_nat (length (m_chunkList db1))) eqn:E.
  - split; [simpl; unfold s_batchSize; lia|].
    simpl. rewrite batches_app. apply Forall_app. split; [exact Hb|].
    constructor; [|constructor]. rewrite length_app. simpl. unfold s_batchSize in *. lia.
  - apply Z.leb_gt in E. split; [exact E | exact Hb].
Qed.

Lemma batch_bounded_set_docsToScan q db :
  batch_bounded db -> batch_bounded (set_docsToScan q db).
Proof. intros H. exact H. Qed.

Lemma batch_bounded_removeFromEmbeddings R db :
  batch_bounded db -> batch_bounded (removeFromEmbeddings R db).
Proof.
  revert db. induction R as [|c R IH]; intros db H; [exact H|].
  simpl. apply IH. apply batch_bounded_perform; [reflexivity | exact H].
Qed.

Lemma batch_bounded_saveEmbeddingsIf R db :
  batch_bounded db -> batch_bounded (saveEmbeddingsIf R db).
Proof. intros H. destruct R; [exact H | apply batch_bounded_perform; [reflexivity | exact H]]. Qed.

Lemma mid_length {A} (l : list A) i n : (length (mid l i n) <= Z.to_nat n)%nat.
Proof. unfold mid. rewrite length_firstn. lia. Qed.

Lemma batch_bounded_write d (R : list Z) e :
  is_plain_write e = true -> batch_bounded d -> batch_bounded (perform e d).
Proof. intros He. apply batch_bounded_perform. destruct e; try discriminate; reflexivity. Qed.

Lemma batch_bounded_delete d (R : list Z) doc :
  batch_bounded d -> batch_bounded (perform (SqlDeleteChunks doc) d).
Proof. apply batch_bounded_perform. reflexivity. Qed.

Lemma scanQueueBatch_bounded env turns db :
  batch_bounded db -> batch_bounded (scanQueueBatch env turns db).
Proof.
  intros H. unfold scanQueueBatch.
  pose proof (scanWhile_inv (fun d _ => batch_bounded d) batch_bounded_write
                batch_bounded_delete
                (fun d _ c => batch_bounded_appendChunk c d)
                (fun d _ => batch_bounded_sendChunkList d)
                (fun d _ q => batch_bounded_set_docsToScan q d)
                env turns (transaction db) []
                (batch_bounded_perform SqlTransaction db eq_refl H)) as H1.
  destruct (scanWhile env turns (transaction db) []) as [db2 R]. simpl in H1.
  apply batch_bounded_saveEmbeddingsIf, batch_bounded_perform; [reflexivity|].
  apply batch_bounded_removeFromEmbeddings. exact H1.
Qed.

Lemma addEmbeddings_chunkList accepts embeddings db :
  m_chunkList (fst (addEmbeddings accepts embeddings db)) = m_chunkList db.
Proof.
  unfold addEmbeddings.
  assert (G : forall es d acc,
    m_chunkList (fst (fold_left
      (fun '(db, chunksToAdd) e =>
         match selectFileForChunk db (er_chunk_id e) with
         | None => (db, chunksToAdd)
         | Some _ =>
             if accepts e
             then (perform (EmbeddingsAdd (er_chunk_id e)) db,
                   chunksToAdd ++ [er_chunk_id e])
             else (db, chunksToAdd)
         end) es (d, acc))) = m_chunkList d).
  { induction es as [|e es IH]; intros d acc; [reflexivity|].
    simpl. destruct (selectFileForChunk d (er_chunk_id e)); [|apply IH].
    destruct (accepts e); [|apply IH]. rewrite IH. reflexivity. }
  apply G.
Qed.

Lemma handleEmbeddingsGenerated_bounded accepts embeddings db :
  batch_bounded db -> batch_bounded (handleEmbeddingsGenerated accepts embeddings db).
Proof.
  intros H.
  pose proof (handleEmbeddingsGenerated_performed accepts embeddings db) as (Hj & _ & _).
  split.
  - (* the list of pending chunks is not touched *)
    destruct H as [Hl _]. unfold handleEmbeddingsGenerated.
    pose proof (addEmbeddings_chunkList accepts embeddings db) as G.
    destruct (addEmbeddings accepts embeddings db) as [db1 A]. simpl in G.
    destruct A as [|a A]; [rewrite G; exact Hl|].
    simpl.
    assert (G2 : forall ids d,
      m_chunkList (fold_left (fun db chunk_id => updateChunkHasEmbedding chunk_id db) ids d)
      = m_chunkList d).
    { induction ids as [|x ids IH]; intros d; [reflexivity|]. simpl. rewrite IH. reflexivity. }
    rewrite G2. simpl. rewrite G. exact Hl.
  - rewrite Hj, batches_app. apply Forall_app. split; [apply H|].
    rewrite batches_none; [constructor|].
    apply Forall_app. split.
    + apply List.Forall_forall. intros e Hin.
      apply in_map_iff in Hin as (x & <- & _). reflexivity.
    + destruct (snd (addEmbeddings accepts embeddings db)) as [|a A]; [constructor|].
      unfold mark_after_save. repeat (constructor; [reflexivity|]).
      apply Forall_app. split; [|repeat constructor].
      apply List.Forall_forall. intros e Hin.
      apply in_map_iff in Hin as (x & <- & _). reflexivity.
Qed.

Lemma scheduleUncompletedEmbeddings_bounded folder_id db :
  batch_bounded db -> batch_bounded (scheduleUncompletedEmbeddings folder_id db).
Proof.
  intros H. unfold scheduleUncompletedEmbeddings.
  generalize (selectAllUncompletedChunks db folder_id). intros chunkList.
  generalize (length chunkList) at 1. intros fuel. generalize 0 at 1. intros i.
  revert i db H. induction fuel as [|fuel IH]; intros i db H; [exact H|].
  simpl. destruct (i <? _); [|exact H].
  apply IH. destruct H as [Hl Hb]. split; [exact Hl|].
  simpl. rewrite batches_app. apply Forall_app. split; [exact Hb|].
  constructor; [|constructor].
  pose proof (mid_length chunkList i s_batchSize). unfold s_batchSize in *. lia.
Qed.

Lemma inTransaction_bounded body db :
  removes body -> batch_bounded db -> batch_bounded (inTransaction body db).
Proof.
  intros Hr H. unfold inTransaction.
  pose proof (Hr (fun d _ => batch_bounded d) batch_bounded_write batch_bounded_delete
                (fun d _ q => batch_bounded_set_docsToScan q d)
                (transaction db)
                (batch_bounded_perform SqlTransaction db eq_refl H)) as H1.
  destruct (body (transaction db)) as [[ok db2] R]. simpl in H1. destruct ok.
  - apply batch_bounded_saveEmbeddingsIf, batch_bounded_perform; [reflexivity|].
    apply batch_bounded_removeFromEmbeddings. exact H1.
  - apply batch_bounded_perform; [reflexivity | exact H1].
Qed.

(** ** Removing a folder *)

Lemma In_filter {A} (P : A -> Prop) `{!forall x, Decision (P x)} (l : list A) x :
  In x (filter P l) <-> In x l /\ P x.
Proof. rewrite <- !list_elem_of_In, list_elem_of_filter. tauto. Qed.

(** The tables and the list of ids after the documents [ids] and their
    chunks are removed. *)
Lemma removeDocuments_spec ids db R :
  let st := fold_left (fun st d => removeDocumentAndChunks d st) ids (db, R) in
  let t := m_db db in
  let t' := m_db (fst st) in
  (forall c, In c (chunks t') <-> In c (chunks t) /\ ~ In (chunk_document c) ids) /\
  (forall d, In d (documents t') <-> In d (documents t) /\ ~ In (document_id d) ids) /\
  folders t' = folders t /\ collections t' = collections t /\
  collection_items t' = collection_items t /\
  m_embeddings (fst st) = m_embeddings db /\
  snapshot (sql (m_world (fst st))) = snapshot (sql (m_world db)) /\
  (forall x, In x (snd st) <->
             In x R \/ exists c, In c (chunks t) /\ In (chunk_document c) ids /\ chunk_id c = x).
Proof.
  revert db R. induction ids as [|d ids IH]; intros db R.
  - simpl. repeat split; try tauto; try reflexivity.
    + intros [H|(c & _ & [] & _)]; exact H.
  - simpl fold_left.
    set (db1 := perform (SqlDeleteDocument d) (removeChunksByDocumentId d db)).
    set (R1 := getChunksByDocumentId db d R).
    specialize (IH db1 R1). cbv zeta in IH |- *.
    destruct IH as (Hc & Hd & Hf & Hcol & Hit & He & Hs & HR).
    assert (Ec : chunks (m_db db1) = filter (fun c => chunk_document c <> d) (chunks (m_db db)))
      by reflexivity.
    assert (Ed : documents (m_db db1) = filter (fun x => document_id x <> d) (documents (m_db db)))
      by reflexivity.
    split; [|split; [|split; [|split; [|split; [|split; [|split]]]]]].
    + intros c. rewrite Hc, Ec, In_filter. simpl. intuition congruence.
    + intros x. rewrite Hd, Ed, In_filter. simpl. intuition congruence.
    + rewrite Hf. reflexivity.
    + rewrite Hcol. reflexivity.
    + rewrite Hit. reflexivity.
    + rewrite He. reflexivity.
    + rewrite Hs. reflexivity.
    + intros x. rewrite HR. unfold R1, getChunksByDocumentId, sql_select_chunks_by_document.
      rewrite in_app_iff, in_map_iff. split.
      * intros [[H|(c & Hid & Hin)]|(c & Hin & Hdoc & Hid)].
        -- left. exact H.
        -- apply In_filter in Hin as [Hin Hdoc]. right. exists c. simpl. auto.
        -- rewrite Ec in Hin. apply In_filter in Hin as [Hin _]. right. exists c. simpl. auto.
      * intros [H|(c & Hin & Hdoc & Hid)]; [tauto|].
        destruct (decide (chunk_document c = d)) as [Heq|Hne].
        -- left. right. exists c. split; [exact Hid|]. apply In_filter. auto.
        -- right. exists c. rewrite Ec, In_filter. simpl in Hdoc. intuition congruence.
Qed.

Lemma removeFromEmbeddings_spec R db :
  let db' := removeFromEmbeddings R db in
  sql (m_world db') = sql (m_world db) /\
  saved (m_embeddings db') = saved (m_embeddings db) /\
  (forall x, x ∈ loaded (m_embeddings db') <-> x ∈ loaded (m_embeddings db) /\ ~ In x R).
Proof.
  revert db. induction R as [|c R IH]; intros db.
  - simpl. repeat split; tauto.
  - simpl. destruct (IH (perform (EmbeddingsRemove c) db)) as (Hs & Hsv & Hl).
    split; [rewrite Hs; reflexivity|]. split; [rewrite Hsv; reflexivity|].
    intros x. rewrite Hl. unfold m_embeddings. simpl.
    rewrite elem_of_difference, elem_of_singleton. intuition congruence.
Qed.

Lemma m_embeddings_transaction db : m_embeddings (transaction db) = m_embeddings db.
Proof.
  unfold m_embeddings, transaction, perform. simpl.
  destruct (snapshot (sql (m_world db))); reflexivity.
Qed.

Lemma m_db_saved R d : m_db (saveEmbeddingsIf R (commit d)) = m_db d.
Proof. destruct R; reflexivity. Qed.

Lemma count_folder_references_nonneg f t : 0 <= count_folder_references f t.
Proof. unfold count_folder_references. lia. Qed.

(** C5. Removing a folder from a collection that has it removes the
    association and prunes the collections left without a folder.  When
    other collections still refer to the folder, the folder, its
    documents, their chunks and the index stay as they are.  When none
    does, the folder row is deleted, no document of the folder is left,
    and every chunk of a document of the folder is gone from the table
    and from the index, in memory and on disk. *)
Theorem remove_folder_correct (collection path : string) (db : Database) (f : Z)
    (Hfolder : sql_select_folder path (m_db db) = Some f)
    (Hmember : deleted_collection_folder collection f (m_db db) <> []) :
  let t := m_db db in
  let db' := removeFolder collection path db in
  let t' := m_db db' in
  collection_items t' = collection_items (sql_delete_collection_folder collection f t) /\
  (forall c, In c (collections t') <->
             In c (collections t) /\
             exists i, In i (collection_items t') /\ item_collection i = collection_id c) /\
  (count_folder_references f t' <> 0 ->
     folders t' = folders t /\ documents t' = documents t /\ chunks t' = chunks t /\
     m_embeddings db' = m_embeddings db) /\
  (count_folder_references f t' = 0 ->
     (forall r, In r (folders t') <-> In r (folders t) /\ folder_id r <> f) /\
     (forall d, In d (documents t') -> document_folder d <> f) /\
     (forall c, In c (chunks t) -> in_folder t f c ->
                ~ In c (chunks t') /\
                (chunk_id c ∉ loaded (m_embeddings db')) /\
                (chunk_id c ∉ saved (m_embeddings db')))).
Proof.
  cbv zeta. unfold removeFolder. rewrite Hfolder.
  unfold removeFolderInternal, removeCollectionFolder. cbv zeta.
  rewrite m_db_transaction.
  destruct (deleted_collection_folder collection f (m_db db)) as [|i0 deleted] eqn:Edel;
    [congruence|]. clear Hmember.
  set (db1 := perform (SqlDeleteCollectionFolder collection f) (transaction db)).
  assert (Et1 : m_db db1 = sql_delete_collection_folder collection f (m_db db)).
  { change (m_db db1)
      with (sql_delete_collection_folder collection f (m_db (transaction db))).
    rewrite m_db_transaction. reflexivity. }
  assert (Eneg : (count_folder_references f (m_db db1) =? -1) = false).
  { apply Z.eqb_neq. pose proof (count_folder_references_nonneg f (m_db db1)). lia. }
  rewrite Eneg.
  set (db2 := perform SqlPruneCollections db1).
  assert (Et2 : m_db db2 = sql_prune_collections (m_db db1)) by reflexivity.
  assert (Hitems : collection_items (m_db db2) = collection_items (m_db db1))
    by reflexivity.
  assert (Hcols : forall c, In c (collections (m_db db2)) <->
             In c (collections (m_db db)) /\
             exists i, In i (collection_items (m_db db1)) /\
                       item_collection i = collection_id c).
  { intros c. rewrite Et2. unfold sql_prune_collections. simpl.
    rewrite In_filter, List.Exists_exists.
    assert (Ec : collections (m_db db1) = collections (m_db db)).
    { rewrite Et1. unfold sql_delete_collection_folder.
      destruct (collection_id_of collection (m_db db)); reflexivity. }
    rewrite Ec. tauto. }
  assert (Hsame : folders (m_db db2) = folders (m_db db) /\
                  documents (m_db db2) = documents (m_db db) /\
                  chunks (m_db db2) = chunks (m_db db)).
  { rewrite Et2. unfold sql_prune_collections. simpl. rewrite Et1.
    unfold sql_delete_collection_folder.
    destruct (collection_id_of collection (m_db db)); repeat split. }
  destruct Hsame as (Hfol & Hdocs & Hchunks).
  destruct (count_folder_references f (m_db db1) =? 0) eqn:Ezero; simpl negb; cbv iota.
  - (* the last reference to the folder *)
    apply Z.eqb_eq in Ezero.
    set (db3 := removeFolderFromDocumentQueue f db2).
    pose proof (removeDocuments_spec (sql_select_documents f (m_db db3)) db3 []) as Hspec.
    cbv zeta in Hspec.
    destruct (fold_left (fun st d => removeDocumentAndChunks d st)
                (sql_select_documents f (m_db db3)) (db3, [])) as [db4 R] eqn:Efold.
    simpl fst in Hspec. simpl snd in Hspec.
    destruct Hspec as (Hc4 & Hd4 & Hf4 & Hcol4 & Hit4 & He4 & _ & HR).
    change (m_db db3) with (m_db db2) in *.
    set (db5 := perform (SqlDeleteFolder f) db4).
    pose proof (removeFromEmbeddings_spec R db5) as (Hsql & Hsaved & Hloaded).
    cbv zeta in Hsql, Hsaved, Hloaded.
    set (db6 := removeFromEmbeddings R db5) in *.
    assert (Et' : m_db (saveEmbeddingsIf R (commit db6)) = m_db db5).
    { rewrite m_db_saved. unfold m_db. rewrite Hsql. reflexivity. }
    rewrite Et'.
    assert (Hids : forall d, In d (documents (m_db db)) ->
               (In (document_id d) (sql_select_documents f (m_db db2)) <->
                exists d', In d' (documents (m_db db)) /\ document_folder d' = f /\
                           document_id d' = document_id d)).
    { intros d _. unfold sql_select_documents. rewrite in_map_iff, Hdocs. split.
      - intros (d' & Hid & Hin). apply In_filter in Hin as [Hin Hfd]. exists d'. auto.
      - intros (d' & Hin & Hfd & Hid). exists d'. split; [exact Hid|].
        apply In_filter. auto. }
    split; [|split; [|split; [|split; [|split]]]].
    + change (collection_items (m_db db5)) with (collection_items (m_db db4)).
      rewrite Hit4, Hitems, Et1. reflexivity.
    + intros c. change (collections (m_db db5)) with (collections (m_db db4)).
      change (collection_items (m_db db5)) with (collection_items (m_db db4)).
      rewrite Hcol4, Hit4, Hitems. apply Hcols.
    + intros Hn. exfalso. apply Hn. rewrite <- Ezero. unfold count_folder_references.
      change (collection_items (m_db db5)) with (collection_items (m_db db4)).
      rewrite Hit4, Hitems. reflexivity.
    + intros r. change (folders (m_db db5))
        with (filter (fun x => folder_id x <> f) (folders (m_db db4))).
      rewrite In_filter, Hf4, Hfol. tauto.
    + intros d Hin Hfd. change (documents (m_db db5)) with (documents (m_db db4)) in Hin.
      apply Hd4 in Hin as [Hin Hnot]. rewrite Hdocs in Hin. apply Hnot.
      apply Hids; [exact Hin|]. exists d. auto.
    + intros c Hin (d & Hd & Hfd & Hid).
      assert (Hdoc : In (chunk_document c) (sql_select_documents f (m_db db2))).
      { rewrite <- Hid. apply Hids; [exact Hd|]. exists d. auto. }
      assert (HinR : In (chunk_id c) R).
      { apply HR. right. exists c. rewrite Hchunks. auto. }
      split; [|split].
      * change (chunks (m_db db5)) with (chunks (m_db db4)).
        rewrite Hc4. tauto.
      * destruct R as [|x R']; [destruct HinR|].
        unfold m_embeddings. simpl. fold (m_embeddings db6).
        rewrite Hloaded. tauto.
      * destruct R as [|x R']; [destruct HinR|].
        unfold m_embeddings. simpl. fold (m_embeddings db6).
        rewrite Hloaded. tauto.
  - (* the folder is still referenced *)
    apply Z.eqb_neq in Ezero.
    fold db2. change (removeFromEmbeddings [] db2) with db2.
    rewrite m_db_saved.
    split; [|split; [|split]].
    + rewrite Hitems, Et1. reflexivity.
    + intros c. rewrite Hitems. apply Hcols.
    + intros _. rewrite Hfol, Hdocs, Hchunks. repeat split.
      change (m_embeddings (saveEmbeddingsIf [] (commit db2)))
        with (m_embeddings (transaction db)).
      apply m_embeddings_transaction.
    + intros Hn. exfalso. apply Ezero. rewrite <- Hn.
      unfold count_folder_references. rewrite Hitems. reflexivity.
Qed.

Lemma remove_folder_witness :
  let db' := removeFolder "Work" "/A" two_folder_db in
  collection_items (m_db db') =
    collection_items (sql_delete_collection_folder "Work" 1 (m_db two_folder_db)) /\
  (forall c, In c (collections (m_db db')) <->
             In c (collections (m_db two_folder_db)) /\
             exists i, In i (collection_items (m_db db')) /\
                       item_collection i = collection_id c) /\
  (count_folder_references 1 (m_db db') <> 0 ->
     folders (m_db db') = folders (m_db two_folder_db) /\
     documents (m_db db') = documents (m_db two_folder_db) /\
     chunks (m_db db') = chunks (m_db two_folder_db) /\
     m_embeddings db' = m_embeddings two_folder_db) /\
  (count_folder_references 1 (m_db db') = 0 ->
     (forall r, In r (folders (m_db db')) <->
                In r (folders (m_db two_folder_db)) /\ folder_id r <> 1) /\
     (forall d, In d (documents (m_db db')) -> document_folder d <> 1) /\
     (forall c, In c (chunks (m_db two_folder_db)) -> in_folder (m_db two_folder_db) 1 c ->
                ~ In c (chunks (m_db db')) /\
                (chunk_id c ∉ loaded (m_embeddings db')) /\
                (chunk_id c ∉ saved (m_embeddings db')))).
Proof.
  apply (remove_folder_correct "Work" "/A" two_folder_db 1); [reflexivity | discriminate].
Defined.

(** ** Files with binary data *)

Lemma code_range b : 0 <= code b < 256.
Proof.
  unfold code. pose proof (N_ascii_bounded b) as H. lia.
Qed.

(** The bytes [checkData] takes for binary data are those of the three
    ranges 0x00-0x06, 0x0E-0x1A and 0x1C-0x1F. *)
Lemma controlByte_ranges b :
  controlByte b = true <->
  0 <= code b <= 6 \/ 14 <= code b <= 26 \/ 28 <= code b <= 31.
Proof.
  unfold controlByte. pose proof (code_range b).
  rewrite !orb_true_iff, !andb_true_iff, !Z.ltb_lt, !Z.leb_le. lia.
Qed.

(** A read that brings a control byte fails, and the flag tells it from a
    read that fails for another reason. *)
Lemma checkData_binary data size :
  0 <= size ->
  checkData false data size =
    if existsb controlByte (firstn (Z.to_nat size) data) then (-1, true) else (size, false).
Proof.
  intros H. unfold checkData.
  assert (E : (size =? -1) = false) by (apply Z.eqb_neq; lia).
  rewrite E. simpl. destruct (existsb _ _); reflexivity.
Qed.

Lemma checkData_read_error data : checkData false data (-1) = (-1, false).
Proof. reflexivity. Qed.

Lemma checkData_sticky data size : checkData true data size = (-1, true).
Proof. unfold checkData. destruct (size =? -1); reflexivity. Qed.

Lemma existsb_firstn {A} (p : A -> bool) n l :
  existsb p l = false -> existsb p (firstn n l) = false.
Proof.
  revert n. induction l as [|x l IH]; intros [|n] H; simpl in *; try reflexivity.
  apply orb_false_iff in H as [-> H]. simpl. apply IH. exact H.
Qed.

Lemma existsb_skipn {A} (p : A -> bool) n l :
  existsb p l = false -> existsb p (skipn n l) = false.
Proof.
  revert n. induction l as [|x l IH]; intros [|n] H; simpl in *; try assumption; try reflexivity.
  apply orb_false_iff in H as [_ H]. apply IH. exact H.
Qed.

(** A read from a file that holds no control byte and whose reads do
    not fail gives the next bytes and leaves the flag down. *)
Lemma readData_clean f offset maxSize :
  io_error f = false -> existsb controlByte (contents f) = false ->
  readData f false offset maxSize =
    (firstn maxSize (skipn offset (contents f)),
     Z.of_nat (length (firstn maxSize (skipn offset (contents f)))), false).
Proof.
  intros Hio Hclean. unfold readData, QFile_readData. rewrite Hio.
  rewrite checkData_binary by lia.
  rewrite Nat2Z.id, firstn_all.
  rewrite existsb_firstn; [reflexivity|]. apply existsb_skipn. exact Hclean.
Qed.

Lemma fillReadBuffer_clean fuel blockSize f offset :
  io_error f = false -> existsb controlByte (contents f) = false ->
  (0 < blockSize)%nat -> (length (contents f) - offset < fuel)%nat ->
  fillReadBuffer fuel blockSize f offset false = (skipn offset (contents f), EndOfData, false).
Proof.
  intros Hio Hclean Hbs. revert offset.
  induction fuel as [|fuel IH]; intros offset Hfuel; [lia|].
  simpl. destruct (length (contents f) <=? offset)%nat eqn:E.
  - apply Nat.leb_le in E. rewrite skipn_all2 by exact E. reflexivity.
  - apply Nat.leb_gt in E. rewrite readData_clean by assumption.
    set (l := skipn offset (contents f)).
    assert (Hl : length l = (length (contents f) - offset)%nat) by apply length_skipn.
    assert (Hn : length (firstn blockSize l) = Nat.min blockSize (length l))
      by apply length_firstn.
    destruct (Z.of_nat (length (firstn blockSize l)) <? 0) eqn:E1; [apply Z.ltb_lt in E1; lia|].
    destruct (Z.of_nat (length (firstn blockSize l)) =? 0) eqn:E2; [apply Z.eqb_eq in E2; lia|].
    rewrite Nat2Z.id, IH by lia.
    f_equal. f_equal.
    replace (skipn (offset + length (firstn blockSize l)) (contents f))
      with (skipn (length (firstn blockSize l)) l).
    2:{ subst l. rewrite skipn_skipn. f_equal. lia. }
    rewrite Hn. destruct (Nat.le_ge_cases blockSize (length l)) as [H | H].
    + rewrite Nat.min_l by exact H. apply firstn_skipn.
    + rewrite Nat.min_r by exact H. rewrite skipn_all, firstn_all2 by exact H.
      apply app_nil_r.
Qed.

(** X7. A file of plain text opens as its text.  When the file reads
    without error and holds no control byte, the stream that [scanQueue]
    opens at [byteIndex] is the stream over the text of the file at that
    position, the flag of binary data stays down, and the size of the
    blocks that the stream reads makes no difference. *)
Lemma openStream_clean blockSize f byteIndex :
  io_error f = false -> existsb controlByte (contents f) = false ->
  (0 < blockSize)%nat -> 0 <= byteIndex ->
  openStream blockSize f byteIndex = (streamAt (contents f) byteIndex, false).
Proof.
  intros Hio Hclean Hbs Hpos. unfold openStream.
  rewrite readData_clean by assumption. simpl snd.
  replace (if byteIndex =? 0 then false else false) with false by (destruct (_ =? _); reflexivity).
  rewrite fillReadBuffer_clean by (try assumption; lia).
  reflexivity.
Qed.

Lemma openStream_clean_witness :
  io_error (mkQFile (qstr "one two three") false) = false /\
  existsb controlByte (contents (mkQFile (qstr "one two three") false)) = false /\
  openStream 5 (mkQFile (qstr "one two three") false) 4 =
    (streamAt (contents (mkQFile (qstr "one two three") false)) 4, false).
Proof.
  split; [reflexivity|]. split; [reflexivity|].
  apply (openStream_clean 5 (mkQFile (qstr "one two three") false) 4);
    [reflexivity | reflexivity | lia | lia].
Defined.

(** C4, at an input where the scanner does not do what is claimed.
    The file is new and its byte 0x01 lies in the second block of the
    stream.  The scan of the file ends with that read: the document is
    recorded and leaves the queue.  But the 60 chunks of the first block
    stay in the table and are sent to be embedded: the statement that
    purges the chunks is run for the id -1 of the document not found,
    not for the id 1 the document got. *)
Theorem binary_file_keeps_chunks :
  let db := scanQueueBatch binary_env 1 binary_db in
  Z.of_nat (length (contents binary_file)) = 16385 /\
  existsb controlByte (contents binary_file) = true /\
  m_docsToScan db = [] /\
  documents (m_db db) = [mkDocumentRow 1 1 3000 "/work/blob.txt"] /\
  length (List.filter (fun c => chunk_document c =? 1) (chunks (m_db db))) = 60%nat /\
  List.filter is_delete_chunks (journal db) = [SqlDeleteChunks (-1)] /\
  map (fun batch : list EmbeddingChunk => length batch) (batches (journal db)) = [60%nat].
Proof. vm_compute. repeat split. Qed.

(** When the byte 0x01 comes with the first block, no chunk has been
    inserted when the read fails: the new document is recorded without a
    chunk and nothing is sent. *)
Lemma binary_in_first_block :
  let db := scanQueueBatch binary_head_env 1 binary_db in
  m_docsToScan db = [] /\
  documents (m_db db) = [mkDocumentRow 1 1 3000 "/work/blob.txt"] /\
  chunks (m_db db) = [] /\
  batches (journal db) = [].
Proof. vm_compute. repeat split. Qed.

(** When the document is known to the tables, the purge runs for its
    id: the three chunks it had and the 60 chunks of the first block are
    deleted and removed from the index, and the document is recorded with
    its new modification time. *)
Lemma binary_in_known_document :
  let db := scanQueueBatch binary_known_env 1 rescan_db in
  m_docsToScan db = [] /\
  map document_time (List.filter (fun d => document_id d =? 1) (documents (m_db db)))
    = [2000] /\
  List.filter (fun c => chunk_document c =? 1) (chunks (m_db db)) = [] /\
  List.filter is_delete_chunks (journal db) = [SqlDeleteChunks 1; SqlDeleteChunks 1] /\
  removals (journal db) = [1; 2; 3] ++ map Z.of_nat (seq 6 60) /\
  forallb (fun id => bool_decide (id ∉ saved (m_embeddings db))) (removals (journal db))
    = true.
Proof. vm_compute. repeat split. Qed.

(** ** Crashes *)

Lemma always_head Q es w : always Q es w -> Q w.
Proof. destruct es; simpl; tauto. Qed.

Lemma always_app Q a b w :
  always Q (a ++ b) w <-> always Q a w /\ always Q b (run_effects a w).
Proof.
  revert w. induction a as [|e a IH]; intros w; simpl.
  - pose proof (always_head Q b w). tauto.
  - rewrite IH. tauto.
Qed.

Lemma always_firstn Q es w n : always Q es w -> Q (run_effects (firstn n es) w).
Proof.
  revert w n. induction es as [|e es IH]; intros w n H.
  - rewrite firstn_nil. apply H.
  - destruct n as [|n]; [apply H|]. simpl. apply IH. apply H.
Qed.

Lemma crash_safe_same w w' :
  durable (sql w') = durable (sql w) -> saved (index w') = saved (index w) ->
  crash_safe w -> crash_safe w'.
Proof.
  intros Hd Hs [H1 H2]. unfold crash_safe, embedded_are_saved. rewrite Hd, Hs.
  split; assumption.
Qed.

Lemma settled_crash_safe w : settled w -> crash_safe w.
Proof.
  intros [Hc Hi Hl Hs]. unfold crash_safe, embedded_are_saved, durable. rewrite Hc.
  split; assumption.
Qed.

Lemma volatile_step t0 e w :
  snapshot (sql w) = Some t0 -> volatile e = true ->
  snapshot (sql (apply_effect e w)) = Some t0 /\
  saved (index (apply_effect e w)) = saved (index w).
Proof.
  intros Hs He. destruct e; try discriminate; simpl; try rewrite Hs; split;
    solve [reflexivity | exact Hs].
Qed.

Lemma run_volatile t0 es w :
  snapshot (sql w) = Some t0 -> Forall (fun e => volatile e = true) es ->
  snapshot (sql (run_effects es w)) = Some t0 /\
  saved (index (run_effects es w)) = saved (index w).
Proof.
  intros Hs Hall. revert w Hs. induction Hall as [|e es He _ IH]; intros w Hs.
  - split; [exact Hs | reflexivity].
  - simpl. destruct (volatile_step t0 e w Hs He) as [Hs' Hsv].
    destruct (IH _ Hs') as [H1 H2]. split; [exact H1 | congruence].
Qed.

Lemma always_volatile t0 es w :
  snapshot (sql w) = Some t0 -> Forall (fun e => volatile e = true) es ->
  crash_safe w -> always crash_safe es w.
Proof.
  intros Hs Hall. revert w Hs. induction Hall as [|e es He _ IH]; intros w Hs Hsafe.
  - simpl. tauto.
  - simpl. split; [exact Hsafe|].
    destruct (volatile_step t0 e w Hs He) as [Hs' Hsv].
    apply IH; [exact Hs'|].
    apply (crash_safe_same w); [|exact Hsv|exact Hsafe].
    unfold durable. rewrite Hs, Hs'. reflexivity.
Qed.

Lemma scan_effect_volatile e : scan_effect e = true -> volatile e = true.
Proof. unfold scan_effect, volatile. destruct e; simpl; intros H; try exact H; reflexivity. Qed.

Lemma run_scan_index W w :
  Forall (fun e => scan_effect e = true) W -> index (run_effects W w) = index w.
Proof.
  intros Hall. revert w. induction Hall as [|e es He _ IH]; intros w; [reflexivity|].
  simpl. rewrite IH. destruct e; try discriminate; reflexivity.
Qed.

Lemma run_removes R w :
  sql (run_effects (map EmbeddingsRemove R) w) = sql w /\
  saved (index (run_effects (map EmbeddingsRemove R) w)) = saved (index w) /\
  (forall x, x ∈ loaded (index (run_effects (map EmbeddingsRemove R) w)) <->
             x ∈ loaded (index w) /\ ~ In x R).
Proof.
  revert w. induction R as [|c R IH]; intros w.
  - simpl. repeat split; tauto.
  - change (run_effects (map EmbeddingsRemove (c :: R)) w)
      with (run_effects (map EmbeddingsRemove R) (apply_effect (EmbeddingsRemove c) w)).
    destruct (IH (apply_effect (EmbeddingsRemove c) w)) as (H1 & H2 & H3).
    split; [rewrite H1; reflexivity|]. split; [rewrite H2; reflexivity|].
    intros x. rewrite H3. simpl.
    rewrite elem_of_difference, elem_of_singleton. intuition congruence.
Qed.

Lemma run_adds A w :
  sql (run_effects (map EmbeddingsAdd A) w) = sql w /\
  saved (index (run_effects (map EmbeddingsAdd A) w)) = saved (index w) /\
  (forall x, x ∈ loaded (index (run_effects (map EmbeddingsAdd A) w)) <->
             x ∈ loaded (index w) \/ In x A).
Proof.
  revert w. induction A as [|c A IH]; intros w.
  - simpl. repeat split; tauto.
  - change (run_effects (map EmbeddingsAdd (c :: A)) w)
      with (run_effects (map EmbeddingsAdd A) (apply_effect (EmbeddingsAdd c) w)).
    destruct (IH (apply_effect (EmbeddingsAdd c) w)) as (H1 & H2 & H3).
    split; [rewrite H1; reflexivity|]. split; [rewrite H2; reflexivity|].
    intros x. rewrite H3. simpl.
    rewrite elem_of_union, elem_of_singleton. intuition congruence.
Qed.

Lemma removes_volatile R : Forall (fun e => volatile e = true) (map EmbeddingsRemove R).
Proof. apply List.Forall_forall. intros e H. apply in_map_iff in H as (x & <- & _). reflexivity. Qed.

Lemma always_one Q e w : always Q [e] w <-> Q w /\ Q (apply_effect e w).
Proof. simpl. tauto. Qed.

Lemma always_nil Q w : always Q [] w <-> Q w.
Proof. simpl. tauto. Qed.

Lemma run_one e w : run_effects [e] w = apply_effect e w.
Proof. reflexivity. Qed.

(** A transaction that removes chunks: the writes [W], the removals from
    the index, the commit and the save. *)
Lemma removal_transaction_safe w0 W R :
  settled w0 -> Forall (fun e => scan_effect e = true) W ->
  removal_sound (tables (sql w0))
                (tables (sql (run_effects W (apply_effect SqlTransaction w0)))) R ->
  always crash_safe
    (SqlTransaction :: W ++ map EmbeddingsRemove R ++ SqlCommit :: save_after R) w0 /\
  settled
    (run_effects
       (SqlTransaction :: W ++ map EmbeddingsRemove R ++ SqlCommit :: save_after R) w0).
Proof.
  intros Hset HW (Hkept & Hgone & Hids).
  pose proof (settled_crash_safe w0 Hset) as Hsafe0.
  destruct Hset as [Hclosed Hids0 Hloaded0 Hsaved0].
  remember (tables (sql w0)) as t0 eqn:Et0.
  remember (apply_effect SqlTransaction w0) as w1 eqn:Ew1.
  assert (Hs1 : snapshot (sql w1) = Some t0) by (subst; simpl; rewrite Hclosed; reflexivity).
  assert (Hi1 : index w1 = index w0) by (subst; simpl; rewrite Hclosed; reflexivity).
  assert (Hsafe1 : crash_safe w1).
  { apply (crash_safe_same w0); [|rewrite Hi1; reflexivity|exact Hsafe0].
    unfold durable. rewrite Hs1, Hclosed. exact Et0. }
  assert (Hvol : Forall (fun e => volatile e = true) (W ++ map EmbeddingsRemove R)).
  { apply Forall_app. split; [|apply removes_volatile].
    eapply Forall_impl; [exact HW|]. intros e. apply scan_effect_volatile. }
  remember (run_effects W w1) as wW eqn:EwW.
  remember (run_effects (W ++ map EmbeddingsRemove R) w1) as w2 eqn:Ew2.
  destruct (run_volatile t0 _ w1 Hs1 Hvol) as [Hs2 Hsv2]. rewrite <- Ew2 in Hs2, Hsv2.
  assert (Hw2 : w2 = run_effects (map EmbeddingsRemove R) wW)
    by (subst w2 wW; apply run_effects_app).
  destruct (run_removes R wW) as (Hsql2 & _ & Hl2). rewrite <- Hw2 in Hsql2, Hl2.
  assert (HiW : index wW = index w0)
    by (subst wW; rewrite run_scan_index; [exact Hi1 | exact HW]).
  rewrite HiW in Hl2. rewrite Hi1 in Hsv2.
  assert (Hsafe2 : crash_safe w2).
  { apply (crash_safe_same w1); [| |exact Hsafe1].
    - unfold durable. rewrite Hs2, Hs1. reflexivity.
    - rewrite Hsv2, Hi1. reflexivity. }
  remember (apply_effect SqlCommit w2) as w3 eqn:Ew3.
  assert (Hsql3 : sql w3 = mkSqlDb (tables (sql wW)) None)
    by (subst w3; simpl; rewrite Hsql2; reflexivity).
  assert (Hi3 : index w3 = index w2) by (subst w3; reflexivity).
  assert (Hflag : forall c, In c (chunks (tables (sql wW))) -> has_embedding c = true ->
             chunk_id c ∈ loaded (index w0) /\ chunk_id c ∈ saved (index w0) /\
             ~ In (chunk_id c) R).
  { intros c Hin Hemb. pose proof (Hkept c Hin Hemb) as Hin0.
    split; [apply Hloaded0; assumption|]. split; [apply Hsaved0; assumption|].
    intros HR. exact (Hgone _ c HR Hin Hemb eq_refl). }
  assert (Hset3 : settled w3).
  { split; rewrite ?Hsql3, ?Hi3; simpl.
    - reflexivity.
    - exact Hids.
    - intros c Hin Hemb. apply Hl2. destruct (Hflag c Hin Hemb) as (H1 & _ & H3). tauto.
    - intros c Hin Hemb. rewrite Hsv2. apply (Hflag c Hin Hemb). }
  pose proof (settled_crash_safe w3 Hset3) as Hsafe3.
  remember (apply_effect EmbeddingsSave w3) as w4 eqn:Ew4.
  assert (Hset4 : settled w4).
  { destruct Hset3 as [H1 H2 H3 H4]. subst w4. split; simpl; assumption. }
  change (SqlTransaction :: W ++ map EmbeddingsRemove R ++ SqlCommit :: save_after R)
    with ([SqlTransaction] ++ (W ++ map EmbeddingsRemove R ++ [SqlCommit] ++ save_after R)).
  rewrite (app_assoc W).
  split.
  - apply always_app. split; [apply always_one; rewrite <- Ew1; split; assumption|].
    rewrite run_one, <- Ew1.
    apply always_app. split; [apply (always_volatile t0); assumption|].
    rewrite <- Ew2.
    apply always_app. split; [apply always_one; rewrite <- Ew3; split; assumption|].
    rewrite run_one, <- Ew3.
    destruct R as [|x R']; simpl save_after.
    + apply always_nil. exact Hsafe3.
    + apply always_one. rewrite <- Ew4. split; [exact Hsafe3|].
      apply settled_crash_safe. exact Hset4.
  - rewrite run_effects_app, run_one, <- Ew1, run_effects_app, <- Ew2,
      run_effects_app, run_one, <- Ew3.
    destruct R as [|x R']; simpl save_after; [exact Hset3|].
    rewrite run_one, <- Ew4. exact Hset4.
Qed.

(** A transaction that is rolled back. *)
Lemma rollback_transaction_safe w0 W :
  settled w0 -> Forall (fun e => scan_effect e = true) W ->
  always crash_safe (SqlTransaction :: W ++ [SqlRollback]) w0 /\
  settled (run_effects (SqlTransaction :: W ++ [SqlRollback]) w0).
Proof.
  intros Hset HW.
  pose proof (settled_crash_safe w0 Hset) as Hsafe0.
  destruct Hset as [Hclosed Hids0 Hloaded0 Hsaved0].
  remember (tables (sql w0)) as t0 eqn:Et0.
  remember (apply_effect SqlTransaction w0) as w1 eqn:Ew1.
  assert (Hs1 : snapshot (sql w1) = Some t0) by (subst; simpl; rewrite Hclosed; reflexivity).
  assert (Hi1 : index w1 = index w0) by (subst; simpl; rewrite Hclosed; reflexivity).
  assert (Hsafe1 : crash_safe w1).
  { apply (crash_safe_same w0); [|rewrite Hi1; reflexivity|exact Hsafe0].
    unfold durable. rewrite Hs1, Hclosed. exact Et0. }
  assert (Hvol : Forall (fun e => volatile e = true) W).
  { eapply Forall_impl; [exact HW|]. intros e. apply scan_effect_volatile. }
  remember (run_effects W w1) as wW eqn:EwW.
  destruct (run_volatile t0 _ w1 Hs1 Hvol) as [Hs2 Hsv2]. rewrite <- EwW in Hs2, Hsv2.
  assert (HiW : index wW = index w0)
    by (subst wW; rewrite run_scan_index; [exact Hi1 | exact HW]).
  assert (Hsafe2 : crash_safe wW).
  { apply (crash_safe_same w1); [| |exact Hsafe1].
    - unfold durable. rewrite Hs2, Hs1. reflexivity.
    - rewrite Hsv2. reflexivity. }
  remember (apply_effect SqlRollback wW) as w3 eqn:Ew3.
  assert (Hset3 : settled w3).
  { assert (Hd : durable (sql wW) = t0) by (unfold durable; rewrite Hs2; reflexivity).
    subst w3. split; simpl; rewrite ?Hd, ?HiW; try assumption. reflexivity. }
  change (SqlTransaction :: W ++ [SqlRollback]) with ([SqlTransaction] ++ W ++ [SqlRollback]).
  split.
  - apply always_app. split; [apply always_one; rewrite <- Ew1; split; assumption|].
    rewrite run_one, <- Ew1.
    apply always_app. split; [apply (always_volatile t0); assumption|].
    rewrite <- EwW. apply always_one. rewrite <- Ew3.
    split; [exact Hsafe2 | apply settled_crash_safe; exact Hset3].
  - rewrite run_effects_app, run_one, <- Ew1, run_effects_app, <- EwW, run_one, <- Ew3.
    exact Hset3.
Qed.

Lemma always_memory es w :
  Forall (fun e => memory_only e = true) es -> crash_safe w -> always crash_safe es w.
Proof.
  intros Hall. revert w. induction Hall as [|e es He _ IH]; intros w Hsafe.
  - simpl. tauto.
  - simpl. split; [exact Hsafe|]. apply IH.
    apply (crash_safe_same w); [| |exact Hsafe]; destruct e; try discriminate; reflexivity.
Qed.

Lemma mark_embedded_id a c : chunk_id (mark_embedded a c) = chunk_id c.
Proof. unfold mark_embedded. destruct (decide (chunk_id c = a)); reflexivity. Qed.

Lemma mark_embedded_flag a c :
  has_embedding (mark_embedded a c) = true -> has_embedding c = true \/ chunk_id c = a.
Proof. unfold mark_embedded. destruct (decide (chunk_id c = a)); auto. Qed.

Lemma run_flags A w :
  let w' := run_effects (map SqlUpdateChunkHasEmbedding A) w in
  index w' = index w /\ snapshot (sql w') = snapshot (sql w) /\
  map chunk_id (chunks (tables (sql w'))) = map chunk_id (chunks (tables (sql w))) /\
  (forall c', In c' (chunks (tables (sql w'))) -> has_embedding c' = true ->
     (exists c, In c (chunks (tables (sql w))) /\ chunk_id c = chunk_id c' /\
                has_embedding c = true) \/ In (chunk_id c') A).
Proof.
  revert w. induction A as [|a A IH]; intros w.
  - simpl. repeat split. intros c' Hin Hemb. left. exists c'. auto.
  - change (run_effects (map SqlUpdateChunkHasEmbedding (a :: A)) w)
      with (run_effects (map SqlUpdateChunkHasEmbedding A)
              (apply_effect (SqlUpdateChunkHasEmbedding a) w)).
    specialize (IH (apply_effect (SqlUpdateChunkHasEmbedding a) w)). cbv zeta in IH |- *.
    destruct IH as (H1 & H2 & H3 & H4).
    split; [rewrite H1; reflexivity|]. split; [rewrite H2; reflexivity|].
    split.
    + rewrite H3. simpl. rewrite map_map. apply map_ext. apply mark_embedded_id.
    + intros c' Hin Hemb. destruct (H4 c' Hin Hemb) as [(c & Hc & Hid & Hf)|HA].
      * simpl in Hc. apply in_map_iff in Hc as (c0 & <- & Hc0).
        rewrite mark_embedded_id in Hid.
        destruct (mark_embedded_flag a c0 Hf) as [Hf0|Ha].
        -- left. exists c0. auto.
        -- right. left. congruence.
      * right. right. exact HA.
Qed.

Lemma flags_volatile A :
  Forall (fun e => volatile e = true) (map SqlUpdateChunkHasEmbedding A).
Proof. apply List.Forall_forall. intros e H. apply in_map_iff in H as (x & <- & _). reflexivity. Qed.

Lemma adds_memory A : Forall (fun e => memory_only e = true) (map EmbeddingsAdd A).
Proof. apply List.Forall_forall. intros e H. apply in_map_iff in H as (x & <- & _). reflexivity. Qed.

(** The effects of [handleEmbeddingsGenerated]. *)
Lemma embeddings_safe w0 A :
  settled w0 ->
  always crash_safe (map EmbeddingsAdd A ++ mark_after_save A) w0 /\
  settled (run_effects (map EmbeddingsAdd A ++ mark_after_save A) w0).
Proof.
  intros Hset.
  pose proof (settled_crash_safe w0 Hset) as Hsafe0.
  destruct Hset as [Hclosed Hids0 Hloaded0 Hsaved0].
  remember (run_effects (map EmbeddingsAdd A) w0) as wA eqn:EwA.
  destruct (run_adds A w0) as (HsqlA & HsvA & HlA). rewrite <- EwA in HsqlA, HsvA, HlA.
  assert (HsetA : settled wA).
  { split; rewrite ?HsqlA, ?HsvA; try assumption.
    intros c Hin Hemb. apply HlA. left. apply Hloaded0; assumption. }
  rewrite always_app, run_effects_app, <- EwA.
  assert (Hcase : mark_after_save A = [] \/
                  mark_after_save A =
                    [EmbeddingsSave] ++ [SqlTransaction] ++
                    map SqlUpdateChunkHasEmbedding A ++ [SqlCommit])
    by (destruct A; [left | right]; reflexivity).
  destruct Hcase as [Em | Em]; rewrite Em.
  { split; [split; [apply always_memory; [apply adds_memory | exact Hsafe0]|]|exact HsetA].
    apply always_nil. apply settled_crash_safe. exact HsetA. }
  remember (apply_effect EmbeddingsSave wA) as w5 eqn:Ew5.
  assert (Hset5 : settled w5).
  { destruct HsetA as [H1 H2 H3 H4]. subst w5. split; simpl; assumption. }
  remember (apply_effect SqlTransaction w5) as w6 eqn:Ew6.
  remember (tables (sql w0)) as t0 eqn:Et0.
  assert (Hsql5 : sql w5 = sql w0) by (subst w5; simpl; exact HsqlA).
  assert (Hs6 : snapshot (sql w6) = Some t0).
  { subst w6. simpl. rewrite Hsql5, Hclosed. simpl. subst t0. reflexivity. }
  assert (Ht6 : tables (sql w6) = t0).
  { subst w6. simpl. rewrite Hsql5, Hclosed. simpl. subst t0. reflexivity. }
  assert (Hi6 : index w6 = index w5).
  { subst w6. simpl. rewrite Hsql5, Hclosed. reflexivity. }
  assert (Hsafe6 : crash_safe w6).
  { apply (crash_safe_same w5); [|rewrite Hi6; reflexivity|apply settled_crash_safe; exact Hset5].
    unfold durable. rewrite Hs6, Hsql5, Hclosed, Et0. reflexivity. }
  remember (run_effects (map SqlUpdateChunkHasEmbedding A) w6) as w7 eqn:Ew7.
  destruct (run_volatile t0 _ w6 Hs6 (flags_volatile A)) as [Hs7 Hsv7].
  rewrite <- Ew7 in Hs7, Hsv7.
  pose proof (run_flags A w6) as Hflags. cbv zeta in Hflags. rewrite <- Ew7 in Hflags.
  destruct Hflags as (Hi7 & _ & Hids7 & Hmarked). rewrite Ht6 in Hids7, Hmarked.
  remember (apply_effect SqlCommit w7) as w8 eqn:Ew8.
  assert (Hl5 : forall x, x ∈ saved (index w5) <-> x ∈ loaded (index w0) \/ In x A).
  { intros x. subst w5. simpl. apply HlA. }
  assert (Hl5' : loaded (index w5) = saved (index w5)) by (subst w5; reflexivity).
  assert (Hset8 : settled w8).
  { subst w8. split; simpl.
    - reflexivity.
    - rewrite Hids7. exact Hids0.
    - intros c' Hin Hemb. rewrite Hi7, Hi6, Hl5'. apply Hl5.
      destruct (Hmarked c' Hin Hemb) as [(c & Hc & Hid & Hf)|HA]; [|right; exact HA].
      left. rewrite <- Hid. apply Hloaded0; assumption.
    - intros c' Hin Hemb. rewrite Hi7, Hi6. apply Hl5.
      destruct (Hmarked c' Hin Hemb) as [(c & Hc & Hid & Hf)|HA]; [|right; exact HA].
      left. rewrite <- Hid. apply Hloaded0; assumption. }
  split.
  - split; [apply always_memory; [apply adds_memory | exact Hsafe0]|].
    apply always_app. split.
    { apply always_one. rewrite <- Ew5.
      split; apply settled_crash_safe; assumption. }
    rewrite run_one, <- Ew5.
    apply always_app. split.
    { apply always_one. rewrite <- Ew6.
      split; [apply settled_crash_safe; exact Hset5 | exact Hsafe6]. }
    rewrite run_one, <- Ew6.
    apply always_app. split; [apply (always_volatile t0); [exact Hs6 | apply flags_volatile | exact Hsafe6]|].
    rewrite <- Ew7. apply always_one. rewrite <- Ew8.
    split; [|apply settled_crash_safe; exact Hset8].
    apply (crash_safe_same w6); [| |exact Hsafe6].
    + unfold durable. rewrite Hs7, Hs6. reflexivity.
    + rewrite Hsv7. reflexivity.
  - rewrite run_effects_app, run_one, <- Ew5, run_effects_app, run_one, <- Ew6,
      run_effects_app, <- Ew7, run_one, <- Ew8.
    exact Hset8.
Qed.

(** *** The removals of a transaction are sound *)

Lemma max_id_ge {A} (key : A -> Z) rows r : In r rows -> key r <= max_id key rows.
Proof.
  induction rows as [|x rows IH]; intros H; [destruct H|].
  simpl. destruct H as [-> | H]; [lia | specialize (IH H); lia].
Qed.

Lemma next_chunk_id_fresh t c : In c (chunks t) -> chunk_id c <> next_chunk_id t.
Proof.
  intros H. pose proof (max_id_ge chunk_id _ _ H). unfold next_chunk_id. lia.
Qed.

Lemma plain_write_chunks e w :
  is_plain_write e = true ->
  chunks (tables (sql (apply_effect e w))) = chunks (tables (sql w)) \/
  exists v, e = SqlInsertChunk v.
Proof.
  intros He. destruct e; try discriminate; simpl; try (left; reflexivity).
  - right. eexists. reflexivity.
  - left. unfold sql_insert_document. destruct (sql_select_document _ _); reflexivity.
  - left. unfold sql_delete_collection_folder. destruct (collection_id_of _ _); reflexivity.
  - left. unfold sql_insert_folder. destruct (sql_select_folder _ _); reflexivity.
  - left. unfold sql_insert_collection. destruct (collection_id_of _ _); reflexivity.
  - left. unfold sql_insert_collection_item. destruct (has_collection_item _ _ _); reflexivity.
Qed.

Lemma removal_sound_write t0 e db R :
  is_plain_write e = true ->
  removal_sound t0 (m_db db) R -> removal_sound t0 (m_db (perform e db)) R.
Proof.
  intros He (Hkept & Hgone & Hids).
  destruct (plain_write_chunks e (m_world db) He) as [Hsame | (v & ->)].
  - unfold removal_sound, m_db. simpl. rewrite Hsame. repeat split; assumption.
  - assert (Hc : chunks (m_db (perform (SqlInsertChunk v) db)) =
                 chunks (m_db db) ++
                 [mkChunkRow (next_chunk_id (m_db db)) (v_document v) (v_text v) (v_file v)
                    (v_title v) (v_author v) (v_subject v) (v_keywords v) (v_page v)
                    (v_from v) (v_to v) (v_words v) 0 false]) by reflexivity.
    unfold removal_sound. rewrite Hc. split; [|split].
    + intros c Hin Hemb. apply in_app_iff in Hin as [Hin|[<-|[]]]; [|discriminate].
      apply Hkept; assumption.
    + intros id c HR Hin Hemb. apply in_app_iff in Hin as [Hin|[<-|[]]]; [|discriminate].
      apply (Hgone id c); assumption.
    + rewrite map_app. simpl. apply NoDup_app. split; [exact Hids|]. split.
      * intros x Hx Hnew. apply list_elem_of_In in Hx. apply in_map_iff in Hx as (c & <- & Hc').
        apply list_elem_of_In in Hnew. destruct Hnew as [Hnew|[]].
        exact (next_chunk_id_fresh _ _ Hc' (eq_sym Hnew)).
      * apply NoDup_singleton.
Qed.

Lemma NoDup_map_inj {A B} (f : A -> B) l x y :
  NoDup (map f l) -> In x l -> In y l -> f x = f y -> x = y.
Proof.
  induction l as [|a l IH]; intros Hnd Hx Hy Hxy; [destruct Hx|].
  simpl in Hnd. apply NoDup_cons in Hnd as [Hnotin Hnd].
  destruct Hx as [-> | Hx], Hy as [-> | Hy].
  - reflexivity.
  - exfalso. apply Hnotin. rewrite Hxy. apply list_elem_of_In, in_map. exact Hy.
  - exfalso. apply Hnotin. rewrite <- Hxy. apply list_elem_of_In, in_map. exact Hx.
  - apply IH; assumption.
Qed.

Lemma NoDup_map_filter {A B} (f : A -> B) (P : A -> Prop) `{!forall x, Decision (P x)} l :
  NoDup (map f l) -> NoDup (map f (filter P l)).
Proof.
  induction l as [|a l IH]; intros Hnd; [constructor|].
  simpl in Hnd. apply NoDup_cons in Hnd as [Hnotin Hnd].
  rewrite filter_cons. destruct (decide (P a)); [|apply IH; exact Hnd].
  simpl. apply NoDup_cons. split; [|apply IH; exact Hnd].
  intros Hin. apply Hnotin. apply list_elem_of_In in Hin.
  apply in_map_iff in Hin as (x & Hfx & Hx). apply In_filter in Hx as [Hx _].
  rewrite <- Hfx. apply list_elem_of_In, in_map. exact Hx.
Qed.

Lemma removal_sound_delete t0 d db R :
  removal_sound t0 (m_db db) R ->
  removal_sound t0 (m_db (perform (SqlDeleteChunks d) db))
                (R ++ sql_select_chunks_by_document d (m_db db)).
Proof.
  intros (Hkept & Hgone & Hids).
  assert (Hc : chunks (m_db (perform (SqlDeleteChunks d) db)) =
               filter (fun c => chunk_document c <> d) (chunks (m_db db))) by reflexivity.
  unfold removal_sound. rewrite Hc. split; [|split].
  - intros c Hin Hemb. apply In_filter in Hin as [Hin _]. apply Hkept; assumption.
  - intros id c HR Hin Hemb Hid. apply In_filter in Hin as [Hin Hdoc].
    apply in_app_iff in HR as [HR|HR]; [exact (Hgone id c HR Hin Hemb Hid)|].
    unfold sql_select_chunks_by_document in HR.
    apply in_map_iff in HR as (c0 & Hid0 & Hin0). apply In_filter in Hin0 as [Hin0 Hdoc0].
    assert (c = c0) by (apply (NoDup_map_inj chunk_id (chunks (m_db db))); congruence).
    subst c0. contradiction.
  - apply NoDup_map_filter. exact Hids.
Qed.

Lemma removal_sound_start db :
  NoDup (map chunk_id (chunks (m_db db))) ->
  removal_sound (m_db db) (m_db (transaction db)) [].
Proof.
  intros H. rewrite m_db_transaction. split; [auto|]. split; [intros id c []|exact H].
Qed.

Lemma scanWhile_sound env turns db :
  NoDup (map chunk_id (chunks (m_db db))) ->
  removal_sound (m_db db) (m_db (fst (scanWhile env turns (transaction db) [])))
                (snd (scanWhile env turns (transaction db) [])).
Proof.
  intros H.
  apply (scanWhile_inv (fun d R => removal_sound (m_db db) (m_db d) R)).
  - intros d R e He. apply removal_sound_write. exact He.
  - intros d R doc. apply removal_sound_delete.
  - intros d R c Hs. unfold appendChunk.
    destruct (s_batchSize <=? _); exact Hs.
  - intros d R Hs. exact Hs.
  - intros d R q Hs. exact Hs.
  - apply removal_sound_start. exact H.
Qed.

(** *** Every handler, at every instant *)

Lemma always_sends es w :
  Forall (fun e => is_send e = true) es -> crash_safe w -> always crash_safe es w.
Proof.
  intros H. apply always_memory. eapply Forall_impl; [exact H|].
  intros e He. destruct e; try discriminate; reflexivity.
Qed.

Lemma sound_refl db : sound db db.
Proof.
  exists []. split; [apply journaled_refl|]. split; [tauto|].
  intros H. split; [apply always_nil, settled_crash_safe; exact H | exact H].
Qed.

Lemma sound_trans db1 db2 db3 : sound db1 db2 -> sound db2 db3 -> sound db1 db3.
Proof.
  intros (es1 & Hj1 & Hb1 & Hs1) (es2 & Hj2 & Hb2 & Hs2).
  exists (es1 ++ es2). split; [eapply journaled_trans; eassumption|].
  split; [tauto|].
  intros H. destruct (Hs1 H) as [Ha1 Hset2]. destruct (Hs2 Hset2) as [Ha2 Hset3].
  split; [|exact Hset3].
  apply always_app. split; [exact Ha1|]. destruct Hj1 as [_ Hw1]. rewrite <- Hw1. exact Ha2.
Qed.

(** A step that changes neither the journal, nor the world, nor the
    pending chunks. *)
Lemma sound_silent db db' :
  journal db' = journal db -> m_world db' = m_world db ->
  m_chunkList db' = m_chunkList db -> sound db db'.
Proof.
  intros Hj Hw Hl. exists [].
  split; [split; [rewrite app_nil_r; exact Hj | exact Hw]|]. split.
  - intros [H1 H2]. split; [rewrite Hl; exact H1 | rewrite Hj; exact H2].
  - intros H. rewrite Hw. split; [apply always_nil, settled_crash_safe; exact H | exact H].
Qed.

Lemma sound_fold {A} (f : Database -> A -> Database) l db :
  (forall d a, sound d (f d a)) -> sound db (fold_left f l db).
Proof.
  intros H. revert db. induction l as [|a l IH]; intros db; [apply sound_refl|].
  simpl. eapply sound_trans; [apply H | apply IH].
Qed.

Lemma scanQueueBatch_sound env turns db : sound db (scanQueueBatch env turns db).
Proof.
  destruct (scanQueueBatch_performed env turns db)
    as (W & R & db2 & Hscan & HW & Hall & Hp).
  exists (SqlTransaction :: W ++ map EmbeddingsRemove R ++ SqlCommit :: save_after R).
  split; [apply performed_journaled; exact Hp|].
  split; [apply scanQueueBatch_bounded|].
  intros Hset. destruct Hp as (_ & Hw & _). rewrite Hw.
  apply removal_transaction_safe; [exact Hset | exact Hall|].
  pose proof (scanWhile_sound env turns db (settled_ids _ Hset)) as Hs.
  rewrite Hscan in Hs. simpl in Hs.
  destruct HW as (_ & HwW & _). unfold m_db in Hs at 2. rewrite HwW in Hs. exact Hs.
Qed.

Lemma handleEmbeddingsGenerated_sound accepts embeddings db :
  sound db (handleEmbeddingsGenerated accepts embeddings db).
Proof.
  pose proof (handleEmbeddingsGenerated_performed accepts embeddings db) as Hp.
  cbv zeta in Hp.
  eexists. split; [apply performed_journaled; exact Hp|].
  split; [apply handleEmbeddingsGenerated_bounded|].
  intros Hset. destruct Hp as (_ & Hw & _). rewrite Hw.
  apply embeddings_safe. exact Hset.
Qed.

Lemma scheduleUncompletedEmbeddings_sound folder_id db :
  sound db (scheduleUncompletedEmbeddings folder_id db).
Proof.
  destruct (sendSlices_performed
              (length (selectAllUncompletedChunks db folder_id)) 0
              (selectAllUncompletedChunks db folder_id) db) as (es & Hp & Hall).
  assert (Hsends : Forall (fun e => is_send e = true) es).
  { eapply Forall_impl; [exact Hall|]. intros e (j & ->). reflexivity. }
  exists es. split; [apply performed_journaled; exact Hp|].
  split; [apply scheduleUncompletedEmbeddings_bounded|].
  intros Hset. destruct Hp as (_ & Hw & _). unfold scheduleUncompletedEmbeddings.
  rewrite Hw, (run_effects_sends _ _ Hsends).
  split; [apply always_sends; [exact Hsends | apply settled_crash_safe; exact Hset] | exact Hset].
Qed.

Lemma enqueueDocuments_sound infos db : sound db (enqueueDocuments infos db).
Proof.
  destruct (enqueueDocuments_silent infos db) as (H1 & H2 & H3).
  apply sound_silent; assumption.
Qed.

(** A transaction that removes chunks. *)
Lemma inTransaction_sound body db : removes body -> sound db (inTransaction body db).
Proof.
  intros Hr.
  destruct (inTransaction_performed body db Hr)
    as (W & ok & db2 & R & Hbody & HW & Hall & Hp).
  exists (SqlTransaction :: W ++ conclude ok R).
  split; [apply performed_journaled; exact Hp|].
  split; [apply inTransaction_bounded; exact Hr|].
  intros Hset. destruct Hp as (_ & Hw & _). rewrite Hw.
  destruct ok; unfold conclude.
  - apply removal_transaction_safe; [exact Hset | exact Hall|].
    pose proof (Hr (fun d R => removal_sound (m_db db) (m_db d) R)
                  (fun d R e He => removal_sound_write (m_db db) e d R He)
                  (fun d R doc => removal_sound_delete (m_db db) doc d R)
                  (fun d R q Hs => Hs)
                  (transaction db)
                  (removal_sound_start db (settled_ids _ Hset))) as Hs.
    rewrite Hbody in Hs. simpl in Hs.
    destruct HW as (_ & HwW & _). unfold m_db in Hs at 2. rewrite HwW in Hs. exact Hs.
  - apply rollback_transaction_safe; assumption.
Qed.

Lemma removeFolder_sound collection path db : sound db (removeFolder collection path db).
Proof.
  destruct (sql_select_folder path (m_db db)) as [f|] eqn:E.
  - rewrite (removeFolder_inTransaction collection path db f E).
    apply inTransaction_sound, removeFolderInternal_removes.
  - unfold removeFolder. rewrite E. apply sound_refl.
Qed.

Lemma cleanDB_sound env db : sound db (snd (cleanDB env db)).
Proof.
  destruct (selectAllFromCollections db) as [cs|] eqn:E.
  - rewrite (cleanDB_inTransaction env db cs E).
    apply inTransaction_sound, cleanAll_removes.
  - unfold cleanDB. rewrite E. apply sound_refl.
Qed.

(** A write outside a transaction that leaves the chunks alone. *)
Lemma plain_write_settled e w :
  is_plain_write e = true -> (forall v, e <> SqlInsertChunk v) ->
  settled w -> settled (apply_effect e w).
Proof.
  intros He Hne [Hc Hi Hl Hs].
  destruct (plain_write_chunks e w He) as [Hsame | (v & Hv)]; [|destruct (Hne v Hv)].
  assert (Hsnap : snapshot (sql (apply_effect e w)) = snapshot (sql w))
    by (destruct e; try discriminate; reflexivity).
  assert (Hidx : index (apply_effect e w) = index w)
    by (destruct e; try discriminate; reflexivity).
  split; rewrite ?Hsnap, ?Hsame, ?Hidx; assumption.
Qed.

Lemma perform_write_sound e db :
  is_plain_write e = true -> (forall v, e <> SqlInsertChunk v) -> sound db (perform e db).
Proof.
  intros He Hne. exists [e].
  split; [apply performed_journaled, performed_perform|].
  split; [apply (batch_bounded_write db []); exact He|].
  intros Hset. pose proof (plain_write_settled e _ He Hne Hset) as Hset'.
  split; [|exact Hset'].
  apply always_one. split; apply settled_crash_safe; assumption.
Qed.

Lemma scanDocuments_sound env folder_id folder_path db :
  sound db (scanDocuments env folder_id folder_path db).
Proof.
  unfold scanDocuments.
  destruct (map (newDocumentInfo folder_id) _) as [|i infos];
    [apply sound_refl | apply enqueueDocuments_sound].
Qed.

Lemma addCurrentFolders_sound env db : sound db (addCurrentFolders env db).
Proof.
  unfold addCurrentFolders.
  destruct (selectAllFromCollections db) as [cs|]; [|apply sound_refl].
  apply sound_fold. intros d i. destruct (ci_forceIndexing i); [apply sound_refl|].
  eapply sound_trans; [apply scheduleUncompletedEmbeddings_sound | apply scanDocuments_sound].
Qed.

Lemma start_sound env db : sound db (start env db).
Proof.
  unfold start. eapply sound_trans; [apply cleanDB_sound | apply addCurrentFolders_sound].
Qed.

Lemma checkAndAddFolderToDB_sound env path db :
  sound db (snd (checkAndAddFolderToDB env path db)).
Proof.
  unfold checkAndAddFolderToDB.
  destruct (directories env path); [|apply sound_refl].
  destruct (sql_select_folder path (m_db db)); [apply sound_refl|].
  apply perform_write_sound; [reflexivity | discriminate].
Qed.

Lemma addFolder_sound env collection path embedding_model db :
  sound db (snd (addFolder env collection path embedding_model db)).
Proof.
  unfold addFolder.
  pose proof (checkAndAddFolderToDB_sound env path db) as H1.
  destruct (checkAndAddFolderToDB env path db) as [folder_id db1]. simpl in H1.
  destruct (folder_id =? -1); [exact H1|].
  destruct (selectCollectionByName db1 collection) as [item|]; [|exact H1].
  assert (Hitem : forall cid (model : option string) d, sound db d ->
    sound db (snd (let '(res, db) := addCollectionItem cid folder_id d in
                   if res =? 1 then
                     match model with
                     | Some _ => (true, scanDocuments env folder_id path db)
                     | None => (true, db)
                     end
                   else (true, db)))).
  { intros cid model d Hd. unfold addCollectionItem.
    assert (H2 : sound db (perform (SqlInsertCollectionItem cid folder_id) d)).
    { eapply sound_trans; [exact Hd|].
      apply perform_write_sound; [reflexivity | discriminate]. }
    destruct (_ =? 1); [|exact H2].
    destruct model; [|exact H2].
    eapply sound_trans; [exact H2 | apply scanDocuments_sound]. }
  destruct item as [found|].
  - apply Hitem. exact H1.
  - unfold addCollection. apply Hitem.
    eapply sound_trans; [exact H1|].
    apply perform_write_sound; [reflexivity | discriminate].
Qed.

Lemma forceIndexing_sound env collection embedding_model db :
  sound db (forceIndexing env collection embedding_model db).
Proof.
  unfold forceIndexing.
  destruct (selectFoldersFromCollection db collection) as [folders|]; [|apply sound_refl].
  unfold setCollectionEmbeddingModel.
  eapply sound_trans;
    [apply (perform_write_sound (SqlSetCollectionEmbeddingModel embedding_model collection));
     [reflexivity | discriminate]|].
  apply sound_fold. intros d folder. apply scanDocuments_sound.
Qed.

Lemma changeChunkSize_sound env chunkSize db : sound db (changeChunkSize env chunkSize db).
Proof.
  destruct (chunkSize =? m_chunkSize db) eqn:E.
  - unfold changeChunkSize. rewrite E. apply sound_refl.
  - rewrite (changeChunkSize_inTransaction env chunkSize db E).
    eapply sound_trans; [apply inTransaction_sound, removeAll_removes|].
    eapply sound_trans; [|apply addCurrentFolders_sound].
    apply sound_silent; reflexivity.
Qed.

Lemma changeFileExtensions_sound env extensions db :
  sound db (changeFileExtensions env extensions db).
Proof.
  unfold changeFileExtensions.
  eapply sound_trans; [apply (sound_silent db (set_scannedFileExtensions extensions db));
                       reflexivity|].
  eapply sound_trans; [apply cleanDB_sound|].
  destruct (selectAllFromCollections _) as [cs|]; [|apply sound_refl].
  apply sound_fold. intros d i. destruct (ci_forceIndexing i); [apply sound_refl|].
  apply scanDocuments_sound.
Qed.

Lemma directoryChanged_sound env path db : sound db (directoryChanged env path db).
Proof.
  unfold directoryChanged.
  destruct (watchedFolder env (m_db db) path (ancestors path)) as [folder_id|];
    [|apply sound_refl].
  destruct (folder_id =? -1); [apply cleanDB_sound|].
  eapply sound_trans; [apply cleanDB_sound | apply scanDocuments_sound].
Qed.

(** Every handler is sound. *)
Lemma handle_sound h db : sound db (handle h db).
Proof.
  destruct h; simpl.
  - apply scanQueueBatch_sound.
  - apply handleEmbeddingsGenerated_sound.
  - apply scheduleUncompletedEmbeddings_sound.
  - apply enqueueDocuments_sound.
  - apply removeFolder_sound.
  - apply start_sound.
  - apply addFolder_sound.
  - apply forceIndexing_sound.
  - apply cleanDB_sound.
  - apply changeChunkSize_sound.
  - apply changeFileExtensions_sound.
  - apply directoryChanged_sound.
Qed.

(** Every handler performs the effects it adds to the journal. *)
Lemma handle_journaled h db : journaled (effects h db) db (handle h db).
Proof.
  destruct (handle_sound h db) as (es & Hj & _).
  rewrite (journaled_effects _ _ _ Hj). exact Hj.
Qed.

Lemma batch_bounded_handle h db : batch_bounded db -> batch_bounded (handle h db).
Proof. destruct (handle_sound h db) as (es & _ & Hb & _). exact Hb. Qed.

Lemma handle_safe h db :
  settled (m_world db) ->
  always crash_safe (effects h db) (m_world db) /\ settled (m_world (handle h db)).
Proof.
  intros H. destruct (handle_sound h db) as (es & Hj & _ & Hs).
  rewrite (journaled_effects _ _ _ Hj). apply Hs. exact H.
Qed.

(** *** The batches, whatever runs *)

Lemma batches_firstn n es :
  Forall (fun b : list EmbeddingChunk => Z.of_nat (length b) <= s_batchSize) (batches es) ->
  Forall (fun b : list EmbeddingChunk => Z.of_nat (length b) <= s_batchSize)
         (batches (firstn n es)).
Proof.
  revert n. induction es as [|e es IH]; intros n H; [rewrite firstn_nil; exact H|].
  destruct n as [|n]; [constructor|].
  simpl firstn. change (e :: es) with ([e] ++ es) in H.
  change (e :: firstn n es) with ([e] ++ firstn n es).
  rewrite batches_app in H |- *. apply Forall_app in H as [H1 H2].
  apply Forall_app. split; [exact H1 | apply IH; exact H2].
Qed.

Lemma batch_bounded_after history db :
  batch_bounded db -> batch_bounded (after history db).
Proof.
  unfold after. revert db. induction history as [|ev history IH]; intros db H; [exact H|].
  simpl. apply IH. destruct ev as [h|h n]; simpl.
  - apply batch_bounded_handle. exact H.
  - split; [simpl; unfold s_batchSize; lia|].
    simpl. rewrite batches_app. apply Forall_app. split; [apply H|].
    apply batches_firstn.
    pose proof (batch_bounded_handle h db H) as [_ Hb].
    destruct (handle_journaled h db) as (Hj & _).
    rewrite Hj, batches_app in Hb. apply Forall_app in Hb. apply Hb.
Qed.

(** C9. From a state with fewer than 100 pending chunks and no
    batch above 100 sent, whatever handlers run and wherever the process
    crashes and starts again, every batch handed to the embedding backend
    holds at most 100 chunks. *)
Theorem batches_hold_at_most_100 (db : Database) (history : list Event)
    (Hbounded : batch_bounded db) :
  Forall (fun batch : list EmbeddingChunk => (length batch <= 100)%nat)
         (batches (journal (after history db))).
Proof.
  destruct (batch_bounded_after history db Hbounded) as [_ H].
  eapply Forall_impl; [exact H|]. intros b Hb. unfold s_batchSize in Hb. simpl in Hb. lia.
Qed.

Lemma batches_hold_at_most_100_witness :
  batch_bounded rescan_db /\
  Forall (fun batch : list EmbeddingChunk => (length batch <= 100)%nat)
         (batches (journal (after [Run (ScanQueueBatch modified_env 5)] rescan_db))).
Proof.
  assert (H : batch_bounded rescan_db) by (split; [reflexivity | constructor]).
  split; [exact H|].
  apply (batches_hold_at_most_100 rescan_db [Run (ScanQueueBatch modified_env 5)] H).
Defined.

(** *** Crashes and restarts *)

Lemma recover_settled w : crash_safe w -> settled (recover w).
Proof.
  intros [Hsaved Hids]. split; simpl.
  - reflexivity.
  - exact Hids.
  - exact Hsaved.
  - exact Hsaved.
Qed.

Lemma after_settled history db :
  settled (m_world db) -> settled (m_world (after history db)).
Proof.
  unfold after. revert db. induction history as [|ev history IH]; intros db H; [exact H|].
  simpl. apply IH. destruct ev as [h|h n]; simpl.
  - apply handle_safe. exact H.
  - apply recover_settled. apply always_firstn. apply handle_safe. exact H.
Qed.

(** The order of [handleEmbeddingsGenerated]: the points are added to the
    index in memory, and if any was added the index is saved, then the
    transaction is opened, the chunks are marked and the transaction is
    committed. *)
Lemma handleEmbeddingsGenerated_order accepts embeddings db :
  exists added,
    effects (HandleEmbeddingsGenerated accepts embeddings) db =
      map EmbeddingsAdd added ++ mark_after_save added.
Proof.
  exists (snd (addEmbeddings accepts embeddings db)).
  apply performed_effects. apply (handleEmbeddingsGenerated_performed accepts embeddings db).
Qed.

(** C2. When a batch of embeddings is handled, the save of the index
    comes before the transaction that marks the chunks as embedded; and
    from any settled state, after any history of handlers and of crashes
    followed by a restart, at every instant of whatever handler runs
    next, every chunk marked as embedded in the tables as a crash would
    leave them has its vector in the index as saved. *)
Theorem embedded_chunks_are_saved (db : Database) (history : list Event) (h : Handler)
    (n : nat) (Hsettled : settled (m_world db)) :
  (forall accepts embeddings, exists added,
     effects (HandleEmbeddingsGenerated accepts embeddings) (after history db) =
       map EmbeddingsAdd added ++ mark_after_save added) /\
  embedded_are_saved
    (run_effects (firstn n (effects h (after history db))) (m_world (after history db))).
Proof.
  split; [intros accepts embeddings; apply handleEmbeddingsGenerated_order|].
  pose proof (after_settled history db Hsettled) as Hset.
  destruct (handle_safe h (after history db) Hset) as [Halways _].
  apply (always_firstn crash_safe _ _ n) in Halways. apply Halways.
Qed.

Lemma initial_settled chunkSize extensions :
  settled (m_world (initial chunkSize extensions)).
Proof.
  split; simpl; [reflexivity | constructor | intros c [] | intros c []].
Qed.

Lemma embedded_chunks_are_saved_witness :
  let history :=
    [Run (EnqueueDocuments [notes_info]); Run (ScanQueueBatch modified_env 5);
     Crash (HandleEmbeddingsGenerated (fun _ => true) [mkEmbeddingResult 1 1 []]) 2] in
  let h := HandleEmbeddingsGenerated (fun _ => true) [mkEmbeddingResult 1 1 []] in
  (forall accepts embeddings, exists added,
     effects (HandleEmbeddingsGenerated accepts embeddings) (after history (initial 256 text_and_pdf)) =
       map EmbeddingsAdd added ++ mark_after_save added) /\
  embedded_are_saved
    (run_effects (firstn 1 (effects h (after history (initial 256 text_and_pdf))))
                 (m_world (after history (initial 256 text_and_pdf)))).
Proof.
  apply (embedded_chunks_are_saved (initial 256 text_and_pdf)
           [Run (EnqueueDocuments [notes_info]); Run (ScanQueueBatch modified_env 5);
            Crash (HandleEmbeddingsGenerated (fun _ => true) [mkEmbeddingResult 1 1 []]) 2]
           (HandleEmbeddingsGenerated (fun _ => true) [mkEmbeddingResult 1 1 []]) 1).
  split; simpl; [reflexivity | constructor | intros c [] | intros c []].
Defined.

(** * Part III: more of the code *)

(** ** The words of the chunks *)

Lemma words_from_scanToken l acc :
  words_from l acc =
    match acc ++ fst (scanToken l) with
    | [] => words_from (snd (scanToken l)) []
    | x :: w => (x :: w) :: words_from (snd (scanToken l)) []
    end.
Proof.
  revert acc. induction l as [|c r IH]; intros acc.
  - simpl. rewrite app_nil_r. destruct acc; reflexivity.
  - simpl. destruct (isSpace c) eqn:E.
    + simpl. rewrite app_nil_r. destruct acc; simpl; rewrite E; reflexivity.
    + rewrite IH. destruct (scanToken r) as [w r']. simpl.
      rewrite <- app_assoc. reflexivity.
Qed.

Lemma wordsOf_skipSpace l : wordsOf (skipSpace l) = wordsOf l.
Proof.
  unfold wordsOf. induction l as [|c r IH]; [reflexivity|].
  simpl. destruct (isSpace c) eqn:E; [exact IH|]. simpl. rewrite E. reflexivity.
Qed.

Lemma readWord_words s w s' :
  readWord s = (w, s') ->
  wordsOf (unread s) = match w with [] => [] | _ :: _ => w :: wordsOf (unread s') end.
Proof.
  intros E. pose proof (readWord_spec s) as Hspec. rewrite E in Hspec.
  destruct Hspec as (_ & _ & Hw).
  unfold readWord in E. rewrite <- (wordsOf_skipSpace (unread s)).
  unfold wordsOf at 1. rewrite (words_from_scanToken (skipSpace (unread s)) []).
  destruct (scanToken (skipSpace (unread s))) as [w0 rest] eqn:Et. simpl.
  destruct w0 as [|a w0]; injection E as <- <-; simpl in *.
  - destruct Hw as [Hw _]. rewrite Hw in Et. simpl in Et. injection Et as <-. reflexivity.
  - reflexivity.
Qed.

Lemma concat_snoc {A} (l : list (list A)) x : concat (l ++ [x]) = concat l ++ x.
Proof. rewrite concat_app. simpl. rewrite app_nil_r. reflexivity. Qed.

Lemma chunkLoop_words text B m fuel s ws cc c aw acc r :
  positioned text s -> status s = Ok ->
  chunkLoop B collect m fuel s ws cc c aw acc = Some r ->
  0 <= ret r /\
  concat (final_state r) ++ wordsOf (skipn (Z.to_nat (ret r)) text) =
    concat acc ++ ws ++ wordsOf (unread s).
Proof.
  revert s ws cc c aw acc r.
  induction fuel as [|fuel IH]; intros s ws cc c aw acc r Hpos Hok H; [discriminate|].
  simpl in H. destruct (readWord s) as [w s'] eqn:E.
  rewrite (positioned_no_failure text s w s' Hpos Hok E) in H.
  pose proof (positioned_readWord text s w s' Hpos E) as Hpos'.
  pose proof (readWord_words s w s' E) as Hw.
  pose proof (readWord_spec s) as Hspec. rewrite E in Hspec. destruct Hspec as (_ & _ & Hcase).
  set (ws1 := match w with [] => ws | _ :: _ => ws ++ [w] end) in *.
  assert (Hall : ws1 ++ wordsOf (unread s') = ws ++ wordsOf (unread s)).
  { subst ws1. rewrite Hw. destruct w as [|a w].
    - destruct Hcase as [Hu _]. rewrite Hu. reflexivity.
    - rewrite <- app_assoc. reflexivity. }
  assert (Hret : forall acc', concat acc' = concat acc ++ ws1 ->
            0 <= pos s' /\
            concat acc' ++ wordsOf (skipn (Z.to_nat (pos s')) text) =
              concat acc ++ ws ++ wordsOf (unread s)).
  { intros acc' Hacc. destruct Hpos' as (Hu & Hp & _). split; [exact Hp|].
    rewrite <- Hu, Hacc, <- app_assoc, Hall. reflexivity. }
  destruct (status_set s' || (B <=? _)) eqn:E1.
  - destruct ws1 as [|w1 ws1'] eqn:Ews.
    + destruct (status_set s' || (_ && _)) eqn:E2.
      * injection H as <-. simpl. apply Hret. rewrite app_nil_r. reflexivity.
      * apply orb_false_iff in E2 as [E2 _].
        destruct (readWord_progress s w s' E E2) as (_ & _ & Hok').
        destruct (IH _ _ _ _ _ _ _ Hpos' Hok' H) as [H1 H2]. split; [exact H1|].
        rewrite H2, <- Hall. reflexivity.
    + destruct (status_set s' || (_ && _)) eqn:E2.
      * injection H as <-. simpl. apply Hret. unfold collect. apply concat_snoc.
      * apply orb_false_iff in E2 as [E2 _].
        destruct (readWord_progress s w s' E E2) as (_ & _ & Hok').
        destruct (IH _ _ _ _ _ _ _ Hpos' Hok' H) as [H1 H2]. split; [exact H1|].
        rewrite H2. unfold collect. rewrite concat_snoc, <- Hall, <- app_assoc. reflexivity.
  - apply orb_false_iff in E1 as [E1 _].
    destruct (readWord_progress s w s' E E1) as (_ & _ & Hok').
    destruct (IH _ _ _ _ _ _ _ Hpos' Hok' H) as [H1 H2]. split; [exact H1|].
    rewrite H2, Hall. reflexivity.
Qed.

(** X1. Chunking loses no word and makes none up: the words of the
    chunks emitted by a run, followed by the words of the text from the
    position the run returns, are the words of the text from the position
    where the run began; the position returned is not negative. *)
Theorem chunks_keep_the_words (text : QString) (budget maxChunks p : Z) (Hp : 0 <= p) :
  exists r,
    chunkWords budget maxChunks (streamAt text p) = Some r /\
    0 <= ret r /\
    concat (final_state r) ++ wordsOf (skipn (Z.to_nat (ret r)) text) =
      wordsOf (skipn (Z.to_nat p) text).
Proof.
  destruct (chunkLoop_total budget collect maxChunks
              (S (length (unread (streamAt text p)))) (streamAt text p) [] 0 0 0 [])
    as (r & Hr); [lia|].
  exists r. split; [exact Hr|].
  exact (chunkLoop_words text budget maxChunks _ _ _ _ _ _ _ r
           (positioned_streamAt text p Hp) eq_refl Hr).
Qed.

Lemma chunks_keep_the_words_witness :
  exists r,
    chunkWords 10 1 (streamAt (qstr "alpha beta gamma delta epsilon") 0) = Some r /\
    0 <= ret r /\
    concat (final_state r) ++
      wordsOf (skipn (Z.to_nat (ret r)) (qstr "alpha beta gamma delta epsilon")) =
      wordsOf (skipn (Z.to_nat 0) (qstr "alpha beta gamma delta epsilon")).
Proof.
  apply (chunks_keep_the_words (qstr "alpha beta gamma delta epsilon") 10 1 0). lia.
Defined.

Lemma scanToken_wordlike l :
  Forall (fun c => isSpace c = false) (fst (scanToken l)).
Proof.
  induction l as [|c r IH]; simpl; [constructor|].
  destruct (isSpace c) eqn:E; simpl; [constructor|].
  destruct (scanToken r) as [w r']. simpl in *. constructor; assumption.
Qed.

Lemma readWord_wordlike s w s' : readWord s = (w, s') -> w = [] \/ wordlike w.
Proof.
  unfold readWord. intros E.
  pose proof (scanToken_wordlike (skipSpace (unread s))) as H.
  destruct (scanToken (skipSpace (unread s))) as [w0 rest]. simpl in H.
  destruct w0 as [|a w0]; injection E as <- <-; [left; reflexivity|].
  right. split; [discriminate | exact H].
Qed.

Lemma words_from_word w l acc :
  Forall (fun c => isSpace c = false) w ->
  words_from (w ++ l) acc = words_from l (acc ++ w).
Proof.
  intros H. revert acc. induction H as [|c w Hc _ IH]; intros acc.
  - rewrite app_nil_r. reflexivity.
  - simpl. rewrite Hc, IH, <- app_assoc. reflexivity.
Qed.

(** The text of a chunk, split at white space, gives back its words. *)
Lemma wordsOf_join ws :
  Forall wordlike ws -> wordsOf (join (qstr " ") ws) = ws.
Proof.
  unfold wordsOf. induction 1 as [|w ws [Hne Hw] Hws IH]; [reflexivity|].
  destruct ws as [|w' ws'].
  - simpl. rewrite <- (app_nil_r w) at 1. rewrite words_from_word by exact Hw.
    simpl. destruct w; [congruence | reflexivity].
  - change (join (qstr " ") (w :: w' :: ws'))
      with (w ++ qstr " " ++ join (qstr " ") (w' :: ws')).
    rewrite words_from_word by exact Hw.
    change (qstr " " ++ join (qstr " ") (w' :: ws'))
      with (" "%char :: join (qstr " ") (w' :: ws')).
    simpl app. cbn [words_from].
    change (isSpace " "%char) with true. cbv iota.
    rewrite IH. destruct w; [congruence | reflexivity].
Qed.

Lemma chunkLoop_wordlike B m fuel s ws cc c aw acc r :
  Forall wordlike ws -> Forall (fun chunk => chunk <> [] /\ Forall wordlike chunk) acc ->
  chunkLoop B collect m fuel s ws cc c aw acc = Some r ->
  Forall (fun chunk => chunk <> [] /\ Forall wordlike chunk) (final_state r).
Proof.
  revert s ws cc c aw acc r.
  induction fuel as [|fuel IH]; intros s ws cc c aw acc r Hws Hacc H; [discriminate|].
  simpl in H. destruct (readWord s) as [w s'] eqn:E.
  destruct (status_set s' && negb (atEnd s')); [injection H as <-; exact Hacc|].
  set (ws1 := match w with [] => ws | _ :: _ => ws ++ [w] end) in *.
  assert (Hws1 : Forall wordlike ws1).
  { subst ws1. destruct (readWord_wordlike s w s' E) as [-> | Hw]; [exact Hws|].
    destruct w; [exact Hws|]. apply Forall_app. split; [exact Hws|].
    constructor; [exact Hw | constructor]. }
  destruct (status_set s' || (B <=? _)).
  - destruct ws1 as [|w1 ws1'] eqn:Ews.
    + destruct (status_set s' || (_ && _)); [injection H as <-; exact Hacc|].
      eapply IH; [| |exact H]; [constructor | exact Hacc].
    + assert (Hacc' : Forall (fun chunk => chunk <> [] /\ Forall wordlike chunk)
                        (collect (w1 :: ws1') acc)).
      { unfold collect. apply Forall_app. split; [exact Hacc|].
        constructor; [split; [discriminate | exact Hws1] | constructor]. }
      destruct (status_set s' || (_ && _)); [injection H as <-; exact Hacc'|].
      eapply IH; [| |exact H]; [constructor | exact Hacc'].
  - eapply IH; [| |exact H]; [exact Hws1 | exact Hacc].
Qed.

(** X2. Whatever the stream, every chunk that a run emits is a list of
    at least one word, its words are not empty and hold no white space,
    and the text of the chunk (its words joined by one space), split at
    white space, gives back the words. *)
Theorem chunk_text_round_trip (budget maxChunks : Z) (stream : QTextStream) :
  exists r,
    chunkWords budget maxChunks stream = Some r /\
    Forall (fun chunk => chunk <> [] /\ Forall wordlike chunk /\
                         wordsOf (join (qstr " ") chunk) = chunk)
           (final_state r).
Proof.
  destruct (chunkLoop_total budget collect maxChunks
              (S (length (unread stream))) stream [] 0 0 0 []) as (r & Hr); [lia|].
  exists r. split; [exact Hr|].
  pose proof (chunkLoop_wordlike _ _ _ _ _ _ _ _ _ r
                (List.Forall_nil _) (List.Forall_nil _) Hr) as H.
  eapply Forall_impl; [exact H|].
  intros chunk [Hne Hw]. split; [exact Hne|]. split; [exact Hw|].
  apply wordsOf_join. exact Hw.
Qed.

Lemma chunkLoop_counters B m fuel s ws cc c aw r (acc : list (list QString)) :
  c = Z.of_nat (length acc) -> aw = Z.of_nat (length (concat acc)) ->
  (0 < m -> c < m) ->
  chunkLoop B collect m fuel s ws cc c aw acc = Some r ->
  nchunks r = Z.of_nat (length (final_state r)) /\
  nwords r = Z.of_nat (length (concat (final_state r))) /\
  (0 < m -> nchunks r <= m).
Proof.
  revert s ws cc c aw acc r.
  induction fuel as [|fuel IH]; intros s ws cc c aw acc r Hc Haw Hcap H; [discriminate|].
  simpl in H. destruct (readWord s) as [w s'] eqn:E.
  destruct (status_set s' && negb (atEnd s')).
  { injection H as <-. simpl. split; [exact Hc|]. split; [exact Haw|]. lia. }
  set (ws1 := match w with [] => ws | _ :: _ => ws ++ [w] end) in *.
  destruct (status_set s' || (B <=? _)).
  - destruct ws1 as [|w1 ws1'] eqn:Ews.
    + destruct (status_set s' || (_ && _)).
      * injection H as <-. simpl. split; [exact Hc|]. split; [exact Haw|]. lia.
      * eapply IH; [exact Hc | exact Haw | exact Hcap | exact H].
    + assert (Hc' : c + 1 = Z.of_nat (length (collect (w1 :: ws1') acc))).
      { unfold collect. rewrite length_app. simpl. lia. }
      assert (Haw' : aw + Z.of_nat (length (w1 :: ws1')) =
                     Z.of_nat (length (concat (collect (w1 :: ws1') acc)))).
      { unfold collect. rewrite concat_snoc, length_app. lia. }
      destruct (status_set s' || ((0 <? m) && (c + 1 =? m))) eqn:E2.
      * injection H as <-. simpl. split; [exact Hc'|]. split; [exact Haw'|]. lia.
      * apply orb_false_iff in E2 as [_ E2].
        eapply IH; [exact Hc' | exact Haw' | | exact H].
        intros Hm. specialize (Hcap Hm).
        apply andb_false_iff in E2 as [E2 | E2];
          [apply Z.ltb_ge in E2 | apply Z.eqb_neq in E2]; lia.
  - eapply IH; [exact Hc | exact Haw | exact Hcap | exact H].
Qed.

(** X3. The counters that a run returns are the number of chunks it
    emitted and the number of their words, and a run with a cap
    ([maxChunks] > 0) emits at most that many chunks. *)
Theorem chunk_cap_and_counters (budget maxChunks : Z) (stream : QTextStream) :
  exists r,
    chunkWords budget maxChunks stream = Some r /\
    nchunks r = Z.of_nat (length (final_state r)) /\
    nwords r = Z.of_nat (length (concat (final_state r))) /\
    (0 < maxChunks -> Z.of_nat (length (final_state r)) <= maxChunks).
Proof.
  destruct (chunkLoop_total budget collect maxChunks
              (S (length (unread stream))) stream [] 0 0 0 []) as (r & Hr); [lia|].
  exists r. split; [exact Hr|].
  destruct (chunkLoop_counters budget maxChunks _ _ _ _ _ _ r [] eq_refl eq_refl
              (fun H => H) Hr) as (H1 & H2 & H3).
  split; [exact H1|]. split; [exact H2|]. rewrite <- H1. exact H3.
Qed.

Lemma chunkLoop_uncapped_end text B u fuel s ws cc c aw acc r :
  u <= 0 -> positioned text s -> status s = Ok ->
  chunkLoop B collect u fuel s ws cc c aw acc = Some r ->
  ret r = pos s + Z.of_nat (length (unread s)).
Proof.
  intros Hu. revert s ws cc c aw acc r.
  induction fuel as [|fuel IH]; intros s ws cc c aw acc r Hpos Hok H; [discriminate|].
  simpl in H. destruct (readWord s) as [w s'] eqn:E.
  rewrite (positioned_no_failure text s w s' Hpos Hok E) in H.
  pose proof (positioned_readWord text s w s' Hpos E) as Hpos'.
  pose proof (readWord_spec s) as Hspec. rewrite E in Hspec.
  destruct Hspec as (_ & Hp & Hcase).
  assert (Hcap : (0 <? u) = false) by (apply Z.ltb_ge; exact Hu).
  rewrite Hcap in H. simpl andb in H. rewrite !orb_false_r in H.
  assert (Hstop : status_set s' = true -> pos s' = pos s + Z.of_nat (length (unread s))).
  { intros Hst. destruct w as [|a w].
    - destruct Hcase as [Hu' _]. rewrite Hu' in Hp. simpl in Hp. lia.
    - destruct Hcase as [Hs _]. unfold status_set in Hst. rewrite Hs, Hok in Hst.
      discriminate. }
  assert (Hgo : forall ws' cc' c' aw' acc',
            status_set s' = false ->
            chunkLoop B collect u fuel s' ws' cc' c' aw' acc' = Some r ->
            ret r = pos s + Z.of_nat (length (unread s))).
  { intros ws' cc' c' aw' acc' Hst H'.
    destruct (readWord_progress s w s' E Hst) as (_ & _ & Hok').
    rewrite (IH _ _ _ _ _ _ _ Hpos' Hok' H'). lia. }
  destruct (status_set s' || (B <=? _)) eqn:E1.
  - destruct (match w with [] => ws | _ :: _ => ws ++ [w] end) as [|w1 ws1'].
    + destruct (status_set s') eqn:Hst.
      * injection H as <-. simpl. apply Hstop. reflexivity.
      * eapply Hgo; [reflexivity | exact H].
    + destruct (status_set s') eqn:Hst.
      * injection H as <-. simpl. apply Hstop. reflexivity.
      * eapply Hgo; [reflexivity | exact H].
  - apply orb_false_iff in E1 as [E1 _]. eapply Hgo; [exact E1 | exact H].
Qed.

(** X4. A run without cap over a text reads it to its end: from a
    position inside the text it returns the length of the text, and its
    chunks hold all the words of the text from that position. *)
Theorem uncapped_run_reads_all (text : QString) (budget uncapped p : Z)
    (Hu : uncapped <= 0) (Hp : 0 <= p <= Z.of_nat (length text)) :
  exists r,
    chunkWords budget uncapped (streamAt text p) = Some r /\
    ret r = Z.of_nat (length text) /\
    concat (final_state r) = wordsOf (skipn (Z.to_nat p) text).
Proof.
  destruct (chunkLoop_total budget collect uncapped
              (S (length (unread (streamAt text p)))) (streamAt text p) [] 0 0 0 [])
    as (r & Hr); [lia|].
  exists r. split; [exact Hr|].
  assert (Hpos : positioned text (streamAt text p))
    by (apply positioned_streamAt; lia).
  pose proof (chunkLoop_uncapped_end text budget uncapped _ _ _ _ _ _ _ r Hu Hpos eq_refl Hr)
    as Hret.
  simpl in Hret. rewrite length_skipn in Hret.
  assert (Hret' : ret r = Z.of_nat (length text)) by lia.
  split; [exact Hret'|].
  destruct (chunkLoop_words text budget uncapped _ _ _ _ _ _ _ r Hpos eq_refl Hr) as [_ H].
  simpl in H. rewrite Hret', Nat2Z.id, skipn_all in H.
  change (wordsOf []) with ([] : list QString) in H. rewrite app_nil_r in H. exact H.
Qed.

Lemma uncapped_run_reads_all_witness :
  exists r,
    chunkWords 10 defaultMaxChunks (streamAt (qstr "alpha beta gamma delta epsilon") 6)
      = Some r /\
    ret r = Z.of_nat (length (qstr "alpha beta gamma delta epsilon")) /\
    concat (final_state r) =
      wordsOf (skipn (Z.to_nat 6) (qstr "alpha beta gamma delta epsilon")).
Proof.
  apply (uncapped_run_reads_all (qstr "alpha beta gamma delta epsilon") 10
           defaultMaxChunks 6); [unfold defaultMaxChunks; lia | simpl; lia].
Defined.

Lemma chunkLoop_failure {St} B (F : list QString -> St -> St) m fuel s ws cc c aw st r :
  ending s = ReadFailure -> status s = Ok ->
  (0 < m -> c < m) ->
  chunkLoop B F m fuel s ws cc c aw st = Some r ->
  ret r = -1 \/ (0 < m /\ nchunks r = m).
Proof.
  revert s ws cc c aw st r.
  induction fuel as [|fuel IH]; intros s ws cc c aw st r Hend Hok Hcap H; [discriminate|].
  simpl in H. destruct (readWord s) as [w s'] eqn:E.
  pose proof (readWord_spec s) as Hspec. rewrite E in Hspec.
  destruct Hspec as (Hend' & _ & Hcase). rewrite Hend in Hend'.
  assert (Hat : atEnd s' = false) by (unfold atEnd; rewrite Hend'; destruct (unread s'); reflexivity).
  rewrite Hat in H. simpl negb in H. rewrite andb_true_r in H.
  destruct (status_set s') eqn:Hst; [injection H as <-; left; reflexivity|].
  destruct (readWord_progress s w s' E Hst) as (_ & _ & Hok').
  simpl orb in H.
  destruct (B <=? _).
  - destruct (match w with [] => ws | _ :: _ => ws ++ [w] end) as [|w1 ws1'].
    + destruct ((0 <? m) && (c =? m)) eqn:E2.
      * apply andb_true_iff in E2 as [E2 E3]. apply Z.ltb_lt in E2. apply Z.eqb_eq in E3.
        specialize (Hcap E2). lia.
      * eapply IH; [exact Hend' | exact Hok' | exact Hcap | exact H].
    + destruct ((0 <? m) && (c + 1 =? m)) eqn:E2.
      * injection H as <-. simpl. right.
        apply andb_true_iff in E2 as [E2 E3]. apply Z.ltb_lt in E2. apply Z.eqb_eq in E3.
        split; assumption.
      * eapply IH; [exact Hend' | exact Hok' | | exact H].
        intros Hm. specialize (Hcap Hm).
        apply andb_false_iff in E2 as [E2 | E2];
          [apply Z.ltb_ge in E2 | apply Z.eqb_neq in E2]; lia.
  - eapply IH; [exact Hend' | exact Hok' | exact Hcap | exact H].
Qed.

Lemma existsb_split {A} (p : A -> bool) n l :
  existsb p l = existsb p (firstn n l) || existsb p (skipn n l).
Proof. rewrite <- (firstn_skipn n l) at 1. apply existsb_app. Qed.

Lemma fillReadBuffer_binary fuel blockSize f offset seen :
  io_error f = false -> (0 < blockSize)%nat ->
  (length (contents f) - offset < fuel)%nat ->
  existsb controlByte (skipn offset (contents f)) = true ->
  exists text rest,
    fillReadBuffer fuel blockSize f offset seen = (text, ReadFailure, true) /\
    existsb controlByte text = false /\
    skipn offset (contents f) = text ++ rest.
Proof.
  intros Hio Hbs. revert offset seen.
  induction fuel as [|fuel IH]; intros offset seen Hfuel Hbin; [lia|].
  assert (Hlt : (offset < length (contents f))%nat).
  { destruct (Nat.lt_ge_cases offset (length (contents f))) as [H|H]; [exact H|].
    rewrite skipn_all2 in Hbin by exact H. discriminate. }
  simpl. destruct (length (contents f) <=? offset)%nat eqn:E;
    [apply Nat.leb_le in E; lia|].
  unfold readData, QFile_readData. rewrite Hio.
  set (l := skipn offset (contents f)) in *.
  assert (Hl : length l = (length (contents f) - offset)%nat) by apply length_skipn.
  assert (Hn : length (firstn blockSize l) = Nat.min blockSize (length l))
    by apply length_firstn.
  destruct seen.
  - rewrite checkData_sticky. simpl.
    exists [], l. repeat split.
  - rewrite checkData_binary by lia. rewrite Nat2Z.id, firstn_all.
    destruct (existsb controlByte (firstn blockSize l)) eqn:Eb.
    + simpl. exists [], l. repeat split.
    + destruct (Z.of_nat (length (firstn blockSize l)) <? 0) eqn:E1;
        [apply Z.ltb_lt in E1; lia|].
      destruct (Z.of_nat (length (firstn blockSize l)) =? 0) eqn:E2;
        [apply Z.eqb_eq in E2; lia|].
      rewrite Nat2Z.id.
      assert (Hskip : skipn (offset + length (firstn blockSize l)) (contents f) =
                      skipn blockSize l).
      { rewrite Nat.add_comm, <- skipn_skipn. fold l. rewrite Hn.
        destruct (Nat.le_ge_cases blockSize (length l)) as [H | H].
        - rewrite Nat.min_l by exact H. reflexivity.
        - rewrite Nat.min_r by exact H. rewrite skipn_all, skipn_all2 by exact H.
          reflexivity. }
      assert (Hbin' : existsb controlByte (skipn blockSize l) = true).
      { rewrite (existsb_split controlByte blockSize l), Eb in Hbin. exact Hbin. }
      destruct (IH (offset + length (firstn blockSize l))%nat false) as (text & rest & -> & Hc & Hr).
      * lia.
      * rewrite Hskip. exact Hbin'.
      * exists (firstn blockSize l ++ text), rest. split; [reflexivity|]. split.
        -- rewrite existsb_app, Eb, Hc. reflexivity.
        -- rewrite <- app_assoc, <- Hr, Hskip. symmetry. apply firstn_skipn.
Qed.

(** X8. Binary detection leaves nothing out.  When the file reads
    without error and holds a control byte at or after the offset where
    the scan resumes, the stream that the scanner opens delivers only
    text from before that byte and none of the control bytes, it ends in
    a failed read, and the flag of the file is up; then the chunker
    returns -1, unless its cap made it stop first. *)
Theorem binary_file_fails_the_scan (blockSize : nat) (f : QFile) (byteIndex : Z)
    (Hio : io_error f = false) (Hbs : (0 < blockSize)%nat) (Hindex : 0 <= byteIndex)
    (Hbin : existsb controlByte (skipn (Z.to_nat byteIndex) (contents f)) = true) :
  let stream := fst (openStream blockSize f byteIndex) in
  snd (openStream blockSize f byteIndex) = true /\
  ending stream = ReadFailure /\
  existsb controlByte (unread stream) = false /\
  (exists rest, skipn (Z.to_nat byteIndex) (contents f) = unread stream ++ rest) /\
  forall budget maxChunks, exists r,
    chunkWords budget maxChunks stream = Some r /\
    (ret r = -1 \/ (0 < maxChunks /\ nchunks r = maxChunks)).
Proof.
  cbv zeta. unfold openStream.
  destruct (fillReadBuffer_binary (S (length (contents f))) blockSize f (Z.to_nat byteIndex)
              (if byteIndex =? 0 then false else snd (readData f false 0 blockSize))
              Hio Hbs) as (text & rest & -> & Hclean & Hrest); [lia | exact Hbin|].
  simpl. split; [reflexivity|]. split; [reflexivity|]. split; [exact Hclean|].
  split; [exists rest; exact Hrest|].
  intros budget maxChunks.
  set (stream := {| unread := text; ending := ReadFailure; pos := byteIndex; status := Ok |}).
  destruct (chunkLoop_total budget collect maxChunks
              (S (length (unread stream))) stream [] 0 0 0 []) as (r & Hr); [lia|].
  exists r. split; [exact Hr|].
  eapply (chunkLoop_failure budget collect maxChunks); [| | |exact Hr];
    [reflexivity | reflexivity | lia].
Qed.

Lemma binary_file_fails_the_scan_witness :
  let stream := fst (openStream QTEXTSTREAM_BUFFERSIZE binary_file 0) in
  snd (openStream QTEXTSTREAM_BUFFERSIZE binary_file 0) = true /\
  ending stream = ReadFailure /\
  existsb controlByte (unread stream) = false /\
  (exists rest, skipn (Z.to_nat 0) (contents binary_file) = unread stream ++ rest) /\
  forall budget maxChunks, exists r,
    chunkWords budget maxChunks stream = Some r /\
    (ret r = -1 \/ (0 < maxChunks /\ nchunks r = maxChunks)).
Proof.
  apply (binary_file_fails_the_scan QTEXTSTREAM_BUFFERSIZE binary_file 0);
    [reflexivity | unfold QTEXTSTREAM_BUFFERSIZE; lia | lia | vm_compute; reflexivity].
Defined.

Lemma openStream_read_error blockSize f byteIndex :
  io_error f = true -> 0 <= byteIndex < Z.of_nat (length (contents f)) ->
  openStream blockSize f byteIndex =
    ({| unread := []; ending := ReadFailure; pos := byteIndex; status := Ok |}, false).
Proof.
  intros Hio Hindex.
  assert (E : (length (contents f) <=? Z.to_nat byteIndex)%nat = false)
    by (apply Nat.leb_gt; lia).
  unfold openStream. cbn [fillReadBuffer]. rewrite E.
  unfold readData, QFile_readData. rewrite Hio. simpl.
  destruct (byteIndex =? 0); reflexivity.
Qed.

(** X9. A read error is told from binary data, and costs nothing.  When
    the reads of a file fail, the stream that [scanQueue] opens before
    the end of the file delivers nothing and ends in a failed read, and
    the flag of binary data stays down, whatever the bytes of the file;
    the scan of the text then stores no chunk, removes none, does not
    put the file back in the queue, and goes on to the next document. *)
Theorem read_error_is_not_binary (env : Environment) (info : DocumentInfo)
    (entry : FileEntry) (f : QFile) (existing_id document_id countForFolder : Z)
    (db : Database) (chunksToRemove : list Z)
    (Hio : io_error f = true)
    (Hindex : 0 <= currentPosition info < Z.of_nat (length (contents f))) :
  openStream (blockSize env) f (currentPosition info) =
    ({| unread := []; ending := ReadFailure; pos := currentPosition info; status := Ok |},
     false) /\
  scanText env info entry f existing_id document_id countForFolder db chunksToRemove =
    (scheduleNext (folder info) countForFolder db, chunksToRemove).
Proof.
  pose proof (openStream_read_error (blockSize env) f (currentPosition info) Hio Hindex) as E.
  split; [exact E|]. unfold scanText. rewrite E. reflexivity.
Qed.

Lemma read_error_is_not_binary_witness :
  openStream (blockSize unmodified_env) (mkQFile (qstr "plain text") true)
    (currentPosition notes_info) =
    ({| unread := []; ending := ReadFailure; pos := currentPosition notes_info;
        status := Ok |}, false) /\
  scanText unmodified_env notes_info
    (mkFileEntry true 1000 "notes.txt" (TextFile (mkQFile (qstr "plain text") true)))
    (mkQFile (qstr "plain text") true) (-1) 1 0 (initial 256 text_and_pdf) [] =
    (scheduleNext (folder notes_info) 0 (initial 256 text_and_pdf), []).
Proof.
  apply (read_error_is_not_binary unmodified_env notes_info
           (mkFileEntry true 1000 "notes.txt" (TextFile (mkQFile (qstr "plain text") true)))
           (mkQFile (qstr "plain text") true) (-1) 1 0 (initial 256 text_and_pdf) []);
    [reflexivity | simpl; lia].
Defined.

(** ** The queue of documents *)

Lemma queue_value_above k m : Forall (fun kq => k < fst kq) m -> queue_value k m = [].
Proof.
  induction 1 as [|[k' q] m Hk _ IH]; [reflexivity|].
  simpl in *. destruct (k' =? k) eqn:E; [apply Z.eqb_eq in E; lia | exact IH].
Qed.

Lemma queue_value_modify k key g m :
  queue_ok m ->
  queue_value k (queue_modify key g m) =
    if k =? key then g (queue_value key m) else queue_value k m.
Proof.
  induction m as [|[k' q] m IH]; intros Hok.
  - simpl. rewrite (Z.eqb_sym key k). destruct (k =? key); reflexivity.
  - destruct Hok as (_ & Hab & Hok). simpl.
    destruct (key <? k') eqn:E1.
    + apply Z.ltb_lt in E1. simpl. rewrite (Z.eqb_sym key k).
      destruct (k =? key) eqn:E2.
      * apply Z.eqb_eq in E2. subst k.
        destruct (k' =? key) eqn:E3; [apply Z.eqb_eq in E3; lia|].
        rewrite queue_value_above; [reflexivity|].
        eapply Forall_impl; [exact Hab|]. simpl. intros kq H. lia.
      * reflexivity.
    + destruct (key =? k') eqn:E2.
      * apply Z.eqb_eq in E2. subst k'. simpl. rewrite Z.eqb_refl.
        rewrite (Z.eqb_sym key k). destruct (k =? key); reflexivity.
      * simpl. rewrite (Z.eqb_sym k' key), E2.
        destruct (k' =? k) eqn:E3.
        -- apply Z.eqb_eq in E3. subst k'. rewrite (Z.eqb_sym k key), E2. reflexivity.
        -- apply IH. exact Hok.
Qed.

Lemma queue_modify_keys key g m :
  forall b, b < key -> Forall (fun kq => b < fst kq) m ->
            Forall (fun kq : Z * list DocumentInfo => b < fst kq) (queue_modify key g m).
Proof.
  induction m as [|[k' q] m IH]; intros b Hb H; simpl.
  - constructor; [exact Hb | constructor].
  - apply Forall_cons_1 in H as [Hk Hm].
    destruct (key <? k'); [constructor; [exact Hb | constructor; assumption]|].
    destruct (key =? k'); [constructor; assumption|].
    constructor; [exact Hk | apply IH; assumption].
Qed.

Lemma queue_modify_ok key g m :
  (forall q, g q <> []) -> queue_ok m -> queue_ok (queue_modify key g m).
Proof.
  intros Hg. induction m as [|[k' q] m IH]; intros Hok; simpl.
  - split; [apply Hg|]. split; [constructor | exact I].
  - destruct Hok as (Hq & Hab & Hok).
    destruct (key <? k') eqn:E1.
    + apply Z.ltb_lt in E1. split; [apply Hg|]. split.
      * constructor; [exact E1|]. eapply Forall_impl; [exact Hab|]. simpl. intros kq H. lia.
      * split; [exact Hq|]. split; assumption.
    + apply Z.ltb_ge in E1. destruct (key =? k') eqn:E2.
      * split; [apply Hg|]. split; assumption.
      * apply Z.eqb_neq in E2. split; [exact Hq|]. split; [|apply IH; exact Hok].
        apply queue_modify_keys; [lia | exact Hab].
Qed.

Lemma enqueueDocumentInternal_ok info prepend db :
  queue_ok (m_docsToScan db) ->
  queue_ok (m_docsToScan (enqueueDocumentInternal info prepend db)).
Proof.
  intros H. simpl. apply queue_modify_ok; [|exact H].
  intros q. destruct prepend; [discriminate | destruct q; discriminate].
Qed.

Lemma enqueueDocuments_value infos db k :
  queue_ok (m_docsToScan db) ->
  queue_ok (m_docsToScan (enqueueDocuments infos db)) /\
  queue_value k (m_docsToScan (enqueueDocuments infos db)) =
    queue_value k (m_docsToScan db) ++ List.filter (fun i => folder i =? k) infos.
Proof.
  unfold enqueueDocuments. revert db.
  induction infos as [|i infos IH]; intros db Hok.
  - simpl. rewrite app_nil_r. split; [exact Hok | reflexivity].
  - simpl fold_left.
    destruct (IH (enqueueDocumentInternal i false db) (enqueueDocumentInternal_ok i false db Hok))
      as [H1 H2].
    split; [exact H1|]. rewrite H2. simpl m_docsToScan.
    rewrite (queue_value_modify k (folder i) _ _ Hok). simpl List.filter.
    rewrite (Z.eqb_sym k (folder i)).
    destruct (folder i =? k) eqn:E.
    + apply Z.eqb_eq in E. subst k. rewrite <- app_assoc. reflexivity.
    + reflexivity.
Qed.

(** X10. Enqueueing is per folder and in order: after [enqueueDocuments],
    the queue of every folder is what it was, followed by the new
    documents of that folder in the order given; the count of the folder
    grows by their number. *)
Theorem enqueue_appends_per_folder (infos : list DocumentInfo) (db : Database) (k : Z)
    (Hok : queue_ok (m_docsToScan db)) :
  let db' := enqueueDocuments infos db in
  queue_value k (m_docsToScan db') =
    queue_value k (m_docsToScan db) ++ List.filter (fun i => folder i =? k) infos /\
  countOfDocuments db' k =
    countOfDocuments db k + Z.of_nat (length (List.filter (fun i => folder i =? k) infos)).
Proof.
  cbv zeta. destruct (enqueueDocuments_value infos db k Hok) as [_ H].
  split; [exact H|]. unfold countOfDocuments. rewrite H, length_app. lia.
Qed.

Lemma enqueue_appends_per_folder_witness :
  let db := rescan_db in
  let infos := [newDocumentInfo 2 "/personal/a.txt"; newDocumentInfo 1 "/work/b.txt";
                newDocumentInfo 2 "/personal/c.txt"] in
  let db' := enqueueDocuments infos db in
  queue_value 1 (m_docsToScan db') =
    queue_value 1 (m_docsToScan db) ++ List.filter (fun i => folder i =? 1) infos /\
  countOfDocuments db' 1 =
    countOfDocuments db 1 + Z.of_nat (length (List.filter (fun i => folder i =? 1) infos)).
Proof.
  apply (enqueue_appends_per_folder
           [newDocumentInfo 2 "/personal/a.txt"; newDocumentInfo 1 "/work/b.txt";
            newDocumentInfo 2 "/personal/c.txt"] rescan_db 1).
  simpl. split; [discriminate|]. split; [constructor | exact I].
Defined.

(** X11. [dequeueDocument] takes the oldest document of the folder with
    the smallest id: it gives nothing only when the queue has no key, and
    otherwise the document it gives is the first of the first key, whose
    queue loses it while the queues of the other folders stay; the queue
    stays a map without empty entries. *)
Theorem dequeue_takes_the_first (db : Database) (Hok : queue_ok (m_docsToScan db)) :
  match dequeueDocument db with
  | None => m_docsToScan db = []
  | Some (info, db') =>
      exists k q rest,
        m_docsToScan db = (k, info :: q) :: rest /\
        Forall (fun kq => k < fst kq) rest /\
        queue_ok (m_docsToScan db') /\
        forall k', queue_value k' (m_docsToScan db') =
                   if k' =? k then q else queue_value k' (m_docsToScan db)
  end.
Proof.
  unfold dequeueDocument.
  destruct (m_docsToScan db) as [|[k [|info q]] rest] eqn:E; simpl in Hok.
  - reflexivity.
  - destruct Hok as [Hne _]. congruence.
  - destruct Hok as (_ & Hab & Hrest).
    exists k, q, rest. split; [reflexivity|]. split; [exact Hab|].
    simpl m_docsToScan. split.
    + destruct q; [exact Hrest|]. simpl. split; [discriminate|]. split; assumption.
    + intros k'. simpl. rewrite (Z.eqb_sym k k').
      destruct (k' =? k) eqn:E1.
      * apply Z.eqb_eq in E1. subst k'. destruct q as [|i q]; simpl.
        -- apply queue_value_above. exact Hab.
        -- rewrite Z.eqb_refl. reflexivity.
      * destruct q as [|i q]; simpl; [reflexivity|].
        rewrite (Z.eqb_sym k k'), E1. reflexivity.
Qed.

Lemma dequeue_takes_the_first_witness :
  match dequeueDocument rescan_db with
  | None => m_docsToScan rescan_db = []
  | Some (info, db') =>
      exists k q rest,
        m_docsToScan rescan_db = (k, info :: q) :: rest /\
        Forall (fun kq => k < fst kq) rest /\
        queue_ok (m_docsToScan db') /\
        forall k', queue_value k' (m_docsToScan db') =
                   if k' =? k then q else queue_value k' (m_docsToScan rescan_db)
  end.
Proof.
  apply (dequeue_takes_the_first rescan_db).
  simpl. split; [discriminate|]. split; [constructor | exact I].
Defined.

Lemma queue_filter_value f k (m : list (Z * list DocumentInfo)) :
  queue_value k (filter (fun kq => fst kq <> f) m) =
    if k =? f then [] else queue_value k m.
Proof.
  induction m as [|[k' q] m IH].
  - simpl. destruct (k =? f); reflexivity.
  - rewrite filter_cons. destruct (decide _) as [Hne | He]; simpl in *.
    + destruct (k' =? k) eqn:E.
      * apply Z.eqb_eq in E. subst k'.
        destruct (k =? f) eqn:E2; [apply Z.eqb_eq in E2; congruence | reflexivity].
      * exact IH.
    + assert (k' = f) by (destruct (decide (k' = f)); [assumption | contradiction]).
      subst k'. rewrite IH. rewrite (Z.eqb_sym f k). destruct (k =? f); reflexivity.
Qed.

Lemma queue_filter_ok f (m : list (Z * list DocumentInfo)) :
  queue_ok m -> queue_ok (filter (fun kq => fst kq <> f) m).
Proof.
  induction m as [|[k q] m IH]; intros Hok; [exact I|].
  destruct Hok as (Hq & Hab & Hok). rewrite filter_cons.
  destruct (decide _); [|apply IH; exact Hok].
  simpl. split; [exact Hq|]. split; [|apply IH; exact Hok].
  apply List.Forall_forall. intros kq Hin. apply list_elem_of_In in Hin.
  apply list_elem_of_filter in Hin as [_ Hin]. apply list_elem_of_In in Hin.
  rewrite List.Forall_forall in Hab. apply Hab. exact Hin.
Qed.

(** X12. [removeFolderFromDocumentQueue] cancels the work queued for the
    folder and nothing else: afterwards the folder has no document in the
    queue, and the queue of every other folder is as it was. *)
Theorem remove_folder_from_queue (folder_id k : Z) (db : Database) :
  let db' := removeFolderFromDocumentQueue folder_id db in
  countOfDocuments db' folder_id = 0 /\
  queue_value k (m_docsToScan db') =
    (if k =? folder_id then [] else queue_value k (m_docsToScan db)) /\
  m_world db' = m_world db /\ journal db' = journal db.
Proof.
  cbv zeta. unfold countOfDocuments. simpl.
  rewrite !queue_filter_value, Z.eqb_refl. repeat split.
Qed.

(** ** What the chunker writes and hands over *)

Lemma handed_sendChunkList db : handed (sendChunkList db) = handed db.
Proof.
  unfold handed, sendChunkList. simpl.
  rewrite batches_app, concat_app. simpl. rewrite !app_nil_r. reflexivity.
Qed.

Lemma handed_appendChunk c db : handed (appendChunk c db) = handed db ++ [c].
Proof.
  unfold appendChunk. destruct (s_batchSize <=? _).
  - rewrite handed_sendChunkList. unfold handed. simpl. apply app_assoc.
  - unfold handed. simpl. apply app_assoc.
Qed.

Lemma handed_perform e db : batches [e] = [] -> handed (perform e db) = handed db.
Proof.
  intros H. unfold handed. simpl. rewrite batches_app, H, app_nil_r. reflexivity.
Qed.

Lemma m_db_appendChunk c db : m_db (appendChunk c db) = m_db db.
Proof. unfold appendChunk. destruct (s_batchSize <=? _); reflexivity. Qed.

Lemma max_id_nonneg {A} (key : A -> Z) l : 0 <= max_id key l.
Proof. induction l as [|y l IH]; simpl; lia. Qed.

Lemma max_id_app {A} (key : A -> Z) l1 l2 :
  max_id key (l1 ++ l2) = Z.max (max_id key l1) (max_id key l2).
Proof.
  induction l1 as [|x l1 IH]; simpl.
  - pose proof (max_id_nonneg key l2). lia.
  - rewrite IH. lia.
Qed.

Lemma next_chunk_id_insert v t :
  next_chunk_id (sql_insert_chunk v t) = next_chunk_id t + 1.
Proof.
  unfold sql_insert_chunk. unfold next_chunk_id at 1. simpl.
  rewrite max_id_app. simpl. pose proof (max_id_nonneg chunk_id (chunks t)).
  unfold next_chunk_id. lia.
Qed.

Lemma flushChunk_store f d file title author subject keywords page ws db :
  let db' := flushChunk f d file title author subject keywords page ws db in
  let id := next_chunk_id (m_db db) in
  chunks (m_db db') =
    chunks (m_db db) ++ chunkRows d file title author subject keywords page id [ws] /\
  next_chunk_id (m_db db') = id + 1 /\
  handed db' =
    handed db ++ map (toEmbed f) (chunkRows d file title author subject keywords page id [ws]) /\
  collections (m_db db') = collections (m_db db) /\
  folders (m_db db') = folders (m_db db) /\
  collection_items (m_db db') = collection_items (m_db db) /\
  documents (m_db db') = documents (m_db db).
Proof.
  cbv zeta. unfold flushChunk, addChunk.
  rewrite m_db_appendChunk, handed_appendChunk.
  split; [reflexivity|]. split; [apply next_chunk_id_insert|].
  split; [|repeat split; reflexivity].
  rewrite handed_perform by reflexivity. reflexivity.
Qed.

Lemma chunkRows_app d file title author subject keywords page id l1 l2 :
  chunkRows d file title author subject keywords page id (l1 ++ l2) =
    chunkRows d file title author subject keywords page id l1 ++
    chunkRows d file title author subject keywords page (id + Z.of_nat (length l1)) l2.
Proof.
  revert id. induction l1 as [|ws l1 IH]; intros id.
  - simpl. rewrite Z.add_0_r. reflexivity.
  - simpl chunkRows. simpl app. rewrite IH. simpl length.
    replace (id + 1 + Z.of_nat (length l1)) with (id + Z.of_nat (S (length l1))) by lia.
    reflexivity.
Qed.

Lemma replay_store f d file title author subject keywords page wss db :
  let db' := replay (flushChunk f d file title author subject keywords page) wss db in
  let rows := chunkRows d file title author subject keywords page
                (next_chunk_id (m_db db)) wss in
  chunks (m_db db') = chunks (m_db db) ++ rows /\
  next_chunk_id (m_db db') = next_chunk_id (m_db db) + Z.of_nat (length wss) /\
  handed db' = handed db ++ map (toEmbed f) rows /\
  collections (m_db db') = collections (m_db db) /\
  folders (m_db db') = folders (m_db db) /\
  collection_items (m_db db') = collection_items (m_db db) /\
  documents (m_db db') = documents (m_db db).
Proof.
  cbv zeta. revert db. induction wss as [|ws wss IH]; intros db.
  - simpl. rewrite !app_nil_r, Z.add_0_r. repeat split.
  - simpl replay.
    destruct (flushChunk_store f d file title author subject keywords page ws db)
      as (H1 & H2 & H3 & H4 & H5 & H6 & H7).
    destruct (IH (flushChunk f d file title author subject keywords page ws db))
      as (G1 & G2 & G3 & G4 & G5 & G6 & G7).
    unfold replay in *. rewrite G1, G2, G3, G4, G5, G6, G7, H1, H2, H3, H4, H5, H6, H7.
    simpl chunkRows. rewrite <- !app_assoc. simpl map. simpl length.
    repeat split. lia.
Qed.

(** X6. What [chunkStream] leaves in the store is what the chunker
    emitted: the chunk table gains one row per chunk, in order, with ids
    that count up from the next free id, the words joined by a space as
    text, the number of words, the document, file and page given, and no
    embedding yet; the chunks handed over for embedding (sent or pending)
    are these rows, with the same ids and texts, in the same order; the
    other tables are not touched. *)
Theorem chunkStream_store (stream : QTextStream) (folder_id document_id : Z)
    (file title author subject keywords : string) (page maxChunks : Z) (db : Database) :
  exists r,
    chunkWords (m_chunkSize db) maxChunks stream = Some r /\
    let result :=
      chunkStream stream folder_id document_id file title author subject keywords page
        maxChunks db in
    let rows :=
      chunkRows document_id file title author subject keywords page
        (next_chunk_id (m_db db)) (final_state r) in
    fst result = ret r /\
    chunks (m_db (snd result)) = chunks (m_db db) ++ rows /\
    handed (snd result) = handed db ++ map (toEmbed folder_id) rows /\
    collections (m_db (snd result)) = collections (m_db db) /\
    folders (m_db (snd result)) = folders (m_db db) /\
    collection_items (m_db (snd result)) = collection_items (m_db db) /\
    documents (m_db (snd result)) = documents (m_db db).
Proof.
  destruct (chunkStream_returns stream folder_id document_id file title author subject
              keywords page maxChunks db) as (r & Hr & E).
  exists r. split; [exact Hr|]. cbv zeta. rewrite E. simpl fst. simpl snd.
  destruct (replay_store folder_id document_id file title author subject keywords page
              (final_state r) db) as (H1 & _ & H3 & H4 & H5 & H6 & H7).
  repeat split; assumption.
Qed.

Lemma sendSlices_batches fuel i chunkList db :
  0 <= i -> (length chunkList - Z.to_nat i <= fuel)%nat ->
  let db' := sendSlices fuel i chunkList db in
  exists slices,
    batches (journal db') = batches (journal db) ++ slices /\
    concat slices = skipn (Z.to_nat i) chunkList /\
    Forall (fun b : list EmbeddingChunk => b <> [] /\ (length b <= 100)%nat) slices /\
    m_world db' = m_world db /\ m_chunkList db' = m_chunkList db /\
    m_docsToScan db' = m_docsToScan db.
Proof.
  cbv zeta. revert i db. induction fuel as [|fuel IH]; intros i db Hi Hfuel.
  - exists []. simpl. rewrite app_nil_r, skipn_all2 by lia. repeat split. constructor.
  - simpl. destruct (i <? Z.of_nat (length chunkList)) eqn:E.
    + apply Z.ltb_lt in E.
      destruct (IH (i + s_batchSize)
                  (perform (GenerateAsyncEmbeddings (mid chunkList i s_batchSize)) db))
        as (slices & H1 & H2 & H3 & H4 & H5 & H6);
        [unfold s_batchSize; lia | unfold s_batchSize; lia|].
      exists (mid chunkList i s_batchSize :: slices).
      rewrite H1, H4, H5, H6. simpl journal. rewrite batches_app. simpl batches.
      rewrite <- app_assoc. simpl app.
      split; [reflexivity|]. split; [|split; [|repeat split]].
      * simpl concat. rewrite H2. unfold mid.
        replace (Z.to_nat (i + s_batchSize)) with (Z.to_nat s_batchSize + Z.to_nat i)%nat
          by (unfold s_batchSize; lia).
        rewrite <- skipn_skipn. apply firstn_skipn.
      * constructor; [|exact H3]. unfold mid, s_batchSize. split.
        -- assert (Hlen : (0 < length (firstn (Z.to_nat 100) (skipn (Z.to_nat i) chunkList)))%nat)
             by (rewrite length_firstn, length_skipn; lia).
           intros Hnil. rewrite Hnil in Hlen. simpl in Hlen. lia.
        -- rewrite length_firstn. lia.
    + apply Z.ltb_ge in E. exists []. rewrite app_nil_r, skipn_all2 by lia.
      repeat split. constructor.
Qed.

(** X17. The chunks that wait for an embedding are sent again, all of
    them and each once: the batches that [scheduleUncompletedEmbeddings]
    sends for a folder are not empty, hold at most 100 chunks, and put
    end to end are the chunks of the folder without embedding, in the
    order of the table; nothing else changes. *)
Theorem uncompleted_chunks_are_resent (folder_id : Z) (db : Database) :
  let db' := scheduleUncompletedEmbeddings folder_id db in
  exists slices,
    batches (journal db') = batches (journal db) ++ slices /\
    concat slices = selectAllUncompletedChunks db folder_id /\
    Forall (fun b : list EmbeddingChunk => b <> [] /\ (length b <= 100)%nat) slices /\
    m_world db' = m_world db /\ m_chunkList db' = m_chunkList db /\
    m_docsToScan db' = m_docsToScan db.
Proof.
  cbv zeta. unfold scheduleUncompletedEmbeddings.
  destruct (sendSlices_batches (length (selectAllUncompletedChunks db folder_id)) 0
              (selectAllUncompletedChunks db folder_id) db) as (slices & H); [lia | lia|].
  exists slices. exact H.
Qed.

(** ** The embeddings that come back *)

Lemma select_file_exists id t :
  match sql_select_file_for_chunk id t with Some _ => true | None => false end =
  existsb (fun c => chunk_id c =? id) (chunks t).
Proof.
  unfold sql_select_file_for_chunk. induction (chunks t) as [|c l IH]; [reflexivity|].
  rewrite filter_cons. simpl existsb.
  destruct (decide (chunk_id c = id)) as [E|E].
  - apply Z.eqb_eq in E. rewrite E. reflexivity.
  - apply Z.eqb_neq in E. rewrite E. exact IH.
Qed.

Lemma addEmbeddings_taken accepts embeddings db :
  addEmbeddings accepts embeddings db =
    (fold_left (fun db id => perform (EmbeddingsAdd id) db)
               (chunksToAdd accepts (m_db db) embeddings) db,
     chunksToAdd accepts (m_db db) embeddings).
Proof.
  unfold addEmbeddings.
  assert (G : forall db1 acc, m_db db1 = m_db db ->
    fold_left
      (fun '(db, chunksToAdd) e =>
         match selectFileForChunk db (er_chunk_id e) with
         | None => (db, chunksToAdd)
         | Some _ =>
             if accepts e
             then (perform (EmbeddingsAdd (er_chunk_id e)) db, chunksToAdd ++ [er_chunk_id e])
             else (db, chunksToAdd)
         end) embeddings (db1, acc) =
    (fold_left (fun db id => perform (EmbeddingsAdd id) db)
               (chunksToAdd accepts (m_db db) embeddings) db1,
     acc ++ chunksToAdd accepts (m_db db) embeddings)).
  { induction embeddings as [|e es IH]; intros db1 acc Hdb.
    - simpl. rewrite app_nil_r. reflexivity.
    - simpl fold_left. unfold chunksToAdd. simpl List.filter.
      pose proof (select_file_exists (er_chunk_id e) (m_db db)) as Hsel.
      unfold selectFileForChunk. rewrite Hdb.
      destruct (sql_select_file_for_chunk (er_chunk_id e) (m_db db)).
      + rewrite <- Hsel. simpl andb. destruct (accepts e).
        * rewrite IH by exact Hdb. simpl map. simpl fold_left.
          rewrite <- app_assoc. reflexivity.
        * apply IH. exact Hdb.
      + rewrite <- Hsel. simpl andb. apply IH. exact Hdb. }
  apply (G db [] eq_refl).
Qed.

Lemma adds_spec A db :
  let db' := fold_left (fun db id => perform (EmbeddingsAdd id) db) A db in
  sql (m_world db') = sql (m_world db) /\
  saved (m_embeddings db') = saved (m_embeddings db) /\
  (forall x, x ∈ loaded (m_embeddings db') <-> x ∈ loaded (m_embeddings db) \/ In x A) /\
  m_chunkList db' = m_chunkList db /\ m_docsToScan db' = m_docsToScan db.
Proof.
  revert db. induction A as [|a A IH]; intros db.
  - simpl. repeat split; tauto.
  - simpl. destruct (IH (perform (EmbeddingsAdd a) db)) as (Hs & Hsv & Hl & Hc & Hq).
    split; [rewrite Hs; reflexivity|]. split; [rewrite Hsv; reflexivity|].
    split; [|split; [rewrite Hc | rewrite Hq]; reflexivity].
    intros x. rewrite Hl. unfold m_embeddings. simpl.
    rewrite elem_of_union, elem_of_singleton. intuition congruence.
Qed.

Lemma mark_embedded_twice a b c :
  mark_embedded a (mark_embedded b c) =
    if decide (chunk_id c = b) then mark_embedded b c
    else mark_embedded a c.
Proof.
  unfold mark_embedded at 2 3. destruct (decide (chunk_id c = b)) as [E|E]; [|reflexivity].
  unfold mark_embedded. simpl. destruct (decide (chunk_id c = a)); reflexivity.
Qed.

Lemma flags_spec A db :
  let db' := fold_left (fun db chunk_id => updateChunkHasEmbedding chunk_id db) A db in
  chunks (m_db db') =
    map (fun c => if existsb (Z.eqb (chunk_id c)) A then mark_embedded (chunk_id c) c else c)
        (chunks (m_db db)) /\
  documents (m_db db') = documents (m_db db) /\ folders (m_db db') = folders (m_db db) /\
  collections (m_db db') = collections (m_db db) /\
  collection_items (m_db db') = collection_items (m_db db) /\
  m_embeddings db' = m_embeddings db /\
  m_chunkList db' = m_chunkList db /\ m_docsToScan db' = m_docsToScan db.
Proof.
  revert db. induction A as [|a A IH]; intros db.
  - simpl. rewrite map_id. repeat split.
  - simpl fold_left. destruct (IH (updateChunkHasEmbedding a db))
      as (H1 & H2 & H3 & H4 & H5 & H6 & H7 & H8).
    cbv zeta. rewrite H1, H2, H3, H4, H5, H6, H7, H8.
    split; [|repeat split].
    change (chunks (m_db (updateChunkHasEmbedding a db)))
      with (map (mark_embedded a) (chunks (m_db db))).
    rewrite map_map. apply map_ext. intros c. rewrite mark_embedded_id. simpl existsb.
    destruct (chunk_id c =? a) eqn:E.
    + apply Z.eqb_eq in E. simpl orb.
      assert (Hm : mark_embedded a c = mark_embedded (chunk_id c) c) by (rewrite E; reflexivity).
      rewrite Hm. destruct (existsb _ A); [|reflexivity].
      rewrite mark_embedded_twice. destruct (decide (chunk_id c = chunk_id c)); congruence.
    + apply Z.eqb_neq in E. simpl orb.
      assert (Hm : mark_embedded a c = c).
      { unfold mark_embedded. destruct (decide (chunk_id c = a)); congruence. }
      rewrite Hm. reflexivity.
Qed.

(** X18. Of the embeddings that come back, [handleEmbeddingsGenerated]
    takes those whose chunk is still in the table and whose point the
    index accepts, and drops the others.  The chunks taken, and no
    others, are marked as embedded; their ids are added to the index in
    memory; the index is saved when one was taken; the other tables, the
    pending chunks and the queue stay as they are.  When none is taken,
    nothing at all is done. *)
Theorem embeddings_generated_marks (accepts : EmbeddingResult -> bool)
    (embeddings : list EmbeddingResult) (db : Database) :
  let ids := chunksToAdd accepts (m_db db) embeddings in
  let db' := handleEmbeddingsGenerated accepts embeddings db in
  chunks (m_db db') =
    map (fun c => if existsb (Z.eqb (chunk_id c)) ids then mark_embedded (chunk_id c) c else c)
        (chunks (m_db db)) /\
  (forall x, x ∈ loaded (m_embeddings db') <-> x ∈ loaded (m_embeddings db) \/ In x ids) /\
  (ids <> [] -> saved (m_embeddings db') = loaded (m_embeddings db')) /\
  (ids = [] -> db' = db) /\
  documents (m_db db') = documents (m_db db) /\ folders (m_db db') = folders (m_db db) /\
  collections (m_db db') = collections (m_db db) /\
  collection_items (m_db db') = collection_items (m_db db) /\
  m_chunkList db' = m_chunkList db /\ m_docsToScan db' = m_docsToScan db.
Proof.
  cbv zeta. unfold handleEmbeddingsGenerated. rewrite addEmbeddings_taken.
  generalize (chunksToAdd accepts (m_db db) embeddings). intros ids.
  destruct (adds_spec ids db) as (Hs & Hsv & Hl & Hc & Hq). cbv zeta in Hs, Hsv, Hl, Hc, Hq.
  set (db1 := fold_left (fun db id => perform (EmbeddingsAdd id) db) ids db) in *.
  assert (Hdb : m_db db1 = m_db db) by (unfold m_db; rewrite Hs; reflexivity).
  destruct ids as [|a A].
  - simpl. rewrite map_id. repeat split; try tauto; try congruence.
  - set (db2 := transaction (perform EmbeddingsSave db1)).
    destruct (flags_spec (a :: A) db2) as (H1 & H2 & H3 & H4 & H5 & H6 & H7 & H8).
    cbv zeta in H1, H2, H3, H4, H5, H6, H7, H8.
    set (db3 := fold_left (fun db chunk_id => updateChunkHasEmbedding chunk_id db) (a :: A) db2)
      in *.
    assert (Hdb2 : m_db db2 = m_db db).
    { unfold db2. rewrite m_db_transaction. exact Hdb. }
    assert (He2 : m_embeddings db2 = embeddings_save (m_embeddings db1)).
    { unfold db2. rewrite m_embeddings_transaction. reflexivity. }
    change (chunks (m_db (commit db3))) with (chunks (m_db db3)).
    change (documents (m_db (commit db3))) with (documents (m_db db3)).
    change (folders (m_db (commit db3))) with (folders (m_db db3)).
    change (collections (m_db (commit db3))) with (collections (m_db db3)).
    change (collection_items (m_db (commit db3))) with (collection_items (m_db db3)).
    change (m_embeddings (commit db3)) with (m_embeddings db3).
    change (m_chunkList (commit db3)) with (m_chunkList db3).
    change (m_docsToScan (commit db3)) with (m_docsToScan db3).
    rewrite H1, H2, H3, H4, H5, H6, H7, H8, Hdb2, He2.
    split; [reflexivity|]. split; [exact Hl|]. split; [reflexivity|].
    split; [discriminate|]. repeat split; assumption.
Qed.

(** ** The end of a scan *)

Lemma chunkStream_queue stream f d file title author subject keywords page cap db :
  m_docsToScan (snd (chunkStream stream f d file title author subject keywords page cap db))
    = m_docsToScan db.
Proof.
  apply (chunkStream_inv (fun db' _ => m_docsToScan db' = m_docsToScan db)) with (R := []).
  - intros db' _ e _ H. exact H.
  - intros db' _ c H. unfold appendChunk. destruct (s_batchSize <=? _); exact H.
  - reflexivity.
Qed.

Lemma chunkStream_documents stream f d file title author subject keywords page cap db :
  documents (m_db (snd (chunkStream stream f d file title author subject keywords page cap db)))
    = documents (m_db db).
Proof.
  destruct (chunkStream_returns stream f d file title author subject keywords page cap db)
    as (r & _ & E).
  rewrite E. simpl snd.
  apply (replay_store f d file title author subject keywords page (final_state r) db).
Qed.

Lemma scheduleNext_pending f n db :
  (n <> 0 -> m_docsToScan db <> []) ->
  m_docsToScan (scheduleNext f n db) = [] -> m_chunkList (scheduleNext f n db) = [].
Proof.
  intros Hn. rewrite scheduleNext_queue. unfold scheduleNext.
  destruct (n =? 0) eqn:E.
  - intros _. destruct (m_chunkList db) eqn:El; [exact El | reflexivity].
  - apply Z.eqb_neq in E. intros Hq. destruct (Hn E Hq).
Qed.

Lemma countOfDocuments_queue db f : countOfDocuments db f <> 0 -> m_docsToScan db <> [].
Proof. unfold countOfDocuments. intros H E. rewrite E in H. apply H. reflexivity. Qed.

Lemma countOfDocuments_nonneg db f : 0 <= countOfDocuments db f.
Proof. unfold countOfDocuments. lia. Qed.

Lemma queue_modify_nonempty key g q : queue_modify key g q <> [].
Proof.
  destruct q as [|[k l] q]; simpl; [discriminate|].
  destruct (key <? k); [discriminate|]. destruct (key =? k); discriminate.
Qed.

Lemma scanPdf_pending info entry pdf d n db :
  0 <= n -> (n <> 0 -> m_docsToScan db <> []) ->
  let db' := scanPdf info entry pdf d n db in
  m_docsToScan db' = [] -> m_chunkList db' = [].
Proof.
  intros Hn Hq. cbv zeta. unfold scanPdf.
  match goal with |- context [chunkStream ?s ?f ?d ?fi ?t ?a ?su ?k ?p ?c ?x] =>
    pose proof (chunkStream_queue s f d fi t a su k p c x) as Hs;
    destruct (chunkStream s f d fi t a su k p c x) as [pos db2] end.
  simpl in Hs.
  destruct (currentPage info <? _).
  - apply scheduleNext_pending. intros _. apply queue_modify_nonempty.
  - apply scheduleNext_pending. rewrite Hs. exact Hq.
Qed.

Lemma scanText_pending env info entry f existing d n db R :
  0 <= n -> (n <> 0 -> m_docsToScan db <> []) ->
  let db' := fst (scanText env info entry f existing d n db R) in
  m_docsToScan db' = [] -> m_chunkList db' = [].
Proof.
  intros Hn Hq. cbv zeta. unfold scanText.
  destruct (openStream (blockSize env) f (currentPosition info)) as [stream binarySeen].
  match goal with |- context [chunkStream ?s ?f ?d ?fi ?t ?a ?su ?k ?p ?c ?x] =>
    pose proof (chunkStream_queue s f d fi t a su k p c x) as Hs;
    destruct (chunkStream s f d fi t a su k p c x) as [pos db2] end.
  simpl in Hs.
  destruct (pos <? 0).
  - destruct (negb binarySeen); simpl fst; apply scheduleNext_pending.
    + rewrite Hs. exact Hq.
    + simpl. rewrite Hs. exact Hq.
  - destruct (currentPosition info <? _); simpl fst; apply scheduleNext_pending.
    + intros _. apply queue_modify_nonempty.
    + rewrite Hs. exact Hq.
Qed.

Lemma scanQueue_pending env db R :
  (m_docsToScan db = [] -> m_chunkList db = []) ->
  let db' := fst (scanQueue env db R) in
  m_docsToScan db' = [] -> m_chunkList db' = [].
Proof.
  intros H. cbv zeta. unfold scanQueue.
  destruct (dequeueDocument db) as [[info db1]|] eqn:Ed; [|exact H].
  pose proof (countOfDocuments_nonneg db1 (folder info)) as Hn.
  pose proof (countOfDocuments_queue db1 (folder info)) as Hq.
  destruct (files env (doc info)) as [entry|]; [|apply scheduleNext_pending; exact Hq].
  destruct (negb (readable entry)); [apply scheduleNext_pending; exact Hq|].
  destruct (selectDocument db1 (doc info)) as [existing_id existing_time].
  destruct (negb (existing_id =? -1) && negb (currentlyProcessing info)) eqn:Ek.
  - simpl andb. destruct (mtime entry =? existing_time); [apply scheduleNext_pending; exact Hq|].
    simpl andb.
    destruct (currentlyProcessing info); [destruct (existing_id =? -1); discriminate|].
    destruct (negb (existing_id =? -1)); [|discriminate].
    destruct (kind entry) as [f|[pdf|]].
    + apply scanText_pending; [exact Hn | exact Hq].
    + apply scanPdf_pending; [exact Hn | exact Hq].
    + apply scheduleNext_pending; exact Hq.
  - simpl andb.
    assert (Hreg : forall reg : option (Z * Database),
              (forall id dbr, reg = Some (id, dbr) -> m_docsToScan dbr = m_docsToScan db1) ->
              let db' := fst
                match reg with
                | None => (scheduleNext (folder info) (countOfDocuments db1 (folder info)) db1, R)
                | Some (document_id, db) =>
                    match kind entry with
                    | PdfFile None =>
                        (scheduleNext (folder info) (countOfDocuments db1 (folder info)) db, R)
                    | PdfFile (Some pdf) =>
                        (scanPdf info entry pdf document_id
                           (countOfDocuments db1 (folder info)) db, R)
                    | TextFile f =>
                        scanText env info entry f existing_id document_id
                          (countOfDocuments db1 (folder info)) db R
                    end
                end in
              m_docsToScan db' = [] -> m_chunkList db' = []).
    { intros [[id dbr]|] Hr; cbv zeta; [|apply scheduleNext_pending; exact Hq].
      specialize (Hr id dbr eq_refl).
      destruct (kind entry) as [f|[pdf|]].
      - apply scanText_pending; [exact Hn | rewrite Hr; exact Hq].
      - apply scanPdf_pending; [exact Hn | rewrite Hr; exact Hq].
      - apply scheduleNext_pending. rewrite Hr. exact Hq. }
    apply Hreg. intros id dbr.
    destruct (currentlyProcessing info); [intros [= _ <-]; reflexivity|].
    destruct (negb (existing_id =? -1)); [intros [= _ <-]; reflexivity|].
    unfold addDocument. destruct (sql_select_document _ _); [discriminate|].
    intros [= _ <-]. reflexivity.
Qed.

Lemma scanWhile_pending env turns db R :
  (m_docsToScan db = [] -> m_chunkList db = []) ->
  let db' := fst (scanWhile env turns db R) in
  m_docsToScan db' = [] -> m_chunkList db' = [].
Proof.
  revert db R. induction turns as [|turns IH]; intros db R H; [exact H|].
  cbv zeta. simpl. pose proof (scanQueue_pending env db R H) as Hs.
  destruct (m_docsToScan db) eqn:Eq; [intros _; apply H; reflexivity|].
  destruct (scanQueue env db R) as [db1 R1]. apply IH. exact Hs.
Qed.

Lemma removeFromEmbeddings_pending R db :
  m_docsToScan (removeFromEmbeddings R db) = m_docsToScan db /\
  m_chunkList (removeFromEmbeddings R db) = m_chunkList db.
Proof.
  revert db. induction R as [|c R IH]; intros db; [split; reflexivity|].
  simpl. destruct (IH (perform (EmbeddingsRemove c) db)) as [-> ->]. split; reflexivity.
Qed.

(** X15. A scan batch leaves no chunk behind.  If before the batch no
    chunk waits for a full batch unless the queue holds a document, then
    the same is so after [scanQueueBatch]: when the batch ends with an
    empty queue, and the scan timer stops, every chunk that was cut has
    been sent to the embedding backend. *)
Theorem drained_queue_has_no_pending_chunk (env : Environment) (turns : nat) (db : Database)
    (Hstart : m_docsToScan db = [] -> m_chunkList db = []) :
  let db' := scanQueueBatch env turns db in
  m_docsToScan db' = [] -> m_chunkList db' = [].
Proof.
  cbv zeta. unfold scanQueueBatch.
  pose proof (scanWhile_pending env turns (transaction db) [] Hstart) as H.
  destruct (scanWhile env turns (transaction db) []) as [db1 R]. simpl in H.
  destruct (removeFromEmbeddings_pending R db1) as [Hq Hc].
  assert (Hq' : forall d, m_docsToScan (saveEmbeddingsIf R (commit d)) = m_docsToScan d)
    by (intros d; destruct R; reflexivity).
  assert (Hc' : forall d, m_chunkList (saveEmbeddingsIf R (commit d)) = m_chunkList d)
    by (intros d; destruct R; reflexivity).
  rewrite Hq', Hc', Hq, Hc. exact H.
Qed.

Lemma drained_queue_has_no_pending_chunk_witness :
  (m_docsToScan rescan_db = [] -> m_chunkList rescan_db = []) /\
  m_docsToScan (scanQueueBatch modified_env 3 rescan_db) = [] /\
  m_chunkList (scanQueueBatch modified_env 3 rescan_db) = [].
Proof.
  split; [intros H; discriminate H|]. split; [reflexivity|].
  apply (drained_queue_has_no_pending_chunk modified_env 3 rescan_db);
    [intros H; discriminate H | reflexivity].
Defined.

(** ** The record of a scanned file *)

Lemma select_document_in p t d : sql_select_document p t = Some d ->
  In d (documents t) /\ document_path d = p.
Proof.
  unfold sql_select_document. induction (documents t) as [|x l IH]; [discriminate|].
  rewrite filter_cons. destruct (decide (document_path x = p)) as [E|E].
  - simpl. intros [= <-]. auto.
  - intros H. destruct (IH H). split; [right|]; assumption.
Qed.

Lemma select_after_update p t d0 time :
  sql_select_document p t = Some d0 ->
  sql_select_document p (sql_update_document_time time (document_id d0) t) =
    Some (mkDocumentRow (document_id d0) (document_folder d0) time (document_path d0)).
Proof.
  unfold sql_select_document, sql_update_document_time. simpl documents.
  induction (documents t) as [|x l IH]; [discriminate|].
  rewrite filter_cons. simpl map. rewrite filter_cons.
  destruct (decide (document_path x = p)) as [E|E].
  - simpl. intros [= <-]. destruct (decide (document_id x = document_id x)); [|congruence].
    simpl. destruct (decide (document_path x = p)); [reflexivity | congruence].
  - intros H. destruct (decide (document_id x = document_id d0)); simpl;
      (destruct (decide (document_path x = p)); [congruence | apply IH; exact H]).
Qed.

Lemma select_after_insert p t f time :
  sql_select_document p t = None ->
  sql_select_document p (sql_insert_document f time p t) =
    Some (mkDocumentRow (next_document_id t) f time p).
Proof.
  intros H. unfold sql_insert_document. rewrite H. revert H.
  unfold sql_select_document. simpl documents.
  generalize (next_document_id t). intros n.
  induction (documents t) as [|x l IH].
  - intros _. simpl. rewrite filter_cons. simpl.
    destruct (decide (p = p)); [reflexivity | congruence].
  - rewrite filter_cons. simpl app. rewrite filter_cons.
    destruct (decide (document_path x = p)); [discriminate | exact IH].
Qed.

Lemma dequeueDocument_world db info db1 :
  dequeueDocument db = Some (info, db1) -> m_world db1 = m_world db.
Proof.
  unfold dequeueDocument. destruct (m_docsToScan db) as [|[k [|i q]] rest]; try discriminate.
  intros [= _ <-]. reflexivity.
Qed.

Lemma scheduleNext_world f n db : m_world (scheduleNext f n db) = m_world db.
Proof. apply idles_world, scheduleNext_idles. Qed.

Lemma scheduleNext_m_db f n db : m_db (scheduleNext f n db) = m_db db.
Proof. unfold m_db. rewrite scheduleNext_world. reflexivity. Qed.

Lemma scanPdf_documents info entry pdf d n db :
  documents (m_db (scanPdf info entry pdf d n db)) = documents (m_db db).
Proof.
  unfold scanPdf.
  match goal with |- context [chunkStream ?s ?f ?d ?fi ?t ?a ?su ?k ?p ?c ?x] =>
    pose proof (chunkStream_documents s f d fi t a su k p c x) as Hs;
    destruct (chunkStream s f d fi t a su k p c x) as [pos db2] end.
  simpl in Hs.
  destruct (currentPage info <? _); rewrite scheduleNext_m_db; exact Hs.
Qed.

Lemma scanText_documents env info entry f existing d n db R :
  documents (m_db (fst (scanText env info entry f existing d n db R))) = documents (m_db db).
Proof.
  unfold scanText.
  destruct (openStream (blockSize env) f (currentPosition info)) as [stream binarySeen].
  match goal with |- context [chunkStream ?s ?f ?d ?fi ?t ?a ?su ?k ?p ?c ?x] =>
    pose proof (chunkStream_documents s f d fi t a su k p c x) as Hs;
    destruct (chunkStream s f d fi t a su k p c x) as [pos db2] end.
  simpl in Hs.
  destruct (pos <? 0); [destruct (negb binarySeen)|destruct (currentPosition info <? _)];
    simpl fst; rewrite scheduleNext_m_db; exact Hs.
Qed.

Lemma next_document_id_positive t : next_document_id t <> -1.
Proof.
  unfold next_document_id.
  assert (0 <= max_id document_id (documents t)); [|lia].
  unfold max_id. induction (documents t); simpl; lia.
Qed.

(** X16. A file that is scanned is recorded with the time it was
    modified, whatever becomes of its scan.  When [scanQueue] takes from
    the queue a file that is there, readable and not in the middle of a
    scan, then afterwards the documents table has a row for its path with
    the modification time of the file: the row it had, with the new time,
    or a new row for the folder; the other rows are as they were.  So the
    file then counts as unchanged, even when the PDF does not load, the
    read fails or the file is binary, and is not scanned again before it
    is modified. *)
Theorem scan_records_the_file_time (env : Environment) (db : Database) (R : list Z)
    (info : DocumentInfo) (db1 : Database) (entry : FileEntry)
    (Hqueue : dequeueDocument db = Some (info, db1))
    (Hfile : files env (doc info) = Some entry)
    (Hreadable : readable entry = true)
    (Hfresh : currentlyProcessing info = false)
    (Hids : forall d, In d (documents (m_db db)) -> document_id d <> -1) :
  let db' := fst (scanQueue env db R) in
  unchanged env (m_db db') info /\
  documents (m_db db') =
    match sql_select_document (doc info) (m_db db) with
    | Some d0 =>
        if mtime entry =? document_time d0 then documents (m_db db)
        else documents (sql_update_document_time (mtime entry) (document_id d0) (m_db db))
    | None =>
        documents (m_db db) ++
        [mkDocumentRow (next_document_id (m_db db)) (folder info) (mtime entry) (doc info)]
    end.
Proof.
  cbv zeta.
  assert (Hdb1 : m_db db1 = m_db db).
  { unfold m_db. rewrite (dequeueDocument_world db info db1 Hqueue). reflexivity. }
  assert (Hrow : forall db2 row,
            sql_select_document (doc info) (m_db db2) = Some row ->
            document_id row <> -1 -> document_time row = mtime entry ->
            unchanged env (m_db db2) info).
  { intros db2 row H1 H2 H3. split; [exact Hfresh|]. exists entry, row. auto. }
  unfold scanQueue. rewrite Hqueue, Hfile, Hreadable, Hfresh. simpl negb. cbv iota.
  unfold selectDocument. rewrite Hdb1.
  destruct (sql_select_document (doc info) (m_db db)) as [d0|] eqn:Es.
  - destruct (select_document_in _ _ _ Es) as [Hin Hpath].
    pose proof (Hids d0 Hin) as Hid. apply Z.eqb_neq in Hid. rewrite Hid. simpl.
    destruct (mtime entry =? document_time d0) eqn:Et.
    + simpl fst. rewrite scheduleNext_m_db, Hdb1. split; [|reflexivity].
      apply (Hrow db d0); [exact Es | apply Z.eqb_neq; exact Hid | symmetry; apply Z.eqb_eq; exact Et].
    + set (db2 := updateDocument (document_id d0) (mtime entry)
                    (removeChunksByDocumentId (document_id d0) db1)).
      assert (Hdocs : documents (m_db db2) =
                documents (sql_update_document_time (mtime entry) (document_id d0) (m_db db))).
      { unfold db2. rewrite <- Hdb1. reflexivity. }
      assert (Hsel : sql_select_document (doc info) (m_db db2) =
                Some (mkDocumentRow (document_id d0) (document_folder d0) (mtime entry)
                        (document_path d0))).
      { rewrite <- (select_after_update _ _ _ (mtime entry) Es).
        unfold sql_select_document. rewrite Hdocs. reflexivity. }
      assert (Hend : forall db3, documents (m_db db3) = documents (m_db db2) ->
                unchanged env (m_db db3) info /\
                documents (m_db db3) =
                  documents (sql_update_document_time (mtime entry) (document_id d0) (m_db db))).
      { intros db3 H3. split; [|rewrite H3; exact Hdocs].
        apply (Hrow db3 (mkDocumentRow (document_id d0) (document_folder d0) (mtime entry)
                           (document_path d0))).
        - unfold sql_select_document in *. rewrite H3. exact Hsel.
        - simpl. apply Z.eqb_neq. exact Hid.
        - reflexivity. }
      destruct (kind entry) as [f|[pdf|]]; apply Hend.
      * apply scanText_documents.
      * apply scanPdf_documents.
      * simpl fst. rewrite scheduleNext_m_db. reflexivity.
  - simpl. unfold addDocument. rewrite Hdb1, Es.
    set (db2 := perform (SqlInsertDocument (folder info) (mtime entry) (doc info)) db1).
    assert (Hdocs : documents (m_db db2) =
              documents (m_db db) ++
              [mkDocumentRow (next_document_id (m_db db)) (folder info) (mtime entry) (doc info)]).
    { unfold db2. change (m_db (perform (SqlInsertDocument (folder info) (mtime entry) (doc info)) db1))
        with (sql_insert_document (folder info) (mtime entry) (doc info) (m_db db1)).
      rewrite Hdb1. unfold sql_insert_document. rewrite Es. reflexivity. }
    assert (Hsel : sql_select_document (doc info) (m_db db2) =
              Some (mkDocumentRow (next_document_id (m_db db)) (folder info) (mtime entry)
                      (doc info))).
    { rewrite <- (select_after_insert _ _ (folder info) (mtime entry) Es).
      unfold db2. change (m_db (perform (SqlInsertDocument (folder info) (mtime entry) (doc info)) db1))
        with (sql_insert_document (folder info) (mtime entry) (doc info) (m_db db1)).
      rewrite Hdb1. reflexivity. }
    assert (Hend : forall db3, documents (m_db db3) = documents (m_db db2) ->
              unchanged env (m_db db3) info /\
              documents (m_db db3) =
                documents (m_db db) ++
                [mkDocumentRow (next_document_id (m_db db)) (folder info) (mtime entry)
                   (doc info)]).
    { intros db3 H3. split; [|rewrite H3; exact Hdocs].
      apply (Hrow db3 (mkDocumentRow (next_document_id (m_db db)) (folder info) (mtime entry)
                         (doc info))).
      - unfold sql_select_document in *. rewrite H3. exact Hsel.
      - simpl. apply next_document_id_positive.
      - reflexivity. }
    destruct (kind entry) as [f|[pdf|]]; apply Hend.
    * apply scanText_documents.
    * apply scanPdf_documents.
    * simpl fst. rewrite scheduleNext_m_db. reflexivity.
Qed.

Lemma scan_records_the_file_time_witness :
  dequeueDocument rescan_db = Some (notes_info, scenario_db) /\
  unchanged modified_env (m_db (fst (scanQueue modified_env rescan_db []))) notes_info /\
  documents (m_db (fst (scanQueue modified_env rescan_db []))) =
    [mkDocumentRow 1 1 2000 "/work/notes.txt"; mkDocumentRow 2 2 1000 "/personal/notes.txt"].
Proof.
  split; [reflexivity|].
  apply (scan_records_the_file_time modified_env rescan_db [] notes_info scenario_db
           (mkFileEntry true 2000 "notes.txt" (TextFile (mkQFile (qstr "alpha beta") false))));
    try reflexivity.
  intros d Hin. simpl in Hin. destruct Hin as [<-|[<-|[]]]; discriminate.
Defined.

(** ** What [cleanDB] removes and what it keeps *)

Lemma removeDocuments_extensions l d R :
  m_scannedFileExtensions
    (fst (fold_left (fun st x => removeDocumentAndChunks x st) l (d, R))) =
  m_scannedFileExtensions d.
Proof.
  apply (removeDocuments_inv (fun d' _ => m_scannedFileExtensions d' = m_scannedFileExtensions d)).
  - intros d' _ e _ H. exact H.
  - intros d' _ x H. exact H.
  - reflexivity.
Qed.

Lemma cleaned_removeDocuments env db cs ids l d R :
  cleaned env db cs ids d R ->
  (forall i, In i l ->
     exists y, In y (documents (m_db db)) /\ document_id y = i /\ gone env db cs y) ->
  cleaned env db cs (ids ++ l)
    (fst (fold_left (fun st x => removeDocumentAndChunks x st) l (d, R)))
    (snd (fold_left (fun st x => removeDocumentAndChunks x st) l (d, R))).
Proof.
  intros (Hc & Hd & HR & Hg & He & Hx) Hl.
  destruct (removeDocuments_spec l d R) as (Sc & Sd & _ & _ & _ & Se & _ & SR).
  cbv zeta in Sc, Sd, Se, SR.
  split; [|split; [|split; [|split; [|split]]]].
  - intros c. rewrite Sc, Hc, in_app_iff. tauto.
  - intros x. rewrite Sd, Hd, in_app_iff. tauto.
  - intros i. rewrite SR, HR. split.
    + intros [(c & H1 & H2 & H3)|(c & H1 & H2 & H3)].
      * exists c. rewrite in_app_iff. auto.
      * apply Hc in H1 as [H1 _]. exists c. rewrite in_app_iff. auto.
    + intros (c & H1 & H2 & H3).
      destruct (in_dec Z.eq_dec (chunk_document c) ids) as [Hin|Hout].
      * left. exists c. auto.
      * right. exists c. rewrite Hc. apply in_app_iff in H2 as [H2|H2]; [contradiction|]. auto.
  - intros i Hi. apply in_app_iff in Hi as [Hi|Hi]; [apply Hg | apply Hl]; exact Hi.
  - rewrite Se. exact He.
  - rewrite removeDocuments_extensions. exact Hx.
Qed.

Lemma cleaned_same env db cs ids d d' R :
  cleaned env db cs ids d R ->
  chunks (m_db d') = chunks (m_db d) -> documents (m_db d') = documents (m_db d) ->
  m_embeddings d' = m_embeddings d ->
  m_scannedFileExtensions d' = m_scannedFileExtensions d ->
  cleaned env db cs ids d' R.
Proof.
  intros (Hc & Hd & HR & Hg & He & Hx) E1 E2 E3 E4. unfold cleaned.
  rewrite E1, E2, E3, E4. auto 10.
Qed.

Lemma select_documents_in f t i :
  In i (sql_select_documents f t) ->
  exists y, In y (documents t) /\ document_id y = i /\ document_folder y = f.
Proof.
  unfold sql_select_documents. rewrite in_map_iff. intros (y & Hid & Hin).
  apply In_filter in Hin as [Hin Hf]. exists y. auto.
Qed.

Lemma cleaned_removeFolderInternal env db cs ids d R i :
  cleaned env db cs ids d R -> In i cs -> directories env (ci_folder_path i) = None ->
  let r := removeFolderInternal (ci_collection i) (ci_folder_id i) d R in
  exists ids', cleaned env db cs ids' (snd (fst r)) (snd r) /\ incl ids ids'.
Proof.
  intros H Hi Hdir. cbv zeta. unfold removeFolderInternal, removeCollectionFolder.
  set (d1 := perform (SqlDeleteCollectionFolder (ci_collection i) (ci_folder_id i)) d).
  assert (H1c : cleaned env db cs ids d1 R).
  { apply (cleaned_same env db cs ids d); [exact H | | | reflexivity | reflexivity];
      unfold d1, m_db; simpl; unfold sql_delete_collection_folder;
      destruct (collection_id_of _ _); reflexivity. }
  destruct (deleted_collection_folder (ci_collection i) (ci_folder_id i) (m_db d))
    as [|i0 deleted].
  - simpl. exists ids. split; [exact H1c | apply incl_refl].
  - destruct (count_folder_references (ci_folder_id i) (m_db d1) =? -1).
    + simpl. exists ids. split; [exact H1c | apply incl_refl].
    + set (d2 := perform SqlPruneCollections d1).
      assert (H2 : cleaned env db cs ids d2 R)
        by (apply (cleaned_same env db cs ids d1); [exact H1c | reflexivity ..]).
      destruct (negb (count_folder_references (ci_folder_id i) (m_db d1) =? 0)).
      * simpl. exists ids. split; [exact H2 | apply incl_refl].
      * set (d3 := removeFolderFromDocumentQueue (ci_folder_id i) d2).
        assert (H3 : cleaned env db cs ids d3 R)
          by (apply (cleaned_same env db cs ids d2); [exact H2 | reflexivity ..]).
        set (l := sql_select_documents (ci_folder_id i) (m_db d3)).
        pose proof (cleaned_removeDocuments env db cs ids l d3 R H3) as H4.
        destruct (fold_left _ l (d3, R)) as [d4 R4]. simpl in H4 |- *.
        exists (ids ++ l). split; [|apply incl_appl, incl_refl].
        apply (cleaned_same env db cs (ids ++ l) d4); [|reflexivity ..].
        apply H4. intros x Hx. apply select_documents_in in Hx as (y & Hy & Hid & Hf).
        exists y. split; [|split; [exact Hid|]].
        -- destruct H3 as (_ & Hd & _). apply Hd in Hy. tauto.
        -- right. exists i. auto.
Qed.

Lemma cleaned_cleanFolders env db cs cs' ids d R :
  cleaned env db cs ids d R -> (forall i, In i cs' -> In i cs) ->
  let r := cleanFolders env cs' d R in
  exists ids', cleaned env db cs ids' (snd (fst r)) (snd r) /\ incl ids ids'.
Proof.
  revert ids d R. induction cs' as [|i cs' IH]; intros ids d R H Hin.
  - simpl. exists ids. split; [exact H | apply incl_refl].
  - cbv zeta. simpl. destruct (directories env (ci_folder_path i)) eqn:Edir.
    + apply IH; [exact H | intros j Hj; apply Hin; right; exact Hj].
    + destruct (cleaned_removeFolderInternal env db cs ids d R i H (Hin i (or_introl eq_refl)) Edir)
        as (ids1 & H1 & Hincl).
      destruct (removeFolderInternal (ci_collection i) (ci_folder_id i) d R) as [[ok d1] R1].
      simpl in H1. destruct ok.
      * destruct (IH ids1 d1 R1 H1) as (ids2 & H2 & Hincl2);
          [intros j Hj; apply Hin; right; exact Hj|].
        exists ids2. split; [exact H2 | eapply incl_tran; eassumption].
      * simpl. exists ids1. split; [exact H1 | exact Hincl].
Qed.

Lemma keepsDocument_extensions env d d' p :
  m_scannedFileExtensions d' = m_scannedFileExtensions d ->
  keepsDocument env d' p = keepsDocument env d p.
Proof. intros E. unfold keepsDocument, scannedExtension. rewrite E. reflexivity. Qed.

Lemma cleaned_cleanDocuments env db cs L ids d R :
  cleaned env db cs ids d R -> (forall x, In x L -> In x (documents (m_db db))) ->
  let st := cleanDocuments env L (d, R) in
  exists ids', cleaned env db cs ids' (fst st) (snd st) /\ incl ids ids' /\
    forall x, In x L -> keepsDocument env db (document_path x) = false ->
              In (document_id x) ids'.
Proof.
  unfold cleanDocuments.
  revert ids d R. induction L as [|x L IH]; intros ids d R H HL.
  - simpl. exists ids. split; [exact H|]. split; [apply incl_refl|]. intros x [].
  - cbv zeta. simpl fold_left.
    assert (Hk : keepsDocument env d (document_path x) = keepsDocument env db (document_path x)).
    { apply keepsDocument_extensions. apply H. }
    rewrite Hk. destruct (keepsDocument env db (document_path x)) eqn:Ek.
    + destruct (IH ids d R H) as (ids' & H' & Hincl & Hall);
        [intros y Hy; apply HL; right; exact Hy|].
      exists ids'. split; [exact H'|]. split; [exact Hincl|].
      intros y [<-|Hy] Hf; [congruence | apply Hall; assumption].
    + pose proof (cleaned_removeDocuments env db cs ids [document_id x] d R H) as H1.
      simpl fold_left in H1.
      destruct (IH (ids ++ [document_id x]) (fst (removeDocumentAndChunks (document_id x) (d, R)))
                  (snd (removeDocumentAndChunks (document_id x) (d, R))))
        as (ids' & H' & Hincl & Hall).
      * apply H1. intros i [<-|[]]. exists x. split; [apply HL; left; reflexivity|].
        split; [reflexivity|]. left. exact Ek.
      * intros y Hy. apply HL. right. exact Hy.
      * rewrite <- surjective_pairing in H'.
        exists ids'. split; [exact H'|].
        split; [eapply incl_tran; [apply incl_appl, incl_refl | exact Hincl]|].
        intros y [<-|Hy] Hf; [|apply Hall; assumption].
        apply Hincl. apply in_app_iff. right. left. reflexivity.
Qed.

Lemma cleaned_start env db cs : cleaned env db cs [] (transaction db) [].
Proof.
  unfold cleaned. rewrite m_db_transaction, m_embeddings_transaction.
  split; [intros c; simpl; tauto|]. split; [intros x; simpl; tauto|].
  split; [|split; [intros i []|split; reflexivity]].
  intros i. split; [intros [] | intros (c & _ & [] & _)].
Qed.

Lemma cleanDB_cleaned env db cs :
  selectAllFromCollections db = Some cs -> fst (cleanDB env db) = true ->
  exists ids d R,
    cleaned env db cs ids d R /\
    (forall x, In x (documents (m_db d)) -> keepsDocument env db (document_path x) = true) /\
    m_db (snd (cleanDB env db)) = m_db d /\
    saved (m_embeddings (snd (cleanDB env db))) =
      (if R is [] then saved (m_embeddings db) else loaded (m_embeddings (snd (cleanDB env db)))) /\
    forall i, i ∈ loaded (m_embeddings (snd (cleanDB env db))) <->
              i ∈ loaded (m_embeddings db) /\ ~ In i R.
Proof.
  intros Ecs. unfold cleanDB. rewrite Ecs. unfold cleanAll.
  destruct (cleaned_cleanFolders env db cs cs [] (transaction db) [] (cleaned_start env db cs))
    as (ids1 & H1 & _); [auto|].
  destruct (cleanFolders env cs (transaction db) []) as [[ok d1] R1]. simpl in H1.
  destruct ok; [|simpl; discriminate].
  destruct (cleaned_cleanDocuments env db cs (sql_select_all_documents (m_db d1)) ids1 d1 R1 H1)
    as (ids2 & H2 & Hincl & Hall).
  { intros x Hx. destruct H1 as (_ & Hd & _). apply Hd in Hx. tauto. }
  destruct (cleanDocuments env (sql_select_all_documents (m_db d1)) (d1, R1)) as [d2 R2].
  simpl in H2. intros _. simpl snd. exists ids2, d2, R2.
  split; [exact H2|]. split; [|split; [|split]].
  - intros x Hx. destruct (keepsDocument env db (document_path x)) eqn:Ek; [reflexivity|].
    exfalso. destruct H2 as (_ & Hd & _). apply Hd in Hx as [Hx Hout]. apply Hout.
    apply Hall; [|exact Ek]. destruct H1 as (_ & Hd1 & _). apply Hd1. split; [exact Hx|].
    intros Hin. apply Hout. apply Hincl. exact Hin.
  - rewrite m_db_saved. unfold m_db.
    destruct (removeFromEmbeddings_spec R2 d2) as (-> & _). reflexivity.
  - destruct H2 as (_ & _ & _ & _ & He & _). rewrite <- He.
    destruct R2; reflexivity.
  - intros i. destruct (removeFromEmbeddings_spec R2 d2) as (_ & _ & Hl).
    destruct H2 as (_ & _ & _ & _ & He & _). rewrite <- He, <- Hl.
    destruct R2; reflexivity.
Qed.

(** X22. What a successful [cleanDB] leaves is there on disk, and what
    it removes is removed everywhere.  Every document left was there
    before and its file exists, is readable and has a scanned extension;
    every chunk left was there before, and so is its document; and a
    chunk that is removed from the table is removed from the index too,
    in memory and in the file saved. *)
Theorem cleanDB_removes_what_is_gone (env : Environment) (db : Database)
    (Hok : fst (cleanDB env db) = true) :
  let db' := snd (cleanDB env db) in
  (forall x, In x (documents (m_db db')) ->
     In x (documents (m_db db)) /\ keepsDocument env db (document_path x) = true) /\
  (forall c, In c (chunks (m_db db')) ->
     In c (chunks (m_db db)) /\
     forall x, In x (documents (m_db db)) -> document_id x = chunk_document c ->
               In x (documents (m_db db'))) /\
  (forall c, In c (chunks (m_db db)) ->
     In c (chunks (m_db db')) \/
     ((chunk_id c ∉ loaded (m_embeddings db')) /\ (chunk_id c ∉ saved (m_embeddings db')))).
Proof.
  cbv zeta.
  destruct (selectAllFromCollections db) as [cs|] eqn:Ecs;
    [|unfold cleanDB in Hok; rewrite Ecs in Hok; discriminate].
  destruct (cleanDB_cleaned env db cs Ecs Hok)
    as (ids & d & R & (Hc & Hd & HR & _) & Hkeep & -> & Hsaved & Hloaded).
  split; [|split].
  - intros x Hx. split; [apply Hd in Hx; tauto | apply Hkeep; exact Hx].
  - intros c Hin. apply Hc in Hin as [Hin Hout]. split; [exact Hin|].
    intros x Hx Hid. apply Hd. split; [exact Hx|]. rewrite Hid. exact Hout.
  - intros c Hin. destruct (in_dec Z.eq_dec (chunk_document c) ids) as [Hi|Hi].
    + right. assert (HinR : In (chunk_id c) R) by (apply HR; exists c; auto).
      assert (Hl : chunk_id c ∉ loaded (m_embeddings (snd (cleanDB env db))))
        by (rewrite Hloaded; tauto).
      split; [exact Hl|]. rewrite Hsaved. destruct R; [destruct HinR | exact Hl].
    + left. apply Hc. auto.
Qed.

(** X23. [cleanDB] removes nothing that is still there.  When it
    succeeds, a document whose file exists, is readable and has a
    scanned extension, and whose folder is not the folder of a collection
    whose directory is gone, stays in the table, and so do its chunks. *)
Theorem cleanDB_keeps_what_is_there (env : Environment) (db : Database)
    (cs : list CollectionItem) (x : DocumentRow)
    (Hcs : selectAllFromCollections db = Some cs)
    (Hok : fst (cleanDB env db) = true)
    (Hids : NoDup (map document_id (documents (m_db db))))
    (Hx : In x (documents (m_db db)))
    (Hfile : keepsDocument env db (document_path x) = true)
    (Hfolder : forall i, In i cs -> ci_folder_id i = document_folder x ->
                         directories env (ci_folder_path i) <> None) :
  let db' := snd (cleanDB env db) in
  In x (documents (m_db db')) /\
  forall c, In c (chunks (m_db db)) -> chunk_document c = document_id x ->
            In c (chunks (m_db db')).
Proof.
  cbv zeta.
  destruct (cleanDB_cleaned env db cs Hcs Hok)
    as (ids & d & R & (Hc & Hd & _ & Hg & _) & _ & -> & _).
  assert (Hout : ~ In (document_id x) ids).
  { intros Hin. destruct (Hg _ Hin) as (y & Hy & Hid & Hgone).
    assert (y = x) by (apply (NoDup_map_inj document_id (documents (m_db db))); assumption).
    subst y. destruct Hgone as [Hf|(i & Hi & Hfo & Hdir)]; [congruence|].
    exact (Hfolder i Hi Hfo Hdir). }
  split; [apply Hd; auto|].
  intros c Hin Hdoc. apply Hc. rewrite Hdoc. auto.
Qed.

Lemma cleanDB_removes_what_is_gone_witness :
  fst (cleanDB work_env scenario_db) = true /\
  map document_id (documents (m_db (snd (cleanDB work_env scenario_db)))) = [1] /\
  forall c, In c (chunks (m_db scenario_db)) ->
    In c (chunks (m_db (snd (cleanDB work_env scenario_db)))) \/
    ((chunk_id c ∉ loaded (m_embeddings (snd (cleanDB work_env scenario_db)))) /\
     (chunk_id c ∉ saved (m_embeddings (snd (cleanDB work_env scenario_db))))).
Proof.
  split; [vm_compute; reflexivity|]. split; [vm_compute; reflexivity|].
  apply (cleanDB_removes_what_is_gone work_env scenario_db). vm_compute. reflexivity.
Defined.

Lemma cleanDB_keeps_what_is_there_witness :
  fst (cleanDB work_env scenario_db) = true /\
  In (mkDocumentRow 1 1 1000 "/work/notes.txt")
     (documents (m_db (snd (cleanDB work_env scenario_db)))) /\
  forall c, In c (chunks (m_db scenario_db)) -> chunk_document c = 1 ->
            In c (chunks (m_db (snd (cleanDB work_env scenario_db)))).
Proof.
  split; [vm_compute; reflexivity|].
  apply (cleanDB_keeps_what_is_there work_env scenario_db
           [mkCollectionItem 2 "Personal" "/personal" 2 (Some "model"%string) false;
            mkCollectionItem 1 "Work" "/work" 1 (Some "model"%string) false]
           (mkDocumentRow 1 1 1000 "/work/notes.txt")).
  - vm_compute. reflexivity.
  - vm_compute. reflexivity.
  - apply (bool_decide_unpack _). vm_compute. exact I.
  - simpl. auto.
  - vm_compute. reflexivity.
  - intros i [<-|[<-|[]]]; simpl; intros H; discriminate.
Defined.

(** ** The change of the chunk size *)

Lemma sendSlices_world fuel i l db :
  m_world (sendSlices fuel i l db) = m_world db /\
  m_chunkSize (sendSlices fuel i l db) = m_chunkSize db.
Proof.
  revert db i. induction fuel as [|fuel IH]; intros db i; [split; reflexivity|].
  simpl. destruct (i <? _); [|split; reflexivity].
  destruct (IH (perform (GenerateAsyncEmbeddings (mid l i s_batchSize)) db) (i + s_batchSize))
    as [-> ->].
  split; reflexivity.
Qed.

Lemma scheduleUncompletedEmbeddings_world f db :
  m_world (scheduleUncompletedEmbeddings f db) = m_world db /\
  m_chunkSize (scheduleUncompletedEmbeddings f db) = m_chunkSize db.
Proof. apply sendSlices_world. Qed.

Lemma scanDocuments_world env f p db :
  m_world (scanDocuments env f p db) = m_world db /\
  m_chunkSize (scanDocuments env f p db) = m_chunkSize db.
Proof.
  unfold scanDocuments. destruct (map _ _) as [|i infos]; [split; reflexivity|].
  unfold enqueueDocuments. generalize (i :: infos). intros l. revert db.
  induction l as [|x l IH]; intros db; [split; reflexivity|].
  simpl. destruct (IH (enqueueDocumentInternal x false db)) as [-> ->]. split; reflexivity.
Qed.

Lemma addCurrentFolders_world env db :
  m_world (addCurrentFolders env db) = m_world db /\
  m_chunkSize (addCurrentFolders env db) = m_chunkSize db.
Proof.
  unfold addCurrentFolders. destruct (selectAllFromCollections db) as [cs|]; [|split; reflexivity].
  revert db. induction cs as [|i cs IH]; intros db; [split; reflexivity|].
  simpl. destruct (ci_forceIndexing i); [apply IH|].
  destruct (IH (scanDocuments env (ci_folder_id i) (ci_folder_path i)
                  (scheduleUncompletedEmbeddings (ci_folder_id i) db))) as [-> ->].
  destruct (scanDocuments_world env (ci_folder_id i) (ci_folder_path i)
              (scheduleUncompletedEmbeddings (ci_folder_id i) db)) as [-> ->].
  apply scheduleUncompletedEmbeddings_world.
Qed.

Lemma no_member_nil {A} (l : list A) : (forall x, ~ In x l) -> l = [].
Proof. destruct l as [|a l]; [reflexivity|]. intros H. destruct (H a). left. reflexivity. Qed.

(** X25. A change of the chunk size starts the index over.  When
    [changeChunkSize] is given a size that is not the current one, the
    new size is set; the documents table is emptied; every chunk of a
    document is deleted, and its id is removed from the index, in memory
    and in the file saved; the folders, the collections and their links
    stay as they are. *)
Theorem changeChunkSize_starts_over (env : Environment) (chunkSize : Z) (db : Database)
    (Hnew : chunkSize <> m_chunkSize db) :
  let db' := changeChunkSize env chunkSize db in
  m_chunkSize db' = chunkSize /\
  documents (m_db db') = [] /\
  (forall c, In c (chunks (m_db db')) <->
             In c (chunks (m_db db)) /\
             ~ In (chunk_document c) (map document_id (documents (m_db db)))) /\
  (forall c, In c (chunks (m_db db)) ->
             In (chunk_document c) (map document_id (documents (m_db db))) ->
             (chunk_id c ∉ loaded (m_embeddings db')) /\
             (chunk_id c ∉ saved (m_embeddings db'))) /\
  folders (m_db db') = folders (m_db db) /\
  collections (m_db db') = collections (m_db db) /\
  collection_items (m_db db') = collection_items (m_db db).
Proof.
  cbv zeta. unfold changeChunkSize. apply Z.eqb_neq in Hnew. rewrite Hnew.
  unfold removeAll, sql_select_all_documents.
  set (ids := map document_id (documents (m_db db))).
  destruct (removeDocuments_spec ids (transaction db) [])
    as (Hc & Hd & Hf & Hcol & Hit & He & _ & HR).
  cbv zeta in Hc, Hd, Hf, Hcol, Hit, He, HR. rewrite m_db_transaction in *.
  rewrite m_embeddings_transaction in He.
  destruct (fold_left _ ids (transaction db, [])) as [d R]. simpl in Hc, Hd, Hf, Hcol, Hit, He, HR.
  set (d1 := saveEmbeddingsIf R (commit (removeFromEmbeddings R d))).
  destruct (addCurrentFolders_world env (set_chunkSize chunkSize d1)) as [Hw Hs].
  assert (Hdb : m_db (addCurrentFolders env (set_chunkSize chunkSize d1)) = m_db d).
  { unfold m_db at 1. rewrite Hw. change (m_db d1 = m_db d). unfold d1. rewrite m_db_saved.
    unfold m_db. destruct (removeFromEmbeddings_spec R d) as (-> & _). reflexivity. }
  assert (Hemb : m_embeddings (addCurrentFolders env (set_chunkSize chunkSize d1)) =
                 m_embeddings d1).
  { unfold m_embeddings at 1. rewrite Hw. reflexivity. }
  rewrite Hdb, Hemb, Hs.
  split; [reflexivity|]. split; [|split; [exact Hc|split; [|auto]]].
  - apply no_member_nil. intros x Hx. apply Hd in Hx as [Hx Hout]. apply Hout.
    apply in_map. exact Hx.
  - intros c Hin Hdoc.
    assert (HinR : In (chunk_id c) R) by (apply HR; right; exists c; auto).
    destruct (removeFromEmbeddings_spec R d) as (_ & _ & Hl).
    assert (Hout : chunk_id c ∉ loaded (m_embeddings (removeFromEmbeddings R d)))
      by (rewrite Hl; tauto).
    unfold d1. destruct R; [destruct HinR|]. split; exact Hout.
Qed.

Lemma changeChunkSize_starts_over_witness :
  512 <> m_chunkSize scenario_db /\
  m_chunkSize (changeChunkSize unmodified_env 512 scenario_db) = 512 /\
  documents (m_db (changeChunkSize unmodified_env 512 scenario_db)) = [] /\
  chunks (m_db (changeChunkSize unmodified_env 512 scenario_db)) = [].
Proof.
  split; [discriminate|].
  destruct (changeChunkSize_starts_over unmodified_env 512 scenario_db) as (H1 & H2 & _);
    [discriminate|].
  split; [exact H1|]. split; [exact H2|]. vm_compute. reflexivity.
Defined.

(** ** Adding a folder to a collection *)

Lemma sort_rows_stable {A} (leb : A -> A -> bool) l :
  (forall a b, leb a b = true) -> sort_rows leb l = l.
Proof.
  intros H. unfold sort_rows. induction l as [|a l IH]; [reflexivity|].
  simpl. rewrite IH. destruct l; [reflexivity|]. simpl. rewrite H. reflexivity.
Qed.

(** [SELECT_COLLECTION_BY_NAME_SQL] gives the rows of the collections of
    that name, in the order of the table. *)
Lemma select_collection_by_name_rows name t :
  exec INIT_DB_SQL (SELECT_COLLECTION_BY_NAME_SQL name) t =
    map (fun c => [VInt (collection_id c); VText (collection_name c);
                   opt_int (last_update_time c); opt_text (embedding_model c)])
        (List.filter (fun c => String.eqb (collection_name c) name) (collections t)).
Proof.
  unfold exec. rewrite sort_rows_stable by reflexivity.
  change (table_rows (from (SELECT_COLLECTION_BY_NAME_SQL name)) t)
    with (map (fun c => [VInt (collection_id c); VText (collection_name c);
                         opt_int (last_update_time c); opt_text (embedding_model c)])
              (collections t)).
  simpl fold_left.
  set (rowOf := fun c => [VInt (collection_id c); VText (collection_name c);
                          opt_int (last_update_time c); opt_text (embedding_model c)]).
  set (F := fun r : JoinedRow =>
              forallb (fun cv : Column * list Value =>
                         existsb (value_eqb (lookup_column INIT_DB_SQL r (fst cv))) (snd cv))
                      (where_in (SELECT_COLLECTION_BY_NAME_SQL name))).
  set (G := fun r : JoinedRow =>
              map (lookup_column INIT_DB_SQL r) (selected (SELECT_COLLECTION_BY_NAME_SQL name))).
  assert (HF : forall c, F [("collections"%string, rowOf c)] =
                         String.eqb (collection_name c) name).
  { intros c. change (F [("collections"%string, rowOf c)])
      with ((String.eqb (collection_name c) name || false) && true).
    rewrite orb_false_r, andb_true_r. reflexivity. }
  assert (HG : forall c, G [("collections"%string, rowOf c)] = rowOf c) by reflexivity.
  clearbody F G.
  induction (collections t) as [|c l IH]; [reflexivity|].
  simpl. rewrite HF. destruct (String.eqb (collection_name c) name); [|exact IH].
  simpl. rewrite HG, IH. reflexivity.
Qed.

Lemma opt_text_toString o : toString (opt_text o) = o.
Proof. destruct o; reflexivity. Qed.

Lemma selectCollectionByName_found db name :
  selectCollectionByName db name =
    Some (option_map
            (fun c => mkCollectionItem (collection_id c) (collection_name c) EmptyString (-1)
                        (embedding_model c)
                        (match embedding_model c with None => true | Some _ => false end))
            (head (List.filter (fun c => String.eqb (collection_name c) name)
                               (collections (m_db db))))).
Proof.
  unfold selectCollectionByName.
  change (prepare INIT_DB_SQL (SELECT_COLLECTION_BY_NAME_SQL name)) with true. cbv iota.
  rewrite select_collection_by_name_rows. unfold sqlExtractCollections.
  destruct (List.filter _ (collections (m_db db))) as [|c l]; [reflexivity|].
  simpl. rewrite opt_text_toString. reflexivity.
Qed.

Lemma collection_id_of_filter name t :
  collection_id_of name t =
    option_map collection_id
      (head (List.filter (fun c => String.eqb (collection_name c) name) (collections t))).
Proof.
  unfold collection_id_of. induction (collections t) as [|c l IH]; [reflexivity|].
  rewrite filter_cons. simpl List.filter.
  destruct (decide (collection_name c = name)) as [E|E].
  - apply String.eqb_eq in E. rewrite E. reflexivity.
  - apply String.eqb_neq in E. rewrite E. exact IH.
Qed.

Lemma select_folder_after_insert p t :
  sql_select_folder p t = None ->
  sql_select_folder p (sql_insert_folder p t) = Some (next_folder_id t).
Proof.
  intros H. unfold sql_insert_folder. rewrite H. revert H.
  unfold sql_select_folder. simpl folders. generalize (next_folder_id t). intros n.
  induction (folders t) as [|x l IH].
  - intros _. simpl. rewrite filter_cons. simpl.
    destruct (decide (p = p)); [reflexivity | congruence].
  - rewrite filter_cons. simpl app. rewrite filter_cons.
    destruct (decide (folder_path x = p)); [discriminate | exact IH].
Qed.

Lemma collection_id_after_insert name model t :
  collection_id_of name t = None ->
  collection_id_of name (sql_insert_collection name None model t) =
    Some (next_collection_id t).
Proof.
  intros H. unfold sql_insert_collection. rewrite H. revert H.
  unfold collection_id_of. simpl collections. generalize (next_collection_id t). intros n.
  induction (collections t) as [|x l IH].
  - intros _. simpl. rewrite filter_cons. simpl.
    destruct (decide (name = name)); [reflexivity | congruence].
  - rewrite filter_cons. simpl app. rewrite filter_cons.
    destruct (decide (collection_name x = name)); [discriminate | exact IH].
Qed.

Lemma has_collection_item_after_insert cid f t :
  has_collection_item cid f (sql_insert_collection_item cid f t) = true.
Proof.
  unfold sql_insert_collection_item.
  destruct (has_collection_item cid f t) eqn:E; [exact E|].
  unfold has_collection_item. simpl. rewrite existsb_app. simpl.
  rewrite !Z.eqb_refl. simpl. apply orb_true_r.
Qed.

(** X19. A folder that was added is linked.  When [addFolder]
    succeeds, the directory is there, the folder of that path is in the
    table of folders, the collection of that name is in the table of
    collections, and the two are linked, whether they were there before
    or not; the documents and the chunks are as they were. *)
Theorem addFolder_links (env : Environment) (collection path : string)
    (model : option string) (db : Database)
    (Hok : fst (addFolder env collection path model db) = true) :
  let db' := snd (addFolder env collection path model db) in
  directories env path <> None /\ linked collection path (m_db db') /\
  chunks (m_db db') = chunks (m_db db) /\ documents (m_db db') = documents (m_db db).
Proof.
  cbv zeta. revert Hok. unfold addFolder, checkAndAddFolderToDB.
  destruct (directories env path) as [found|] eqn:Edir; [|simpl; discriminate].
  assert (H1 : exists f d1,
    match sql_select_folder path (m_db db) with
    | Some folder_id => (folder_id, db)
    | None => addFolderToDB path db
    end = (f, d1) /\
    sql_select_folder path (m_db d1) = Some f /\
    chunks (m_db d1) = chunks (m_db db) /\ documents (m_db d1) = documents (m_db db)).
  { destruct (sql_select_folder path (m_db db)) as [f|] eqn:Ef.
    - exists f, db. auto.
    - exists (next_folder_id (m_db db)), (perform (SqlInsertFolder path) db).
      split; [reflexivity|]. split; [apply select_folder_after_insert; exact Ef|].
      unfold m_db. simpl. unfold sql_insert_folder. fold (m_db db). rewrite Ef. auto. }
  destruct H1 as (f & d1 & -> & Hf & Hc1 & Hd1).
  destruct (f =? -1) eqn:Eneg; [simpl; discriminate|]. apply Z.eqb_neq in Eneg.
  rewrite selectCollectionByName_found.
  pose proof (collection_id_of_filter collection (m_db d1)) as Hcid.
  assert (H2 : exists cid em d2,
    match option_map
            (fun c => mkCollectionItem (collection_id c) (collection_name c) EmptyString (-1)
                        (embedding_model c)
                        (match embedding_model c with None => true | Some _ => false end))
            (head (List.filter (fun c => String.eqb (collection_name c) collection)
                               (collections (m_db d1)))) with
    | Some found0 => (ci_collection_id found0, ci_embeddingModel found0, d1)
    | None => let '(id, db0) := addCollection collection model d1 in (id, model, db0)
    end = (cid, em, d2) /\
    collection_id_of collection (m_db d2) = Some cid /\
    folders (m_db d2) = folders (m_db d1) /\
    chunks (m_db d2) = chunks (m_db d1) /\ documents (m_db d2) = documents (m_db d1)).
  { destruct (head _) as [c|].
    - exists (collection_id c), (embedding_model c), d1. simpl. auto.
    - exists (next_collection_id (m_db d1)), model,
             (perform (SqlInsertCollection collection model) d1).
      split; [reflexivity|]. simpl in Hcid.
      split; [apply collection_id_after_insert; exact Hcid|].
      unfold m_db. simpl. unfold sql_insert_collection. fold (m_db d1). rewrite Hcid. auto. }
  destruct H2 as (cid & em & d2 & -> & Hcol & Hf2 & Hc2 & Hd2).
  unfold addCollectionItem.
  set (d3 := perform (SqlInsertCollectionItem cid f) d2).
  assert (H3 : linked collection path (m_db d3) /\
               chunks (m_db d3) = chunks (m_db db) /\ documents (m_db d3) = documents (m_db db)).
  { assert (E3 : m_db d3 = sql_insert_collection_item cid f (m_db d2)) by reflexivity.
    split; [exists f, cid; split; [exact Eneg|]|].
    - rewrite E3. split; [|split; [|apply has_collection_item_after_insert]].
      + unfold sql_select_folder in *. unfold sql_insert_collection_item.
        destruct (has_collection_item cid f (m_db d2)); simpl; rewrite Hf2; exact Hf.
      + unfold collection_id_of in *. unfold sql_insert_collection_item.
        destruct (has_collection_item cid f (m_db d2)); exact Hcol.
    - rewrite E3. unfold sql_insert_collection_item.
      destruct (has_collection_item cid f (m_db d2)); simpl; rewrite Hc2, Hd2, Hc1, Hd1; auto. }
  intros _. split; [discriminate|].
  assert (Hscan : m_db (scanDocuments env f path d3) = m_db d3).
  { unfold m_db. destruct (scanDocuments_world env f path d3) as [-> _]. reflexivity. }
  destruct (_ =? 1); [destruct em|]; simpl snd; rewrite ?Hscan; exact H3.
Qed.

Lemma addFolder_links_witness :
  fst (addFolder work_env "Notes" "/work" (Some "model"%string) scenario_db) = true /\
  linked "Notes" "/work"
    (m_db (snd (addFolder work_env "Notes" "/work" (Some "model"%string) scenario_db))).
Proof.
  split; [vm_compute; reflexivity|].
  apply (addFolder_links work_env "Notes" "/work" (Some "model"%string) scenario_db).
  vm_compute. reflexivity.
Defined.

(** X20. Adding a folder again changes nothing.  When the directory is
    there and the folder is already linked to the collection,
    [addFolder] succeeds, leaves every table, the index, the queue and
    the pending chunks as they are, and does not scan the folder again,
    whatever the embedding model it is given. *)
Theorem addFolder_again (env : Environment) (collection path : string)
    (embedding_model : option string) (db : Database)
    (Hdir : directories env path <> None)
    (Hlinked : linked collection path (m_db db)) :
  let result := addFolder env collection path embedding_model db in
  fst result = true /\
  m_db (snd result) = m_db db /\ m_embeddings (snd result) = m_embeddings db /\
  m_docsToScan (snd result) = m_docsToScan db /\ m_chunkList (snd result) = m_chunkList db /\
  batches (journal (snd result)) = batches (journal db).
Proof.
  cbv zeta. destruct Hlinked as (f & cid & Hneg & Hf & Hcid & Hitem).
  unfold addFolder, checkAndAddFolderToDB.
  destruct (directories env path); [|congruence]. rewrite Hf.
  apply Z.eqb_neq in Hneg. rewrite Hneg.
  rewrite selectCollectionByName_found.
  rewrite collection_id_of_filter in Hcid.
  destruct (head _) as [c|]; [|discriminate]. simpl in Hcid. injection Hcid as Hcid.
  simpl option_map. cbv iota. simpl ci_collection_id. rewrite Hcid.
  unfold addCollectionItem. rewrite Hitem. simpl.
  unfold m_db, m_embeddings. simpl. fold (m_db db). unfold sql_insert_collection_item.
  rewrite Hitem. rewrite batches_app. simpl. rewrite app_nil_r.
  destruct (m_world db) as [[t s] i]. repeat split.
Qed.

Lemma addFolder_again_witness :
  directories work_env "/work" <> None /\ linked "Work" "/work" (m_db scenario_db) /\
  fst (addFolder work_env "Work" "/work" None scenario_db) = true /\
  m_db (snd (addFolder work_env "Work" "/work" None scenario_db)) = m_db scenario_db.
Proof.
  assert (Hdir : directories work_env "/work" <> None) by discriminate.
  assert (Hlinked : linked "Work" "/work" (m_db scenario_db)).
  { exists 1, 1. repeat split. discriminate. }
  split; [exact Hdir|]. split; [exact Hlinked|].
  destruct (addFolder_again work_env "Work" "/work" None scenario_db Hdir Hlinked)
    as (H1 & H2 & _).
  split; [exact H1 | exact H2].
Defined.

(** ** Removing a folder that the collection does not have *)

(** X21. [removeFolder] undoes what it began when the collection does
    not have the folder.  When the path is the path of no folder, or of
    a folder that is not linked to the collection, then, no transaction
    being open, the tables, the index, the queue and the pending chunks
    are afterwards as they were. *)
Theorem removeFolder_of_stranger (collection path : string) (db : Database)
    (Hclosed : snapshot (sql (m_world db)) = None)
    (Hstranger : match sql_select_folder path (m_db db) with
                 | Some f => deleted_collection_folder collection f (m_db db) = []
                 | None => True
                 end) :
  let db' := removeFolder collection path db in
  m_world db' = m_world db /\ m_docsToScan db' = m_docsToScan db /\
  m_chunkList db' = m_chunkList db.
Proof.
  cbv zeta. unfold removeFolder.
  destruct (sql_select_folder path (m_db db)) as [f|]; [|repeat split].
  unfold removeFolderInternal, removeCollectionFolder.
  rewrite m_db_transaction, Hstranger. simpl.
  unfold transaction, perform. simpl. rewrite Hclosed. simpl.
  destruct (m_world db) as [[t s] i]. simpl in *. subst s. repeat split.
Qed.

Lemma removeFolder_of_stranger_witness :
  snapshot (sql (m_world scenario_db)) = None /\
  deleted_collection_folder "Personal" 1 (m_db scenario_db) = [] /\
  m_world (removeFolder "Personal" "/work" scenario_db) = m_world scenario_db.
Proof.
  split; [reflexivity|]. split; [reflexivity|].
  apply (removeFolder_of_stranger "Personal" "/work" scenario_db); reflexivity.
Defined.

(** ** The files that a folder scan queues *)

Lemma filter_new_documents f k l :
  List.filter (fun i => folder i =? k) (map (newDocumentInfo f) l) =
    if k =? f then map (newDocumentInfo f) l else [].
Proof.
  rewrite (Z.eqb_sym k f). induction l as [|p l IH]; simpl.
  - destruct (f =? k); reflexivity.
  - rewrite IH. destruct (f =? k); reflexivity.
Qed.

(** X13. [scanDocuments] queues the files of the folder that have a
    scanned extension, and only those: the queue of the folder is what it
    was, followed by these files in the order they are found, each at its
    beginning; the queues of the other folders, the tables and the index
    are as they were.  A directory that is not there has no file. *)
Theorem scanDocuments_enqueues (env : Environment) (folder_id : Z) (folder_path : string)
    (db : Database) (k : Z) (Hok : queue_ok (m_docsToScan db)) :
  let found := match directories env folder_path with Some l => l | None => [] end in
  let db' := scanDocuments env folder_id folder_path db in
  queue_value k (m_docsToScan db') =
    queue_value k (m_docsToScan db) ++
    (if k =? folder_id
     then map (newDocumentInfo folder_id) (List.filter (scannedExtension db) found)
     else []) /\
  queue_ok (m_docsToScan db') /\ m_world db' = m_world db.
Proof.
  cbv zeta. split; [|split; [|apply scanDocuments_world]].
  - unfold scanDocuments. rewrite <- filter_new_documents.
    destruct (map _ _) as [|i infos] eqn:E.
    + simpl. rewrite app_nil_r. reflexivity.
    + apply enqueueDocuments_value. exact Hok.
  - unfold scanDocuments. destruct (map _ _) as [|i infos]; [exact Hok|].
    apply (enqueueDocuments_value (i :: infos) db 0 Hok).
Qed.

Lemma scanDocuments_enqueues_witness :
  queue_ok (m_docsToScan rescan_db) /\
  queue_value 1 (m_docsToScan (scanDocuments work_env 1 "/work" rescan_db)) =
    [notes_info; newDocumentInfo 1 "/work/notes.txt"].
Proof.
  assert (Hok : queue_ok (m_docsToScan rescan_db)).
  { simpl. split; [discriminate|]. split; [constructor | exact I]. }
  split; [exact Hok|].
  destruct (scanDocuments_enqueues work_env 1 "/work" rescan_db 1 Hok) as [H _].
  rewrite H. reflexivity.
Defined.

(** ** The change of the scanned extensions *)

Lemma removeFromEmbeddings_extensions R db :
  m_scannedFileExtensions (removeFromEmbeddings R db) = m_scannedFileExtensions db.
Proof.
  revert db. induction R as [|c R IH]; intros db; [reflexivity|].
  simpl. rewrite IH. reflexivity.
Qed.

Lemma cleanDB_extensions env db :
  m_scannedFileExtensions (snd (cleanDB env db)) = m_scannedFileExtensions db.
Proof.
  unfold cleanDB. destruct (selectAllFromCollections db) as [cs|]; [|reflexivity].
  pose proof (cleanAll_inv (fun d _ => m_scannedFileExtensions d = m_scannedFileExtensions db)
                (fun d R e _ H => H) (fun d R x H => H) (fun d R q H => H)
                env cs (transaction db) eq_refl) as H.
  destruct (cleanAll env cs (transaction db)) as [[ok d] R]. simpl in H.
  destruct ok; simpl; [|exact H].
  destruct R; simpl; rewrite ?removeFromEmbeddings_extensions; exact H.
Qed.

Lemma scanFolders_world env (cs : list CollectionItem) db :
  let db' := fold_left
               (fun db i =>
                  if ci_forceIndexing i then db
                  else scanDocuments env (ci_folder_id i) (ci_folder_path i) db) cs db in
  m_world db' = m_world db /\ m_scannedFileExtensions db' = m_scannedFileExtensions db.
Proof.
  cbv zeta. revert db. induction cs as [|i cs IH]; intros db; [split; reflexivity|].
  simpl. destruct (ci_forceIndexing i); [apply IH|].
  destruct (IH (scanDocuments env (ci_folder_id i) (ci_folder_path i) db)) as [-> ->].
  destruct (scanDocuments_world env (ci_folder_id i) (ci_folder_path i) db) as [-> _].
  split; [reflexivity|]. unfold scanDocuments.
  destruct (map _ _) as [|x infos]; [reflexivity|].
  unfold enqueueDocuments. generalize (x :: infos). intros l. revert db. clear.
  induction l as [|y l IH]; intros db; [reflexivity|]. simpl. rewrite IH. reflexivity.
Qed.

(** X26. After a change of the scanned extensions no other file is
    left.  When the [cleanDB] of [changeFileExtensions] succeeds, the new
    extensions are set, and every document left in the table was there
    before, has one of the new extensions, and its file exists and is
    readable. *)
Theorem changeFileExtensions_drops_other_files (env : Environment) (extensions : list string)
    (db : Database)
    (Hok : fst (cleanDB env (set_scannedFileExtensions extensions db)) = true) :
  let db' := changeFileExtensions env extensions db in
  m_scannedFileExtensions db' = extensions /\
  forall x, In x (documents (m_db db')) ->
    In x (documents (m_db db)) /\
    existsb (String.eqb (suffix (document_path x))) extensions = true /\
    exists entry, files env (document_path x) = Some entry /\ readable entry = true.
Proof.
  cbv zeta. unfold changeFileExtensions.
  set (db0 := set_scannedFileExtensions extensions db) in *.
  assert (Hx : m_scannedFileExtensions (snd (cleanDB env db0)) = extensions)
    by (rewrite cleanDB_extensions; reflexivity).
  assert (Hfinal : m_db (match selectAllFromCollections (snd (cleanDB env db0)) with
                         | Some collections =>
                             fold_left
                               (fun db i =>
                                  if ci_forceIndexing i then db
                                  else scanDocuments env (ci_folder_id i) (ci_folder_path i) db)
                               collections (snd (cleanDB env db0))
                         | None => snd (cleanDB env db0)
                         end) = m_db (snd (cleanDB env db0)) /\
                   m_scannedFileExtensions
                        (match selectAllFromCollections (snd (cleanDB env db0)) with
                         | Some collections =>
                             fold_left
                               (fun db i =>
                                  if ci_forceIndexing i then db
                                  else scanDocuments env (ci_folder_id i) (ci_folder_path i) db)
                               collections (snd (cleanDB env db0))
                         | None => snd (cleanDB env db0)
                         end) = extensions).
  { destruct (selectAllFromCollections (snd (cleanDB env db0))) as [cs|]; [|auto].
    destruct (scanFolders_world env cs (snd (cleanDB env db0))) as [Hw He].
    unfold m_db. rewrite Hw, He. auto. }
  destruct Hfinal as [-> ->]. split; [reflexivity|].
  destruct (selectAllFromCollections db0) as [cs|] eqn:Ecs;
    [|unfold cleanDB in Hok; rewrite Ecs in Hok; discriminate].
  destruct (cleanDB_cleaned env db0 cs Ecs Hok)
    as (ids & d & R & (_ & Hd & _) & Hkeep & -> & _).
  intros x Hin. pose proof (Hkeep x Hin) as Hk. apply Hd in Hin as [Hin _].
  split; [exact Hin|]. unfold keepsDocument in Hk.
  destruct (files env (document_path x)) as [entry|]; [|discriminate].
  apply andb_prop in Hk as [Hr He]. split; [exact He|]. exists entry. auto.
Qed.

Lemma changeFileExtensions_drops_other_files_witness :
  fst (cleanDB work_env (set_scannedFileExtensions ["md"%string] scenario_db)) = true /\
  m_scannedFileExtensions (changeFileExtensions work_env ["md"%string] scenario_db) =
    ["md"%string] /\
  documents (m_db (changeFileExtensions work_env ["md"%string] scenario_db)) = [].
Proof.
  split; [vm_compute; reflexivity|].
  destruct (changeFileExtensions_drops_other_files work_env ["md"%string] scenario_db)
    as [H _]; [vm_compute; reflexivity|].
  split; [exact H | vm_compute; reflexivity].
Defined.

(** ** What every handler keeps

    The handlers change the database object by effects, by changes of
    the pending chunks, by the three operations of the queue and by the
    two settings; a property that these keep is kept by every handler. *)

Section Keeps.
Variable J : Database -> Prop.
Hypothesis J_perform : forall e db, J db -> J (perform e db).
Hypothesis J_chunkList : forall l db, J db -> J (set_chunkList l db).
Hypothesis J_enqueue : forall info prepend db, J db -> J (enqueueDocumentInternal info prepend db).
Hypothesis J_dequeue : forall db info db', J db -> dequeueDocument db = Some (info, db') -> J db'.
Hypothesis J_remove : forall f db, J db -> J (removeFolderFromDocumentQueue f db).
Hypothesis J_chunkSize : forall n db, J db -> J (set_chunkSize n db).
Hypothesis J_extensions : forall l db, J db -> J (set_scannedFileExtensions l db).

Lemma keeps_sendChunkList db : J db -> J (sendChunkList db).
Proof. intros H. unfold sendChunkList. apply J_chunkList, J_perform, H. Qed.

Lemma keeps_appendChunk c db : J db -> J (appendChunk c db).
Proof.
  intros H. unfold appendChunk. cbv zeta.
  destruct (s_batchSize <=? _); [apply keeps_sendChunkList|]; apply J_chunkList, H.
Qed.

Lemma keeps_scheduleNext f n db : J db -> J (scheduleNext f n db).
Proof.
  intros H. unfold scheduleNext. destruct (n =? 0); [|exact H].
  destruct (m_chunkList db); [exact H | apply keeps_sendChunkList, H].
Qed.

Lemma keeps_chunkStream stream f d file title author subject keywords page cap db :
  J db -> J (snd (chunkStream stream f d file title author subject keywords page cap db)).
Proof.
  intros H. apply (chunkStream_inv (fun db _ => J db)) with (R := []).
  - intros db' _ e _. apply J_perform.
  - intros db' _ c. apply keeps_appendChunk.
  - exact H.
Qed.

Lemma keeps_scanPdf info entry pdf d n db : J db -> J (scanPdf info entry pdf d n db).
Proof.
  intros H. unfold scanPdf.
  match goal with |- context [chunkStream ?s ?f ?d ?fi ?t ?a ?su ?k ?p ?c ?x] =>
    pose proof (keeps_chunkStream s f d fi t a su k p c x H) as Hs;
    destruct (chunkStream s f d fi t a su k p c x) as [pos db2] end.
  simpl in Hs. destruct (_ <? _); apply keeps_scheduleNext; [apply J_enqueue|]; exact Hs.
Qed.

Lemma keeps_scanText env info entry f existing d n db R :
  J db -> J (fst (scanText env info entry f existing d n db R)).
Proof.
  intros H. unfold scanText.
  destruct (openStream (blockSize env) f (currentPosition info)) as [stream seen].
  match goal with |- context [chunkStream ?s ?f ?d ?fi ?t ?a ?su ?k ?p ?c ?x] =>
    pose proof (keeps_chunkStream s f d fi t a su k p c x H) as Hs;
    destruct (chunkStream s f d fi t a su k p c x) as [pos db2] end.
  simpl in Hs. destruct (pos <? 0).
  - destruct (negb seen); simpl fst; apply keeps_scheduleNext; [|apply J_perform]; exact Hs.
  - destruct (_ <? _); simpl fst; apply keeps_scheduleNext; [apply J_enqueue|]; exact Hs.
Qed.

Lemma keeps_scanQueue env db R : J db -> J (fst (scanQueue env db R)).
Proof.
  intros H. unfold scanQueue.
  destruct (dequeueDocument db) as [[info db1]|] eqn:Edq; [|exact H].
  pose proof (J_dequeue _ _ _ H Edq) as H1.
  destruct (files env (doc info)) as [entry|]; [|apply keeps_scheduleNext; exact H1].
  destruct (negb (readable entry)); [apply keeps_scheduleNext; exact H1|].
  destruct (selectDocument db1 (doc info)) as [existing_id existing_time].
  destruct (negb (existing_id =? -1) && negb (currentlyProcessing info)).
  - destruct (mtime entry =? existing_time); simpl andb; cbv iota;
      [apply keeps_scheduleNext; exact H1|].
    assert (H2 : J (removeChunksByDocumentId existing_id db1)) by (apply J_perform, H1).
    destruct (if currentlyProcessing info then _ else _) as [[id db2]|] eqn:Ereg.
    + assert (H3 : J db2).
      { destruct (currentlyProcessing info); [injection Ereg as _ <-; exact H2|].
        destruct (negb (existing_id =? -1)); [injection Ereg as _ <-; apply J_perform, H2|].
        unfold addDocument in Ereg. destruct (sql_select_document _ _); [discriminate|].
        injection Ereg as _ <-. apply J_perform, H2. }
      destruct (kind entry) as [f|[pdf|]]; simpl fst.
      * apply keeps_scanText, H3.
      * apply keeps_scanPdf, H3.
      * apply keeps_scheduleNext, H3.
    + apply keeps_scheduleNext, H2.
  - simpl andb. cbv iota.
    destruct (if currentlyProcessing info then _ else _) as [[id db2]|] eqn:Ereg.
    + assert (H3 : J db2).
      { destruct (currentlyProcessing info); [injection Ereg as _ <-; exact H1|].
        destruct (negb (existing_id =? -1)); [injection Ereg as _ <-; apply J_perform, H1|].
        unfold addDocument in Ereg. destruct (sql_select_document _ _); [discriminate|].
        injection Ereg as _ <-. apply J_perform, H1. }
      destruct (kind entry) as [f|[pdf|]]; simpl fst.
      * apply keeps_scanText, H3.
      * apply keeps_scanPdf, H3.
      * apply keeps_scheduleNext, H3.
    + apply keeps_scheduleNext, H1.
Qed.

Lemma keeps_scanWhile env turns db R : J db -> J (fst (scanWhile env turns db R)).
Proof.
  revert db R. induction turns as [|turns IH]; intros db R H; [exact H|].
  simpl. destruct (m_docsToScan db); [exact H|].
  pose proof (keeps_scanQueue env db R H) as H1.
  destruct (scanQueue env db R) as [db1 R1]. apply IH. exact H1.
Qed.

Lemma keeps_removeFromEmbeddings R db : J db -> J (removeFromEmbeddings R db).
Proof.
  revert db. induction R as [|c R IH]; intros db H; [exact H|].
  simpl. apply IH, J_perform, H.
Qed.

Lemma keeps_saveEmbeddingsIf R db : J db -> J (saveEmbeddingsIf R db).
Proof. intros H. destruct R; [exact H | apply J_perform, H]. Qed.

Lemma keeps_scanQueueBatch env turns db : J db -> J (scanQueueBatch env turns db).
Proof.
  intros H. unfold scanQueueBatch.
  pose proof (keeps_scanWhile env turns (transaction db) [] (J_perform _ _ H)) as H1.
  destruct (scanWhile env turns (transaction db) []) as [db1 R]. simpl in H1.
  apply keeps_saveEmbeddingsIf, J_perform, keeps_removeFromEmbeddings, H1.
Qed.

Lemma keeps_handleEmbeddingsGenerated accepts embeddings db :
  J db -> J (handleEmbeddingsGenerated accepts embeddings db).
Proof.
  intros H. unfold handleEmbeddingsGenerated.
  assert (H1 : J (fst (addEmbeddings accepts embeddings db))).
  { unfold addEmbeddings.
    assert (G : forall acc db1, J db1 ->
      J (fst (fold_left
        (fun '(db, chunksToAdd) e =>
           match selectFileForChunk db (er_chunk_id e) with
           | None => (db, chunksToAdd)
           | Some _ =>
               if accepts e
               then (perform (EmbeddingsAdd (er_chunk_id e)) db,
                     chunksToAdd ++ [er_chunk_id e])
               else (db, chunksToAdd)
           end) embeddings (db1, acc)))).
    { induction embeddings as [|e es IH]; intros acc db1 H1; [exact H1|].
      simpl. destruct (selectFileForChunk db1 (er_chunk_id e)); [|apply IH, H1].
      destruct (accepts e); [apply IH, J_perform, H1 | apply IH, H1]. }
    apply G, H. }
  destruct (addEmbeddings accepts embeddings db) as [db1 A]. simpl in H1.
  destruct A as [|a A]; [exact H1|].
  apply J_perform.
  generalize (a :: A). intros l.
  assert (H2 : J (transaction (perform EmbeddingsSave db1))) by (apply J_perform, J_perform, H1).
  revert H2. generalize (transaction (perform EmbeddingsSave db1)).
  induction l as [|x l IH]; intros d Hd; [exact Hd|].
  simpl. apply IH, J_perform, Hd.
Qed.

Lemma keeps_scheduleUncompletedEmbeddings f db :
  J db -> J (scheduleUncompletedEmbeddings f db).
Proof.
  intros H. unfold scheduleUncompletedEmbeddings.
  generalize (selectAllUncompletedChunks db f). intros l.
  generalize (length l), 0. intros fuel. revert db H.
  induction fuel as [|fuel IH]; intros db H i; [exact H|].
  simpl. destruct (i <? _); [apply IH, J_perform, H | exact H].
Qed.

Lemma keeps_enqueueDocuments infos db : J db -> J (enqueueDocuments infos db).
Proof.
  unfold enqueueDocuments. revert db. induction infos as [|i infos IH]; intros db H; [exact H|].
  simpl. apply IH, J_enqueue, H.
Qed.

Lemma keeps_removeDocuments ids db R :
  J db -> J (fst (fold_left (fun st d => removeDocumentAndChunks d st) ids (db, R))).
Proof.
  intros H. apply (removeDocuments_inv (fun db _ => J db)).
  - intros d _ e _. apply J_perform.
  - intros d _ x. apply J_perform.
  - exact H.
Qed.

Lemma keeps_removeFolderInternal collection f db R :
  J db -> J (snd (fst (removeFolderInternal collection f db R))).
Proof.
  intros H. unfold removeFolderInternal, removeCollectionFolder.
  set (db1 := perform (SqlDeleteCollectionFolder collection f) db).
  assert (H1 : J db1) by (apply J_perform, H).
  destruct (deleted_collection_folder collection f (m_db db)); simpl; [exact H1|].
  destruct (count_folder_references f (m_db db1) =? -1); simpl; [exact H1|].
  assert (H2 : J (perform SqlPruneCollections db1)) by (apply J_perform, H1).
  destruct (count_folder_references f (m_db db1) =? 0); simpl; [|exact H2].
  match goal with
  | |- context [fold_left ?g ?ids (?d, R)] =>
      pose proof (keeps_removeDocuments ids d R (J_remove _ _ H2)) as H3;
      destruct (fold_left g ids (d, R)) as [db3 R3]
  end.
  simpl in *. apply J_perform, H3.
Qed.

Lemma keeps_removeFolder collection path db : J db -> J (removeFolder collection path db).
Proof.
  intros H. unfold removeFolder. destruct (sql_select_folder path (m_db db)) as [f|]; [|exact H].
  pose proof (keeps_removeFolderInternal collection f (transaction db) [] (J_perform _ _ H))
    as H1.
  destruct (removeFolderInternal collection f (transaction db) []) as [[ok d] R]. simpl in H1.
  destruct ok; [|apply J_perform, H1].
  apply keeps_saveEmbeddingsIf, J_perform, keeps_removeFromEmbeddings, H1.
Qed.

Lemma keeps_cleanFolders env cs db R : J db -> J (snd (fst (cleanFolders env cs db R))).
Proof.
  revert db R. induction cs as [|i cs IH]; intros db R H; [exact H|].
  simpl. destruct (directories env (ci_folder_path i)); [apply IH; exact H|].
  pose proof (keeps_removeFolderInternal (ci_collection i) (ci_folder_id i) db R H) as H1.
  destruct (removeFolderInternal (ci_collection i) (ci_folder_id i) db R) as [[ok d] R'].
  simpl in H1. destruct ok; [apply IH; exact H1 | exact H1].
Qed.

Lemma keeps_cleanDB env db : J db -> J (snd (cleanDB env db)).
Proof.
  intros H. unfold cleanDB. destruct (selectAllFromCollections db) as [cs|]; [|exact H].
  unfold cleanAll.
  pose proof (keeps_cleanFolders env cs (transaction db) [] (J_perform _ _ H)) as H1.
  destruct (cleanFolders env cs (transaction db) []) as [[ok d] R]. simpl in H1.
  destruct ok; [|apply J_perform, H1].
  assert (H2 : J (fst (cleanDocuments env (sql_select_all_documents (m_db d)) (d, R)))).
  { apply (cleanDocuments_inv (fun db _ => J db)).
    - intros d' _ e _. apply J_perform.
    - intros d' _ x. apply J_perform.
    - exact H1. }
  destruct (cleanDocuments env (sql_select_all_documents (m_db d)) (d, R)) as [d2 R2].
  simpl in H2 |- *. apply keeps_saveEmbeddingsIf, J_perform, keeps_removeFromEmbeddings, H2.
Qed.

Lemma keeps_scanDocuments env f p db : J db -> J (scanDocuments env f p db).
Proof.
  intros H. unfold scanDocuments. destruct (map _ _); [exact H|].
  apply keeps_enqueueDocuments, H.
Qed.

Lemma keeps_addCurrentFolders env db : J db -> J (addCurrentFolders env db).
Proof.
  intros H. unfold addCurrentFolders.
  destruct (selectAllFromCollections db) as [cs|]; [|exact H].
  revert db H. induction cs as [|i cs IH]; intros db H; [exact H|].
  simpl. destruct (ci_forceIndexing i); [apply IH, H|].
  apply IH, keeps_scanDocuments, keeps_scheduleUncompletedEmbeddings, H.
Qed.

Lemma keeps_addFolder env collection path model db :
  J db -> J (snd (addFolder env collection path model db)).
Proof.
  intros H. unfold addFolder.
  assert (H1 : J (snd (checkAndAddFolderToDB env path db))).
  { unfold checkAndAddFolderToDB. destruct (directories env path); [|exact H].
    destruct (sql_select_folder path (m_db db)); [exact H | apply J_perform, H]. }
  destruct (checkAndAddFolderToDB env path db) as [f d1]. simpl in H1.
  destruct (f =? -1); [exact H1|].
  destruct (selectCollectionByName d1 collection) as [item|]; [|exact H1].
  assert (H2 : J (snd match item with
                      | Some found => (ci_collection_id found, ci_embeddingModel found, d1)
                      | None =>
                          let '(id, db0) := addCollection collection model d1 in
                          (id, model, db0)
                      end)).
  { destruct item; [exact H1 | apply J_perform, H1]. }
  destruct (match item with Some _ => _ | None => _ end) as [[cid em] d2]. simpl in H2.
  unfold addCollectionItem.
  destruct (_ =? 1); [destruct em|]; simpl snd;
    [apply keeps_scanDocuments| |]; apply J_perform, H2.
Qed.

Lemma keeps_scanFolders {A} env (folder_of : A -> Z) (path_of : A -> string)
    (skip : A -> bool) (l : list A) db :
  J db ->
  J (fold_left (fun db i => if skip i then db
                            else scanDocuments env (folder_of i) (path_of i) db) l db).
Proof.
  revert db. induction l as [|i l IH]; intros db H; [exact H|].
  simpl. destruct (skip i); [apply IH, H | apply IH, keeps_scanDocuments, H].
Qed.

Lemma keeps_forceIndexing env collection model db :
  J db -> J (forceIndexing env collection model db).
Proof.
  intros H. unfold forceIndexing.
  destruct (selectFoldersFromCollection db collection) as [fs|]; [|exact H].
  apply (keeps_scanFolders env fst snd (fun _ => false)). apply J_perform, H.
Qed.

Lemma keeps_changeChunkSize env n db : J db -> J (changeChunkSize env n db).
Proof.
  intros H. unfold changeChunkSize. destruct (n =? m_chunkSize db); [exact H|].
  unfold removeAll.
  pose proof (keeps_removeDocuments (map document_id (sql_select_all_documents (m_db db)))
                (transaction db) [] (J_perform _ _ H)) as H1.
  destruct (fold_left _ _ (transaction db, [])) as [d R]. simpl in H1.
  apply keeps_addCurrentFolders, J_chunkSize, keeps_saveEmbeddingsIf, J_perform,
    keeps_removeFromEmbeddings, H1.
Qed.

Lemma keeps_changeFileExtensions env l db : J db -> J (changeFileExtensions env l db).
Proof.
  intros H. unfold changeFileExtensions.
  assert (H1 : J (snd (cleanDB env (set_scannedFileExtensions l db))))
    by (apply keeps_cleanDB, J_extensions, H).
  destruct (selectAllFromCollections _) as [cs|]; [|exact H1].
  apply (keeps_scanFolders env ci_folder_id ci_folder_path ci_forceIndexing). exact H1.
Qed.

Lemma keeps_directoryChanged env path db : J db -> J (directoryChanged env path db).
Proof.
  intros H. unfold directoryChanged.
  destruct (watchedFolder env (m_db db) path (ancestors path)) as [f|]; [|exact H].
  destruct (f =? -1); [|apply keeps_scanDocuments]; apply keeps_cleanDB, H.
Qed.

Lemma keeps_handle h db : J db -> J (handle h db).
Proof.
  intros H. destruct h; simpl.
  - apply keeps_scanQueueBatch, H.
  - apply keeps_handleEmbeddingsGenerated, H.
  - apply keeps_scheduleUncompletedEmbeddings, H.
  - apply keeps_enqueueDocuments, H.
  - apply keeps_removeFolder, H.
  - apply keeps_addCurrentFolders, keeps_cleanDB, H.
  - apply keeps_addFolder, H.
  - apply keeps_forceIndexing, H.
  - apply keeps_cleanDB, H.
  - apply keeps_changeChunkSize, H.
  - apply keeps_changeFileExtensions, H.
  - apply keeps_directoryChanged, H.
Qed.
End Keeps.

(** ** The queue stays a map *)

Lemma dequeueDocument_ok db info db' :
  queue_ok (m_docsToScan db) -> dequeueDocument db = Some (info, db') ->
  queue_ok (m_docsToScan db').
Proof.
  unfold dequeueDocument.
  destruct (m_docsToScan db) as [|[k [|i q]] rest]; try discriminate.
  intros (_ & Hab & Hrest) [= _ <-]. simpl.
  destruct q; [exact Hrest|]. simpl. split; [discriminate|]. split; assumption.
Qed.

Lemma queue_ok_handle h db :
  queue_ok (m_docsToScan db) -> queue_ok (m_docsToScan (handle h db)).
Proof.
  apply (keeps_handle (fun db => queue_ok (m_docsToScan db))).
  - intros e d H. exact H.
  - intros l d H. exact H.
  - intros info prepend d. apply enqueueDocumentInternal_ok.
  - intros d info d'. apply dequeueDocument_ok.
  - intros f d. apply queue_filter_ok.
  - intros n d H. exact H.
  - intros l d H. exact H.
Qed.

(** X14. The queue of documents stays a map without empty entries.
    Whatever handlers run, to their end or until a crash, if the keys of
    the queue were in increasing order, each once and with a queue that
    is not empty, they still are. *)
Theorem queue_stays_well_formed (history : list Event) (db : Database)
    (Hok : queue_ok (m_docsToScan db)) :
  queue_ok (m_docsToScan (after history db)).
Proof.
  unfold after. revert db Hok. induction history as [|ev history IH]; intros db Hok; [exact Hok|].
  simpl. apply IH. destruct ev as [h|h n]; simpl; [apply queue_ok_handle; exact Hok | exact I].
Qed.

Lemma queue_stays_well_formed_witness :
  queue_ok (m_docsToScan rescan_db) /\
  queue_ok (m_docsToScan
    (after [Run (EnqueueDocuments [newDocumentInfo 2 "/personal/notes.txt"]);
            Run (ScanQueueBatch modified_env 1);
            Run (RemoveFolder "Personal" "/personal")] rescan_db)).
Proof.
  assert (Hok : queue_ok (m_docsToScan rescan_db)).
  { simpl. split; [discriminate|]. split; [constructor | exact I]. }
  split; [exact Hok|]. apply queue_stays_well_formed. exact Hok.
Defined.

(** ** The keys of the documents *)

Lemma distinct_positive_same t t' :
  documents t' = documents t -> distinct_positive t -> distinct_positive t'.
Proof. unfold distinct_positive. intros ->. auto. Qed.

Lemma distinct_positive_insert f time p t :
  distinct_positive t -> distinct_positive (sql_insert_document f time p t).
Proof.
  intros [Hnd Hpos]. unfold sql_insert_document.
  destruct (sql_select_document p t); [split; assumption|].
  unfold distinct_positive. simpl documents. rewrite map_app. simpl map.
  pose proof (max_id_nonneg document_id (documents t)) as Hmax. split.
  - apply NoDup_app. split; [exact Hnd|]. split; [|apply NoDup_singleton].
    intros x Hx Hin. apply list_elem_of_singleton in Hin. subst x.
    apply list_elem_of_In in Hx. apply in_map_iff in Hx as (d & Hid & Hd).
    pose proof (max_id_ge document_id _ _ Hd). unfold next_document_id in Hid. lia.
  - apply Forall_app. split; [exact Hpos|]. constructor; [|constructor].
    simpl. unfold next_document_id. lia.
Qed.

Lemma distinct_positive_update time id t :
  distinct_positive t -> distinct_positive (sql_update_document_time time id t).
Proof.
  intros [Hnd Hpos]. unfold distinct_positive, sql_update_document_time. simpl documents.
  split.
  - rewrite map_map. erewrite map_ext; [exact Hnd|].
    intros d. destruct (decide (document_id d = id)); reflexivity.
  - apply List.Forall_forall. intros x Hx. apply in_map_iff in Hx as (d & <- & Hd).
    rewrite List.Forall_forall in Hpos. specialize (Hpos d Hd).
    destruct (decide (document_id d = id)); exact Hpos.
Qed.

Lemma distinct_positive_delete id t :
  distinct_positive t -> distinct_positive (sql_delete_document id t).
Proof.
  intros [Hnd Hpos]. unfold distinct_positive, sql_delete_document. simpl documents.
  split; [apply NoDup_map_filter; exact Hnd|].
  apply List.Forall_forall. intros x Hx. apply In_filter in Hx as [Hx _].
  rewrite List.Forall_forall in Hpos. apply Hpos. exact Hx.
Qed.

Lemma document_keys_apply e w : document_keys w -> document_keys (apply_effect e w).
Proof.
  intros [Ht Hs]. destruct w as [[t s] i]. simpl in Ht, Hs.
  destruct e; unfold document_keys; simpl;
    try (split; [apply (distinct_positive_same t); [reflexivity | exact Ht] | exact Hs]).
  - destruct s; simpl; auto.
  - auto.
  - destruct s; simpl; auto.
  - split; [apply distinct_positive_insert; exact Ht | exact Hs].
  - split; [apply distinct_positive_update; exact Ht | exact Hs].
  - split; [apply distinct_positive_delete; exact Ht | exact Hs].
  - split; [|exact Hs]. apply (distinct_positive_same t); [|exact Ht].
    unfold sql_delete_collection_folder. destruct (collection_id_of _ _); reflexivity.
  - split; [|exact Hs]. apply (distinct_positive_same t); [|exact Ht].
    unfold sql_insert_folder. destruct (sql_select_folder _ _); reflexivity.
  - split; [|exact Hs]. apply (distinct_positive_same t); [|exact Ht].
    unfold sql_insert_collection. destruct (collection_id_of _ _); reflexivity.
  - split; [|exact Hs]. apply (distinct_positive_same t); [|exact Ht].
    unfold sql_insert_collection_item. destruct (has_collection_item _ _ _); reflexivity.
Qed.

Lemma document_keys_run es w : document_keys w -> document_keys (run_effects es w).
Proof.
  unfold run_effects. revert w. induction es as [|e es IH]; intros w H; [exact H|].
  simpl. apply IH, document_keys_apply, H.
Qed.

Lemma document_keys_handle h db :
  document_keys (m_world db) -> document_keys (m_world (handle h db)).
Proof.
  apply (keeps_handle (fun db => document_keys (m_world db))).
  - intros e d. apply document_keys_apply.
  - intros l d H. exact H.
  - intros info prepend d H. exact H.
  - intros d info d' H E. unfold dequeueDocument in E.
    destruct (m_docsToScan d) as [|[k [|x q]] rest]; try discriminate.
    injection E as _ <-. exact H.
  - intros f d H. exact H.
  - intros n d H. exact H.
  - intros l d H. exact H.
Qed.

(** X27. The ids of the documents stay distinct and positive.
    Whatever handlers run, to their end or until a crash, if the ids of
    the documents table, and of the table that a rollback would bring
    back, were distinct and positive, they still are: no document has
    the id -1 that stands for a document not found, and no two documents
    share an id. *)
Theorem document_ids_stay_sound (history : list Event) (db : Database)
    (Hkeys : document_keys (m_world db)) :
  let db' := after history db in
  document_keys (m_world db') /\
  NoDup (map document_id (documents (m_db db'))) /\
  forall d, In d (documents (m_db db')) -> document_id d <> -1.
Proof.
  cbv zeta.
  assert (H : document_keys (m_world (after history db))).
  { unfold after. revert db Hkeys.
    induction history as [|ev history IH]; intros db Hkeys; [exact Hkeys|].
    simpl. apply IH. destruct ev as [h|h n]; simpl.
    - apply document_keys_handle. exact Hkeys.
    - pose proof (document_keys_run (firstn n (effects h db)) _ Hkeys) as [Ht Hs].
      unfold document_keys, recover, durable. simpl.
      destruct (snapshot (sql (run_effects (firstn n (effects h db)) (m_world db))));
        split; auto. }
  split; [exact H|]. destruct H as [[Hnd Hpos] _]. split; [exact Hnd|].
  intros d Hd. rewrite List.Forall_forall in Hpos. specialize (Hpos d Hd). lia.
Qed.

Lemma document_ids_stay_sound_witness :
  document_keys (m_world rescan_db) /\
  NoDup (map document_id (documents (m_db
    (after [Run (ScanQueueBatch modified_env 3); Crash (CleanDB work_env) 2] rescan_db)))).
Proof.
  assert (Hkeys : document_keys (m_world rescan_db)).
  { split; [|exact I]. split.
    - apply (bool_decide_unpack _). vm_compute. exact I.
    - repeat constructor. }
  split; [exact Hkeys|].
  apply (document_ids_stay_sound
           [Run (ScanQueueBatch modified_env 3); Crash (CleanDB work_env) 2] rescan_db Hkeys).
Defined.

(** ** Crashes inside a transaction *)

Lemma run_memory es w :
  Forall (fun e => memory_only e = true) es -> sql (run_effects es w) = sql w.
Proof.
  intros H. revert w. induction H as [|e es He _ IH]; intros w; [reflexivity|].
  simpl. rewrite IH. destruct e; try discriminate; reflexivity.
Qed.

Lemma removes_memory R : Forall (fun e => memory_only e = true) (map EmbeddingsRemove R).
Proof. apply List.Forall_forall. intros e H. apply in_map_iff in H as (x & <- & _). reflexivity. Qed.

Lemma run_save_after R w : sql (run_effects (save_after R) w) = sql w.
Proof. destruct R; reflexivity. Qed.

Lemma firstn_save_after k R w : sql (run_effects (firstn k (save_after R)) w) = sql w.
Proof. destruct R; destruct k as [|[|k]]; reflexivity. Qed.

Lemma Forall_firstn_volatile n es :
  Forall (fun e => volatile e = true) es -> Forall (fun e => volatile e = true) (firstn n es).
Proof.
  intros H. rewrite <- (firstn_skipn n es) in H. apply Forall_app in H as [H _]. exact H.
Qed.

(** A crash anywhere in a transaction that writes [W] and concludes
    leaves on disk the tables from before it, or the tables it leaves
    when it runs to its end. *)
Lemma crash_in_transaction W ok R n w :
  snapshot (sql w) = None ->
  Forall (fun e => scan_effect e = true) W ->
  let es := SqlTransaction :: W ++ conclude ok R in
  durable (sql (run_effects (firstn n es) w)) = tables (sql w) \/
  durable (sql (run_effects (firstn n es) w)) = tables (sql (run_effects es w)).
Proof.
  intros Hclosed HW. cbv zeta.
  destruct n as [|n]; [left; simpl; unfold durable; rewrite Hclosed; reflexivity|].
  set (w1 := apply_effect SqlTransaction w).
  assert (Hs1 : snapshot (sql w1) = Some (tables (sql w))).
  { unfold w1. simpl. rewrite Hclosed. reflexivity. }
  assert (HWv : Forall (fun e => volatile e = true) W).
  { eapply Forall_impl; [exact HW|]. apply scan_effect_volatile. }
  change (run_effects (firstn (S n) (SqlTransaction :: W ++ conclude ok R)) w)
    with (run_effects (firstn n (W ++ conclude ok R)) w1).
  change (run_effects (SqlTransaction :: W ++ conclude ok R) w)
    with (run_effects (W ++ conclude ok R) w1).
  rewrite firstn_app, !run_effects_app.
  set (w2 := run_effects (firstn n W) w1).
  destruct (run_volatile _ (firstn n W) w1 Hs1 (Forall_firstn_volatile n W HWv)) as [Hs2 _].
  fold w2 in Hs2.
  destruct (Nat.le_gt_cases n (length W)) as [Hle|Hgt].
  - replace (n - length W)%nat with 0%nat by lia. simpl firstn. simpl run_effects at 1.
    left. unfold durable. rewrite Hs2. reflexivity.
  - assert (Hw2 : w2 = run_effects W w1) by (unfold w2; rewrite firstn_all2 by lia; reflexivity).
    rewrite <- Hw2.
    destruct ok; unfold conclude.
    + assert (HR : Forall (fun e => volatile e = true) (map EmbeddingsRemove R))
        by apply removes_volatile.
      rewrite firstn_app, !run_effects_app.
      set (w3 := run_effects (firstn (n - length W) (map EmbeddingsRemove R)) w2).
      destruct (run_volatile _ _ w2 Hs2
                  (Forall_firstn_volatile (n - length W) _ HR)) as [Hs3 _].
      fold w3 in Hs3.
      destruct (Nat.le_gt_cases (n - length W) (length (map EmbeddingsRemove R))) as [Hle2|Hgt2].
      * replace (n - length W - length (map EmbeddingsRemove R))%nat with 0%nat by lia.
        simpl firstn. simpl run_effects at 1.
        left. unfold durable. rewrite Hs3. reflexivity.
      * right.
        assert (Hw3 : w3 = run_effects (map EmbeddingsRemove R) w2)
          by (unfold w3; rewrite firstn_all2 by lia; reflexivity).
        rewrite <- Hw3.
        destruct (n - length W - length (map EmbeddingsRemove R))%nat as [|k] eqn:Ek; [lia|].
        simpl firstn.
        change (run_effects (SqlCommit :: firstn k (save_after R)) w3)
          with (run_effects (firstn k (save_after R)) (apply_effect SqlCommit w3)).
        change (run_effects (SqlCommit :: save_after R) w3)
          with (run_effects (save_after R) (apply_effect SqlCommit w3)).
        rewrite firstn_save_after, run_save_after. reflexivity.
    + destruct (n - length W)%nat as [|k] eqn:Ek; [lia|].
      simpl firstn. replace (firstn k []) with (@nil Effect) by (destruct k; reflexivity).
      left. simpl. unfold durable. rewrite Hs2. simpl. reflexivity.
Qed.

Lemma restart_tables db es : m_db (restart db es) = durable (sql (run_effects es (m_world db))).
Proof. reflexivity. Qed.

(** X29. A scan batch is all or nothing on disk.  When no transaction
    is open and the process dies after any number of the effects of
    [scanQueueBatch], the tables it finds when it starts again are the
    tables from before the batch, or the tables that the batch leaves
    when it runs to its end; the queue and the pending chunks are
    empty. *)
Theorem scan_batch_is_atomic (env : Environment) (turns n : nat) (db : Database)
    (Hclosed : snapshot (sql (m_world db)) = None) :
  let db' := after [Crash (ScanQueueBatch env turns) n] db in
  (m_db db' = m_db db \/ m_db db' = m_db (scanQueueBatch env turns db)) /\
  snapshot (sql (m_world db')) = None /\
  m_docsToScan db' = [] /\ m_chunkList db' = [].
Proof.
  cbv zeta. split; [|repeat split].
  destruct (scanQueueBatch_performed env turns db) as (W & R & db2 & _ & _ & HW & Hp).
  unfold after. simpl fold_left. unfold after_event. rewrite restart_tables.
  rewrite (performed_effects _ (ScanQueueBatch env turns) db Hp).
  destruct Hp as (_ & Hw & _). unfold m_db at 2. rewrite Hw.
  exact (crash_in_transaction W true R n (m_world db) Hclosed HW).
Qed.

Lemma scan_batch_is_atomic_witness :
  snapshot (sql (m_world rescan_db)) = None /\
  (m_db (after [Crash (ScanQueueBatch modified_env 3) 4] rescan_db) = m_db rescan_db \/
   m_db (after [Crash (ScanQueueBatch modified_env 3) 4] rescan_db) =
     m_db (scanQueueBatch modified_env 3 rescan_db)).
Proof.
  split; [reflexivity|].
  apply (scan_batch_is_atomic modified_env 3 4 rescan_db). reflexivity.
Defined.

Lemma crash_inTransaction body h n db :
  removes body -> handle h db = inTransaction body db ->
  snapshot (sql (m_world db)) = None ->
  m_db (restart db (firstn n (effects h db))) = m_db db \/
  m_db (restart db (firstn n (effects h db))) = m_db (handle h db).
Proof.
  intros Hr Hh Hclosed.
  destruct (inTransaction_performed body db Hr) as (W & ok & db2 & R & _ & _ & HW & Hp).
  rewrite <- Hh in Hp. rewrite restart_tables, (performed_effects _ h db Hp).
  destruct Hp as (_ & Hw & _). unfold m_db at 2. rewrite Hw.
  exact (crash_in_transaction W ok R n (m_world db) Hclosed HW).
Qed.

Lemma crash_in_nothing h n db :
  handle h db = db -> snapshot (sql (m_world db)) = None ->
  m_db (restart db (firstn n (effects h db))) = m_db db.
Proof.
  intros Hh Hclosed. unfold effects. rewrite Hh, skipn_all.
  replace (firstn n []) with (@nil Effect) by (destruct n; reflexivity).
  rewrite restart_tables. simpl. unfold durable. rewrite Hclosed. reflexivity.
Qed.

(** X30. The removal of a folder and the cleaning of the database are
    all or nothing on disk.  When no transaction is open and the process
    dies after any number of the effects of [removeFolder] or of
    [cleanDB], the tables it finds when it starts again are the tables
    from before the call, or the tables that the call leaves when it
    runs to its end. *)
Theorem removal_is_atomic (env : Environment) (collection path : string) (n : nat)
    (db : Database) (Hclosed : snapshot (sql (m_world db)) = None) :
  (let db' := after [Crash (RemoveFolder collection path) n] db in
   m_db db' = m_db db \/ m_db db' = m_db (removeFolder collection path db)) /\
  (let db' := after [Crash (CleanDB env) n] db in
   m_db db' = m_db db \/ m_db db' = m_db (snd (cleanDB env db))).
Proof.
  cbv zeta. unfold after. simpl fold_left. unfold after_event. split.
  - destruct (sql_select_folder path (m_db db)) as [f|] eqn:Ef.
    + apply (crash_inTransaction (fun db => removeFolderInternal collection f db []));
        [apply removeFolderInternal_removes | | exact Hclosed].
      apply removeFolder_inTransaction. exact Ef.
    + left. apply crash_in_nothing; [|exact Hclosed].
      simpl. unfold removeFolder. rewrite Ef. reflexivity.
  - destruct (selectAllFromCollections db) as [cs|] eqn:Ecs.
    + apply (crash_inTransaction (cleanAll env cs));
        [apply cleanAll_removes | | exact Hclosed].
      apply cleanDB_inTransaction. exact Ecs.
    + left. apply crash_in_nothing; [|exact Hclosed].
      simpl. unfold cleanDB. rewrite Ecs. reflexivity.
Qed.

Lemma removal_is_atomic_witness :
  snapshot (sql (m_world two_folder_db)) = None /\
  (m_db (after [Crash (RemoveFolder "Work" "/A") 5] two_folder_db) = m_db two_folder_db \/
   m_db (after [Crash (RemoveFolder "Work" "/A") 5] two_folder_db) =
     m_db (removeFolder "Work" "/A" two_folder_db)).
Proof.
  split; [reflexivity|].
  apply (removal_is_atomic unmodified_env "Work" "/A" 5 two_folder_db). reflexivity.
Defined.
